(** * DECIPHER, src/Search.c: searching an inverted k-mer index

    A shallow embedding of [searchIndex], [countIndex] and [updateIndex].

    Conventions of the embedding.
    - A C array is a list; [a !!! i] reads it and [<[i:=x]> a] writes it.
      Indices ([int] variables used as subscripts) are [nat].
    - [int] values that are data (positions, target ids, lengths, k-mer
      codes) are [Z]; [NA_INTEGER] is [INT_MIN].  Where the source relies on
      32-bit wrap-around (the hit counter of the gather step) the
      wrap-around is written out with [wrap32].
    - [double] values live in an abstract domain [D] with the operations the
      source applies to them (class [ScoreOps]); the statements that need
      laws of arithmetic say which ones they assume.  [FloatScore] is the
      domain of binary64 numbers, on which the model runs as the source
      does.
    - The loop over the queries is given twice: [run_queries] runs the
      iterations in order on one thread, [par_run] runs them on several
      threads that share [abort], interleaved by a schedule.
    - A read outside an array yields the inhabitant of the element type;
      the source has no defined behaviour there. *)

From Stdlib Require Import ZArith List Lia Bool Permutation Sorted.
From Stdlib Require Import PrimFloat.
From Stdlib Require Uint63.
From stdpp Require Import base list.
Import ListNotations.

Local Open Scope Z_scope.

(** ** Machine integers *)

Definition NA_INTEGER : Z := -2147483648.
Definition INT_MAX : Z := 2147483647.

(** Two's complement reduction of an exact result to a 32-bit [int]. *)
Definition wrap32 (z : Z) : Z := (z + 2147483648) mod 4294967296 - 2147483648.

(** ** Doubles *)

(** The operations [searchIndex] applies to [double] values.
    [dlt a b] is the C test [a < b]; [dle a b] is [a <= b];
    [dlog_ratio a b] is [log(((double)a)/((double)b))] and [dlog_int a] is
    [log((double)a)] for [int] arguments; [dlog_total tot a b] is
    [log((tot - (double)a)/(double)b)]. *)
Class ScoreOps (D : Type) := {
  dzero : D;
  dadd : D -> D -> D;
  dsub : D -> D -> D;
  dlt : D -> D -> bool;
  dle : D -> D -> bool;
  dlog_ratio : Z -> Z -> D;
  dlog_int : Z -> D;
  dlog_total : D -> Z -> Z -> D
}.

(** [<] on scores is a strict weak order (as it is on doubles other than
    NaN). *)
Definition dlt_order (D : Type) `{ScoreOps D} : Prop :=
  (forall a : D, dlt a a = false)
  /\ (forall a b c : D, dlt a b = true -> dlt b c = true -> dlt a c = true)
  /\ (forall a b c : D, dlt a b = false -> dlt b c = false -> dlt a c = false).

(** Exact integer scores, used to run the model on concrete inputs. *)
#[global] Instance ZScore : ScoreOps Z := {
  dzero := 0;
  dadd := Z.add;
  dsub := Z.sub;
  dlt := Z.ltb;
  dle := Z.leb;
  dlog_ratio := fun a b => Z.log2 (a / b);
  dlog_int := fun a => Z.log2 a;
  dlog_total := fun tot a b => Z.log2 ((tot - a) / b)
}.

(** ** Per-hit arrays *)

(** The five parallel arrays filled by the gather step (lines 192-196). *)
Record hits (D : Type) := mkHits {
  h_posQuery : list Z;
  h_posTarget : list Z;
  h_set : list Z;
  h_score : list D;
  h_addScore : list D
}.
Arguments mkHits {D}.
Arguments h_posQuery {D}.
Arguments h_posTarget {D}.
Arguments h_set {D}.
Arguments h_score {D}.
Arguments h_addScore {D}.

(** ** Offsets of the k-mer buckets (lines 116-122) *)

(** [offset[0] = 0] and [offset[i] = offset[i-1] + num[i-1]]. *)
Fixpoint offsets_from (acc : Z) (num : list Z) : list Z :=
  match num with
  | [] => []
  | n :: num' => acc :: offsets_from (acc + n) num'
  end.

Definition offsets (num : list Z) : list Z := offsets_from 0 num.

(** ** Gathering the hits of one query (lines 144-211) *)

(** [indexed w] pairs every element of [w] with its subscript. *)
Definition indexed {A} (w : list A) : list (nat * A) :=
  combine (seq 0 (length w)) w.

(** Lines 145-157: the number of unmasked positions of the query; the
    state is [(width, k)] with [k] the last unmasked position. *)
Definition width_body (K : Z) (st : Z * Z) (jw : nat * Z) : Z * Z :=
  let '(width, k) := st in
  let '(j, wj) := jw in
  if wj =? NA_INTEGER then st
  else ((if k =? Z.of_nat j - 1 then width + 1 else width + K), Z.of_nat j).

Definition query_width (K : Z) (w : list Z) : Z :=
  fst (fold_left (width_body K) (indexed w) (0, -2)).

(** The state [(width, k)] of lines 145-157 when the first [j] k-mers of
    the query have been read. *)
Definition width_upto (K : Z) (w : list Z) (j : nat) : Z * Z :=
  fold_left (width_body K) (take j (indexed w)) (0, -2).

(** [q] is the position, counted from one, of an unmasked k-mer of the
    query. *)
Definition unmasked_at (w : list Z) (q : Z) : Prop :=
  exists j, (j < length w)%nat /\ w !!! j <> NA_INTEGER /\ q = Z.of_nat j + 1.

(** [counts[j]] as line 163 reads it, zero at a masked position. *)
Definition kmer_count (num : list Z) (wj : Z) : Z :=
  if wj =? NA_INTEGER then 0 else num !!! Z.to_nat wj.

(** Lines 160-173: [counts[j]] and the running total [s], a 32-bit [int];
    [None] is the [break] taken when [s] has become negative. *)
Fixpoint count_targets (num : list Z) (w : list Z) (s : Z)
  : option (list Z * Z) :=
  match w with
  | [] => Some ([], s)
  | wj :: w' =>
      if wj =? NA_INTEGER then
        match count_targets num w' s with
        | Some (counts, s') => Some (0 :: counts, s')
        | None => None
        end
      else
        let cj := num !!! Z.to_nat wj in
        let s1 := wrap32 (s + cj) in
        if s1 <? 0 then None
        else
          match count_targets num w' s1 with
          | Some (counts, s') => Some (cj :: counts, s')
          | None => None
          end
  end.

(** The exact number of hits of the query k-mers [w]. *)
Definition query_hits (num : list Z) (w : list Z) : Z :=
  fold_right (fun wj acc =>
                (if wj =? NA_INTEGER then 0 else num !!! Z.to_nat wj) + acc)
             0 w.

Section Gather.
Context {D : Type} `{ScoreOps D} `{Inhabited D}.
Variables (num loc ind : list Z) (scores addScores : list D).

(** Lines 199-210 for one query k-mer [w[j]] with [counts[j] = cj]. *)
Definition bucket (j : nat) (wj cj : Z) : hits D :=
  if cj >? 0 then
    let P := Z.to_nat (offsets num !!! Z.to_nat wj) in
    let n := Z.to_nat cj in
    mkHits (replicate n (Z.of_nat j + 1))
           (map (fun k => loc !!! (P + k)%nat) (seq 0 n))
           (map (fun k => ind !!! (P + k)%nat) (seq 0 n))
           (replicate n (scores !!! Z.to_nat wj))
           (replicate n (addScores !!! Z.to_nat wj))
  else mkHits [] [] [] [] [].

Definition hits_app (a b : hits D) : hits D :=
  mkHits (h_posQuery a ++ h_posQuery b) (h_posTarget a ++ h_posTarget b)
         (h_set a ++ h_set b) (h_score a ++ h_score b)
         (h_addScore a ++ h_addScore b).

(** Lines 197-211: the buckets of all query k-mers, in query order. *)
Definition gather (w counts : list Z) : hits D :=
  fold_left (fun acc jwc =>
               let '(j, (wj, cj)) := jwc in hits_app acc (bucket j wj cj))
            (indexed (combine w counts)) (mkHits [] [] [] [] []).
End Gather.

(** The bucket of every k-mer lists its occurrences by increasing target
    and, within a target, increasing location: the order in which
    [updateIndex] writes them. *)
Definition index_sorted (num loc ind : list Z) : Prop :=
  forall c k1 k2 : nat,
    (k1 < k2)%nat -> (k2 < Z.to_nat (num !!! c))%nat ->
    let P := Z.to_nat (offsets num !!! c) in
    ind !!! (P + k1)%nat < ind !!! (P + k2)%nat
    \/ (ind !!! (P + k1)%nat = ind !!! (P + k2)%nat
        /\ loc !!! (P + k1)%nat < loc !!! (P + k2)%nat).

(** ** Merge sort on [set] then [posTarget] (lines 213-295) *)

(** [o2[a..b)]. *)
Definition slice {A} (o2 : list A) (a b : nat) : list A :=
  take (b - a) (drop a o2).

(** Lines 218-219: [counts[j] += counts[j - 1]]. *)
Fixpoint batch_ends (acc : nat) (counts : list nat) : list nat :=
  match counts with
  | [] => []
  | n :: counts' => (acc + n)%nat :: batch_ends (acc + n) counts'
  end.

Section MergeSort.
Variables (set posTarget : list Z).

(** The test of lines 233-243: the element of group 1 is emitted. *)
Definition takes_left (a b : nat) : bool :=
  if set !!! a =? set !!! b then posTarget !!! a <=? posTarget !!! b
  else set !!! a <? set !!! b.

(** Lines 232-248 on the two groups [o2[j..counts[group1])] and
    [o2[counts[group1]..counts[group2])]. *)
Fixpoint merge_runs (l1 : list nat) : list nat -> list nat :=
  fix merge_right (l2 : list nat) : list nat :=
    match l1, l2 with
    | [], _ => l2
    | _, [] => l1
    | a :: l1', b :: l2' =>
        if takes_left a b then a :: merge_runs l1' l2
        else b :: merge_right l2'
    end.

(** Lines 230-252: [while (group2 < c)]; [o1] holds what has been
    written so far ([p] is its length). *)
Fixpoint merge_groups (fuel : nat) (o2 counts : list nat)
         (c j group1 group2 : nat) (o1 : list nat) : list nat :=
  match fuel with
  | O => o1
  | S fuel' =>
      if (group2 <? c)%nat then
        let k := counts !!! group1 in
        let e := counts !!! group2 in
        merge_groups fuel' o2 counts c e (group2 + 1) (group2 + 2)
                     (o1 ++ merge_runs (slice o2 j k) (slice o2 k e))
      else o1
  end.

(** Lines 223-256: one pass; the last loop copies an unpaired group. *)
Definition merge_pass (o2 counts : list nat) (c : nat) : list nat :=
  let o1 := merge_groups c o2 counts c 0 0 1 [] in
  o1 ++ drop (length o1) o2.

(** Lines 259-267: the ends of the merged groups, written in place. *)
Fixpoint merge_counts (fuel : nat) (counts : list nat) (c p k : nat)
  : list nat * nat :=
  match fuel with
  | O => (counts, p)
  | S fuel' =>
      if (k + 1 <? c)%nat then
        merge_counts fuel' (<[p := counts !!! (k + 1)%nat]> counts) c
                     (p + 1) (k + 2)
      else if (k <? c)%nat then (<[p := counts !!! k]> counts, (p + 1)%nat)
      else (counts, p)
  end.

(** Lines 222-269: [while (c > 1)]. *)
Fixpoint merge_loop (fuel : nat) (o1 counts : list nat) (c : nat)
  : option (list nat) :=
  match fuel with
  | O => None
  | S fuel' =>
      if (1 <? c)%nat then
        let o2 := o1 in
        let o1 := merge_pass o2 counts c in
        let '(counts', c') := merge_counts c counts c 0 0 in
        merge_loop fuel' o1 counts' c'
      else Some o1
  end.

(** The order the sort establishes on the hits: by [set], then by
    [posTarget], then by position before the sort. *)
Definition hit_before (a b : nat) : Prop :=
  set !!! a < set !!! b
  \/ (set !!! a = set !!! b
      /\ (posTarget !!! a < posTarget !!! b
          \/ (posTarget !!! a = posTarget !!! b /\ (a < b)%nat))).

(** The groups of one pass, as lists: adjacent groups are merged in
    pairs and an unpaired last group is kept. *)
Fixpoint pairwise (runs : list (list nat)) : list (list nat) :=
  match runs with
  | r1 :: r2 :: rest => merge_runs r1 r2 :: pairwise rest
  | _ => runs
  end.

(** Lines 214-270; [counts] are the batch sizes, one per query k-mer. *)
Definition sort_order (s : nat) (counts : list nat) : option (list nat) :=
  let l := length counts in
  merge_loop (S l) (seq 0 s) (batch_ends 0 counts) l.
End MergeSort.

(** The batches before the sort: consecutive ranges of the hits. *)
Fixpoint initial_runs (a : nat) (counts : list nat) : list (list nat) :=
  match counts with
  | [] => []
  | n :: counts' => seq a n :: initial_runs (a + n) counts'
  end.

(** [counts[g]] is the end of group [g] in the order [concat runs]. *)
Definition agrees (cnts : list nat) (runs : list (list nat)) : Prop :=
  forall g, (g < length runs)%nat ->
            cnts !!! g = length (concat (take (S g) runs)).

(** Every hit of a group is before every hit of the later groups. *)
Fixpoint runs_sep (runs : list (list nat)) : Prop :=
  match runs with
  | [] => True
  | r :: rest =>
      (forall a b, In a r -> In b (concat rest) -> (a < b)%nat) /\
      runs_sep rest
  end.

(** Lines 278-284: every array is read through the order [o1]. *)
Definition reorder {A} `{Inhabited A} (o1 : list nat) (a : list A) : list A :=
  map (fun i => a !!! i) o1.

Definition reorder_hits {D} `{Inhabited D} (o1 : list nat) (h : hits D) : hits D :=
  mkHits (reorder o1 (h_posQuery h)) (reorder o1 (h_posTarget h))
         (reorder o1 (h_set h)) (reorder o1 (h_score h))
         (reorder o1 (h_addScore h)).

(** ** Collapsing adjacent hits (lines 297-368) *)

Record col_state (D : Type) := mkCol {
  c_len : list Z;
  c_origin : list nat;
  c_keep : list bool;
  c_score : list D;
  c_k : nat;
  c_p : nat
}.
Arguments mkCol {D}.
Arguments c_len {D}.
Arguments c_origin {D}.
Arguments c_keep {D}.
Arguments c_score {D}.
Arguments c_k {D}.
Arguments c_p {D}.

(** The hits that survive the collapse, with their lengths (lines 341-368). *)
Record anchors (D : Type) := mkAnchors {
  a_posQuery : list Z;
  a_posTarget : list Z;
  a_set : list Z;
  a_len : list Z;
  a_score : list D
}.
Arguments mkAnchors {D}.
Arguments a_posQuery {D}.
Arguments a_posTarget {D}.
Arguments a_set {D}.
Arguments a_len {D}.
Arguments a_score {D}.

(** [a[j]] for the [j] with [keep[j]], in order (lines 346-356). *)
Fixpoint kept {A} (keep : list bool) (a : list A) : list A :=
  match keep, a with
  | b :: keep', x :: a' => if b then x :: kept keep' a' else kept keep' a'
  | _, _ => []
  end.

Section Collapse.
Context {D : Type} `{ScoreOps D} `{Inhabited D}.
Variables (K step : Z).
Variables (posQuery posTarget set : list Z) (addScore : list D).

(** Lines 321-325: hit [c] is merged into the origin of hit [j]. *)
Definition col_merge (c j : nat) (st : col_state D) : col_state D :=
  let o := c_origin st !!! j in
  mkCol (<[o := c_len st !!! o + step]> (c_len st))
        (<[c := o]> (c_origin st))
        (<[c := false]> (c_keep st))
        (<[o := dadd (c_score st !!! o) (addScore !!! c)]> (c_score st))
        (c_k st) (c_p st - 1).

(** Lines 314-332: [while (j < c)] over the remaining values of [j]. *)
Fixpoint col_scan (js : list nat) (c : nat) (st : col_state D) : col_state D :=
  match js with
  | [] => st
  | j :: js' =>
      let deltaTarget := posTarget !!! c - posTarget !!! j in
      if deltaTarget >? step then
        col_scan js' c (mkCol (c_len st) (c_origin st) (c_keep st)
                              (c_score st) (j + 1) (c_p st))
      else if deltaTarget =? step then
        let deltaQuery := posQuery !!! c - posQuery !!! j in
        if deltaQuery =? step then col_merge c j st
        else col_scan js' c st
      else st
  end.

(** Lines 311-335: the body of [while (c < s - 1)], after [c++]. *)
Definition col_body (st : col_state D) (c : nat) : col_state D :=
  if set !!! c_k st =? set !!! c then
    col_scan (seq (c_k st) (c - c_k st)) c st
  else
    mkCol (c_len st) (c_origin st) (c_keep st) (c_score st) c (c_p st).

Definition col_init (score : list D) : col_state D :=
  let s := length score in
  mkCol (replicate s K) (seq 0 s) (replicate s true) score 0 s.

Definition collapse_state (score : list D) : col_state D :=
  fold_left col_body (seq 1 (length score - 1)) (col_init score).

Definition collapse (score : list D) : anchors D :=
  let st := collapse_state score in
  mkAnchors (kept (c_keep st) posQuery) (kept (c_keep st) posTarget)
            (kept (c_keep st) set) (kept (c_keep st) (c_len st))
            (kept (c_keep st) (c_score st)).

(** [k = k']. *)
Definition with_k (st : col_state D) (k' : nat) : col_state D :=
  mkCol (c_len st) (c_origin st) (c_keep st) (c_score st) k' (c_p st).

(** Hit [c] continues hit [j]: one step further in the target and in the
    query. *)
Definition adjacent (c j : nat) : Prop :=
  posTarget !!! c - posTarget !!! j = step /\
  posQuery !!! c - posQuery !!! j = step.

(** The first [s] hits are ordered by [set], then by [posTarget]. *)
Definition hits_sorted (s : nat) : Prop :=
  forall i j, (i < j < s)%nat ->
              set !!! i < set !!! j
              \/ (set !!! i = set !!! j /\ posTarget !!! i <= posTarget !!! j).

(** No two of the first [s] hits share target, target position and query
    position. *)
Definition hits_distinct (s : nat) : Prop :=
  forall i j, (i < s)%nat -> (j < s)%nat ->
              set !!! i = set !!! j -> posTarget !!! i = posTarget !!! j ->
              posQuery !!! i = posQuery !!! j -> i = j.

(** What the scan of the predecessors of [c] does to the arrays: nothing,
    or the merge of [c] into a hit [j] that [c] continues. *)
Definition scan_result (js : list nat) (c : nat) (st st' : col_state D)
  : Prop :=
  exists k',
    (k' = c_k st \/ exists j0, In j0 js /\ k' = (j0 + 1)%nat /\
                              posTarget !!! c - posTarget !!! j0 > step) /\
    (forall j, In j js -> (j < k')%nat ->
               posTarget !!! c - posTarget !!! j > step) /\
    ((st' = with_k st k' /\ forall j, In j js -> ~ adjacent c j)
     \/ (exists j, In j js /\ adjacent c j /\
                   st' = col_merge c j (with_k st k'))).

Definition col_lengths (s : nat) (st : col_state D) : Prop :=
  length (c_len st) = s /\ length (c_origin st) = s /\
  length (c_keep st) = s /\ length (c_score st) = s.

(** The state of the collapse of [s] hits when the hits before [n] have
    been handled: [k] is on the target of hit [n - 1], the hits of that
    target before [k] are more than a step behind, and a handled hit is
    kept exactly when it continues no earlier hit of its target. *)
Definition keep_ok (s n : nat) (st : col_state D) : Prop :=
  col_lengths s st /\
  (c_k st < n)%nat /\ set !!! c_k st = set !!! (n - 1)%nat /\
  (forall j, (j < c_k st)%nat -> set !!! j = set !!! (n - 1)%nat ->
             posTarget !!! (n - 1)%nat - posTarget !!! j > step) /\
  (forall c, (c < n)%nat ->
             c_keep st !!! c = true <->
             (forall j, (j < c)%nat -> set !!! j = set !!! c ->
                        ~ adjacent c j)) /\
  (forall c, (n <= c < s)%nat -> c_keep st !!! c = true).

(** The state of the collapse of [s] hits when the hits before [n] have
    been handled: a hit not yet handled is its own origin, of length [K];
    a handled hit lies a whole number [d] of steps after its origin, in
    the target and in the query, within the length of the origin; and an
    origin of length [K + step * m] has a handled hit at each of the
    offsets [1..m]. *)
Definition col_groups (s n : nat) (st : col_state D) : Prop :=
  (forall i, (n <= i < s)%nat ->
             c_origin st !!! i = i /\ c_len st !!! i = K) /\
  (forall i, (i < n)%nat ->
     let o := c_origin st !!! i in
     (o <= i)%nat /\ c_origin st !!! o = o /\ set !!! o = set !!! i /\
     exists d : nat,
       posTarget !!! i = posTarget !!! o + step * Z.of_nat d /\
       posQuery !!! i = posQuery !!! o + step * Z.of_nat d /\
       K + step * Z.of_nat d <= c_len st !!! o) /\
  (forall o, (o < s)%nat ->
     exists m : nat,
       c_len st !!! o = K + step * Z.of_nat m /\
       forall d, (1 <= d <= m)%nat ->
         exists i, (i < n)%nat /\ set !!! i = set !!! o /\
           posTarget !!! i = posTarget !!! o + step * Z.of_nat d /\
           posQuery !!! i = posQuery !!! o + step * Z.of_nat d).
End Collapse.

(** What the sort and the collapse rely on in the hits gathered for the
    query [w], in batches of sizes [cnts]: five arrays of one length, every
    hit at an unmasked k-mer of the query, no hit twice, and every batch
    ordered by target, then location. *)
Definition hits_wf {D} (w : list Z) (h : hits D) (cnts : list nat) : Prop :=
  let T := list_sum cnts in
  (length (h_posQuery h) = T /\ length (h_posTarget h) = T /\
   length (h_set h) = T /\ length (h_score h) = T /\
   length (h_addScore h) = T) /\
  (forall i, (i < T)%nat -> unmasked_at w (h_posQuery h !!! i)) /\
  hits_distinct (h_posQuery h) (h_posTarget h) (h_set h) T /\
  Forall (StronglySorted
            (fun a b => takes_left (h_set h) (h_posTarget h) a b = true))
         (initial_runs 0 cnts).

(** Every one of the first [n] anchors spans [K + step * m] letters of
    the query, with an unmasked k-mer of the query every [step] letters
    from its start. *)
Definition anchor_spans (K step : Z) (w posQuery len : list Z) (n : nat)
  : Prop :=
  forall x, (x < n)%nat ->
    exists m : nat,
      len !!! x = K + step * Z.of_nat m /\
      forall d, (d <= m)%nat ->
                unmasked_at w (posQuery !!! x + step * Z.of_nat d).

(** ** Chain DP (Search.c, lines 370-420) *)

Record dp_state (D : Type) := mkDP {
  dp_score : list D;
  dp_chain : list nat;
  dp_origin : list nat;
  dp_cov : list Z;
  dp_j : nat
}.
Arguments mkDP {D}.
Arguments dp_score {D}.
Arguments dp_chain {D}.
Arguments dp_origin {D}.
Arguments dp_cov {D}.
Arguments dp_j {D}.

Section ChainDP.
Context {D : Type} `{ScoreOps D} `{Inhabited D}.
Variables (maxSep : Z) (gapCost sepCost : list D).
Variables (posQuery posTarget set len : list Z).

(** [gap] and [sep] of lines 398-404. *)
Definition gap_sep (deltaQuery deltaTarget : Z) : Z * Z :=
  if deltaQuery >? deltaTarget
  then (deltaQuery - deltaTarget, deltaTarget)
  else (deltaTarget - deltaQuery, deltaQuery).

(** The assignments of lines 408-411. *)
Definition dp_link (k p : nat) (tempScore : D) (st : dp_state D) : dp_state D :=
  mkDP (<[k := tempScore]> (dp_score st))
       (<[k := p]> (dp_chain st))
       (<[k := dp_origin st !!! p]> (dp_origin st))
       (<[k := len !!! k - 1 + dp_cov st !!! p]> (dp_cov st))
       (dp_j st).

(** Body of the inner loop [while (p < k)], lines 390-415. *)
Definition dp_inner_body (k : nat) (prevScore : D) (st : dp_state D) (p : nat)
  : dp_state D :=
  let deltaTarget := posTarget !!! k - posTarget !!! p - len !!! p in
  if deltaTarget >? maxSep then
    mkDP (dp_score st) (dp_chain st) (dp_origin st) (dp_cov st) p
  else if deltaTarget >=? 0 then
    let deltaQuery := posQuery !!! k - posQuery !!! p - len !!! p in
    if (deltaQuery >=? 0) && (deltaQuery <=? maxSep) then
      let tempScore := dadd (dp_score st !!! p) prevScore in
      if dlt (dp_score st !!! k) tempScore then
        let '(gap, sep) := gap_sep deltaQuery deltaTarget in
        let tempScore := dadd tempScore (gapCost !!! Z.to_nat gap) in
        let tempScore := dadd tempScore (sepCost !!! Z.to_nat sep) in
        if dlt (dp_score st !!! k) tempScore then dp_link k p tempScore st
        else st
      else st
    else st
  else st.

(** Body of the outer loop [while (k < s)], lines 384-419. *)
Definition dp_outer_body (st : dp_state D) (k : nat) : dp_state D :=
  if negb (set !!! k =? set !!! dp_j st) then
    mkDP (dp_score st) (dp_chain st) (dp_origin st) (dp_cov st) k
  else
    let prevScore := dp_score st !!! k in
    fold_left (dp_inner_body k prevScore)
              (seq (dp_j st) (k - dp_j st)) st.

(** Lines 374-380: every hit starts as a chain of its own. *)
Definition dp_init (score : list D) : dp_state D :=
  let s := length score in
  mkDP score (seq 0 s) (seq 0 s) (map (fun j => len !!! j - 1) (seq 0 s))
       0%nat.

Definition chainDP (score : list D) : dp_state D :=
  fold_left dp_outer_body (seq 1 (length score - 1)) (dp_init score).

(** The quantities the link of hit [k] to hit [p] depends on. *)
Definition deltaT (k p : nat) : Z :=
  posTarget !!! k - posTarget !!! p - len !!! p.

Definition deltaQ (k p : nat) : Z :=
  posQuery !!! k - posQuery !!! p - len !!! p.

Definition linkable (k p : nat) : Prop :=
  0 <= deltaT k p <= maxSep /\ 0 <= deltaQ k p <= maxSep.

Definition linkableb (k p : nat) : bool :=
  (0 <=? deltaT k p) && (deltaT k p <=? maxSep) &&
  (0 <=? deltaQ k p) && (deltaQ k p <=? maxSep).

(** [sp + sk + gapCost[|deltaQ - deltaT|] + sepCost[min(deltaQ, deltaT)]],
    added in the order of the source. *)
Definition candidate (sp sk : D) (k p : nat) : D :=
  dadd (dadd (dadd sp sk)
             (gapCost !!! Z.to_nat (Z.abs (deltaQ k p - deltaT k p))))
       (sepCost !!! Z.to_nat (Z.min (deltaQ k p) (deltaT k p))).

(** The two tests that guard the assignments of lines 408-411, with the
    tests on [deltaTarget] and [deltaQuery] before them. *)
Definition fires (k p : nat) (prevScore : D) (st : dp_state D) : bool :=
  linkableb k p
  && dlt (dp_score st !!! k) (dadd (dp_score st !!! p) prevScore)
  && dlt (dp_score st !!! k) (candidate (dp_score st !!! p) prevScore k p).

Definition same_arrays (st st' : dp_state D) : Prop :=
  dp_score st' = dp_score st /\ dp_chain st' = dp_chain st /\
  dp_origin st' = dp_origin st /\ dp_cov st' = dp_cov st.

(** The rule for one pair [(k, p)] as the specification words it: the
    candidate is built from [sk], the value read for [score[k]], and the
    link is made exactly when the candidate exceeds [score[k]]. *)
Definition link_rule_as_stated (sk : D) (k p : nat) (st st' : dp_state D)
  : Prop :=
  linkable k p ->
  let c := candidate (dp_score st !!! p) sk k p in
  dlt (dp_score st !!! k) c = true <-> st' = dp_link k p c st.

(** Hit [i] is as initialised (lines 375-377). *)
Definition dp_fresh (score0 : list D) (st : dp_state D) (i : nat) : Prop :=
  dp_chain st !!! i = i /\ dp_origin st !!! i = i /\
  dp_cov st !!! i = len !!! i - 1 /\ dp_score st !!! i = score0 !!! i.

(** Hit [i] is either as initialised, or linked to an earlier hit [p] by
    the assignments of lines 408-411; [score0] is the array [score] on
    entry. *)
Definition dp_node (score0 : list D) (st : dp_state D) (i : nat) : Prop :=
  dp_fresh score0 st i
  \/ (exists p, (p < i)%nat /\ dp_chain st !!! i = p /\ linkable i p /\
        dp_origin st !!! i = dp_origin st !!! p /\
        dp_cov st !!! i = len !!! i - 1 + dp_cov st !!! p /\
        dp_score st !!! i
        = candidate (dp_score st !!! p) (score0 !!! i) i p).

(** The state of the DP when [n] hits have been swept. *)
Definition dp_inv (score0 : list D) (n : nat) (st : dp_state D) : Prop :=
  let s := length score0 in
  (length (dp_score st) = s /\ length (dp_chain st) = s /\
   length (dp_origin st) = s /\ length (dp_cov st) = s) /\
  (forall i, (i < s)%nat ->
     dp_node score0 st i /\ (dp_origin st !!! i <= i)%nat /\
     dp_origin st !!! (dp_origin st !!! i) = dp_origin st !!! i) /\
  (forall i, (n <= i < s)%nat -> dp_fresh score0 st i).
End ChainDP.

(** ** Search-space correction (lines 422-426) *)

Definition correct_scores {D} `{ScoreOps D} `{Inhabited D} (step width : Z)
           (pos set cov : list Z) (score : list D) : list D :=
  map (fun j =>
         let s1 := dsub (score !!! j)
                        (dlog_ratio (pos !!! Z.to_nat (set !!! j - 1) - cov !!! j)
                                    step) in
         dsub s1 (dlog_int (width - cov !!! j)))
      (seq 0 (length score)).

(** ** Candidate results (lines 429-492) *)

(** [res]: the subscripts [j] with [keep[j]], in increasing order. *)
Definition flagged (keep : list bool) : list nat :=
  kept keep (seq 0 (length keep)).

Section Selectors.
Context {D : Type} `{ScoreOps D} `{Inhabited D}.
Variables (origin : list nat) (set : list Z) (score : list D).

(** A cell of [maxOrigin]: [None] until the cell is first written
    (the array comes from [malloc]). *)
Definition cell : Type := option Z.

(** Lines 436-443.  [None]: the source reads a cell of [maxOrigin] that
    has not been written, or subscripts [score] with a value that is not
    a subscript of it. *)
Definition all_body (st : option (list cell)) (j : nat) : option (list cell) :=
  match st with
  | None => None
  | Some maxOrigin =>
      if (origin !!! j =? j)%nat then
        Some (<[j := Some (Z.of_nat j)]> maxOrigin)
      else
        match maxOrigin !!! (origin !!! j) with
        | Some v =>
            if (0 <=? v) && (v <? Z.of_nat (length score)) then
              if dlt (score !!! Z.to_nat v) (score !!! j) then
                Some (<[j := Some NA_INTEGER]>
                        (<[origin !!! j := Some (Z.of_nat j)]> maxOrigin))
              else Some (<[j := Some NA_INTEGER]> maxOrigin)
            else None
        | None => None
        end
  end.

Definition all_maxOrigin : option (list cell) :=
  let s := length score in
  fold_left all_body (seq 0 s) (Some (replicate s None)).

(** Lines 447-452: [keep[maxOrigin[j]] = 1] unless the cell is NA. *)
Definition all_mark (st : option (list bool)) (m : cell) : option (list bool) :=
  match st, m with
  | Some keep, Some v =>
      if v =? NA_INTEGER then Some keep
      else if (0 <=? v) && (v <? Z.of_nat (length keep))
           then Some (<[Z.to_nat v := true]> keep)
           else None
  | _, _ => None
  end.

(** Lines 431-459, [type == 1]. *)
Definition select_all : option (list nat) :=
  match all_maxOrigin with
  | None => None
  | Some maxOrigin =>
      match fold_left all_mark maxOrigin
                      (Some (replicate (length score) false)) with
      | None => None
      | Some keep => Some (flagged keep)
      end
  end.

(** Lines 465-478, [type == 2]; the state is [(keep, p, k)]. *)
Definition target_body (st : list bool * Z * nat) (j : nat)
  : list bool * Z * nat :=
  let '(keep, p, k) := st in
  if negb (p =? set !!! j) then (<[j := true]> keep, set !!! j, j)
  else if dlt (score !!! k) (score !!! j)
       then (<[j := true]> (<[k := false]> keep), p, j)
       else st.

Definition select_target : list nat :=
  let s := length score in
  let '(keep, _, _) :=
    fold_left target_body (seq 0 s) (replicate s false, NA_INTEGER, 0%nat) in
  flagged keep.

(** Lines 486-491, otherwise. *)
Definition select_top : list nat :=
  [fold_left (fun r j => if dlt (score !!! r) (score !!! j) then j else r)
             (seq 1 (length score - 1)) 0%nat].

Definition select (type : Z) : option (list nat) :=
  if type =? 1 then select_all
  else if type =? 2 then Some select_target
  else Some select_top.

(** [origin] as the chain DP leaves it: the origin of a hit is not after
    the hit, and is its own origin. *)
Definition origin_ok : Prop :=
  forall j, (j < length origin)%nat ->
            (origin !!! j <= j)%nat /\
            origin !!! (origin !!! j) = origin !!! j.

(** [r] has the first of the highest scores among the hits of its origin. *)
Definition representative (r : nat) : Prop :=
  (forall j, (j < length score)%nat -> origin !!! j = origin !!! r ->
             dlt (score !!! r) (score !!! j) = false)
  /\ (forall j, (j < r)%nat -> origin !!! j = origin !!! r ->
                dlt (score !!! j) (score !!! r) = true).

(** Of two hits of one origin with equal scores the later one is retained:
    no hit retained in [res] is followed by a hit of its origin that
    scores the same. *)
Definition ties_favour_later (res : list nat) : Prop :=
  forall r j, In r res -> (r < j < length score)%nat ->
              origin !!! j = origin !!! r ->
              dlt (score !!! r) (score !!! j) = false ->
              dlt (score !!! j) (score !!! r) = true.

(** [maxOrigin] when the first loop has handled [n] hits: the cell of a
    hit that is not its own origin holds NA; the cell of an origin holds a
    hit [b] of that origin, which has the first of the highest scores so
    far when [<] is a strict weak order; the other cells are unwritten. *)
Definition maxOrigin_inv (n : nat) (st : option (list cell)) : Prop :=
  exists maxOrigin,
    st = Some maxOrigin /\ length maxOrigin = length score /\
    (forall i, (i < n)%nat -> origin !!! i <> i ->
               maxOrigin !!! i = Some NA_INTEGER) /\
    (forall i, (i < n)%nat -> origin !!! i = i ->
       exists b, maxOrigin !!! i = Some (Z.of_nat b) /\ (b < n)%nat /\
                 origin !!! b = i /\
                 (dlt_order D ->
                  (forall j, (j < n)%nat -> origin !!! j = i ->
                             dlt (score !!! b) (score !!! j) = false) /\
                  (forall j, (j < b)%nat -> origin !!! j = i ->
                             dlt (score !!! j) (score !!! b) = true))) /\
    (forall i, (n <= i < length score)%nat -> maxOrigin !!! i = None).

(** [keep] when the second loop has read [n] cells of [maxOrigin]. *)
Definition keep_inv (maxOrigin : list cell) (n : nat)
           (st : option (list bool)) : Prop :=
  exists keep,
    st = Some keep /\ length keep = length score /\
    (forall b, (b < length score)%nat ->
               keep !!! b = true <->
               exists i, (i < n)%nat /\ maxOrigin !!! i = Some (Z.of_nat b)).

(** Lines 495-510; [minS = None] stands for [ISNA(minS)]. *)
Definition passes (step : Z) (pos : list Z) (tot : D) (minS : option D)
           (r : nat) : bool :=
  match minS with
  | None =>
      dle (dlog_total tot (pos !!! Z.to_nat (set !!! r - 1)) step)
          (score !!! r)
  | Some m => dle m (score !!! r)
  end.
End Selectors.

(** ** Anchor positions (lines 526-556 and 672-688) *)

Section Anchors.
Variables (posQuery posTarget len : list Z) (chain : list nat).

(** The hits visited by [while (p != chain[p]) p = chain[p]], the first
    one included. *)
Fixpoint traceback (fuel : nat) (p : nat) : option (list nat) :=
  match fuel with
  | O => None
  | S fuel' =>
      if (p =? chain !!! p)%nat then Some [p]
      else
        match traceback fuel' (chain !!! p) with
        | Some ps => Some (p :: ps)
        | None => None
        end
  end.

(** [ps] are the hits from [p] back along [chain] to the hit that is its
    own predecessor. *)
Inductive chain_path : nat -> list nat -> Prop :=
| chain_path_end p : chain !!! p = p -> chain_path p [p]
| chain_path_step p ps :
    chain !!! p <> p -> chain_path (chain !!! p) ps -> chain_path p (p :: ps).

(** The four values written for hit [p] (lines 542-545, 548-551). *)
Definition quad (p : nat) : list Z :=
  [posQuery !!! p; posQuery !!! p + len !!! p - 1;
   posTarget !!! p; posTarget !!! p + len !!! p - 1].

(** Lines 530-552: [anchor[0]] is the number of anchors. *)
Definition anchor_of (r : nat) : option (list Z) :=
  match traceback (S (length chain)) r with
  | Some ps => Some (Z.of_nat (length ps) :: flat_map quad ps)
  | None => None
  end.
End Anchors.

(** Lines 674-684: the columns of the matrix, last anchor first. *)
Definition anchor_matrix (anchor : list Z) : list Z :=
  flat_map (fun c => [anchor !!! (4 * c - 3)%nat; anchor !!! (4 * c - 2)%nat;
                      anchor !!! (4 * c - 1)%nat; anchor !!! (4 * c)%nat])
           (rev (seq 1 (Z.to_nat (anchor !!! 0%nat)))).

(** ** One query (lines 141-556) *)

(** What one query leaves in [ptrs[i]], [vecs[i]] and [matrices[i]]. *)
Record qresult (D : Type) := mkQResult {
  r_set : list Z;
  r_score : list D;
  r_anchors : list (list Z)
}.
Arguments mkQResult {D}.
Arguments r_set {D}.
Arguments r_score {D}.
Arguments r_anchors {D}.

(** How the body of the loop over the queries ends:
    [QAbort], the hit counter overflowed (line 169);
    [QEmpty], the [continue] of line 188;
    [QDone], the end of the body is reached;
    [QUndefined], the source reads outside an array or an unwritten cell. *)
Inductive query_run (D : Type) :=
| QAbort
| QEmpty
| QDone (r : qresult D)
| QUndefined.
Arguments QAbort {D}.
Arguments QEmpty {D}.
Arguments QDone {D}.
Arguments QUndefined {D}.

Fixpoint all_some {A} (l : list (option A)) : option (list A) :=
  match l with
  | [] => Some []
  | Some x :: l' =>
      match all_some l' with Some xs => Some (x :: xs) | None => None end
  | None :: _ => None
  end.

Section SearchQuery.
Context {D : Type} `{ScoreOps D} `{Inhabited D}.
Variables (K step : Z) (num loc ind pos : list Z).
Variables (scores addScores : list D).
Variables (maxSep : Z) (gapCost sepCost : list D).
Variables (type : Z) (tot : D) (minS : option D) (sO : bool).

(** Lines 213-368. *)
Definition sorted_anchors (w counts : list Z) : option (anchors D) :=
  let h := gather num loc ind scores addScores w counts in
  match sort_order (h_set h) (h_posTarget h) (length (h_set h))
                   (map Z.to_nat counts) with
  | None => None
  | Some o1 =>
      let h := reorder_hits o1 h in
      Some (collapse K step (h_posQuery h) (h_posTarget h) (h_set h)
                     (h_addScore h) (h_score h))
  end.

(** Lines 370-556. *)
Definition chain_results (width : Z) (a : anchors D) : option (qresult D) :=
  let st := chainDP maxSep gapCost sepCost (a_posQuery a) (a_posTarget a)
                    (a_set a) (a_len a) (a_score a) in
  let score := correct_scores step width pos (a_set a) (dp_cov st)
                              (dp_score st) in
  match select (dp_origin st) (a_set a) score type with
  | None => None
  | Some res =>
      let res := List.filter (passes (a_set a) score step pos tot minS) res in
      let set2 := map (fun r => a_set a !!! r) res in
      let score2 := map (fun r => score !!! r) res in
      if sO then Some (mkQResult set2 score2 [])
      else
        match all_some (map (anchor_of (a_posQuery a) (a_posTarget a)
                                       (a_len a) (dp_chain st)) res) with
        | None => None
        | Some anchors => Some (mkQResult set2 score2 anchors)
        end
  end.

Definition search_query (w : list Z) : query_run D :=
  let width := query_width K w in
  match count_targets num w 0 with
  | None => QAbort
  | Some (counts, s) =>
      if (width =? 0) || (s =? 0) then QEmpty
      else
        match sorted_anchors w counts with
        | None => QUndefined
        | Some a =>
            match chain_results width a with
            | None => QUndefined
            | Some r => QDone r
            end
        end
  end.

(** ** The loop over the queries and the result (lines 136-720) *)

(** One thread runs the queries in order.  [check i] is what the master
    does after query [i]: [None] when less than a second has elapsed,
    [Some v] when [checkInterrupt()] was called and returned [v]. *)
Definition empty_result : qresult D := mkQResult [] [] [].

Definition driver_body (check : nat -> option Z)
           (st : option (Z * list (qresult D))) (iw : nat * list Z)
  : option (Z * list (qresult D)) :=
  match st with
  | None => None
  | Some (abort, out) =>
      let '(i, w) := iw in
      if abort =? 0 then
        match search_query w with
        | QAbort => Some (Z.of_nat i + 1, out ++ [empty_result])
        | QEmpty => Some (abort, out ++ [empty_result])
        | QDone r =>
            Some (match check i with Some v => v | None => abort end,
                  out ++ [r])
        | QUndefined => None
        end
      else Some (abort, out ++ [empty_result])
  end.

Definition run_queries (check : nat -> option Z) (query : list (list Z))
  : option (Z * list (qresult D)) :=
  fold_left (driver_body check) (indexed query) (Some (0, [])).
End SearchQuery.

(** What [searchIndex] hands back: one of the two calls of [error], or the
    list [ret_list] (its fourth element only when [scoreOnly] is false). *)
Inductive search_result (D : Type) :=
| Interrupted
| TooManyHits (q : Z)
| Answer (ans0 ans1 : list Z) (ans2 : list D) (ans3 : option (list (list Z))).
Arguments Interrupted {D}.
Arguments TooManyHits {D}.
Arguments Answer {D}.

Section SearchIndex.
Context {D : Type} `{ScoreOps D} `{Inhabited D}.
Variables (K step : Z) (num loc ind pos : list Z).
Variables (scores addScores : list D).
Variables (maxSep : Z) (gapCost sepCost : list D).
Variables (type : Z) (tot : D) (minS : option D) (sO : bool).

(** Lines 648-720. *)
Definition assemble (out : list (qresult D)) : search_result D :=
  Answer (flat_map (fun ir => replicate (length (r_set (snd ir)))
                                        (Z.of_nat (fst ir) + 1))
                   (indexed out))
         (flat_map r_set out)
         (flat_map r_score out)
         (if sO then None
          else Some (map anchor_matrix (flat_map r_anchors out))).

(** Lines 619-646 and 648-720. *)
Definition searchIndex (check : nat -> option Z) (query : list (list Z))
  : option (search_result D) :=
  match run_queries K step num loc ind pos scores addScores maxSep
                    gapCost sepCost type tot minS sO check query with
  | None => None
  | Some (abort, out) =>
      if negb (abort =? 0) then
        Some (if abort <? 0 then Interrupted else TooManyHits abort)
      else Some (assemble out)
  end.
End SearchIndex.

(** ** Building the index (lines 723-828) *)

(** The values of [j] in [for (j = 0; j < n; j += s)], for [s >= 1]. *)
Fixpoint stride_loop (fuel j s n : nat) : list nat :=
  match fuel with
  | O => []
  | S fuel' => if (j <? n)%nat then j :: stride_loop fuel' (j + s) s n else []
  end.

Definition stride (s n : nat) : list nat := stride_loop n 0 s n.

(** Lines 742-744 for one sequence. *)
Definition count_seq (s : nat) (rans : list Z) (kmers : list Z) : list Z :=
  fold_left (fun rans j =>
               let k := kmers !!! j in
               if negb (k =? NA_INTEGER)
               then <[Z.to_nat k := rans !!! Z.to_nat k + 1]> rans
               else rans)
            (stride s (length kmers)) rans.

(** Lines 739-755. *)
Definition countIndex (num : list Z) (query : list (list Z)) (s : nat)
  : list Z :=
  fold_left (count_seq s) query num.

Record index_state := mkIndex {
  i_off : list Z;
  i_loc : list Z;
  i_ind : list Z;
  i_pos : list Z
}.

(** Lines 794-804: the state is [(pos[i], k)]. *)
Definition positions_body (K s : Z) (st : Z * Z) (jk : nat * Z) : Z * Z :=
  let '(posi, k) := st in
  let '(j, kmer) := jk in
  if kmer =? NA_INTEGER then st
  else ((if k =? Z.of_nat j - s then posi + s else posi + K), Z.of_nat j).

(** Lines 807-814: one write into the inverted index. *)
Definition index_write (c : Z) (kmers : list Z) (st : index_state) (j : nat)
  : index_state :=
  let k := kmers !!! j in
  if negb (k =? NA_INTEGER) then
    let o := Z.to_nat (i_off st !!! Z.to_nat k) in
    mkIndex (<[Z.to_nat k := i_off st !!! Z.to_nat k + 1]> (i_off st))
            (<[o := Z.of_nat j + 1]> (i_loc st))
            (<[o := c]> (i_ind st))
            (i_pos st)
  else st.

(** Lines 788-814 for sequence [i]; [c0] is the argument [count]. *)
Definition update_seq (K : Z) (s : nat) (c0 : nat) (st : index_state)
           (ik : nat * list Z) : index_state :=
  let '(i, kmers) := ik in
  let c := Z.of_nat c0 + Z.of_nat i + 1 in
  let posi := fst (fold_left (positions_body K (Z.of_nat s)) (indexed kmers)
                             (i_pos st !!! (c0 + i)%nat, - Z.of_nat s - 1)) in
  let st := mkIndex (i_off st) (i_loc st) (i_ind st)
                    (<[(c0 + i)%nat := posi]> (i_pos st)) in
  fold_left (index_write c kmers) (stride s (length kmers)) st.

Definition updateIndex (offset : list Z) (query : list (list Z)) (K : Z)
           (s : nat) (location index positions : list Z) (count : nat)
  : index_state :=
  fold_left (update_seq K s count) (indexed query)
            (mkIndex offset location index positions).

(** The positions [j] of a sequence that [countIndex] and [updateIndex]
    visit and find unmasked. *)
Definition unmasked_strided (s : nat) (kmers : list Z) : list nat :=
  List.filter (fun j => negb (kmers !!! j =? NA_INTEGER))
              (stride s (length kmers)).

(** The number of stride-aligned unmasked positions of a sequence. *)
Definition aligned_positions (s : nat) (kmers : list Z) : nat :=
  length (List.filter (fun j => (j mod s =? 0)%nat
                                && negb (kmers !!! j =? NA_INTEGER))
                      (seq 0 (length kmers))).

(** What one visit of an unmasked position does: the k-mer (a subscript
    of [offset]), the target and the location written. *)
Definition seq_events (s : nat) (c : Z) (kmers : list Z)
  : list (nat * Z * Z) :=
  map (fun j => (Z.to_nat (kmers !!! j), c, Z.of_nat j + 1))
      (unmasked_strided s kmers).

Definition corpus_events (s c0 : nat) (query : list (list Z))
  : list (nat * Z * Z) :=
  flat_map (fun ik => seq_events s (Z.of_nat c0 + Z.of_nat (fst ik) + 1)
                                 (snd ik))
           (indexed query).

Definition ev_code (e : nat * Z * Z) : nat := fst (fst e).
Definition ev_target (e : nat * Z * Z) : Z := snd (fst e).

Definition ev_loc (e : nat * Z * Z) : Z := snd e.

(** The event with its location in the place of its target: what line 811
    writes into [location] where line 812 writes the target into [index]. *)
Definition ev_swap (e : nat * Z * Z) : nat * Z * Z :=
  (ev_code e, ev_loc e, ev_target e).

(** An event of a lower target, or of the same target at a lower
    location. *)
Definition ev_before (e1 e2 : nat * Z * Z) : Prop :=
  ev_target e1 < ev_target e2
  \/ (ev_target e1 = ev_target e2 /\ ev_loc e1 < ev_loc e2).

(** [rans[k]++]. *)
Definition bump (rans : list Z) (k : nat) : list Z :=
  <[k := rans !!! k + 1]> rans.

(** Lines 810-812 on [offset] and [index] alone. *)
Definition write_event (st : list Z * list Z) (e : nat * Z * Z)
  : list Z * list Z :=
  let '(off, ind) := st in
  (<[ev_code e := off !!! ev_code e + 1]> off,
   <[Z.to_nat (off !!! ev_code e) := ev_target e]> ind).

Definition off_ind (st : index_state) : list Z * list Z :=
  (i_off st, i_ind st).

Definition off_loc (st : index_state) : list Z * list Z :=
  (i_off st, i_loc st).

(** The number of events of k-mer [c] in [es]. *)
Definition code_count (es : list (nat * Z * Z)) (c : nat) : nat :=
  count_occ Nat.eq_dec (map ev_code es) c.

(** The targets of the events of k-mer [c] in [es], in order. *)
Definition code_targets (es : list (nat * Z * Z)) (c : nat) : list Z :=
  map ev_target (List.filter (fun e => (ev_code e =? c)%nat) es).

(** [sum f c] is [f 0 + ... + f (c - 1)]. *)
Fixpoint prefix_sum (f : nat -> nat) (c : nat) : nat :=
  match c with
  | O => O
  | S c' => (prefix_sum f c' + f c')%nat
  end.

(** [offset] and [index] when the events [done] have been written, for an
    index of [L] k-mers whose buckets start at [start]. *)
Definition index_inv (L : nat) (start : nat -> nat) (T : nat)
           (done : list (nat * Z * Z)) (st : list Z * list Z) : Prop :=
  let '(off, ind) := st in
  length off = L /\ length ind = T /\
  forall c, (c < L)%nat ->
    off !!! c = Z.of_nat (start c + code_count done c) /\
    slice ind (start c) (start c + code_count done c) = code_targets done c.

(** ** The selectors for one hit per target and for the top hit *)

(** [r] has the first of the highest scores among the first [n] hits that
    are on the target of [r]. *)
Definition target_best {D} `{ScoreOps D} `{Inhabited D} (set : list Z)
           (score : list D) (n r : nat) : Prop :=
  (r < n)%nat /\
  (forall j, (j < n)%nat -> set !!! j = set !!! r ->
             dlt (score !!! r) (score !!! j) = false) /\
  (forall j, (j < r)%nat -> set !!! j = set !!! r ->
             dlt (score !!! j) (score !!! r) = true).

(** The state [(keep, p, k)] of lines 465-478 when [n] hits have been
    read. *)
Definition target_inv {D} `{ScoreOps D} `{Inhabited D} (set : list Z)
           (score : list D) (n : nat) (st : list bool * Z * nat) : Prop :=
  let '(keep, p, k) := st in
  length keep = length score /\
  (n = 0%nat -> p = NA_INTEGER /\ k = 0%nat) /\
  ((1 <= n)%nat -> p = set !!! (n - 1)%nat /\ set !!! k = p /\
                   target_best set score n k) /\
  (forall b, (b < length score)%nat ->
             keep !!! b = true <-> target_best set score n b) /\
  (forall j, (j < n)%nat ->
             exists b, (b < n)%nat /\ keep !!! b = true /\
                       set !!! b = set !!! j).

(** ** The results of a search *)

(** The vectors of one query are parallel: one score per target, and one
    anchor buffer per target when anchors are requested. *)
Definition result_ok {D} (sO : bool) (r : qresult D) : Prop :=
  length (r_score r) = length (r_set r) /\
  length (r_anchors r) = if sO then 0%nat else length (r_set r).

(** The score a hit on target [t] has to reach (lines 497 and 503). *)
Definition threshold {D} `{ScoreOps D} (step : Z) (pos : list Z) (tot : D)
           (minS : option D) (t : Z) : D :=
  match minS with
  | None => dlog_total tot (pos !!! Z.to_nat (t - 1)) step
  | Some m => m
  end.

(** Row [(t, x)] of a result: target [t] with score [x]. *)
Definition row_passes {D} `{ScoreOps D} (step : Z) (pos : list Z) (tot : D)
           (minS : option D) (row : Z * D) : Prop :=
  dle (threshold step pos tot minS (fst row)) (snd row) = true.

(** ** Occurrences of a k-mer *)

(** K-mer [c] is read at the position [j] (counted from zero, a multiple
    of the step [s]) of sequence [i] of the corpus. *)
Definition occurs (s : nat) (corpus : list (list Z)) (c : Z) (i j : nat)
  : Prop :=
  (i < length corpus)%nat /\ (j < length (corpus !!! i))%nat /\
  (j mod s = 0)%nat /\ (corpus !!! i) !!! j = c.

(** [(q, t, l)] is one of the hits: query position [q], target [t],
    target position [l]. *)
Definition is_hit {D} (h : hits D) (q t l : Z) : Prop :=
  exists i, (i < length (h_posQuery h))%nat /\
            h_posQuery h !!! i = q /\ h_set h !!! i = t /\
            h_posTarget h !!! i = l.

(** [(q, t, l)] is cell [k] of the bucket of the unmasked k-mer at
    position [q] (counted from one) of the query [w]. *)
Definition bucket_cell (num loc ind w : list Z) (q t l : Z) : Prop :=
  exists j k : nat,
    (j < length w)%nat /\ w !!! j <> NA_INTEGER /\ q = Z.of_nat j + 1 /\
    (k < Z.to_nat (num !!! Z.to_nat (w !!! j)))%nat /\
    t = ind !!! (Z.to_nat (offsets num !!! Z.to_nat (w !!! j)) + k)%nat /\
    l = loc !!! (Z.to_nat (offsets num !!! Z.to_nat (w !!! j)) + k)%nat.

(** ** Offsets and approximate letter frequencies (lines 830-862) *)

(** [offset] and [freqs] are [double] arrays that hold whole numbers (sums
    of counts); they are lists of [Z] here, which is what the additions
    give as long as the sums stay below 2^53.  [k] and [n] are [int]s. *)
Record freq_state := mkFreq {
  f_off : list Z;
  f_freq : list Z;
  f_k : Z;
  f_n : Z
}.

(** One turn of [while (i < l - 1)], lines 848-857; [None] when a cell
    outside [count] or [freqs] is used. *)
Definition approx_body (num : list Z) (binSize : Z) (st : option freq_state)
           (i : nat) : option freq_state :=
  match st with
  | None => None
  | Some st =>
      let j := S i in
      if (j <? length num)%nat then
        let off := <[j := f_off st !!! i + num !!! i]> (f_off st) in
        let '(k, n) :=
          if Z.of_nat j >=? f_n st
          then (wrap32 (f_k st + 1), wrap32 (f_n st + binSize))
          else (f_k st, f_n st) in
        if (0 <=? k) && (k <? Z.of_nat (length (f_freq st))) then
          Some (mkFreq off
                       (<[Z.to_nat k := f_freq st !!! Z.to_nat k + num !!! j]>
                          (f_freq st))
                       k n)
        else None
      else None
  end.

(** Lines 838-859; [None] also for the division by zero of line 842 and
    for the read of [num[0]] in an empty [count]. *)
Definition approxFreqs (offset freqs num : list Z)
  : option (list Z * list Z) :=
  let l := length offset in
  let s := length freqs in
  if (s =? 0)%nat then None
  else if (length num =? 0)%nat then None
  else
    let binSize := Z.of_nat (l / s) in
    match fold_left (approx_body num binSize) (seq 0 (l - 1))
                    (Some (mkFreq offset (<[0%nat := num !!! 0%nat]> freqs)
                                  0 binSize)) with
    | None => None
    | Some st => Some (f_off st, f_freq st)
    end.

(** [a[0] + ... + a[n - 1]]. *)
Definition sum_list (a : list Z) : Z := fold_right Z.add 0 a.

(** The state of [approxFreqs] before the turn for [i = b * q + r], with
    [r < b], for bins of [b] counts: [offset] is filled up to [i], the bins
    before [q] are summed, bin [q] is summed up to [i], and the later
    cells of [freqs] are as they were. *)
Definition approx_inv (offset freqs num : list Z) (b : nat) (i : nat)
           (st : freq_state) : Prop :=
  exists q r : nat,
    i = (b * q + r)%nat /\ (r < b)%nat /\
    f_k st = Z.of_nat q /\ f_n st = Z.of_nat ((q + 1) * b) /\
    length (f_off st) = length offset /\
    length (f_freq st) = length freqs /\
    (forall t, (t <= i)%nat ->
               f_off st !!! t = offset !!! 0%nat + sum_list (take t num)) /\
    (forall k, (k < q)%nat ->
               f_freq st !!! k
               = (if (k =? 0)%nat then 0 else freqs !!! k)
                 + sum_list (slice num (k * b) ((k + 1) * b))) /\
    f_freq st !!! q
    = (if (q =? 0)%nat then 0 else freqs !!! q)
      + sum_list (slice num (q * b) (S i)) /\
    (forall k, (q < k)%nat -> f_freq st !!! k = freqs !!! k).

(** ** The scores of the k-mers (lines 90-113) *)

Section ScoreTables.
Context {D : Type} `{ScoreOps D} `{Inhabited D}.
Variables (K step : Z) (freqs : list D).

(** One turn of [while (j < L)], lines 98-109, for a letter position
    whose digit changes every [c] k-mers; the state is
    [(scores, addScores, k, p)], and [extend] is [i > K - step]. *)
Definition table_inner (extend : bool) (c : Z)
           (st : list D * list D * Z * Z) (j : nat)
  : list D * list D * Z * Z :=
  let '(scores, addScores, k, p) := st in
  let size := Z.of_nat (length freqs) in
  let '(k, p) :=
    if Z.of_nat j =? p
    then ((if k =? size - 1 then 0 else wrap32 (k + 1)), wrap32 (p + c))
    else (k, p) in
  (<[j := dadd (scores !!! j) (freqs !!! Z.to_nat k)]> scores,
   (if extend
    then <[j := dadd (addScores !!! j) (freqs !!! Z.to_nat k)]> addScores
    else addScores),
   k, p).

(** One turn of [for (i = 1; i <= K; i++)], lines 94-112; the state is
    [(scores, addScores, c)]. *)
Definition table_outer (L : nat) (st : list D * list D * Z) (i : nat)
  : list D * list D * Z :=
  let '(scores, addScores, c) := st in
  let '(scores, addScores, _, _) :=
    fold_left (table_inner (Z.of_nat i >? K - step) c) (seq 0 L)
              (scores, addScores, -1, 0) in
  (scores, addScores, wrap32 (c * Z.of_nat (length freqs))).

(** Lines 91-113: [scores] and [addScores] for the [L] k-mers. *)
Definition score_tables (L : nat) : list D * list D :=
  let '(scores, addScores, _) :=
    fold_left (table_outer L) (seq 1 (Z.to_nat K))
              (replicate L dzero, replicate L dzero, 1) in
  (scores, addScores).

(** Letter [i] (from 1, the fastest) of k-mer [j]: digit [i - 1] of [j] in
    base [length freqs]. *)
Definition digit (i j : nat) : nat :=
  Z.to_nat ((Z.of_nat j / Z.of_nat (length freqs) ^ (Z.of_nat i - 1))
            mod Z.of_nat (length freqs)).

(** [freqs] of the first [n] letters of k-mer [j], added in order. *)
Definition kmer_score (n j : nat) : D :=
  fold_left (fun acc i => dadd acc (freqs !!! digit i j)) (seq 1 n) dzero.

(** The same for the letters [i > K - step] only. *)
Definition kmer_extend (n j : nat) : D :=
  fold_left (fun acc i => if Z.of_nat i >? K - step
                          then dadd acc (freqs !!! digit i j) else acc)
            (seq 1 n) dzero.

(** The state of the inner loop for [c] when the k-mers before [j] have
    been handled, from the tables [s0] and [a0]. *)
Definition table_inv (extend : bool) (c : Z) (L : nat) (s0 a0 : list D)
           (j : nat) (st : list D * list D * Z * Z) : Prop :=
  let '(scores, addScores, k, p) := st in
  let size := Z.of_nat (length freqs) in
  length scores = L /\ length addScores = L /\
  (j = 0%nat -> k = -1 /\ p = 0) /\
  ((1 <= j)%nat ->
   exists a r, Z.of_nat j - 1 = a * c + r /\ 0 <= a /\ 0 <= r < c /\
               k = a mod size /\ p = (a + 1) * c) /\
  (forall t, (t < L)%nat ->
     scores !!! t
     = (if (t <? j)%nat
        then dadd (s0 !!! t)
                  (freqs !!! Z.to_nat ((Z.of_nat t / c) mod size))
        else s0 !!! t) /\
     addScores !!! t
     = (if (t <? j)%nat && extend
        then dadd (a0 !!! t)
                  (freqs !!! Z.to_nat ((Z.of_nat t / c) mod size))
        else a0 !!! t)).
End ScoreTables.

(** ** One query at a time *)

(** What query [w] leaves in the result when its body ends normally: its
    results, or nothing after the [continue] of line 188. *)
Definition query_result {D} (run : list Z -> query_run D) (w : list Z)
  : qresult D :=
  match run w with
  | QDone r => r
  | _ => mkQResult [] [] []
  end.

(** The number of unmasked k-mers of a query. *)
Definition unmasked_count (w : list Z) : nat :=
  length (List.filter (fun wj => negb (wj =? NA_INTEGER)) w).

(** ** Laws of arithmetic on scores *)

(** Adding a value that is not negative, on either side, does not give
    less.  The addition of doubles has this property: rounding is monotone
    and [x + 0 = x].  It does not have the strict form, that adding a
    positive value gives more: in [a + b] a small [b] is absorbed. *)
Definition dadd_nonneg (D : Type) `{ScoreOps D} : Prop :=
  forall a b : D, dlt b dzero = false ->
                  dlt (dadd a b) a = false /\ dlt (dadd b a) a = false.

(** ** Binary64 scores *)

(** Scores as IEEE 754 binary64 numbers with the operations of the
    kernel.  [log] is not among them: the three logarithms are parameters
    of the domain. *)
Definition FloatScore (flog_ratio : Z -> Z -> float) (flog_int : Z -> float)
           (flog_total : float -> Z -> Z -> float) : ScoreOps float :=
  {| dzero := 0%float;
     dadd := PrimFloat.add;
     dsub := PrimFloat.sub;
     dlt := PrimFloat.ltb;
     dle := PrimFloat.leb;
     dlog_ratio := flog_ratio;
     dlog_int := flog_int;
     dlog_total := flog_total |}.

#[global] Instance float_inhabited : Inhabited float := populate 0%float.

(** ** The cost tables (lines 78-88) *)

(** [dmul a b] is the product of two doubles and [dsqrt_int i] is
    [sqrt(i)] for an [int] argument. *)
Class CostOps (D : Type) := {
  dmul : D -> D -> D;
  dsqrt_int : Z -> D
}.

#[global] Instance ZCost : CostOps Z := {
  dmul := Z.mul;
  dsqrt_int := Z.sqrt
}.

#[global] Instance FloatCost : CostOps float := {
  dmul := PrimFloat.mul;
  dsqrt_int := fun i => PrimFloat.sqrt (PrimFloat.of_uint63 (Uint63.of_Z i))
}.

(** Lines 84-88: [gapCost[i] = gC * sqrt(i)] and [sepCost[i] = sqrt(i) * sC]
    for [i = 0 .. maxSep]; the result is [(gapCost, sepCost)]. *)
Definition cost_tables {D} `{CostOps D} (sC gC : D) (maxSep : Z)
  : list D * list D :=
  let cells := map Z.of_nat (seq 0 (Z.to_nat (maxSep + 1))) in
  (map (fun i => dmul gC (dsqrt_int i)) cells,
   map (fun i => dmul (dsqrt_int i) sC) cells).

(** A square root is not negative, and neither is the product of two
    values that are not negative. *)
Definition dmul_nonneg (D : Type) `{ScoreOps D} `{CostOps D} : Prop :=
  (forall i : Z, 0 <= i -> dlt (dsqrt_int i) dzero = false)
  /\ (forall a b : D, dlt a dzero = false -> dlt b dzero = false ->
                      dlt (dmul a b) dzero = false).

(** ** The anchor matrix (lines 672-688) *)

(** Column [c] of a matrix of four rows, stored by columns as R stores
    it. *)
Definition matrix_col (m : list Z) (c : nat) : list Z :=
  [m !!! (4 * c)%nat; m !!! (4 * c + 1)%nat; m !!! (4 * c + 2)%nat;
   m !!! (4 * c + 3)%nat].

(** ** The loop over the queries on several threads (lines 136-610) *)

(** With OpenMP the iterations of the loop are shared among [nThreads]
    threads ([schedule(dynamic)]: a free thread takes the next iteration),
    and the variable [abort] is shared, neither atomic nor protected.  A
    thread is observed where it reads or writes [abort]:
    [TIdle], between two iterations;
    [TStarted i], in iteration [i] past the test of line 140;
    [TCounted i], past the hit counter (lines 144-173);
    [TChained i r], past the test of line 174, with [r] the results of the
    query (lines 191-556). *)
Inductive thread_state (D : Type) :=
| TIdle
| TStarted (i : nat)
| TCounted (i : nat)
| TChained (i : nat) (r : qresult D).
Arguments TIdle {D}.
Arguments TStarted {D}.
Arguments TCounted {D}.
Arguments TChained {D}.

(** [p_next] is the next iteration to hand out, [p_abort] the shared
    [abort], [p_out] what the iterations have left in [ptrs], [vecs] and
    [matrices], and [p_threads] the threads, the master first. *)
Record par_state (D : Type) := mkPar {
  p_next : nat;
  p_abort : Z;
  p_out : list (qresult D);
  p_threads : list (thread_state D)
}.
Arguments mkPar {D}.
Arguments p_next {D}.
Arguments p_abort {D}.
Arguments p_out {D}.
Arguments p_threads {D}.

Definition is_idle {D} (ts : thread_state D) : bool :=
  match ts with TIdle => true | _ => false end.

Section ParallelLoop.
Context {D : Type} `{ScoreOps D} `{Inhabited D}.
Variables (K step : Z) (num loc ind pos : list Z).
Variables (scores addScores : list D).
Variables (maxSep : Z) (gapCost sepCost : list D).
Variables (type : Z) (tot : D) (minS : option D) (sO : bool).
Variable check : nat -> option Z.
Variable query : list (list Z).

(** One step of thread [t]; [None] is undefined behaviour.
    - An idle thread takes the next iteration [i] and reads [abort] (line
      140): when it is set, the iteration is the [else] branch of lines
      598-609.
    - Lines 144-173: the hit counter; on overflow [abort = i + 1] (line
      169).
    - Line 174 reads [abort] again: the iteration ends there when [abort]
      is set, the width is zero or there is no hit.  A thread whose counter
      has overflowed and that finds [abort] zero goes on with a negative
      [s].
    - Lines 191-597: the results of the query are stored, and the master
      (thread 0) stores what [checkInterrupt] returns in [abort] when a
      second has elapsed (line 587). *)
Definition par_step (t : nat) (st : par_state D) : option (par_state D) :=
  let empty := mkQResult [] [] [] in
  match p_threads st !! t with
  | None => Some st
  | Some TIdle =>
      let i := p_next st in
      match query !! i with
      | None => Some st
      | Some _ =>
          if p_abort st =? 0 then
            Some (mkPar (S i) (p_abort st) (p_out st)
                        (<[t := TStarted i]> (p_threads st)))
          else
            Some (mkPar (S i) (p_abort st) (<[i := empty]> (p_out st))
                        (p_threads st))
      end
  | Some (TStarted i) =>
      let abort := match count_targets num (query !!! i) 0 with
                   | None => Z.of_nat i + 1
                   | Some _ => p_abort st
                   end in
      Some (mkPar (p_next st) abort (p_out st)
                  (<[t := TCounted i]> (p_threads st)))
  | Some (TCounted i) =>
      let leave := Some (mkPar (p_next st) (p_abort st)
                               (<[i := empty]> (p_out st))
                               (<[t := TIdle]> (p_threads st))) in
      if negb (p_abort st =? 0) then leave
      else
        match search_query K step num loc ind pos scores addScores maxSep
                           gapCost sepCost type tot minS sO (query !!! i) with
        | QEmpty => leave
        | QDone r =>
            Some (mkPar (p_next st) (p_abort st) (p_out st)
                        (<[t := TChained i r]> (p_threads st)))
        | QAbort | QUndefined => None
        end
  | Some (TChained i r) =>
      let abort := if (t =? 0)%nat
                   then match check i with Some v => v | None => p_abort st end
                   else p_abort st in
      Some (mkPar (p_next st) abort (<[i := r]> (p_out st))
                  (<[t := TIdle]> (p_threads st)))
  end.

(** The threads take their steps in the order of the schedule. *)
Definition par_run (sched : list nat) (st : par_state D)
  : option (par_state D) :=
  fold_left (fun o t => match o with Some st => par_step t st | None => None end)
            sched (Some st).

Definition par_init (nthreads : nat) : par_state D :=
  mkPar 0 0 (replicate (length query) (mkQResult [] [] []))
        (replicate nthreads TIdle).

(** The loop is over: every iteration has been taken and every thread is
    idle. *)
Definition par_done (st : par_state D) : bool :=
  (length query <=? p_next st)%nat && forallb is_idle (p_threads st).

(** [searchIndex] on [nthreads] threads that take their steps as [sched]
    says (lines 136-720); [None] when the behaviour is undefined or the
    schedule ends before the loop does. *)
Definition par_searchIndex (nthreads : nat) (sched : list nat)
  : option (search_result D) :=
  match par_run sched (par_init nthreads) with
  | Some st =>
      if par_done st then
        if negb (p_abort st =? 0) then
          Some (if p_abort st <? 0 then Interrupted else TooManyHits (p_abort st))
        else Some (assemble sO (p_out st))
      else None
  | None => None
  end.

(** What a run on one thread has reached, against the loop run in order:
    the iterations before the current one have left what [run_queries]
    computes for them. *)
Definition par_sim (st : par_state D) : Prop :=
  let run := run_queries K step num loc ind pos scores addScores maxSep
                         gapCost sepCost type tot minS sO check in
  let one := search_query K step num loc ind pos scores addScores maxSep
                          gapCost sepCost type tot minS sO in
  length (p_out st) = length query /\
  exists ts, p_threads st = [ts] /\
    match ts with
    | TIdle =>
        (p_next st <= length query)%nat /\
        run (take (p_next st) query)
        = Some (p_abort st, take (p_next st) (p_out st))
    | TStarted i =>
        p_next st = S i /\ (i < length query)%nat /\ p_abort st = 0 /\
        run (take i query) = Some (0, take i (p_out st))
    | TCounted i =>
        p_next st = S i /\ (i < length query)%nat /\
        run (take i query) = Some (0, take i (p_out st)) /\
        p_abort st = match count_targets num (query !!! i) 0 with
                     | None => Z.of_nat i + 1
                     | Some _ => 0
                     end
    | TChained i r =>
        p_next st = S i /\ (i < length query)%nat /\ p_abort st = 0 /\
        run (take i query) = Some (0, take i (p_out st)) /\
        one (query !!! i) = QDone r
    end.

(** The number of steps one thread has still to take, at most. *)
Definition par_left (st : par_state D) : nat :=
  4 * (length query - p_next st)
  + match p_threads st with
    | [TStarted _] => 3
    | [TCounted _] => 2
    | [TChained _ _] => 1
    | _ => 0
    end.
End ParallelLoop.

(** * Facts about loops and arrays *)

(** Invariants of a [for] loop over consecutive subscripts. *)
Lemma fold_left_seq_inv {A} (f : A -> nat -> A) (P : nat -> A -> Prop) :
  forall n a init,
    P a init ->
    (forall i st, (a <= i < a + n)%nat -> P i st -> P (S i) (f st i)) ->
    P (a + n)%nat (fold_left f (seq a n) init).
Proof.
  induction n as [|n IH]; intros a init H0 Hstep; simpl.
  - now rewrite Nat.add_0_r.
  - replace (a + S n)%nat with (S a + n)%nat by lia.
    apply IH.
    + apply Hstep; [lia | assumption].
    + intros i st Hi. apply Hstep. lia.
Qed.

(** An invariant that does not depend on the subscript. *)
Lemma fold_left_inv {A B} (f : A -> B -> A) (P : A -> Prop) (Q : B -> Prop) :
  forall l init,
    P init -> Forall Q l ->
    (forall st x, Q x -> P st -> P (f st x)) ->
    P (fold_left f l init).
Proof.
  induction l as [|x l IH]; intros init H0 Hl Hstep; simpl; [assumption|].
  inversion Hl; subst. apply IH; auto.
Qed.

Lemma lookup_total_map_seq {B} `{Inhabited B} (g : nat -> B) (a n i : nat) :
  (i < n)%nat -> map g (seq a n) !!! i = g (a + i)%nat.
Proof.
  revert a i. induction n as [|n IH]; intros a i Hi; [lia|].
  destruct i as [|i].
  - simpl. now rewrite Nat.add_0_r.
  - change (map g (seq a (S n)) !!! S i) with (map g (seq (S a) n) !!! i).
    rewrite IH by lia. f_equal. lia.
Qed.

Ltac arr :=
  repeat first
    [ rewrite list_lookup_total_insert_eq by (rewrite ?length_insert; lia)
    | rewrite list_lookup_total_insert_ne by lia
    | rewrite length_insert ].

Section ChainDPFacts.
Context {D : Type} `{ScoreOps D} `{Inhabited D}.
Variables (maxSep : Z) (gapCost sepCost : list D).
Variables (posQuery posTarget set len : list Z).

Local Abbreviation inner := (dp_inner_body maxSep gapCost sepCost posQuery posTarget len).
Local Abbreviation outer := (dp_outer_body maxSep gapCost sepCost posQuery posTarget set len).
Local Abbreviation dT := (deltaT posTarget len).
Local Abbreviation dQ := (deltaQ posQuery len).
Local Abbreviation link := (dp_link len).
Local Abbreviation cand := (candidate gapCost sepCost posQuery posTarget len).
Local Abbreviation linkOK := (linkable maxSep posQuery posTarget len).
Local Abbreviation linkOKb := (linkableb maxSep posQuery posTarget len).
Local Abbreviation fire := (fires maxSep gapCost sepCost posQuery posTarget len).
Local Abbreviation node := (dp_node maxSep gapCost sepCost posQuery posTarget len).
Local Abbreviation fresh := (dp_fresh len).
Local Abbreviation inv := (dp_inv maxSep gapCost sepCost posQuery posTarget len).

Lemma gap_sep_abs_min (a b : Z) : gap_sep a b = (Z.abs (a - b), Z.min a b).
Proof.
  unfold gap_sep. destruct (Z.gtb_spec a b); f_equal; lia.
Qed.

Lemma linkableb_iff k p : linkOKb k p = true <-> linkOK k p.
Proof.
  unfold linkableb, linkable.
  rewrite !andb_true_iff, !Z.leb_le. tauto.
Qed.

Lemma inner_fires k p prevScore st :
  fire k p prevScore st = true ->
  inner k prevScore st p
  = link k p (cand (dp_score st !!! p) prevScore k p) st.
Proof.
  unfold fires. rewrite !andb_true_iff, linkableb_iff.
  intros [[[[HT1 HT2] [HQ1 HQ2]] Hpre] Hc].
  unfold dp_inner_body. fold (dT k p). fold (dQ k p).
  destruct (Z.gtb_spec (dT k p) maxSep) as [?|_]; [lia|].
  destruct (Z.geb_spec (dT k p) 0) as [_|?]; [|lia].
  destruct (Z.geb_spec (dQ k p) 0) as [_|?]; [|lia].
  destruct (Z.leb_spec (dQ k p) maxSep) as [_|?]; [|lia].
  simpl. rewrite Hpre, gap_sep_abs_min.
  unfold candidate in Hc. rewrite Hc. reflexivity.
Qed.

Lemma inner_idle k p prevScore st :
  fire k p prevScore st = false ->
  same_arrays st (inner k prevScore st p).
Proof.
  unfold fires, same_arrays. intros Hf.
  unfold dp_inner_body. fold (dT k p). fold (dQ k p).
  destruct (Z.gtb_spec (dT k p) maxSep) as [?|HT2]; [simpl; auto|].
  destruct (Z.geb_spec (dT k p) 0) as [HT1|?]; [|auto].
  destruct (Z.geb_spec (dQ k p) 0) as [HQ1|?]; [|simpl; auto].
  destruct (Z.leb_spec (dQ k p) maxSep) as [HQ2|?]; [|simpl; auto].
  simpl.
  assert (Hl : linkOKb k p = true) by (apply linkableb_iff; split; lia).
  rewrite Hl in Hf. simpl in Hf.
  destruct (dlt (dp_score st !!! k) (dadd (dp_score st !!! p) prevScore));
    [|auto].
  simpl in Hf. rewrite gap_sep_abs_min.
  unfold candidate in Hf. rewrite Hf. auto.
Qed.

Lemma dp_inv_init score0 n : inv score0 n (dp_init len score0).
Proof.
  unfold dp_inv, dp_init; simpl.
  rewrite !length_seq, length_map, length_seq.
  assert (Hf : forall i, (i < length score0)%nat ->
                fresh score0 (dp_init len score0) i).
  { intros i Hi. unfold dp_fresh, dp_init; simpl.
    rewrite !lookup_total_seq_lt by lia.
    rewrite lookup_total_map_seq by lia. simpl. auto. }
  split; [auto|]. split.
  - intros i Hi. split; [left; apply (Hf i Hi)|].
    rewrite !lookup_total_seq_lt by lia. simpl. lia.
  - intros i Hi. apply Hf. lia.
Qed.

Lemma dp_inv_mono score0 n m st :
  (n <= m)%nat -> inv score0 n st -> inv score0 m st.
Proof.
  intros Hnm (Hlen & Hall & Hfresh). repeat split; try tauto.
  - apply Hall; assumption.
  - apply Hall; assumption.
  - apply Hall; assumption.
  - apply Hfresh; lia.
  - apply Hfresh; lia.
  - apply Hfresh; lia.
  - apply Hfresh; lia.
Qed.

Lemma dp_inv_set_j score0 n st j :
  inv score0 n st ->
  inv score0 n (mkDP (dp_score st) (dp_chain st) (dp_origin st)
                        (dp_cov st) j).
Proof. intros Hi. exact Hi. Qed.

(** One link keeps the invariant. *)
Lemma dp_inv_link score0 k p st :
  (p < k < length score0)%nat ->
  inv score0 (S k) st ->
  linkOK k p ->
  inv score0 (S k)
         (link k p (cand (dp_score st !!! p) (score0 !!! k) k p) st).
Proof.
  intros Hpk ((Ls & Lc & Lo & Lv) & Hall & Hfresh) Hlink.
  unfold dp_inv, dp_link; simpl. arr.
  split; [auto|]. split.
  - intros i Hi.
    destruct (Nat.eq_dec i k) as [->|Hik].
    + arr. destruct (Hall p ltac:(lia)) as (_ & Hop & Hoo).
      split; [|split].
      * right. exists p. unfold dp_link; simpl. now arr.
      * lia.
      * arr. assumption.
    + destruct (Hall i Hi) as (Hnode & Hoi & Hoo). arr.
      assert (Hok : dp_origin st !!! i <> k).
      { intros Heq. destruct (Nat.lt_ge_cases i k) as [?|?]; [lia|].
        destruct (Hfresh i ltac:(lia)) as (_ & Ho & _). lia. }
      split; [|split; [assumption|]].
      * destruct Hnode as [Hn|(q & Hq & Hc & Hl & Ho & Hv & Hs)].
        -- left. unfold dp_fresh in *. unfold dp_link; simpl.
           now arr.
        -- assert (Hqk : q <> k).
           { intros ->. destruct (Hfresh i ltac:(lia)) as (Hc' & _). lia. }
           right. exists q. unfold dp_link; simpl. now arr.
      * arr. assumption.
  - intros i Hi. destruct (Hfresh i Hi) as (? & ? & ? & ?).
    unfold dp_fresh, dp_link; simpl. now arr.
Qed.

Lemma dp_inv_inner score0 k st p :
  (p < k < length score0)%nat ->
  inv score0 (S k) st ->
  inv score0 (S k) (inner k (score0 !!! k) st p).
Proof.
  intros Hpk Hinv.
  destruct (fire k p (score0 !!! k) st) eqn:Hf.
  - rewrite (inner_fires _ _ _ _ Hf).
    apply dp_inv_link; auto.
    unfold fires in Hf. rewrite !andb_true_iff in Hf.
    apply linkableb_iff. tauto.
  - destruct (inner_idle _ _ _ _ Hf) as (Es & Ec & Eo & Ev).
    unfold dp_inv, dp_node, dp_fresh in *.
    rewrite Es, Ec, Eo, Ev. exact Hinv.
Qed.

Lemma dp_inv_outer score0 k st :
  (1 <= k < length score0)%nat ->
  inv score0 k st -> inv score0 (S k) (outer st k).
Proof.
  intros Hk Hinv. unfold dp_outer_body.
  destruct (negb (set !!! k =? set !!! dp_j st)).
  - apply dp_inv_set_j. apply (dp_inv_mono score0 k); [lia|assumption].
  - assert (Hprev : dp_score st !!! k = score0 !!! k).
    { destruct Hinv as (_ & _ & Hfresh).
      destruct (Hfresh k ltac:(lia)) as (_ & _ & _ & Hs). exact Hs. }
    rewrite Hprev.
    apply (fold_left_inv _ (inv score0 (S k)) (fun p => (p < k)%nat)).
    + apply (dp_inv_mono score0 k); [lia|assumption].
    + apply Forall_forall. intros p Hp. apply elem_of_seq in Hp. lia.
    + intros st' p Hp Hst'. apply dp_inv_inner; [lia|assumption].
Qed.

Theorem chainDP_inv score0 :
  inv score0 (length score0)
         (chainDP maxSep gapCost sepCost posQuery posTarget set len score0).
Proof.
  unfold chainDP.
  destruct (length score0) as [|s'] eqn:Hs.
  - simpl. apply dp_inv_init.
  - replace (S s' - 1)%nat with s' by lia.
    change (S s') with (1 + s')%nat.
    apply (fold_left_seq_inv _ (fun n st => inv score0 n st)).
    + apply dp_inv_init.
    + intros i st Hi Hst. apply dp_inv_outer; [lia|assumption].
Qed.

(** C1 (amended).  For a pair [(k, p)] the inner loop links [k] to [p]
    exactly when [fires] holds: both deltas lie in [0..maxSep], and both
    [score[p] + prevScore] and the candidate
    [score[p] + prevScore + gapCost[|deltaQ - deltaT|] + sepCost[min]]
    exceed the current [score[k]]; the link then performs the four
    assignments of [dp_link], and otherwise the four arrays are unchanged.
    [prevScore] is [score[k]] as read on entry to the scan of [k].  As a
    consequence every hit of the final state is either untouched or linked
    to an earlier linkable hit with exactly these values. *)
Theorem C1_chain_link_rule :
  (forall k p prevScore st,
      if fire k p prevScore st
      then inner k prevScore st p
           = link k p (cand (dp_score st !!! p) prevScore k p) st
      else same_arrays st (inner k prevScore st p))
  /\ (forall st k,
         set !!! k = set !!! dp_j st ->
         outer st k
         = fold_left (inner k (dp_score st !!! k))
                     (seq (dp_j st) (k - dp_j st)) st)
  /\ (forall score0 i,
         (i < length score0)%nat ->
         node score0
              (chainDP maxSep gapCost sepCost posQuery posTarget set len score0)
              i).
Proof.
  split; [|split].
  - intros k p prevScore st.
    destruct (fire k p prevScore st) eqn:Hf.
    + now apply inner_fires.
    + now apply inner_idle.
  - intros st k Hset. unfold dp_outer_body.
    rewrite Hset, Z.eqb_refl. reflexivity.
  - intros score0 i Hi.
    destruct (chainDP_inv score0) as (_ & Hall & _).
    apply Hall. exact Hi.
Qed.

(** *** Scores along a chain *)

Section OrderedScores.
(** Two laws of exact arithmetic.  The first does not hold for doubles,
    where a small [b] is absorbed in [a + b]. *)
Hypothesis add_pos : forall a b : D, dlt dzero b = true -> dlt a (dadd a b) = true.
Hypothesis add_nonneg :
  forall a b c : D, dlt a b = true -> dlt c dzero = false ->
                    dlt a (dadd b c) = true.

(** In exact arithmetic, when every hit enters the DP with a positive
    score and no entry of [gapCost] and [sepCost] is negative, the score of
    a linked hit is strictly greater than the score of the hit it is
    linked to. *)
Lemma chain_scores_increase_exact (score0 : list D) :
  Z.of_nat (length gapCost) = maxSep + 1 ->
  Z.of_nat (length sepCost) = maxSep + 1 ->
  (forall i, (i < length score0)%nat -> dlt dzero (score0 !!! i) = true) ->
  (forall g, (g < length gapCost)%nat -> dlt (gapCost !!! g) dzero = false) ->
  (forall g, (g < length sepCost)%nat -> dlt (sepCost !!! g) dzero = false) ->
  let st := chainDP maxSep gapCost sepCost posQuery posTarget set len score0 in
  forall k, (k < length score0)%nat ->
            dp_chain st !!! k <> k ->
            dlt (dp_score st !!! (dp_chain st !!! k)) (dp_score st !!! k) = true.
Proof.
  intros Hlg Hls Hpos Hgap Hsep st k Hk Hne.
  destruct (chainDP_inv score0) as (_ & Hall & _).
  destruct (Hall k Hk) as (Hnode & _).
  destruct Hnode as [(Hc & _)|(p & Hp & Hc & (HT & HQ) & _ & _ & Hs)].
  - fold st in Hc. contradiction.
  - fold st in Hc, Hs. rewrite Hc, Hs. unfold candidate.
    apply add_nonneg; [apply add_nonneg; [apply add_pos; apply Hpos; lia|]|].
    + apply Hgap. lia.
    + apply Hsep. lia.
Qed.
End OrderedScores.
End ChainDPFacts.

(** The laws hold for exact integer scores. *)
Lemma Z_add_pos (a b : Z) : dlt dzero b = true -> dlt a (dadd a b) = true.
Proof. simpl. rewrite !Z.ltb_lt. lia. Qed.

Lemma Z_add_nonneg (a b c : Z) :
  dlt a b = true -> dlt c dzero = false -> dlt a (dadd b c) = true.
Proof. simpl. rewrite !Z.ltb_lt, Z.ltb_ge. lia. Qed.

(** Three hits of one target; hit 2 can be linked to hit 0 (at no cost) and
    to hit 1 (with [sepCost[1] = 5]).  When the pair [(2, 1)] is examined,
    [score[2]] is 20 and the candidate is 8 + 10 + 0 + 5 = 23 (33 when it
    is built from the current [score[2]]), but 8 + 10 does not exceed 20
    and no link is made. *)
Lemma C1_counterexample :
  let maxSep := 4 in
  let gapCost := [0; 0; 0; 0; 0] in
  let sepCost := [0; 5; 5; 5; 10] in
  let posQuery := [7; 6; 10] in
  let posTarget := [5; 6; 10] in
  let set := [1; 1; 1] in
  let len := [3; 3; 3] in
  let score0 := [10; 8; 10] in
  let st1 := dp_outer_body maxSep gapCost sepCost posQuery posTarget set len
                           (dp_init len score0) 1 in
  let st := dp_inner_body maxSep gapCost sepCost posQuery posTarget len
                          2 (score0 !!! 2%nat) st1 0 in
  let st' := dp_inner_body maxSep gapCost sepCost posQuery posTarget len
                           2 (score0 !!! 2%nat) st 1 in
  dp_score st = [10; 8; 20] /\ st' = st
  /\ ~ link_rule_as_stated maxSep gapCost sepCost posQuery posTarget len
       (dp_score st !!! 2%nat) 2 1 st st'
  /\ ~ link_rule_as_stated maxSep gapCost sepCost posQuery posTarget len
       (score0 !!! 2%nat) 2 1 st st'.
Proof.
  intros maxSep gapCost sepCost posQuery posTarget set len score0 st1 st st'.
  assert (Hl : linkable maxSep posQuery posTarget len 2 1)
    by (vm_compute; intuition discriminate).
  split; [reflexivity|]. split; [reflexivity|]. split.
  - intros Hc. destruct (Hc Hl) as [Hc1 _].
    specialize (Hc1 eq_refl). vm_compute in Hc1. discriminate.
  - intros Hc. destruct (Hc Hl) as [Hc1 _].
    specialize (Hc1 eq_refl). vm_compute in Hc1. discriminate.
Qed.

(** * Consequences of the laws of scores *)

Section ScoreLaws.
Context {D : Type} `{ScoreOps D}.
Hypothesis Hord : dlt_order D.
Hypothesis Hadd : dadd_nonneg D.

Lemma dlt_irrefl (a : D) : dlt a a = false.
Proof. apply Hord. Qed.

Lemma dlt_asym (a b : D) : dlt a b = true -> dlt b a = false.
Proof.
  intros Hab. destruct (dlt b a) eqn:Hba; [|reflexivity].
  destruct Hord as (Hirr & Htr & _).
  rewrite <- (Hirr a). symmetry. now apply (Htr a b a).
Qed.

(** [c <= b] and [b <= a] give [c <= a]. *)
Lemma dge_trans (a b c : D) :
  dlt a b = false -> dlt b c = false -> dlt a c = false.
Proof. apply Hord. Qed.

(** [a < b] and [b <= c] give [a < c]. *)
Lemma dlt_le_trans (a b c : D) :
  dlt a b = true -> dlt c b = false -> dlt a c = true.
Proof.
  intros Hab Hcb. destruct (dlt a c) eqn:Hac; [reflexivity|].
  rewrite (dge_trans a c b Hac Hcb) in Hab. discriminate.
Qed.

Lemma add_keeps_pos (a b : D) :
  dlt dzero a = true -> dlt b dzero = false -> dlt dzero (dadd a b) = true.
Proof.
  intros Ha Hb. apply (dlt_le_trans _ a); [assumption|].
  apply (Hadd a b Hb).
Qed.

Lemma add_pos_r (a b : D) :
  dlt a dzero = false -> dlt dzero b = true -> dlt dzero (dadd a b) = true.
Proof.
  intros Ha Hb. apply (dlt_le_trans _ b); [assumption|].
  apply (Hadd b a Ha).
Qed.

Lemma add_keeps_nonneg (a b : D) :
  dlt a dzero = false -> dlt b dzero = false -> dlt (dadd a b) dzero = false.
Proof.
  intros Ha Hb. apply (dge_trans _ a); [|assumption].
  apply (Hadd a b Hb).
Qed.
End ScoreLaws.

(** The laws hold for exact integer scores. *)
Lemma Z_dadd_nonneg : dadd_nonneg Z.
Proof.
  intros a b Hb. simpl in *. rewrite !Z.ltb_ge in *. lia.
Qed.

Lemma Z_dmul_nonneg : dmul_nonneg Z.
Proof.
  split.
  - intros i Hi. simpl. rewrite Z.ltb_ge. apply Z.sqrt_nonneg.
  - intros a b Ha Hb. simpl in *. rewrite !Z.ltb_ge in *. lia.
Qed.

(** * The subscripts flagged in [keep] *)

Lemma fold_left_ext_in {A B} (f g : A -> B -> A) (l : list B) :
  (forall x st, In x l -> f st x = g st x) ->
  forall init, fold_left f l init = fold_left g l init.
Proof.
  induction l as [|x l IH]; intros Hfg init; [reflexivity|]. simpl.
  rewrite Hfg by (left; reflexivity). apply IH.
  intros y st Hy. apply Hfg. right. assumption.
Qed.

(** A loop over the elements of an array is a loop over its subscripts. *)
Lemma fold_left_indices {A B} `{Inhabited B} (f : A -> B -> A) (l : list B) init :
  fold_left f l init
  = fold_left (fun st i => f st (l !!! i)) (seq 0 (length l)) init.
Proof.
  revert init. induction l as [|x l IH] using rev_ind; intros init; [reflexivity|].
  rewrite length_app. simpl length.
  rewrite seq_app, !fold_left_app. simpl.
  rewrite lookup_total_app_r by lia. rewrite Nat.sub_diag. simpl.
  f_equal. rewrite IH. apply fold_left_ext_in.
  intros i st Hi. apply in_seq in Hi.
  rewrite lookup_total_app_l by lia. reflexivity.
Qed.

Lemma kept_nil_r {A} (keep : list bool) : kept keep (@nil A) = [].
Proof. destruct keep as [|[] ?]; reflexivity. Qed.

Lemma kept_app {A} (k1 k2 : list bool) (a1 a2 : list A) :
  length k1 = length a1 ->
  kept (k1 ++ k2) (a1 ++ a2) = kept k1 a1 ++ kept k2 a2.
Proof.
  revert a1. induction k1 as [|b k1 IH]; intros [|x a1] Hl; simpl in *;
    try discriminate; [reflexivity|].
  destruct b; simpl; rewrite IH by lia; reflexivity.
Qed.

(** The compaction reads every array at the flagged subscripts. *)
Lemma kept_flagged {A} `{Inhabited A} (keep : list bool) (a : list A) :
  length keep = length a ->
  kept keep a = map (fun i => a !!! i) (flagged keep).
Proof.
  unfold flagged. revert a.
  induction keep as [|b keep IH] using rev_ind; intros a Hl.
  - destruct a; [reflexivity|discriminate].
  - destruct a as [|y a _] using rev_ind.
    { rewrite length_app in Hl. simpl in Hl. lia. }
    rewrite !length_app in Hl. simpl in Hl.
    rewrite length_app. simpl length.
    rewrite seq_app. simpl.
    rewrite !kept_app by (rewrite ?length_seq; lia).
    rewrite map_app, (IH a) by lia.
    f_equal.
    + apply map_ext_in. intros i Hi.
      assert (Hin : In i (seq 0 (length keep))).
      { clear -Hi. revert Hi. generalize (seq 0 (length keep)).
        induction keep as [|b keep IH]; intros [|x l] Hi; simpl in *;
          try contradiction.
        destruct b; simpl in Hi; [destruct Hi as [->|Hi]|]; auto. }
      apply in_seq in Hin. rewrite lookup_total_app_l by lia. reflexivity.
    + destruct b; simpl; [|reflexivity].
      rewrite lookup_total_app_r by lia.
      replace (length keep - length a)%nat with 0%nat by lia. reflexivity.
Qed.

Lemma in_kept_seq (keep : list bool) (a n : nat) (i : nat) :
  length keep = n ->
  In i (kept keep (seq a n)) <-> (a <= i < a + n)%nat /\ keep !!! (i - a)%nat = true.
Proof.
  revert a n. induction keep as [|b keep IH]; intros a n Hl; simpl in *.
  - subst n. simpl. split; [contradiction|lia].
  - destruct n as [|n]; [discriminate|]. simpl.
    assert (Hn : length keep = n) by lia.
    destruct b; simpl; rewrite ?(IH (S a) n Hn).
    + split.
      * intros [->|(Hr & Hk)].
        -- rewrite Nat.sub_diag. split; [lia|reflexivity].
        -- split; [lia|]. replace (i - a)%nat with (S (i - S a)) by lia.
           exact Hk.
      * intros (Hr & Hk). destruct (Nat.eq_dec a i) as [->|Hne]; [now left|].
        right. split; [lia|].
        replace (i - a)%nat with (S (i - S a)) in Hk by lia. exact Hk.
    + split.
      * intros (Hr & Hk). split; [lia|].
        replace (i - a)%nat with (S (i - S a)) by lia. exact Hk.
      * intros (Hr & Hk). destruct (Nat.eq_dec a i) as [->|Hne].
        -- rewrite Nat.sub_diag in Hk. discriminate.
        -- split; [lia|].
           replace (i - a)%nat with (S (i - S a)) in Hk by lia. exact Hk.
Qed.

Lemma in_flagged (keep : list bool) (i : nat) :
  In i (flagged keep) <-> (i < length keep)%nat /\ keep !!! i = true.
Proof.
  unfold flagged. rewrite (in_kept_seq keep 0 (length keep) i eq_refl).
  rewrite Nat.sub_0_r. intuition lia.
Qed.

Lemma kept_seq_sorted (keep : list bool) (a n : nat) :
  StronglySorted lt (kept keep (seq a n)).
Proof.
  revert a n. induction keep as [|b keep IH]; intros a [|n]; simpl;
    try constructor.
  - destruct b; [|apply IH]. constructor; [apply IH|].
    apply List.Forall_forall. intros x Hx.
    destruct (Nat.le_gt_cases (length keep) n) as [Hle|Hgt].
    + assert (Hin : In x (seq (S a) n)).
      { clear -Hx. revert Hx. generalize (seq (S a) n).
        induction keep as [|b keep IH]; intros [|y l] Hx; simpl in *;
          try contradiction.
        destruct b; simpl in Hx; [destruct Hx as [->|Hx]|]; auto. }
      apply in_seq in Hin. lia.
    + assert (Hin : In x (seq (S a) n)).
      { clear -Hx. revert Hx. generalize (seq (S a) n).
        induction keep as [|b keep IH]; intros [|y l] Hx; simpl in *;
          try contradiction.
        destruct b; simpl in Hx; [destruct Hx as [->|Hx]|]; auto. }
      apply in_seq in Hin. lia.
Qed.

Lemma flagged_sorted (keep : list bool) : StronglySorted lt (flagged keep).
Proof. apply kept_seq_sorted. Qed.

(** * The selector for all chains *)

Section SelectAllFacts.
Context {D : Type} `{ScoreOps D} `{Inhabited D}.
Variables (origin : list nat) (score : list D).
Hypothesis Hlen : length origin = length score.
Hypothesis Hok : origin_ok origin.

Local Abbreviation minv := (maxOrigin_inv origin score).
Local Abbreviation body := (all_body origin score).

Lemma maxOrigin_inv_init : minv 0 (Some (replicate (length score) None)).
Proof.
  exists (replicate (length score) None).
  rewrite length_replicate. repeat split; try (intros; lia).
  intros i Hi. apply lookup_total_replicate_2. lia.
Qed.

Lemma NA_not_index (b : nat) : Z.of_nat b <> NA_INTEGER.
Proof. unfold NA_INTEGER. lia. Qed.

Lemma maxOrigin_inv_step n st :
  (n < length score)%nat -> minv n st -> minv (S n) (body st n).
Proof.
  intros Hn (mo & -> & Hl & Hna & Hroot & Hnone).
  unfold maxOrigin_inv, all_body. unfold cell in *.
  destruct (Hok n ltac:(lia)) as (Hle & Hidem).
  destruct (Nat.eqb_spec (origin !!! n) n) as [Heq|Hne].
  - exists (<[n := Some (Z.of_nat n)]> mo).
    split; [reflexivity|]. split; [now rewrite length_insert|].
    split; [|split].
    + intros i Hi Hoi. assert (i <> n) by congruence.
      rewrite list_lookup_total_insert_ne by lia. apply Hna; [lia|assumption].
    + intros i Hi Hoi. destruct (Nat.eq_dec i n) as [->|Hin].
      * exists n. rewrite list_lookup_total_insert_eq by lia.
        split; [reflexivity|]. split; [lia|]. split; [assumption|].
        intros (Hirr & _ & _). split.
        -- intros j Hj Hoj. destruct (Hok j ltac:(lia)) as (Hlej & _).
           assert (j = n) by lia. subst j. apply Hirr.
        -- intros j Hj Hoj. destruct (Hok j ltac:(lia)) as (Hlej & _). lia.
      * destruct (Hroot i ltac:(lia) Hoi) as (b & Hb & Hbn & Hob & Hbest).
        exists b. rewrite list_lookup_total_insert_ne by lia.
        split; [assumption|]. split; [lia|]. split; [assumption|].
        intros Hord. destruct (Hbest Hord) as (Hb1 & Hb2). split; [|assumption].
        intros j Hj Hoj. apply Hb1; [|assumption].
        destruct (Nat.eq_dec j n) as [->|?]; [congruence|lia].
    + intros i Hi. rewrite list_lookup_total_insert_ne by lia.
      apply Hnone. lia.
  - set (o := origin !!! n) in *.
    assert (Hon : (o < n)%nat) by lia.
    destruct (Hroot o Hon Hidem) as (b & Hb & Hbn & Hob & Hbest).
    rewrite Hb.
    assert (Hrange : (0 <=? Z.of_nat b) && (Z.of_nat b <? Z.of_nat (length score))
                     = true).
    { apply andb_true_iff. rewrite Z.leb_le, Z.ltb_lt. lia. }
    rewrite Hrange, Nat2Z.id.
    destruct (dlt (score !!! b) (score !!! n)) eqn:Hcmp.
    + exists (<[n := Some NA_INTEGER]> (<[o := Some (Z.of_nat n)]> mo)).
      split; [reflexivity|]. split; [now rewrite !length_insert|].
      split; [|split].
      * intros i Hi Hoi. destruct (Nat.eq_dec i n) as [->|Hin].
        -- rewrite list_lookup_total_insert_eq
             by (rewrite length_insert; lia). reflexivity.
        -- rewrite list_lookup_total_insert_ne by lia.
           assert (i <> o) by (intros ->; contradiction).
           rewrite list_lookup_total_insert_ne by lia.
           apply Hna; [lia|assumption].
      * intros i Hi Hoi. assert (Hin : i <> n) by (intros ->; contradiction).
        rewrite list_lookup_total_insert_ne by lia.
        destruct (Nat.eq_dec i o) as [->|Hio].
        -- exists n. rewrite list_lookup_total_insert_eq by lia.
           split; [reflexivity|]. split; [lia|]. split; [reflexivity|].
           intros Hord. destruct (Hbest Hord) as (Hb1 & Hb2).
           destruct Hord as (Hirr & Htr & Hntr). split.
           ++ intros j Hj Hoj. destruct (Nat.eq_dec j n) as [->|Hjn].
              ** apply Hirr.
              ** specialize (Hb1 j ltac:(lia) Hoj).
                 destruct (dlt (score !!! n) (score !!! j)) eqn:Hnj;
                   [|reflexivity].
                 rewrite (Htr _ _ _ Hcmp Hnj) in Hb1. discriminate.
           ++ intros j Hj Hoj. specialize (Hb1 j ltac:(lia) Hoj).
              destruct (dlt (score !!! j) (score !!! n)) eqn:Hjn;
                [reflexivity|].
              rewrite (Hntr _ _ _ Hb1 Hjn) in Hcmp. discriminate.
        -- destruct (Hroot i ltac:(lia) Hoi) as (b' & Hb' & Hbn' & Hob' & Hbest').
           exists b'. rewrite list_lookup_total_insert_ne by lia.
           split; [assumption|]. split; [lia|]. split; [assumption|].
           intros Hord. destruct (Hbest' Hord) as (Hb1 & Hb2).
           split; [|assumption].
           intros j Hj Hoj. apply Hb1; [|assumption].
           destruct (Nat.eq_dec j n) as [->|?]; [|lia].
           fold o in Hoj. congruence.
      * intros i Hi. rewrite !list_lookup_total_insert_ne by lia.
        apply Hnone. lia.
    + exists (<[n := Some NA_INTEGER]> mo).
      split; [reflexivity|]. split; [now rewrite length_insert|].
      split; [|split].
      * intros i Hi Hoi. destruct (Nat.eq_dec i n) as [->|Hin].
        -- rewrite list_lookup_total_insert_eq by lia. reflexivity.
        -- rewrite list_lookup_total_insert_ne by lia.
           apply Hna; [lia|assumption].
      * intros i Hi Hoi. assert (Hin : i <> n) by (intros ->; contradiction).
        rewrite list_lookup_total_insert_ne by lia.
        destruct (Hroot i ltac:(lia) Hoi) as (b' & Hb' & Hbn' & Hob' & Hbest').
        exists b'. split; [assumption|]. split; [lia|]. split; [assumption|].
        intros Hord. destruct (Hbest' Hord) as (Hb1 & Hb2).
        split; [|assumption].
        intros j Hj Hoj. destruct (Nat.eq_dec j n) as [->|?].
        -- assert (Hio : i = o) by (symmetry; exact Hoj).
           rewrite Hio, Hb in Hb'.
           injection Hb' as Hbb. apply Nat2Z.inj in Hbb. subst b'.
           exact Hcmp.
        -- apply Hb1; [lia|assumption].
      * intros i Hi. rewrite list_lookup_total_insert_ne by lia.
        apply Hnone. lia.
Qed.

Lemma maxOrigin_inv_prefix n :
  (n <= length score)%nat ->
  minv n (fold_left body (seq 0 n) (Some (replicate (length score) None))).
Proof.
  intros Hn.
  apply (fold_left_seq_inv body (fun i st => (i <= length score)%nat -> minv i st)
           n 0%nat); [| |exact Hn].
  - intros _. apply maxOrigin_inv_init.
  - intros i st Hi IH Hle. apply maxOrigin_inv_step; [lia|]. apply IH. lia.
Qed.

Local Abbreviation kinv := (keep_inv score).

Lemma keep_inv_step mo n st :
  minv (length score) (Some mo) ->
  (n < length score)%nat ->
  kinv mo n st -> kinv mo (S n) (all_mark st (mo !!! n)).
Proof.
  intros (mo' & Hmo & Hl & Hna & Hroot & _) Hn (keep & -> & Hlk & Hk).
  injection Hmo as <-. unfold keep_inv, all_mark. unfold cell in *.
  destruct (Nat.eq_dec (origin !!! n) n) as [Heq|Hne].
  - destruct (Hroot n Hn Heq) as (b & Hb & Hbs & _).
    rewrite Hb.
    destruct (Z.eqb_spec (Z.of_nat b) NA_INTEGER) as [He|_];
      [now apply NA_not_index in He|].
    assert (Hrange : (0 <=? Z.of_nat b) && (Z.of_nat b <? Z.of_nat (length keep))
                     = true).
    { apply andb_true_iff. rewrite Z.leb_le, Z.ltb_lt. lia. }
    rewrite Hrange, Nat2Z.id.
    exists (<[b := true]> keep).
    split; [reflexivity|]. split; [now rewrite length_insert|].
    intros b' Hb'. destruct (Nat.eq_dec b' b) as [->|Hbb].
    + rewrite list_lookup_total_insert_eq by lia.
      split; [|reflexivity]. intros _. exists n. split; [lia|assumption].
    + rewrite list_lookup_total_insert_ne by lia. rewrite (Hk b' Hb').
      split.
      * intros (i & Hi & Hm). exists i. split; [lia|assumption].
      * intros (i & Hi & Hm). exists i. split; [|assumption].
        destruct (Nat.eq_dec i n) as [->|?]; [|lia].
        rewrite Hb in Hm. injection Hm as Hm. apply Nat2Z.inj in Hm. lia.
  - rewrite (Hna n Hn Hne). simpl.
    exists keep. split; [reflexivity|]. split; [assumption|].
    intros b' Hb'. rewrite (Hk b' Hb'). split.
    + intros (i & Hi & Hm). exists i. split; [lia|assumption].
    + intros (i & Hi & Hm). exists i. split; [|assumption].
      destruct (Nat.eq_dec i n) as [->|?]; [|lia].
      rewrite (Hna n Hn Hne) in Hm. injection Hm as Hm.
      symmetry in Hm. now apply NA_not_index in Hm.
Qed.

Lemma keep_inv_final mo :
  minv (length score) (Some mo) ->
  kinv mo (length score)
       (fold_left all_mark mo (Some (replicate (length score) false))).
Proof.
  intros Hmo.
  assert (Hl : length mo = length score).
  { destruct Hmo as (mo' & Hmo & Hl & _). now injection Hmo as <-. }
  rewrite fold_left_indices, Hl.
  apply (fold_left_seq_inv (fun st i => all_mark st (mo !!! i))
           (fun i st => (i <= length score)%nat -> kinv mo i st)
           (length score) 0%nat); [| |lia].
  - intros _. exists (replicate (length score) false).
    split; [reflexivity|]. split; [apply length_replicate|].
    intros b Hb. rewrite lookup_total_replicate_2 by lia.
    split; [discriminate|]. intros (i & Hi & _). lia.
  - intros i st Hi IH Hle. apply keep_inv_step; [assumption|lia|].
    apply IH. lia.
Qed.

(** Two representatives of one origin are the same hit. *)
Lemma representative_unique r r' :
  (r < length score)%nat -> (r' < length score)%nat ->
  representative origin score r -> representative origin score r' ->
  origin !!! r = origin !!! r' -> r = r'.
Proof.
  intros Hr Hr' (H1 & H2) (H1' & H2') Ho.
  destruct (Nat.lt_trichotomy r r') as [Hlt|[Heq|Hgt]]; [|assumption|].
  - specialize (H2' r Hlt Ho). specialize (H1 r' Hr' (eq_sym Ho)). congruence.
  - specialize (H2 r' Hgt (eq_sym Ho)). specialize (H1' r Hr Ho). congruence.
Qed.

(** C3 (amended).  For all chains the selector retains, for every origin,
    exactly one hit: the one with the highest score among the hits of
    that origin, and of several hits with that score the earliest. *)
Theorem C3_all_chains_representatives :
  dlt_order D ->
  exists res,
    select_all origin score = Some res /\
    StronglySorted lt res /\
    (forall r, In r res <->
               (r < length score)%nat /\ representative origin score r) /\
    (forall o, (o < length score)%nat -> origin !!! o = o ->
       exists r, In r res /\ origin !!! r = o /\
                 forall r', In r' res -> origin !!! r' = o -> r' = r).
Proof.
  intros Hord. unfold select_all, all_maxOrigin.
  pose proof (maxOrigin_inv_prefix (length score) (Nat.le_refl _)) as Hm.
  destruct Hm as (mo & Hmo & Hm). rewrite Hmo.
  assert (Hminv : minv (length score) (Some mo)) by (exists mo; auto).
  destruct (keep_inv_final mo Hminv) as (keep & Hkeep & Hlk & Hk).
  rewrite Hkeep.
  destruct Hm as (Hl & Hna & Hroot & _).
  assert (Hrep : forall r, In r (flagged keep) <->
                   (r < length score)%nat /\ representative origin score r).
  { intros r. rewrite in_flagged, Hlk. split.
    - intros (Hr & Hkr). split; [assumption|].
      apply (Hk r Hr) in Hkr. destruct Hkr as (i & Hi & Hmi).
      destruct (Nat.eq_dec (origin !!! i) i) as [Heq|Hne].
      + destruct (Hroot i Hi Heq) as (b & Hb & _ & Hob & Hbest).
        unfold cell in *. rewrite Hb in Hmi. injection Hmi as Hbr.
        apply Nat2Z.inj in Hbr. subst b.
        destruct (Hbest Hord) as (H1 & H2).
        split; intros j Hj Hoj; [apply H1|apply H2]; congruence.
      + unfold cell in *. rewrite (Hna i Hi Hne) in Hmi. injection Hmi as Hmi.
        symmetry in Hmi. now apply NA_not_index in Hmi.
    - intros (Hr & Hrepr). split; [assumption|].
      apply (Hk r Hr).
      destruct (Hok r ltac:(lia)) as (Hle & Hidem).
      destruct (Hroot (origin !!! r) ltac:(lia) Hidem)
        as (b & Hb & Hbs & Hob & Hbest).
      exists (origin !!! r). split; [lia|].
      assert (Hbrep : representative origin score b).
      { destruct (Hbest Hord) as (H1 & H2).
        split; intros j Hj Hoj; [apply H1|apply H2]; congruence. }
      rewrite (representative_unique r b Hr Hbs Hrepr Hbrep (eq_sym Hob)).
      rewrite Hob. exact Hb. }
  exists (flagged keep). split; [reflexivity|].
  split; [apply flagged_sorted|]. split; [exact Hrep|].
  intros o Ho Hoo.
  destruct (Hroot o Ho Hoo) as (b & Hb & Hbs & Hob & Hbest).
  assert (Hbrep : representative origin score b).
  { destruct (Hbest Hord) as (H1 & H2).
    split; intros j Hj Hoj; [apply H1|apply H2]; congruence. }
  exists b. split; [apply Hrep; auto|]. split; [assumption|].
  intros r' Hr' Hor'. apply Hrep in Hr'. destruct Hr' as (Hr's & Hr'rep).
  apply representative_unique; auto. congruence.
Qed.

(** What the first loop of the selector reads at hit [j]. *)
Lemma select_all_read j :
  (j < length score)%nat ->
  exists maxOrigin,
    fold_left body (seq 0 j) (Some (replicate (length score) None))
    = Some maxOrigin /\
    (origin !!! j <> j ->
     exists b, maxOrigin !!! (origin !!! j) = Some (Z.of_nat b) /\
               (b < j)%nat /\ Z.of_nat b <> NA_INTEGER).
Proof.
  intros Hj.
  destruct (maxOrigin_inv_prefix j ltac:(lia)) as (mo & Hmo & _ & _ & Hroot & _).
  exists mo. split; [assumption|]. intros Hne.
  destruct (Hok j ltac:(lia)) as (Hle & Hidem).
  destruct (Hroot (origin !!! j) ltac:(lia) Hidem) as (b & Hb & Hbj & _).
  exists b. split; [assumption|]. split; [assumption|apply NA_not_index].
Qed.

Lemma select_all_defined : exists res, select_all origin score = Some res.
Proof.
  unfold select_all, all_maxOrigin.
  pose proof (maxOrigin_inv_prefix (length score) (Nat.le_refl _)) as Hm.
  destruct Hm as (mo & Hmo & Hm). rewrite Hmo.
  assert (Hminv : minv (length score) (Some mo)) by (exists mo; auto).
  destruct (keep_inv_final mo Hminv) as (keep & Hkeep & _).
  rewrite Hkeep. eauto.
Qed.
End SelectAllFacts.

Lemma Z_dlt_order : dlt_order Z.
Proof.
  unfold dlt_order; simpl. repeat split.
  - intros a. apply Z.ltb_irrefl.
  - intros a b c. rewrite !Z.ltb_lt. lia.
  - intros a b c. rewrite !Z.ltb_ge. lia.
Qed.

Lemma C3_all_chains_representatives_witness :
  exists res,
    select_all [0; 1; 0; 1]%nat [3; 7; 5; 7] = Some res /\
    StronglySorted lt res /\
    (forall r, In r res <->
               (r < 4)%nat /\
               representative [0; 1; 0; 1]%nat [3; 7; 5; 7] r) /\
    (forall o, (o < 4)%nat -> [0; 1; 0; 1]%nat !!! o = o ->
       exists r, In r res /\ [0; 1; 0; 1]%nat !!! r = o /\
                 forall r', In r' res ->
                            [0; 1; 0; 1]%nat !!! r' = o -> r' = r).
Proof.
  apply (C3_all_chains_representatives [0; 1; 0; 1]%nat [3; 7; 5; 7]).
  - reflexivity.
  - intros j Hj. simpl in Hj.
    destruct j as [|[|[|[|j]]]]; [vm_compute; lia..|lia].
  - exact Z_dlt_order.
Defined.

(** Two hits of one origin with the same score: the earlier one is
    retained, not the later one. *)
Lemma C3_counterexample :
  select_all [0; 0]%nat [5; 5] = Some [0%nat] /\
  ~ ties_favour_later [0; 0]%nat [5; 5] [0%nat].
Proof.
  split; [reflexivity|].
  intros Hc. specialize (Hc 0%nat 1%nat). simpl in Hc.
  assert (Hf : (5 <? 5) = true).
  { apply Hc; [now left|lia|reflexivity|reflexivity]. }
  discriminate.
Qed.

(** * The origins after the chain DP *)

Section OriginsAfterDP.
Context {D : Type} `{ScoreOps D} `{Inhabited D}.
Variables (maxSep : Z) (gapCost sepCost : list D).
Variables (posQuery posTarget set len : list Z).

Local Abbreviation DP := (chainDP maxSep gapCost sepCost posQuery posTarget set len).

Lemma chainDP_lengths score0 :
  length (dp_score (DP score0)) = length score0 /\
  length (dp_chain (DP score0)) = length score0 /\
  length (dp_origin (DP score0)) = length score0 /\
  length (dp_cov (DP score0)) = length score0.
Proof.
  destruct (chainDP_inv maxSep gapCost sepCost posQuery posTarget set len score0)
    as (Hl & _). exact Hl.
Qed.

Lemma chainDP_origin_ok score0 : origin_ok (dp_origin (DP score0)).
Proof.
  destruct (chainDP_inv maxSep gapCost sepCost posQuery posTarget set len score0)
    as ((_ & _ & Hlo & _) & Hall & _).
  intros j Hj. rewrite Hlo in Hj. destruct (Hall j Hj) as (_ & Hle & Hidem).
  split; assumption.
Qed.

(** C10.  After the chain DP the origin of every hit is its own origin (and
    is not after the hit); hence, whatever the scores are by then, when the
    selector for all chains reads [maxOrigin[origin[j]]] for a hit [j]
    that is not its own origin, the first [j] iterations have succeeded
    and have left in that cell the subscript of an earlier hit, not NA. *)
Theorem C10_origin_idempotent (score0 : list D) :
  let origin := dp_origin (DP score0) in
  (forall j, (j < length score0)%nat ->
             origin !!! (origin !!! j) = origin !!! j /\
             (origin !!! j <= j)%nat)
  /\ (forall (score : list D) j,
         length score = length score0 -> (j < length score0)%nat ->
         exists maxOrigin,
           fold_left (all_body origin score) (seq 0 j)
                     (Some (replicate (length score) None))
           = Some maxOrigin /\
           (origin !!! j <> j ->
            exists b, maxOrigin !!! (origin !!! j) = Some (Z.of_nat b) /\
                      (b < j)%nat /\ Z.of_nat b <> NA_INTEGER))
  /\ (forall score : list D,
         length score = length score0 ->
         exists res, select_all origin score = Some res).
Proof.
  intros origin.
  pose proof (chainDP_origin_ok score0) as Hok. fold origin in Hok.
  destruct (chainDP_lengths score0) as (_ & _ & Hlo & _). fold origin in Hlo.
  split; [|split].
  - intros j Hj. destruct (Hok j ltac:(lia)). auto.
  - intros score j Hls Hj.
    apply select_all_read; [lia|assumption|lia].
  - intros score Hls. apply select_all_defined; [lia|assumption].
Qed.
End OriginsAfterDP.

(** * Anchor positions *)

Section AnchorFacts.
Variables (posQuery posTarget len : list Z) (chain : list nat).

Local Abbreviation qd := (quad posQuery posTarget len).
Local Abbreviation path := (chain_path chain).

(** The traceback ends when no predecessor is after its hit. *)
Lemma traceback_defined fuel p :
  (forall i, (i <= p)%nat -> (chain !!! i <= i)%nat) ->
  (p < fuel)%nat ->
  exists ps, traceback chain fuel p = Some ps /\ path p ps /\
             Forall (fun q => (q <= p)%nat) ps.
Proof.
  revert p. induction fuel as [|fuel IH]; intros p Hle Hp; [lia|].
  simpl. destruct (Nat.eqb_spec p (chain !!! p)) as [Heq|Hne].
  - exists [p]. split; [reflexivity|]. split; [constructor; congruence|].
    constructor; [lia|constructor].
  - pose proof (Hle p (Nat.le_refl _)) as Hcp.
    destruct (IH (chain !!! p)) as (ps & Hps & Hpath & Hall).
    + intros i Hi. apply Hle. lia.
    + lia.
    + rewrite Hps. exists (p :: ps). split; [reflexivity|].
      split; [constructor; [congruence|assumption]|].
      constructor; [lia|].
      eapply Forall_impl; [exact Hall|]. simpl. intros q Hq. lia.
Qed.

Lemma flat_quads_lookup (ps : list nat) (i t : nat) :
  (i < length ps)%nat -> (t < 4)%nat ->
  flat_map qd ps !!! (4 * i + t)%nat = qd (ps !!! i) !!! t.
Proof.
  revert i. induction ps as [|p ps IH]; intros i Hi Ht; simpl in Hi; [lia|].
  destruct i as [|i].
  - simpl. destruct t as [|[|[|[|t]]]]; try reflexivity. lia.
  - replace (4 * S i + t)%nat with (S (S (S (S (4 * i + t))))) by lia.
    change (flat_map qd (p :: ps))
      with (qd p ++ flat_map qd ps).
    unfold quad at 1.
    change ((p :: ps) !!! S i) with (ps !!! i).
    rewrite <- IH by lia. reflexivity.
Qed.

Lemma length_flat_quads (ps : list nat) :
  length (flat_map qd ps) = (4 * length ps)%nat.
Proof.
  induction ps as [|p ps IH]; [reflexivity|].
  change (flat_map qd (p :: ps)) with (qd p ++ flat_map qd ps).
  rewrite length_app, IH. simpl. lia.
Qed.

Lemma map_lookup_seq_from (ps : list nat) (a : nat) :
  map (fun c => ps !!! (c - a)%nat) (seq a (length ps)) = ps.
Proof.
  revert a. induction ps as [|p ps IH]; intros a; [reflexivity|].
  simpl length. simpl seq. simpl map. rewrite Nat.sub_diag. f_equal.
  rewrite <- (IH (S a)) at 2. apply map_ext_in. intros c Hc.
  apply in_seq in Hc. replace (c - a)%nat with (S (c - S a)) by lia.
  reflexivity.
Qed.

Lemma map_lookup_seq (ps : list nat) :
  map (fun c => ps !!! (c - 1)%nat) (seq 1 (length ps)) = ps.
Proof. apply map_lookup_seq_from. Qed.

(** Lines 674-684 undo the order of lines 540-552. *)
Lemma anchor_matrix_rev (ps : list nat) :
  anchor_matrix (Z.of_nat (length ps) :: flat_map qd ps)
  = flat_map qd (rev ps).
Proof.
  unfold anchor_matrix.
  change ((Z.of_nat (length ps) :: flat_map qd ps) !!! 0%nat)
    with (Z.of_nat (length ps)).
  rewrite Nat2Z.id.
  assert (E : rev ps = map (fun c => ps !!! (c - 1)%nat)
                           (rev (seq 1 (length ps))))
    by (rewrite map_rev, map_lookup_seq; reflexivity).
  rewrite E, !flat_map_concat_map, map_map. f_equal.
  apply map_ext_in. intros c Hc. apply in_rev, in_seq in Hc.
  replace (4 * c - 3)%nat with (S (4 * (c - 1) + 0)) by lia.
  replace (4 * c - 2)%nat with (S (4 * (c - 1) + 1)) by lia.
  replace (4 * c - 1)%nat with (S (4 * (c - 1) + 2)) by lia.
  replace (4 * c)%nat with (S (4 * (c - 1) + 3)) at 1 by lia.
  repeat match goal with
         | |- context [(?x :: ?l) !!! S ?n] =>
             change ((x :: l) !!! S n) with (l !!! n)
         end.
  rewrite <- !flat_map_concat_map.
  rewrite !flat_quads_lookup by lia. reflexivity.
Qed.
End AnchorFacts.

Lemma StronglySorted_rev {A} (R : A -> A -> Prop) (l : list A) :
  StronglySorted R l -> StronglySorted (fun x y => R y x) (rev l).
Proof.
  induction 1 as [|x l Hl IH Hx]; simpl; [constructor|].
  assert (Happ : forall l1 l2,
             StronglySorted (fun x y => R y x) l1 ->
             StronglySorted (fun x y => R y x) l2 ->
             (forall a b, In a l1 -> In b l2 -> R b a) ->
             StronglySorted (fun x y => R y x) (l1 ++ l2)).
  { induction l1 as [|a l1 IH1]; intros l2 H1 H2 H12; simpl; [assumption|].
    inversion H1; subst. constructor.
    - apply IH1; auto. intros; apply H12; simpl; auto.
    - apply List.Forall_forall. intros b Hb. apply in_app_or in Hb.
      destruct Hb as [Hb|Hb].
      + rewrite List.Forall_forall in H4. auto.
      + apply H12; simpl; auto. }
  apply Happ; [assumption|repeat constructor|].
  intros a b Ha [<-|[]]. apply in_rev in Ha.
  rewrite List.Forall_forall in Hx. auto.
Qed.

Section AnchorsAfterDP.
Context {D : Type} `{ScoreOps D} `{Inhabited D}.
Variables (maxSep : Z) (gapCost sepCost : list D).
Variables (posQuery posTarget set len : list Z).

Local Abbreviation DP := (chainDP maxSep gapCost sepCost posQuery posTarget set len).
Local Abbreviation qd := (quad posQuery posTarget len).

Lemma chainDP_chain_le score0 i :
  (i < length score0)%nat -> (dp_chain (DP score0) !!! i <= i)%nat.
Proof.
  intros Hi.
  destruct (chainDP_inv maxSep gapCost sepCost posQuery posTarget set len score0)
    as (_ & Hall & _).
  destruct (Hall i Hi) as ([(Hc & _)|(p & Hp & Hc & _)] & _); lia.
Qed.

(** Along a chain the query positions decrease and the origin is kept. *)
Lemma chainDP_path score0 r ps :
  (forall i, (i < length score0)%nat -> 0 < len !!! i) ->
  (r < length score0)%nat ->
  chain_path (dp_chain (DP score0)) r ps ->
  List.last ps r = dp_origin (DP score0) !!! r /\
  StronglySorted Z.gt (map (fun p => posQuery !!! p) ps) /\
  Forall (fun p => posQuery !!! p <= posQuery !!! r) ps.
Proof.
  intros Hlen Hr Hpath.
  destruct (chainDP_inv maxSep gapCost sepCost posQuery posTarget set len score0)
    as (_ & Hall & _).
  induction Hpath as [p Hend|p ps Hne Hpath IH].
  - destruct (Hall p Hr) as ([(_ & Ho & _)|(q & Hq & Hc & _)] & _); [|lia].
    simpl. split; [auto|]. split; repeat constructor. lia.
  - destruct (Hall p Hr) as ([(Hc & _)|(q & Hq & Hc & (_ & HQ) & Ho & _)] & _);
      [contradiction|].
    rewrite Hc in *.
    destruct (IH ltac:(lia)) as (Hlast & Hsorted & Hall').
    assert (Hlt : posQuery !!! q < posQuery !!! p).
    { unfold deltaQ in HQ. specialize (Hlen q ltac:(lia)). lia. }
    split; [|split].
    + rewrite Ho, <- Hlast.
      assert (Hd : forall (l : list nat) d d', l <> [] ->
                                               List.last l d = List.last l d').
      { induction l as [|x [|y l] IHl]; intros d d' Hn; try reflexivity.
        - contradiction.
        - apply IHl. discriminate. }
      assert (Hps : ps <> []) by (inversion Hpath; discriminate).
      destruct ps as [|x l]; [contradiction|].
      change (List.last (p :: x :: l) p) with (List.last (x :: l) p).
      apply Hd. discriminate.
    + simpl. constructor; [assumption|].
      apply List.Forall_forall. intros x Hx. apply in_map_iff in Hx.
      destruct Hx as (y & <- & Hy).
      rewrite Forall_forall in Hall'. apply list_elem_of_In in Hy.
      specialize (Hall' y Hy). simpl in Hall'. lia.
    + constructor; [lia|].
      eapply Forall_impl; [exact Hall'|]. simpl. intros y Hy. lia.
Qed.

(** For every hit [r] of the DP the traceback from [r] ends; it visits
    the hits [ps] from [r] back to the origin of [r]; the buffer holds
    their number and their quadruples in that order, and the matrix holds
    the quadruples in the reverse order, by strictly increasing query
    position. *)
Lemma traceback_matrix (score0 : list D) (r : nat) :
  (forall i, (i < length score0)%nat -> 0 < len !!! i) ->
  (r < length score0)%nat ->
  let st := DP score0 in
  exists ps,
    chain_path (dp_chain st) r ps /\
    List.last ps r = dp_origin st !!! r /\
    anchor_of posQuery posTarget len (dp_chain st) r
    = Some (Z.of_nat (length ps) :: flat_map qd ps) /\
    anchor_matrix (Z.of_nat (length ps) :: flat_map qd ps)
    = flat_map qd (rev ps) /\
    length (flat_map qd (rev ps)) = (4 * length ps)%nat /\
    StronglySorted Z.lt (map (fun p => posQuery !!! p) (rev ps)).
Proof.
  intros Hlen Hr st.
  destruct (chainDP_lengths maxSep gapCost sepCost posQuery posTarget set len
              score0) as (_ & Hlc & _).
  destruct (traceback_defined (dp_chain st) (S (length (dp_chain st))) r)
    as (ps & Htb & Hpath & Hle).
  { intros i Hi. apply chainDP_chain_le. lia. }
  { fold st in Hlc. lia. }
  destruct (chainDP_path score0 r ps Hlen Hr Hpath) as (Hlast & Hsorted & _).
  exists ps. split; [assumption|]. split; [assumption|].
  split; [unfold anchor_of; now rewrite Htb|].
  split; [apply anchor_matrix_rev|]. split.
  - rewrite length_flat_quads, length_rev. reflexivity.
  - rewrite map_rev.
    apply (StronglySorted_rev Z.gt) in Hsorted.
    eapply StronglySorted_ind with (P := StronglySorted Z.lt);
      [constructor| |exact Hsorted].
    intros a l Hl IHl Ha. constructor; [assumption|].
    eapply List.Forall_impl; [|exact Ha]. simpl. intros b Hb. lia.
Qed.
End AnchorsAfterDP.

(** * The hit counter *)

Lemma wrap32_small z : -2147483648 <= z <= 2147483647 -> wrap32 z = z.
Proof.
  intros Hz. unfold wrap32. rewrite Z.mod_small by lia. lia.
Qed.

Lemma wrap32_over z :
  2147483647 < z <= 4294967294 -> wrap32 z = z - 4294967296.
Proof.
  intros Hz. unfold wrap32.
  replace (z + 2147483648) with ((z - 2147483648) + 1 * 4294967296) by lia.
  rewrite Z_mod_plus_full, Z.mod_small by lia. lia.
Qed.

Lemma query_hits_cons num wj w :
  query_hits num (wj :: w)
  = (if wj =? NA_INTEGER then 0 else num !!! Z.to_nat wj) + query_hits num w.
Proof. reflexivity. Qed.

Lemma query_hits_nonneg num w :
  Forall (fun c => 0 <= c <= INT_MAX) num -> 0 <= query_hits num w.
Proof.
  intros Hnum. induction w as [|wj w IH]; [simpl; lia|].
  rewrite query_hits_cons.
  destruct (wj =? NA_INTEGER); [lia|].
  assert (0 <= num !!! Z.to_nat wj <= INT_MAX); [|lia].
  destruct (Nat.lt_ge_cases (Z.to_nat wj) (length num)) as [Hlt|Hge].
  - rewrite Forall_forall in Hnum. apply Hnum.
    apply list_elem_of_lookup_total_2. assumption.
  - rewrite list_lookup_total_alt, lookup_ge_None_2 by lia.
    simpl. unfold INT_MAX. lia.
Qed.

Lemma num_range num c :
  Forall (fun c => 0 <= c <= INT_MAX) num -> 0 <= num !!! c <= INT_MAX.
Proof.
  intros Hnum.
  destruct (Nat.lt_ge_cases c (length num)) as [Hlt|Hge].
  - rewrite Forall_forall in Hnum. apply Hnum.
    apply list_elem_of_lookup_total_2. assumption.
  - rewrite list_lookup_total_alt, lookup_ge_None_2 by lia.
    simpl. unfold INT_MAX. lia.
Qed.

(** The test [s < 0] detects exactly the totals beyond [INT_MAX]. *)
Lemma count_targets_overflow num w s :
  Forall (fun c => 0 <= c <= INT_MAX) num ->
  0 <= s <= INT_MAX ->
  (exists n, s + query_hits num (take n w) > INT_MAX) ->
  count_targets num w s = None.
Proof.
  intros Hnum. revert s. induction w as [|wj w IH]; intros s Hs (n & Hn).
  - rewrite take_nil in Hn. simpl in Hn. lia.
  - destruct n as [|n]; [simpl in Hn; lia|].
    rewrite firstn_cons, query_hits_cons in Hn. simpl count_targets.
    destruct (wj =? NA_INTEGER).
    + rewrite (IH s Hs); [reflexivity|]. exists n. lia.
    + pose proof (num_range num (Z.to_nat wj) Hnum) as Hc.
      unfold INT_MAX in *.
      destruct (Z_le_gt_dec (s + num !!! Z.to_nat wj) 2147483647) as [Hle|Hgt].
      * rewrite wrap32_small by lia.
        destruct (Z.ltb_spec (s + num !!! Z.to_nat wj) 0); [lia|].
        rewrite IH; [reflexivity|lia|]. exists n. lia.
      * rewrite wrap32_over by lia.
        destruct (Z.ltb_spec (s + num !!! Z.to_nat wj - 4294967296) 0);
          [reflexivity|lia].
Qed.

Lemma count_targets_exact num w s :
  Forall (fun c => 0 <= c <= INT_MAX) num ->
  0 <= s ->
  s + query_hits num w <= INT_MAX ->
  exists counts,
    count_targets num w s = Some (counts, s + query_hits num w) /\
    length counts = length w.
Proof.
  intros Hnum. revert s. induction w as [|wj w IH]; intros s Hs Hle.
  - exists []. simpl. rewrite Z.add_0_r. auto.
  - rewrite query_hits_cons in *. simpl count_targets.
    pose proof (query_hits_nonneg num w Hnum) as Hq.
    destruct (wj =? NA_INTEGER).
    + destruct (IH s Hs ltac:(lia)) as (counts & Hc & Hl).
      rewrite Hc. exists (0 :: counts). simpl. split; [|lia].
      do 2 f_equal.
    + pose proof (num_range num (Z.to_nat wj) Hnum) as Hc.
      unfold INT_MAX in *.
      rewrite wrap32_small by lia.
      destruct (Z.ltb_spec (s + num !!! Z.to_nat wj) 0); [lia|].
      assert (Hle' : s + num !!! Z.to_nat wj + query_hits num w <= 2147483647)
        by lia.
      destruct (IH (s + num !!! Z.to_nat wj) H Hle') as (counts & Hcs & Hl).
      rewrite Hcs. exists (num !!! Z.to_nat wj :: counts). simpl.
      split; [|lia]. do 2 f_equal. lia.
Qed.

(** * The loop over the queries *)

Lemma combine_seq_app {A} (l1 l2 : list A) (a : nat) :
  combine (seq a (length (l1 ++ l2))) (l1 ++ l2)
  = combine (seq a (length l1)) l1
    ++ combine (seq (a + length l1) (length l2)) l2.
Proof.
  revert a. induction l1 as [|x l1 IH]; intros a; simpl.
  - now rewrite Nat.add_0_r.
  - rewrite IH.
    replace (a + S (length l1))%nat with (S a + length l1)%nat by lia.
    reflexivity.
Qed.

Section Driver.
Context {D : Type} `{ScoreOps D} `{Inhabited D}.
Variables (K step : Z) (num loc ind pos : list Z).
Variables (scores addScores : list D).
Variables (maxSep : Z) (gapCost sepCost : list D).
Variables (type : Z) (tot : D) (minS : option D) (sO : bool).
Variable check : nat -> option Z.

Local Abbreviation body :=
  (driver_body K step num loc ind pos scores addScores maxSep gapCost sepCost
               type tot minS sO check).
Local Abbreviation run :=
  (run_queries K step num loc ind pos scores addScores maxSep gapCost sepCost
               type tot minS sO check).
Local Abbreviation search :=
  (searchIndex K step num loc ind pos scores addScores maxSep gapCost sepCost
               type tot minS sO check).

(** Once [abort] is set no query is run and [abort] keeps its value. *)
Lemma driver_aborted (l : list (nat * list Z)) abort out :
  abort <> 0 ->
  fold_left body l (Some (abort, out))
  = Some (abort, out ++ replicate (length l) empty_result).
Proof.
  intros Hab. revert out. induction l as [|[i w] l IH]; intros out; simpl.
  - now rewrite app_nil_r.
  - destruct (Z.eqb_spec abort 0) as [?|_]; [contradiction|].
    rewrite IH, <- app_assoc. reflexivity.
Qed.

(** A query whose hit counter overflows sets [abort] to its number. *)
Lemma search_query_overflow w :
  Forall (fun c => 0 <= c <= INT_MAX) num ->
  (exists n, query_hits num (take n w) > INT_MAX) ->
  search_query K step num loc ind pos scores addScores maxSep gapCost sepCost
               type tot minS sO w = QAbort.
Proof.
  intros Hnum (n & Hn). unfold search_query.
  rewrite (count_targets_overflow num w 0 Hnum); [reflexivity| |].
  - unfold INT_MAX; lia.
  - exists n. lia.
Qed.

(** The counts of the index are non-negative [int]s.  If the exact number
    of hits of some prefix of the k-mers of query [i] (0-based) exceeds
    [INT_MAX], and [abort] is still 0 when that query is reached, then the
    loop run in order ends with [abort = i + 1]. *)
Lemma overflow_fatal_in_order (query : list (list Z)) (i : nat)
      (w : list Z) (out : list (qresult D)) :
  Forall (fun c => 0 <= c <= INT_MAX) num ->
  query !! i = Some w ->
  (exists n, query_hits num (take n w) > INT_MAX) ->
  run (take i query) = Some (0, out) ->
  search query = Some (TooManyHits (Z.of_nat i + 1)).
Proof.
  intros Hnum Hw Hover Hrun.
  pose proof (lookup_lt_Some _ _ _ Hw) as Hi.
  assert (Hsplit : query = take i query ++ w :: drop (S i) query).
  { rewrite <- (take_drop_middle query i w Hw) at 1. reflexivity. }
  unfold searchIndex, run_queries, indexed.
  rewrite Hsplit at 1 2. rewrite combine_seq_app, fold_left_app.
  unfold run_queries, indexed in Hrun. rewrite Hrun.
  simpl. rewrite (search_query_overflow w Hnum Hover).
  rewrite length_take_le by lia.
  rewrite driver_aborted by lia.
  destruct (Z.eqb_spec (Z.of_nat i + 1) 0) as [?|_]; [lia|]. simpl.
  destruct (Z.ltb_spec (Z.of_nat i + 1) 0) as [?|_]; [lia|]. reflexivity.
Qed.
End Driver.

(** * Building the index *)

Lemma fold_left_filter {A B} (p : B -> bool) (f : A -> B -> A) (l : list B) init :
  fold_left (fun st x => if p x then f st x else st) l init
  = fold_left f (List.filter p l) init.
Proof.
  revert init. induction l as [|x l IH]; intros init; simpl; [reflexivity|].
  destruct (p x); simpl; apply IH.
Qed.

Lemma fold_left_map {A B C} (g : B -> C) (f : A -> C -> A) (l : list B) init :
  fold_left (fun st x => f st (g x)) l init = fold_left f (map g l) init.
Proof.
  revert init. induction l as [|x l IH]; intros init; simpl; [reflexivity|].
  apply IH.
Qed.

Lemma fold_left_flat_map {A B C} (g : B -> list C) (f : A -> C -> A)
      (l : list B) init :
  fold_left (fun st x => fold_left f (g x) st) l init
  = fold_left f (flat_map g l) init.
Proof.
  revert init. induction l as [|x l IH]; intros init; simpl; [reflexivity|].
  rewrite fold_left_app. apply IH.
Qed.

(** ** [countIndex] counts the events of every k-mer *)

Lemma count_seq_events s rans kmers c :
  count_seq s rans kmers
  = fold_left bump (map ev_code (seq_events s c kmers)) rans.
Proof.
  unfold count_seq, seq_events, unmasked_strided.
  generalize (stride s (length kmers)). intros js. revert rans.
  induction js as [|j js IH]; intros rans; simpl; [reflexivity|].
  destruct (kmers !!! j =? NA_INTEGER); simpl; apply IH.
Qed.

Lemma countIndex_events_from num query s c0 a :
  fold_left (count_seq s) query num
  = fold_left bump
      (map ev_code
           (flat_map (fun ik => seq_events s (Z.of_nat c0 + Z.of_nat (fst ik) + 1)
                                           (snd ik))
                     (combine (seq a (length query)) query)))
      num.
Proof.
  revert num a. induction query as [|kmers query IH]; intros num a; simpl;
    [reflexivity|].
  rewrite map_app, fold_left_app, <- count_seq_events. apply IH.
Qed.

Lemma countIndex_events num query s c0 :
  countIndex num query s
  = fold_left bump (map ev_code (corpus_events s c0 query)) num.
Proof. apply countIndex_events_from. Qed.

Lemma bump_count (ks : list nat) (rans : list Z) (c : nat) :
  (c < length rans)%nat ->
  fold_left bump ks rans !!! c
  = rans !!! c + Z.of_nat (count_occ Nat.eq_dec ks c).
Proof.
  revert rans. induction ks as [|k ks IH]; intros rans Hc; simpl; [lia|].
  rewrite IH by (unfold bump; now rewrite length_insert).
  unfold bump. destruct (Nat.eq_dec k c) as [->|Hne].
  - rewrite list_lookup_total_insert_eq by lia. lia.
  - rewrite list_lookup_total_insert_ne by lia. lia.
Qed.

Lemma bump_length (ks : list nat) (rans : list Z) :
  length (fold_left bump ks rans) = length rans.
Proof.
  revert rans. induction ks as [|k ks IH]; intros rans; simpl; [reflexivity|].
  rewrite IH. unfold bump. apply length_insert.
Qed.

(** ** [updateIndex] on [offset] and [index] is a loop over the events *)

Lemma index_write_events c kmers (js : list nat) st :
  off_ind (fold_left (index_write c kmers) js st)
  = fold_left write_event
      (map (fun j => (Z.to_nat (kmers !!! j), c, Z.of_nat j + 1))
           (List.filter (fun j => negb (kmers !!! j =? NA_INTEGER)) js))
      (off_ind st).
Proof.
  revert st. induction js as [|j js IH]; intros st; simpl; [reflexivity|].
  rewrite IH. unfold index_write.
  destruct (kmers !!! j =? NA_INTEGER); simpl; reflexivity.
Qed.

Lemma update_seq_events K s c0 st i kmers :
  off_ind (update_seq K s c0 st (i, kmers))
  = fold_left write_event
      (seq_events s (Z.of_nat c0 + Z.of_nat i + 1) kmers) (off_ind st).
Proof.
  unfold update_seq. rewrite index_write_events. reflexivity.
Qed.

Lemma updateIndex_events_from K s c0 (query : list (list Z)) a st :
  off_ind (fold_left (update_seq K s c0)
                     (combine (seq a (length query)) query) st)
  = fold_left write_event
      (flat_map (fun ik => seq_events s (Z.of_nat c0 + Z.of_nat (fst ik) + 1)
                                      (snd ik))
                (combine (seq a (length query)) query))
      (off_ind st).
Proof.
  revert a st. induction query as [|kmers query IH]; intros a st;
    [reflexivity|].
  cbn [length seq combine flat_map fold_left fst snd].
  rewrite fold_left_app, IH, update_seq_events. reflexivity.
Qed.

Lemma updateIndex_events offset query K s location index positions c0 :
  off_ind (updateIndex offset query K s location index positions c0)
  = fold_left write_event (corpus_events s c0 query) (offset, index).
Proof. apply updateIndex_events_from. Qed.

(** ** Slices of an array *)

Lemma slice_lookup {A} (l : list A) (a b i : nat) :
  slice l a b !! i = if decide (i < b - a)%nat then l !! (a + i)%nat else None.
Proof.
  unfold slice. destruct (decide (i < b - a)%nat) as [Hlt|Hge].
  - rewrite lookup_take_lt by lia. apply lookup_drop.
  - apply lookup_take_ge. lia.
Qed.

Lemma slice_insert_outside {A} (l : list A) (a b o : nat) x :
  (o < a \/ b <= o)%nat -> slice (<[o := x]> l) a b = slice l a b.
Proof.
  intros Ho. apply list_eq. intros i. rewrite !slice_lookup.
  destruct (decide (i < b - a)%nat); [|reflexivity].
  apply list_lookup_insert_ne. lia.
Qed.

Lemma slice_insert_end {A} (l : list A) (a n : nat) x :
  (a + n < length l)%nat ->
  slice (<[(a + n)%nat := x]> l) a (a + n + 1) = slice l a (a + n) ++ [x].
Proof.
  intros Hl. apply list_eq. intros i. rewrite slice_lookup.
  assert (Hsl : length (slice l a (a + n)) = n).
  { unfold slice. rewrite length_take, length_drop. lia. }
  destruct (decide (i < a + n + 1 - a)%nat) as [Hlt|Hge].
  - destruct (Nat.eq_dec i n) as [->|Hne].
    + rewrite list_lookup_insert_eq by lia.
      rewrite lookup_app_r by lia. rewrite Hsl, Nat.sub_diag. reflexivity.
    + rewrite list_lookup_insert_ne by lia.
      rewrite lookup_app_l by lia. rewrite slice_lookup.
      destruct (decide (i < a + n - a)%nat); [reflexivity|lia].
  - symmetry. apply lookup_ge_None_2. rewrite length_app, Hsl. simpl. lia.
Qed.

Lemma slice_empty {A} (l : list A) (a : nat) : slice l a a = [].
Proof. unfold slice. now rewrite Nat.sub_diag. Qed.

(** An array is the concatenation of its consecutive slices. *)
Lemma slices_concat {A} (l : list A) (f : nat -> nat) (L : nat) :
  flat_map (fun c => slice l (prefix_sum f c) (prefix_sum f (S c))) (seq 0 L)
  = take (prefix_sum f L) l.
Proof.
  induction L as [|L IH]; [reflexivity|].
  rewrite seq_S, flat_map_app, IH. simpl. rewrite app_nil_r.
  unfold slice.
  replace (prefix_sum f L + f L - prefix_sum f L)%nat with (f L) by lia.
  apply take_take_drop.
Qed.

(** ** Writing the events fills every bucket in order *)

Lemma prefix_sum_mono f a b : (a <= b)%nat -> (prefix_sum f a <= prefix_sum f b)%nat.
Proof.
  induction 1 as [|b Hab IH]; [lia|]. simpl. lia.
Qed.

Lemma code_count_app es1 es2 c :
  code_count (es1 ++ es2) c = (code_count es1 c + code_count es2 c)%nat.
Proof. unfold code_count. now rewrite map_app, count_occ_app. Qed.

Lemma code_count_cons e es c :
  code_count (e :: es) c
  = ((if (ev_code e =? c)%nat then 1 else 0) + code_count es c)%nat.
Proof.
  unfold code_count. simpl.
  destruct (Nat.eq_dec (ev_code e) c), (Nat.eqb_spec (ev_code e) c);
    try contradiction; reflexivity.
Qed.

Lemma code_targets_cons e es c :
  code_targets (e :: es) c
  = (if (ev_code e =? c)%nat then [ev_target e] else []) ++ code_targets es c.
Proof.
  unfold code_targets. simpl. destruct (ev_code e =? c)%nat; reflexivity.
Qed.

Lemma code_targets_app es1 es2 c :
  code_targets (es1 ++ es2) c = code_targets es1 c ++ code_targets es2 c.
Proof. unfold code_targets. now rewrite List.filter_app, map_app. Qed.

Section WriteEvents.
Variables (L : nat) (events : list (nat * Z * Z)).
Hypothesis Hcodes : Forall (fun e => (ev_code e < L)%nat) events.

Local Abbreviation f := (code_count events).
Local Abbreviation start := (prefix_sum (code_count events)).
Local Abbreviation inv := (index_inv L start (start L)).

Lemma index_inv_step done e rest st :
  events = done ++ e :: rest ->
  inv done st -> inv (done ++ [e]) (write_event st e).
Proof.
  intros Hev. destruct st as [off ind]. intros (Hlo & Hli & Hall).
  destruct e as [[k t] loc]. unfold write_event, ev_code, ev_target; simpl.
  assert (Hk : (k < L)%nat).
  { rewrite Forall_forall in Hcodes.
    apply (Hcodes (k, t, loc)). rewrite Hev.
    apply list_elem_of_In, in_or_app. right. now left. }
  assert (Hfk : (code_count done k < f k)%nat).
  { rewrite Hev, code_count_app, code_count_cons.
    change (ev_code (k, t, loc)) with k. rewrite Nat.eqb_refl. lia. }
  assert (Hfc : forall c, (code_count done c <= f c)%nat).
  { intros c. rewrite Hev, code_count_app. lia. }
  destruct (Hall k Hk) as (Hoffk & Hslk).
  rewrite Hoffk, Nat2Z.id.
  assert (Hend : forall c, (c < L)%nat -> (start c + f c <= start L)%nat).
  { intros c Hc. change (start c + f c)%nat with (start (S c)).
    apply prefix_sum_mono. lia. }
  split; [now rewrite length_insert|]. split; [now rewrite length_insert|].
  intros c Hc. destruct (Hall c Hc) as (Hoffc & Hslc).
  rewrite code_count_app, code_targets_app.
  rewrite code_count_cons, code_targets_cons.
  change (ev_code (k, t, loc)) with k. change (ev_target (k, t, loc)) with t.
  change (code_count [] c) with 0%nat. change (code_targets [] c) with (@nil Z).
  destruct (Nat.eq_dec k c) as [->|Hne].
  - rewrite Nat.eqb_refl. simpl. split.
    + rewrite list_lookup_total_insert_eq by lia. lia.
    + replace (start c + (code_count done c + 1))%nat
        with (start c + code_count done c + 1)%nat by lia.
      rewrite slice_insert_end by (specialize (Hend c Hc); lia).
      now rewrite Hslc.
  - destruct (Nat.eqb_spec k c) as [?|_]; [contradiction|]. simpl.
    rewrite Nat.add_0_r, app_nil_r. split.
    + rewrite list_lookup_total_insert_ne by lia. assumption.
    + rewrite slice_insert_outside; [assumption|].
      specialize (Hfc c).
      destruct (Nat.lt_ge_cases k c) as [Hlt|Hge].
      * left. assert (start (S k) <= start c)%nat
          by (apply prefix_sum_mono; lia).
        simpl in *. lia.
      * right. assert (start (S c) <= start k)%nat
          by (apply prefix_sum_mono; lia).
        simpl in *. lia.
Qed.

Lemma index_inv_fold rest done st :
  events = done ++ rest ->
  inv done st -> inv events (fold_left write_event rest st).
Proof.
  revert done st. induction rest as [|e rest IH]; intros done st Hev Hinv.
  - rewrite app_nil_r in Hev. subst done. exact Hinv.
  - simpl. apply (IH (done ++ [e])).
    + rewrite <- app_assoc. exact Hev.
    + eapply index_inv_step; eauto.
Qed.

(** The events of all k-mers below [L], k-mer by k-mer, are the events. *)
Lemma events_by_code :
  Permutation
    (flat_map (fun c => List.filter (fun e => (ev_code e =? c)%nat) events)
              (seq 0 L))
    events.
Proof.
  assert (Hgen : forall n es,
             Permutation
               (flat_map (fun c => List.filter (fun e => (ev_code e =? c)%nat) es)
                         (seq 0 n))
               (List.filter (fun e => (ev_code e <? n)%nat) es)).
  { induction n as [|n IH]; intros es.
    - simpl. induction es; simpl; auto.
    - rewrite seq_S, flat_map_app, IH. simpl. rewrite app_nil_r.
      induction es as [|e es IHes]; simpl; [constructor|].
      destruct (Nat.ltb_spec (ev_code e) n), (Nat.eqb_spec (ev_code e) n),
        (Nat.ltb_spec (ev_code e) (S n)); try lia; simpl.
      + now constructor.
      + rewrite <- Permutation_middle. now constructor.
      + assumption. }
  rewrite Hgen.
  assert (Hall : List.filter (fun e => (ev_code e <? L)%nat) events = events).
  { clear Hgen. induction events as [|e es IH]; simpl; [reflexivity|].
    inversion Hcodes; subst.
    destruct (Nat.ltb_spec (ev_code e) L); [|lia]. f_equal. now apply IH. }
  now rewrite Hall.
Qed.

(** After all the events [index] is a rearrangement of their targets, and
    every [offset] has advanced by the number of events of its k-mer. *)
Lemma write_events_final off ind :
  index_inv L start (start L) [] (off, ind) ->
  let '(off', ind') := fold_left write_event events (off, ind) in
  (forall c, (c < L)%nat -> off' !!! c = off !!! c + Z.of_nat (f c)) /\
  Permutation ind' (map ev_target events).
Proof.
  intros Hinit.
  pose proof (index_inv_fold events [] (off, ind) eq_refl Hinit) as Hfin.
  destruct (fold_left write_event events (off, ind)) as [off' ind'].
  destruct Hfin as (Hlo & Hli & Hall).
  destruct Hinit as (_ & _ & Hall0).
  split.
  - intros c Hc. destruct (Hall c Hc) as (-> & _).
    destruct (Hall0 c Hc) as (-> & _).
    change (code_count [] c) with 0%nat. lia.
  - assert (Hind : ind' = flat_map (code_targets events) (seq 0 L)).
    { rewrite <- (take_ge ind' (start L)) at 1 by lia.
      rewrite <- slices_concat.
      rewrite !flat_map_concat_map. f_equal. apply map_ext_in.
      intros c Hc. apply in_seq in Hc.
      destruct (Hall c ltac:(lia)) as (_ & Hsl). exact Hsl. }
    rewrite Hind.
    apply Permutation_trans
      with (map ev_target
                (flat_map (fun c => List.filter
                                      (fun e => (ev_code e =? c)%nat) events)
                          (seq 0 L))).
    + unfold code_targets.
      rewrite !flat_map_concat_map, concat_map, map_map. reflexivity.
    + apply Permutation_map, events_by_code.
Qed.
End WriteEvents.

(** ** Offsets are prefix sums of the counts *)

Lemma offsets_from_lookup (num : list Z) (acc : Z) (c : nat) :
  (c < length num)%nat ->
  offsets_from acc num !!! c = acc + fold_right Z.add 0 (take c num).
Proof.
  revert acc c. induction num as [|n num IH]; intros acc c Hc; simpl in Hc;
    [lia|].
  destruct c as [|c]; simpl.
  - rewrite Z.add_0_r. reflexivity.
  - change ((acc :: offsets_from (acc + n) num) !!! S c)
      with (offsets_from (acc + n) num !!! c).
    rewrite IH by lia. lia.
Qed.

Lemma offsets_from_length (num : list Z) (acc : Z) :
  length (offsets_from acc num) = length num.
Proof.
  revert acc. induction num as [|n num IH]; intros acc; simpl; [reflexivity|].
  now rewrite IH.
Qed.

Lemma fold_right_add_app (l1 l2 : list Z) :
  fold_right Z.add 0 (l1 ++ l2) = fold_right Z.add 0 l1 + fold_right Z.add 0 l2.
Proof. induction l1 as [|x l1 IH]; simpl; lia. Qed.

Lemma sum_take_prefix (counts : list Z) (f : nat -> nat) (c : nat) :
  (c <= length counts)%nat ->
  (forall c', (c' < c)%nat -> counts !!! c' = Z.of_nat (f c')) ->
  fold_right Z.add 0 (take c counts) = Z.of_nat (prefix_sum f c).
Proof.
  induction c as [|c IH]; intros Hc Hf; [reflexivity|].
  assert (Hl : counts !! c = Some (counts !!! c))
    by (apply list_lookup_lookup_total_lt; lia).
  rewrite (take_S_r _ _ _ Hl), fold_right_add_app, IH by (auto; lia).
  simpl. rewrite (Hf c) by lia. lia.
Qed.

(** ** The visited positions *)

Lemma filter_none {A} (p : A -> bool) (l : list A) :
  (forall x, In x l -> p x = false) -> List.filter p l = [].
Proof.
  induction l as [|x l IH]; intros Hp; simpl; [reflexivity|].
  rewrite (Hp x) by (now left). apply IH. intros y Hy. apply Hp. now right.
Qed.

Lemma filter_filter {A} (p q : A -> bool) (l : list A) :
  List.filter p (List.filter q l) = List.filter (fun x => q x && p x) l.
Proof.
  induction l as [|x l IH]; simpl; [reflexivity|].
  destruct (q x); simpl; [destruct (p x)|]; now rewrite IH.
Qed.

Lemma not_multiple (s j x : nat) :
  (1 <= s)%nat -> (j mod s = 0)%nat -> (j < x < j + s)%nat -> (x mod s <> 0)%nat.
Proof.
  intros Hs Hj Hx Hx0.
  apply Nat.Div0.mod_divides in Hj. destruct Hj as (q & ->).
  apply Nat.Div0.mod_divides in Hx0. destruct Hx0 as (q' & ->).
  assert (q < q')%nat by nia. assert (q' < q + 1)%nat by nia. lia.
Qed.

(** For a step [s >= 1] the loop [for (j = 0; j < n; j += s)] visits the
    multiples of [s] below [n]. *)
Lemma stride_loop_spec (s n fuel j : nat) :
  (1 <= s)%nat -> (n - j <= fuel)%nat -> (j mod s = 0)%nat ->
  stride_loop fuel j s n
  = List.filter (fun x => (x mod s =? 0)%nat) (seq j (n - j)).
Proof.
  intros Hs. revert j. induction fuel as [|fuel IH]; intros j Hf Hj.
  - replace (n - j)%nat with 0%nat by lia. reflexivity.
  - simpl. destruct (Nat.ltb_spec j n) as [Hlt|Hge].
    + replace (n - j)%nat with (S (n - S j)) by lia. simpl.
      rewrite Hj. simpl. f_equal.
      rewrite IH; [|lia|].
      * destruct (Nat.le_gt_cases (j + s) n) as [Hle|Hgt].
        -- replace (n - S j)%nat with ((s - 1) + (n - (j + s)))%nat by lia.
           rewrite seq_app, List.filter_app.
           rewrite (filter_none _ (seq (S j) (s - 1))).
           ++ simpl. f_equal. f_equal. lia.
           ++ intros x Hx. apply in_seq in Hx. apply Nat.eqb_neq.
              apply (not_multiple s j); auto. lia.
        -- replace (n - (j + s))%nat with 0%nat by lia. simpl.
           symmetry. apply filter_none.
           intros x Hx. apply in_seq in Hx. apply Nat.eqb_neq.
           apply (not_multiple s j); auto. lia.
      * rewrite <- Nat.Div0.add_mod_idemp_r, Nat.Div0.mod_same, Nat.add_0_r.
        exact Hj.
    + replace (n - j)%nat with 0%nat by lia. reflexivity.
Qed.

Lemma stride_spec (s n : nat) :
  (1 <= s)%nat ->
  stride s n = List.filter (fun x => (x mod s =? 0)%nat) (seq 0 n).
Proof.
  intros Hs. unfold stride. rewrite stride_loop_spec; auto.
  - now rewrite Nat.sub_0_r.
  - lia.
  - apply Nat.Div0.mod_0_l.
Qed.

Lemma unmasked_strided_length (s : nat) (kmers : list Z) :
  (1 <= s)%nat ->
  length (unmasked_strided s kmers) = aligned_positions s kmers.
Proof.
  intros Hs. unfold unmasked_strided, aligned_positions.
  now rewrite stride_spec, filter_filter.
Qed.

(** ** The round trip *)

Lemma in_corpus_events s c0 (query : list (list Z)) a e :
  In e (flat_map (fun ik => seq_events s (Z.of_nat c0 + Z.of_nat (fst ik) + 1)
                                       (snd ik))
                 (combine (seq a (length query)) query)) ->
  exists i kmers j,
    (a <= i < a + length query)%nat /\ In kmers query /\
    In j (unmasked_strided s kmers) /\
    e = (Z.to_nat (kmers !!! j), Z.of_nat c0 + Z.of_nat i + 1, Z.of_nat j + 1).
Proof.
  intros He. apply in_flat_map in He. destruct He as ([i kmers] & Hik & He).
  simpl in He. unfold seq_events in He. apply in_map_iff in He.
  destruct He as (j & <- & Hj).
  exists i, kmers, j. split; [|split; [|split]]; auto.
  - apply in_combine_l in Hik. apply in_seq in Hik. lia.
  - apply in_combine_r in Hik. exact Hik.
Qed.

Lemma target_count s c0 (query : list (list Z)) a i0 :
  count_occ Z.eq_dec
    (map ev_target
         (flat_map (fun ik => seq_events s (Z.of_nat c0 + Z.of_nat (fst ik) + 1)
                                         (snd ik))
                   (combine (seq a (length query)) query)))
    (Z.of_nat c0 + Z.of_nat i0 + 1)
  = if (a <=? i0)%nat && (i0 <? a + length query)%nat
    then length (unmasked_strided s (query !!! (i0 - a)%nat))
    else 0%nat.
Proof.
  revert a. induction query as [|kmers query IH]; intros a.
  - simpl. rewrite Nat.add_0_r.
    destruct (Nat.leb_spec a i0), (Nat.ltb_spec i0 a); try lia; reflexivity.
  - cbn [length seq combine flat_map fst snd].
    rewrite map_app, count_occ_app, IH.
    assert (Hhead : count_occ Z.eq_dec
                      (map ev_target
                           (seq_events s (Z.of_nat c0 + Z.of_nat a + 1) kmers))
                      (Z.of_nat c0 + Z.of_nat i0 + 1)
                    = if (a =? i0)%nat then length (unmasked_strided s kmers)
                      else 0%nat).
    { unfold seq_events. rewrite map_map. unfold ev_target. simpl.
      generalize (unmasked_strided s kmers). intros js.
      induction js as [|j js IHjs]; simpl.
      - now destruct (a =? i0)%nat.
      - rewrite IHjs.
        destruct (Z.eq_dec (Z.of_nat c0 + Z.of_nat a + 1)
                           (Z.of_nat c0 + Z.of_nat i0 + 1)) as [Heq|Hne];
          destruct (Nat.eqb_spec a i0); try lia; reflexivity. }
    rewrite Hhead. clear Hhead.
    destruct (Nat.eqb_spec a i0) as [Heq|Hne].
    + subst i0. rewrite Nat.sub_diag.
      repeat match goal with
             | |- context [(?x <=? ?y)%nat] => destruct (Nat.leb_spec x y)
             | |- context [(?x <? ?y)%nat] => destruct (Nat.ltb_spec x y)
             end; simpl; try lia.
    + assert (Hq : (S a <= i0)%nat ->
                   (kmers :: query) !!! (i0 - a)%nat
                   = query !!! (i0 - S a)%nat).
      { intros Hle. replace (i0 - a)%nat with (S (i0 - S a)) by lia.
        reflexivity. }
      repeat match goal with
             | |- context [(?x <=? ?y)%nat] => destruct (Nat.leb_spec x y)
             | |- context [(?x <? ?y)%nat] => destruct (Nat.ltb_spec x y)
             end; simpl; try lia; rewrite ?Hq by lia; reflexivity.
Qed.

(** C9.  For a step of at least one and a corpus whose visited unmasked
    k-mers are subscripts of the count array: after [countIndex] from zero
    counts and [updateIndex] from the cumulative offsets of these counts,
    with an [index] that has one slot per counted occurrence, every
    [offset[c]] has advanced by [count[c]], [index] holds target
    [count + i + 1] exactly once per stride-aligned unmasked position of
    sequence [i], and holds nothing else. *)
Theorem C9_builder_round_trip (L : nat) (corpus : list (list Z)) (K : Z)
        (s c0 : nat) (location index positions : list Z) :
  (1 <= s)%nat ->
  (forall kmers j, In kmers corpus -> (j < length kmers)%nat ->
                   (j mod s = 0)%nat -> kmers !!! j <> NA_INTEGER ->
                   0 <= kmers !!! j < Z.of_nat L) ->
  let counts := countIndex (replicate L 0) corpus s in
  let offset := offsets counts in
  Z.of_nat (length index) = fold_right Z.add 0 counts ->
  let st := updateIndex offset corpus K s location index positions c0 in
  (forall c, (c < L)%nat -> i_off st !!! c = offset !!! c + counts !!! c) /\
  (forall i, (i < length corpus)%nat ->
             count_occ Z.eq_dec (i_ind st) (Z.of_nat c0 + Z.of_nat i + 1)
             = aligned_positions s (corpus !!! i)) /\
  (forall t, In t (i_ind st) ->
             exists i, (i < length corpus)%nat /\
                       t = Z.of_nat c0 + Z.of_nat i + 1).
Proof.
  intros Hs Hrange counts offset Hlen st.
  set (events := corpus_events s c0 corpus).
  assert (Hcodes : Forall (fun e => (ev_code e < L)%nat) events).
  { apply List.Forall_forall. intros e He.
    apply in_corpus_events in He.
    destruct He as (i & kmers & j & _ & Hk & Hj & ->).
    unfold unmasked_strided in Hj. rewrite stride_spec in Hj by assumption.
    apply filter_In in Hj. destruct Hj as (Hj & Hun).
    apply filter_In in Hj. destruct Hj as (Hj & Hmod).
    apply in_seq in Hj. apply Nat.eqb_eq in Hmod.
    apply negb_true_iff, Z.eqb_neq in Hun.
    specialize (Hrange kmers j Hk ltac:(lia) Hmod Hun).
    unfold ev_code. simpl. lia. }
  assert (Hcounts : counts = fold_left bump (map ev_code events)
                                       (replicate L 0))
    by apply countIndex_events.
  assert (Hlc : length counts = L)
    by (rewrite Hcounts, bump_length; apply length_replicate).
  assert (Hc : forall c, (c < L)%nat ->
                         counts !!! c = Z.of_nat (code_count events c)).
  { intros c Hc. rewrite Hcounts, bump_count
      by (rewrite length_replicate; lia).
    rewrite lookup_total_replicate_2 by lia. reflexivity. }
  assert (Hoff : forall c, (c < L)%nat ->
             offset !!! c = Z.of_nat (prefix_sum (code_count events) c)).
  { intros c HcL. unfold offset, offsets.
    rewrite offsets_from_lookup by lia.
    rewrite (sum_take_prefix counts (code_count events)); [lia|lia|].
    intros c' Hc'. apply Hc. lia. }
  assert (Htot : length index = prefix_sum (code_count events) L).
  { apply Nat2Z.inj. rewrite Hlen.
    rewrite <- (take_ge counts L) at 1 by lia.
    apply sum_take_prefix; [lia|]. intros c' Hc'. apply Hc. lia. }
  assert (Hinit : index_inv L (prefix_sum (code_count events))
                            (prefix_sum (code_count events) L) []
                            (offset, index)).
  { split; [unfold offset, offsets; now rewrite offsets_from_length|].
    split; [assumption|]. intros c HcL.
    change (code_count [] c) with 0%nat.
    rewrite Nat.add_0_r, slice_empty. split; [now apply Hoff|reflexivity]. }
  pose proof (write_events_final L events Hcodes offset index Hinit) as Hfin.
  pose proof (updateIndex_events offset corpus K s location index positions c0)
    as Hev.
  fold st events in Hev. rewrite <- Hev in Hfin. unfold off_ind in Hfin.
  destruct Hfin as (Hfo & Hperm).
  split; [|split].
  - intros c HcL. rewrite (Hfo c HcL), (Hc c HcL). reflexivity.
  - intros i Hi.
    rewrite (proj1 (Permutation_count_occ Z.eq_dec _ _) Hperm).
    unfold events, corpus_events, indexed. rewrite target_count.
    rewrite Nat.sub_0_r. simpl.
    destruct (Nat.ltb_spec i (length corpus)); [|lia].
    now apply unmasked_strided_length.
  - intros t Ht. apply (Permutation_in _ Hperm) in Ht.
    apply in_map_iff in Ht. destruct Ht as (e & <- & He).
    apply in_corpus_events in He.
    destruct He as (i & kmers & j & Hi & _ & _ & ->).
    exists i. split; [lia|reflexivity].
Qed.

Lemma C9_builder_round_trip_witness :
  let corpus := [[0; 1; 2; NA_INTEGER; 3]; [0; 1; 2; 5; 3; 0]] in
  let counts := countIndex (replicate 8 0) corpus 2 in
  let st := updateIndex (offsets counts) corpus 3 2 (replicate 6 0)
                        (replicate 6 0) [0; 0] 0 in
  i_ind st = [1; 2; 1; 2; 1; 2] /\
  (forall c, (c < 8)%nat ->
             i_off st !!! c = offsets counts !!! c + counts !!! c) /\
  (forall i, (i < 2)%nat ->
             count_occ Z.eq_dec (i_ind st) (Z.of_nat 0 + Z.of_nat i + 1)
             = aligned_positions 2 (corpus !!! i)) /\
  (forall t, In t (i_ind st) ->
             exists i, (i < 2)%nat /\ t = Z.of_nat 0 + Z.of_nat i + 1).
Proof.
  intros corpus counts st. split; [reflexivity|].
  apply (C9_builder_round_trip 8 corpus 3 2 0 (replicate 6 0) (replicate 6 0)
                               [0; 0]).
  - lia.
  - intros kmers j Hk Hj Hmod Hna.
    destruct Hk as [<-|[<-|[]]]; simpl in Hj;
      do 6 (destruct j as [|j];
            [first [exfalso; apply Hna; reflexivity
                   |vm_compute; split; [discriminate|reflexivity]]|]);
      lia.
  - reflexivity.
Defined.

(** * The merge sort *)

Section MergeFacts.
Variables (set posTarget : list Z).

Local Abbreviation before := (hit_before set posTarget).
Local Abbreviation left := (takes_left set posTarget).
Local Abbreviation merge := (merge_runs set posTarget).

Lemma merge_nil_l l2 : merge [] l2 = l2.
Proof. destruct l2; reflexivity. Qed.

Lemma merge_nil_r l1 : merge l1 [] = l1.
Proof. destruct l1; reflexivity. Qed.

Lemma merge_cons a l1 b l2 :
  merge (a :: l1) (b :: l2)
  = if left a b then a :: merge l1 (b :: l2) else b :: merge (a :: l1) l2.
Proof. reflexivity. Qed.

Lemma merge_perm l1 l2 : Permutation (merge l1 l2) (l1 ++ l2).
Proof.
  revert l2. induction l1 as [|a l1 IH1]; intros l2.
  - rewrite merge_nil_l. reflexivity.
  - induction l2 as [|b l2 IH2].
    + rewrite merge_nil_r, app_nil_r. reflexivity.
    + rewrite merge_cons. destruct (left a b).
      * simpl. constructor. apply IH1.
      * rewrite IH2. apply Permutation_middle.
Qed.

Lemma merge_length l1 l2 : length (merge l1 l2) = (length l1 + length l2)%nat.
Proof. rewrite (Permutation_length (merge_perm l1 l2)). apply length_app. Qed.

Lemma before_trans a b c : before a b -> before b c -> before a c.
Proof. unfold hit_before. intros H1 H2. lia. Qed.

Lemma left_true a b : (a < b)%nat -> left a b = true -> before a b.
Proof.
  unfold takes_left, hit_before. intros Hab.
  destruct (Z.eqb_spec (set !!! a) (set !!! b)).
  - rewrite Z.leb_le. lia.
  - rewrite Z.ltb_lt. lia.
Qed.

Lemma left_false a b : left a b = false -> before b a.
Proof.
  unfold takes_left, hit_before.
  destruct (Z.eqb_spec (set !!! a) (set !!! b)).
  - rewrite Z.leb_gt. lia.
  - rewrite Z.ltb_ge. lia.
Qed.

(** Merging two sorted groups, the first of hits that came earlier, gives
    a sorted group. *)
Lemma merge_sorted l1 l2 :
  StronglySorted before l1 -> StronglySorted before l2 ->
  (forall a b, In a l1 -> In b l2 -> (a < b)%nat) ->
  StronglySorted before (merge l1 l2).
Proof.
  revert l2. induction l1 as [|a l1 IH1]; intros l2 H1 H2 Hsep.
  - now rewrite merge_nil_l.
  - induction l2 as [|b l2 IH2].
    + now rewrite merge_nil_r.
    + rewrite merge_cons.
      inversion H1 as [|? ? H1' Ha]; subst.
      inversion H2 as [|? ? H2' Hb]; subst.
      destruct (left a b) eqn:Hl.
      * assert (Hab : before a b)
          by (apply left_true; [apply Hsep; now left|assumption]).
        constructor.
        -- apply IH1; auto. intros x y Hx Hy. apply Hsep; [now right|assumption].
        -- eapply Permutation_Forall; [symmetry; apply merge_perm|].
           apply Forall_app. split; [assumption|].
           constructor; [assumption|].
           eapply List.Forall_impl; [|exact Hb].
           intros y Hy. eapply before_trans; eassumption.
      * assert (Hba : before b a) by (now apply left_false).
        constructor.
        -- apply IH2; auto. intros x y Hx Hy. apply Hsep; [assumption|now right].
        -- eapply Permutation_Forall; [symmetry; apply merge_perm|].
           apply Forall_app. split; [|assumption].
           constructor; [assumption|].
           eapply List.Forall_impl; [|exact Ha].
           intros y Hy. eapply before_trans; eassumption.
Qed.
End MergeFacts.

(** ** The groups as lists *)

Lemma concat_length_app {A} (l1 l2 : list (list A)) :
  length (concat (l1 ++ l2)) = (length (concat l1) + length (concat l2))%nat.
Proof. now rewrite concat_app, length_app. Qed.

Lemma slice_run {A} (done rest : list (list A)) (r : list A) :
  slice (concat (done ++ r :: rest)) (length (concat done))
        (length (concat done) + length r)
  = r.
Proof.
  unfold slice. rewrite concat_app. simpl.
  rewrite drop_app_length.
  replace (length (concat done) + length r - length (concat done))%nat
    with (length r) by lia.
  apply take_app_length.
Qed.

Lemma agrees_at (cnts : list nat) (done rest : list (list nat)) (r : list nat) :
  agrees cnts (done ++ r :: rest) ->
  cnts !!! length done = (length (concat done) + length r)%nat.
Proof.
  intros Hag. rewrite Hag by (rewrite length_app; simpl; lia).
  replace (S (length done)) with (length (done ++ [r]))
    by (rewrite length_app; simpl; lia).
  replace (done ++ r :: rest) with ((done ++ [r]) ++ rest)
    by (now rewrite <- app_assoc).
  rewrite take_app_length, concat_length_app. simpl.
  now rewrite app_nil_r.
Qed.

Section SortFacts.
Variables (set posTarget : list Z).

Local Abbreviation before := (hit_before set posTarget).
Local Abbreviation merge := (merge_runs set posTarget).
Local Abbreviation pairs := (pairwise set posTarget).
Local Abbreviation groups := (merge_groups set posTarget).

(** One pass over the arrays merges the groups in pairs. *)
Lemma merge_groups_runs fuel :
  forall rest done acc cnts,
    agrees cnts (done ++ rest) ->
    (length rest <= 2 * fuel + 1)%nat ->
    length acc = length (concat done) ->
    let G := groups fuel (concat (done ++ rest)) cnts (length (done ++ rest))
                    (length (concat done)) (length done) (length done + 1)
                    acc in
    G ++ drop (length G) (concat (done ++ rest)) = acc ++ concat (pairs rest).
Proof.
  induction fuel as [|fuel IH]; intros rest done acc cnts Hag Hf Hacc.
  - simpl. rewrite Hacc, concat_app, drop_app_length.
    destruct rest as [|r [|r' rest]]; simpl in *; [reflexivity|reflexivity|lia].
  - destruct rest as [|r1 [|r2 rest]].
    + simpl. rewrite app_nil_r.
      destruct (Nat.ltb_spec (length done + 1) (length done)); [lia|].
      rewrite Hacc, drop_all. reflexivity.
    + simpl. rewrite length_app. simpl.
      destruct (Nat.ltb_spec (length done + 1) (length done + 1)); [lia|].
      rewrite Hacc, concat_app, drop_app_length. reflexivity.
    + cbn [merge_groups]. rewrite length_app. simpl length.
      destruct (Nat.ltb_spec (length done + 1) (length done + S (S (length rest))));
        [|lia].
      pose proof (agrees_at cnts done (r2 :: rest) r1 Hag) as Hk.
      assert (Hag' : agrees cnts ((done ++ [r1]) ++ r2 :: rest))
        by (now rewrite <- app_assoc).
      pose proof (agrees_at cnts (done ++ [r1]) rest r2 Hag') as He.
      rewrite length_app in He. simpl in He.
      rewrite concat_length_app in He. simpl in He. rewrite app_nil_r in He.
      rewrite Hk, He.
      rewrite (slice_run done (r2 :: rest) r1).
      replace (done ++ r1 :: r2 :: rest) with ((done ++ [r1]) ++ r2 :: rest)
        by (now rewrite <- app_assoc).
      replace (length (concat done) + length r1)%nat
        with (length (concat (done ++ [r1])))
        by (rewrite concat_length_app; simpl; rewrite app_nil_r; lia).
      rewrite (slice_run (done ++ [r1]) rest r2).
      replace ((done ++ [r1]) ++ r2 :: rest) with ((done ++ [r1; r2]) ++ rest)
        by (now rewrite <- !app_assoc).
      replace (length (concat (done ++ [r1])) + length r2)%nat
        with (length (concat (done ++ [r1; r2])))
        by (rewrite !concat_length_app; simpl; rewrite !app_nil_r, length_app; lia).
      replace (length done + S (S (length rest)))%nat
        with (length ((done ++ [r1; r2]) ++ rest))
        by (rewrite !length_app; simpl; lia).
      replace (length done + 1 + 1)%nat with (length (done ++ [r1; r2]))
        by (rewrite length_app; simpl; lia).
      replace (length done + 1 + 2)%nat with (length (done ++ [r1; r2]) + 1)%nat
        by (rewrite length_app; simpl; lia).
      rewrite IH.
      * simpl. now rewrite <- app_assoc.
      * now rewrite <- !app_assoc.
      * simpl in Hf. lia.
      * rewrite length_app, merge_length, Hacc, concat_length_app. simpl.
        rewrite app_nil_r, length_app. lia.
Qed.

Lemma merge_pass_runs (runs : list (list nat)) (cnts : list nat) :
  agrees cnts runs ->
  merge_pass set posTarget (concat runs) cnts (length runs)
  = concat (pairs runs).
Proof.
  intros Hag. unfold merge_pass.
  apply (merge_groups_runs (length runs) runs [] [] cnts); auto. lia.
Qed.

(** ** The ends of the merged groups *)

Lemma merge_counts_spec (cnts0 : list nat) (c : nat) fuel :
  forall cnts p k,
    k = (2 * p)%nat -> (k <= c)%nat -> (c - k < 2 * fuel)%nat ->
    (c <= length cnts)%nat ->
    (forall g, (k <= g < c)%nat -> cnts !!! g = cnts0 !!! g) ->
    (forall g, (g < p)%nat -> cnts !!! g = cnts0 !!! (2 * g + 1)%nat) ->
    let '(cnts', c') := merge_counts fuel cnts c p k in
    c' = (p + Nat.div2 (S (c - k)))%nat /\
    length cnts' = length cnts /\
    forall g, (g < c')%nat ->
              cnts' !!! g = cnts0 !!! (Nat.min (2 * g + 1) (c - 1))%nat.
Proof.
  induction fuel as [|fuel IH]; intros cnts p k Hk Hkc Hf Hlen Hhi Hlo; [lia|].
  simpl. destruct (Nat.ltb_spec (k + 1) c) as [Hlt|Hge].
  - specialize (IH (<[p := cnts !!! (k + 1)%nat]> cnts) (p + 1)%nat (k + 2)%nat).
    destruct (merge_counts fuel (<[p := cnts !!! (k + 1)%nat]> cnts) c
                           (p + 1) (k + 2)) as [cnts' c'].
    destruct IH as (Hc' & Hl' & Hall); try lia.
    + now rewrite length_insert.
    + intros g Hg. rewrite list_lookup_total_insert_ne by lia. apply Hhi. lia.
    + intros g Hg. destruct (Nat.eq_dec g p) as [->|Hne].
      * rewrite list_lookup_total_insert_eq by lia.
        rewrite Hhi by lia. f_equal. lia.
      * rewrite list_lookup_total_insert_ne by lia. apply Hlo. lia.
    + split; [|split].
      * rewrite Hc'. replace (c - k)%nat with (S (S (c - (k + 2)))) by lia.
        simpl. lia.
      * now rewrite Hl', length_insert.
      * exact Hall.
  - destruct (Nat.ltb_spec k c) as [Hlt|Hge'].
    + assert (Hck : (c - k = 1)%nat) by lia. rewrite Hck. simpl.
      split; [lia|]. split; [now rewrite length_insert|].
      intros g Hg. destruct (Nat.eq_dec g p) as [->|Hne].
      * rewrite list_lookup_total_insert_eq by lia.
        rewrite Hhi by lia. f_equal. lia.
      * rewrite list_lookup_total_insert_ne by lia.
        rewrite Hlo by lia. f_equal. lia.
    + assert (Hck : (c - k = 0)%nat) by lia. rewrite Hck. simpl.
      split; [lia|]. split; [reflexivity|].
      intros g Hg. rewrite Hlo by lia. f_equal. lia.
Qed.

Lemma pairwise_length (runs : list (list nat)) :
  length (pairs runs) = Nat.div2 (S (length runs)).
Proof.
  assert (Hboth : forall runs,
             length (pairs runs) = Nat.div2 (S (length runs)) /\
             forall r, length (pairs (r :: runs))
                       = Nat.div2 (S (length (r :: runs)))).
  { clear runs. induction runs as [|r1 runs (IH1 & IH2)].
    - split; [reflexivity|]. intros r. reflexivity.
    - split; [apply IH2|]. intros r. simpl. rewrite IH1. reflexivity. }
  apply Hboth.
Qed.

Lemma pairwise_take_length (n : nat) :
  forall runs : list (list nat),
    length (concat (take n (pairs runs)))
    = length (concat (take (2 * n) runs)).
Proof.
  induction n as [|n IH]; intros runs; [reflexivity|].
  destruct runs as [|r1 [|r2 runs]].
  - reflexivity.
  - simpl. now rewrite !take_nil.
  - replace (2 * S n)%nat with (S (S (2 * n))) by lia.
    cbn [pairwise take concat]. rewrite !length_app, merge_length, IH. lia.
Qed.

Lemma pairwise_concat_perm (runs : list (list nat)) :
  Permutation (concat (pairs runs)) (concat runs).
Proof.
  assert (Hboth : forall runs,
             Permutation (concat (pairs runs)) (concat runs) /\
             forall r, Permutation (concat (pairs (r :: runs)))
                                   (concat (r :: runs))).
  { clear runs. induction runs as [|r1 runs (IH1 & IH2)].
    - split; [reflexivity|]. intros r. reflexivity.
    - split; [apply IH2|]. intros r. cbn [pairwise concat].
      rewrite merge_perm, IH1, app_assoc. reflexivity. }
  apply Hboth.
Qed.

Lemma merge_counts_runs (runs : list (list nat)) (cnts : list nat) :
  (2 <= length runs)%nat -> (length runs <= length cnts)%nat ->
  agrees cnts runs ->
  let '(cnts', c') := merge_counts (length runs) cnts (length runs) 0 0 in
  c' = length (pairs runs) /\ length cnts' = length cnts /\
  agrees cnts' (pairs runs).
Proof.
  intros Hc Hlen Hag.
  pose proof (merge_counts_spec cnts (length runs) (length runs) cnts 0 0) as Hs.
  destruct (merge_counts (length runs) cnts (length runs) 0 0) as [cnts' c'].
  destruct Hs as (Hc' & Hl' & Hall); try lia; auto.
  rewrite Nat.sub_0_r, Nat.add_0_l in Hc'. subst c'.
  split; [now rewrite pairwise_length|]. split; [assumption|].
  intros g Hg. rewrite pairwise_length in Hg.
  rewrite Hall by assumption.
  rewrite Hag by lia.
  rewrite pairwise_take_length.
  replace (S (Nat.min (2 * g + 1) (length runs - 1)))
    with (Nat.min (2 * S g) (length runs)) by lia.
  destruct (Nat.le_gt_cases (2 * S g) (length runs)) as [Hle|Hgt].
  - now rewrite Nat.min_l by lia.
  - rewrite Nat.min_r by lia. now rewrite !take_ge by lia.
Qed.

(** ** Sorted, separated groups stay so *)

Lemma pairwise_sorted (runs : list (list nat)) :
  Forall (StronglySorted before) runs -> runs_sep runs ->
  Forall (StronglySorted before) (pairs runs) /\ runs_sep (pairs runs).
Proof.
  assert (Hboth : forall runs,
             (Forall (StronglySorted before) runs -> runs_sep runs ->
              Forall (StronglySorted before) (pairs runs) /\
              runs_sep (pairs runs)) /\
             forall r,
               Forall (StronglySorted before) (r :: runs) ->
               runs_sep (r :: runs) ->
               Forall (StronglySorted before) (pairs (r :: runs)) /\
               runs_sep (pairs (r :: runs))).
  { clear runs. induction runs as [|r1 runs (IH1 & IH2)].
    - split; [auto|]. intros r Hs Hp. auto.
    - split; [apply IH2|]. intros r Hs Hp.
      inversion Hs as [|? ? Hr Hs']; subst.
      inversion Hs' as [|? ? Hr1 Hs'']; subst.
      destruct Hp as (Hsep & Hsep1 & Hp').
      destruct (IH1 Hs'' Hp') as (IHs & IHp).
      cbn [pairwise]. split.
      + constructor; [|assumption].
        apply merge_sorted; auto.
        intros a b Ha Hb. apply Hsep; [assumption|].
        simpl. apply in_or_app. now left.
      + split; [|assumption].
        intros a b Ha Hb.
        apply (Permutation_in _ (merge_perm set posTarget r r1)) in Ha.
        apply (Permutation_in _ (pairwise_concat_perm runs)) in Hb.
        apply in_app_or in Ha. destruct Ha as [Ha|Ha].
        * apply Hsep; [assumption|]. simpl. apply in_or_app. now right.
        * now apply Hsep1. }
  apply Hboth.
Qed.

(** ** The loop *)

Lemma merge_loop_runs fuel :
  forall (runs : list (list nat)) (cnts : list nat),
    (length runs < fuel)%nat -> (length runs <= length cnts)%nat ->
    agrees cnts runs ->
    Forall (StronglySorted before) runs -> runs_sep runs ->
    exists o1,
      merge_loop set posTarget fuel (concat runs) cnts (length runs) = Some o1 /\
      StronglySorted before o1 /\ Permutation o1 (concat runs).
Proof.
  induction fuel as [|fuel IH]; intros runs cnts Hf Hlen Hag Hs Hp; [lia|].
  simpl. destruct (Nat.ltb_spec 1 (length runs)) as [Hgt|Hle].
  - rewrite merge_pass_runs by assumption.
    pose proof (merge_counts_runs runs cnts ltac:(lia) Hlen Hag) as Hmc.
    destruct (merge_counts (length runs) cnts (length runs) 0 0) as [cnts' c'].
    destruct Hmc as (-> & Hl' & Hag').
    destruct (pairwise_sorted runs Hs Hp) as (Hs' & Hp').
    assert (Hshort : (length (pairs runs) < length runs)%nat).
    { rewrite pairwise_length, Nat.div2_div.
      apply Nat.Div0.div_lt_upper_bound. lia. }
    destruct (IH (pairs runs) cnts') as (o1 & Ho1 & Hso & Hpo); auto; try lia.
    exists o1. split; [assumption|]. split; [assumption|].
    rewrite Hpo. apply pairwise_concat_perm.
  - exists (concat runs). split; [reflexivity|]. split; [|reflexivity].
    destruct runs as [|r [|r' runs]]; simpl in *; try lia.
    + constructor.
    + rewrite app_nil_r. now inversion Hs.
Qed.
End SortFacts.

(** ** The batches before the sort *)

Lemma initial_runs_concat (counts : list nat) (a : nat) :
  concat (initial_runs a counts) = seq a (list_sum counts).
Proof.
  revert a. induction counts as [|n counts IH]; intros a; simpl; [reflexivity|].
  now rewrite IH, seq_app.
Qed.

Lemma initial_runs_length (counts : list nat) (a : nat) :
  length (initial_runs a counts) = length counts.
Proof.
  revert a. induction counts as [|n counts IH]; intros a; simpl; [reflexivity|].
  now rewrite IH.
Qed.

Lemma initial_runs_take (counts : list nat) (a g : nat) :
  take g (initial_runs a counts) = initial_runs a (take g counts).
Proof.
  revert a g. induction counts as [|n counts IH]; intros a [|g]; simpl;
    try reflexivity.
  now rewrite IH.
Qed.

Lemma batch_ends_length (counts : list nat) (acc : nat) :
  length (batch_ends acc counts) = length counts.
Proof.
  revert acc. induction counts as [|n counts IH]; intros acc; simpl;
    [reflexivity|].
  now rewrite IH.
Qed.

Lemma batch_ends_lookup (counts : list nat) (acc g : nat) :
  (g < length counts)%nat ->
  batch_ends acc counts !!! g = (acc + list_sum (take (S g) counts))%nat.
Proof.
  revert acc g. induction counts as [|n counts IH]; intros acc g Hg;
    simpl in Hg; [lia|].
  destruct g as [|g].
  - simpl. destruct counts; simpl; lia.
  - change (batch_ends acc (n :: counts) !!! S g)
      with (batch_ends (acc + n) counts !!! g).
    rewrite IH by lia. simpl. lia.
Qed.

Lemma initial_runs_agree (counts : list nat) :
  agrees (batch_ends 0 counts) (initial_runs 0 counts).
Proof.
  intros g Hg. rewrite initial_runs_length in Hg.
  rewrite batch_ends_lookup by assumption.
  rewrite initial_runs_take, initial_runs_concat, length_seq. reflexivity.
Qed.

Lemma initial_runs_sep (counts : list nat) (a : nat) :
  runs_sep (initial_runs a counts).
Proof.
  revert a. induction counts as [|n counts IH]; intros a; simpl; [exact I|].
  split; [|apply IH].
  intros x y Hx Hy. rewrite initial_runs_concat in Hy.
  apply in_seq in Hx. apply in_seq in Hy. lia.
Qed.

Lemma initial_runs_ranges (counts : list nat) (a : nat) (run : list nat) :
  In run (initial_runs a counts) -> StronglySorted lt run.
Proof.
  revert a. induction counts as [|n counts IH]; intros a; simpl; [contradiction|].
  intros [<-|Hin]; [|eapply IH; eassumption].
  clear. revert a. induction n as [|n IHn]; intros a; simpl; constructor.
  - apply IHn.
  - apply List.Forall_forall. intros x Hx. apply in_seq in Hx. lia.
Qed.

Lemma StronglySorted_both {A} (R1 R2 R3 : A -> A -> Prop) (l : list A) :
  (forall x y, R1 x y -> R2 x y -> R3 x y) ->
  StronglySorted R1 l -> StronglySorted R2 l -> StronglySorted R3 l.
Proof.
  intros H123 H1. induction H1 as [|x l Hl IH Hx]; intros H2; constructor.
  - apply IH. now inversion H2.
  - inversion H2 as [|? ? _ Hx2]; subst.
    rewrite List.Forall_forall in *. auto.
Qed.

Lemma StronglySorted_lookup {A} `{Inhabited A} (R : A -> A -> Prop) (l : list A) :
  StronglySorted R l ->
  forall j k, (j < k < length l)%nat -> R (l !!! j) (l !!! k).
Proof.
  induction 1 as [|x l Hl IH Hx]; intros j k Hjk; simpl in Hjk; [lia|].
  destruct k as [|k]; [lia|]. destruct j as [|j].
  - rewrite List.Forall_forall in Hx. apply Hx.
    change ((x :: l) !!! S k) with (l !!! k).
    apply list_elem_of_In, list_elem_of_lookup_total_2. lia.
  - apply IH. lia.
Qed.

Lemma lookup_total_map {A B} `{Inhabited A} `{Inhabited B} (g : A -> B)
      (l : list A) (i : nat) :
  (i < length l)%nat -> map g l !!! i = g (l !!! i).
Proof.
  revert i. induction l as [|x l IH]; intros i Hi; simpl in Hi; [lia|].
  destruct i as [|i]; [reflexivity|].
  change (map g (x :: l) !!! S i) with (map g l !!! i).
  change ((x :: l) !!! S i) with (l !!! i). apply IH. lia.
Qed.

Lemma reorder_lookup {A} `{Inhabited A} (o1 : list nat) (a : list A) (j : nat) :
  (j < length o1)%nat -> reorder o1 a !!! j = a !!! (o1 !!! j).
Proof.
  intros Hj. unfold reorder.
  apply (lookup_total_map (fun i => a !!! i) o1 j Hj).
Qed.

Lemma reorder_length {A} `{Inhabited A} (o1 : list nat) (a : list A) :
  length (reorder o1 a) = length o1.
Proof. apply length_map. Qed.

(** The sort ends, and orders the hits by [hit_before]. *)
Lemma sort_order_sorted (set posTarget : list Z) (counts : list nat) :
  Forall (StronglySorted (fun a b => takes_left set posTarget a b = true))
         (initial_runs 0 counts) ->
  exists o1,
    sort_order set posTarget (list_sum counts) counts = Some o1 /\
    StronglySorted (hit_before set posTarget) o1 /\
    Permutation o1 (seq 0 (list_sum counts)).
Proof.
  intros Hsorted. unfold sort_order.
  destruct (merge_loop_runs set posTarget (S (length counts))
              (initial_runs 0 counts) (batch_ends 0 counts))
    as (o1 & Ho1 & Hso & Hperm);
    [| | | | |rewrite initial_runs_concat, initial_runs_length in *;
              exists o1; auto].
  - rewrite initial_runs_length. lia.
  - now rewrite initial_runs_length, batch_ends_length.
  - apply initial_runs_agree.
  - apply List.Forall_forall. intros run Hrun.
    apply (StronglySorted_both lt (fun a b => takes_left set posTarget a b = true)).
    + intros x y Hxy Hl. now apply left_true.
    + eapply initial_runs_ranges; eassumption.
    + rewrite List.Forall_forall in Hsorted. now apply Hsorted.
  - apply initial_runs_sep.
Qed.

(** C2.  When every batch of hits (one per query k-mer, [counts] giving
    their sizes) is ordered by [set] then [posTarget], the merge sort ends
    with an order [o1] that is a rearrangement of the positions of the
    hits; read through [o1], the hits are ordered by [set] then
    [posTarget], hits equal in both keep their order, and each of the five
    arrays holds at [j] what it held at [o1[j]]. *)
Theorem C2_sort_correct {D : Type} `{Inhabited D} (h : hits D)
        (counts : list nat) :
  let s := list_sum counts in
  Forall (StronglySorted
            (fun a b => takes_left (h_set h) (h_posTarget h) a b = true))
         (initial_runs 0 counts) ->
  exists o1,
    sort_order (h_set h) (h_posTarget h) s counts = Some o1 /\
    Permutation o1 (seq 0 s) /\
    let h' := reorder_hits o1 h in
    (forall j k, (j < k < s)%nat ->
       (h_set h' !!! j < h_set h' !!! k
        \/ (h_set h' !!! j = h_set h' !!! k
            /\ h_posTarget h' !!! j <= h_posTarget h' !!! k))
       /\ (h_set h' !!! j = h_set h' !!! k ->
           h_posTarget h' !!! j = h_posTarget h' !!! k ->
           (o1 !!! j < o1 !!! k)%nat))
    /\ (forall j, (j < s)%nat ->
          h_posQuery h' !!! j = h_posQuery h !!! (o1 !!! j) /\
          h_posTarget h' !!! j = h_posTarget h !!! (o1 !!! j) /\
          h_set h' !!! j = h_set h !!! (o1 !!! j) /\
          h_score h' !!! j = h_score h !!! (o1 !!! j) /\
          h_addScore h' !!! j = h_addScore h !!! (o1 !!! j)).
Proof.
  intros s Hsorted.
  destruct (sort_order_sorted (h_set h) (h_posTarget h) counts Hsorted)
    as (o1 & Ho1 & Hso & Hperm).
  exists o1. split; [assumption|]. split; [assumption|].
  assert (Hlen : length o1 = s).
  { rewrite (Permutation_length Hperm). apply length_seq. }
  split.
  - intros j k Hjk. unfold reorder_hits; simpl.
    rewrite !reorder_lookup by lia.
    pose proof (StronglySorted_lookup _ o1 Hso j k ltac:(lia)) as Hb.
    unfold hit_before in Hb. split; lia.
  - intros j Hj. unfold reorder_hits; simpl.
    rewrite !reorder_lookup by lia. auto.
Qed.

Lemma C2_sort_correct_witness :
  let h := mkHits [1; 1; 2; 2; 2; 3] [4; 9; 2; 4; 7; 1] [1; 2; 1; 1; 2; 1]
                  [6; 6; 5; 5; 5; 4] [2; 2; 1; 1; 1; 3] in
  sort_order (h_set h) (h_posTarget h) 6 [2; 3; 1]%nat
  = Some [5; 2; 0; 3; 4; 1]%nat
  /\ exists o1,
    sort_order (h_set h) (h_posTarget h) 6 [2; 3; 1]%nat = Some o1 /\
    Permutation o1 (seq 0 6) /\
    let h' := reorder_hits o1 h in
    (forall j k, (j < k < 6)%nat ->
       (h_set h' !!! j < h_set h' !!! k
        \/ (h_set h' !!! j = h_set h' !!! k
            /\ h_posTarget h' !!! j <= h_posTarget h' !!! k))
       /\ (h_set h' !!! j = h_set h' !!! k ->
           h_posTarget h' !!! j = h_posTarget h' !!! k ->
           (o1 !!! j < o1 !!! k)%nat))
    /\ (forall j, (j < 6)%nat ->
          h_posQuery h' !!! j = h_posQuery h !!! (o1 !!! j) /\
          h_posTarget h' !!! j = h_posTarget h !!! (o1 !!! j) /\
          h_set h' !!! j = h_set h !!! (o1 !!! j) /\
          h_score h' !!! j = h_score h !!! (o1 !!! j) /\
          h_addScore h' !!! j = h_addScore h !!! (o1 !!! j)).
Proof.
  intros h. split; [reflexivity|].
  apply (C2_sort_correct h [2; 3; 1]%nat).
  simpl. repeat constructor.
Defined.

(** * Collapsing adjacent hits *)

Section CollapseFacts.
Context {D : Type} `{ScoreOps D} `{Inhabited D}.
Variables (K step : Z).
Variables (posQuery posTarget set : list Z) (addScore : list D).

Local Abbreviation scan := (col_scan step posQuery posTarget addScore).
Local Abbreviation merge := (col_merge step addScore).
Local Abbreviation adj := (adjacent step posQuery posTarget).
Local Abbreviation result := (scan_result step posQuery posTarget addScore).
Local Abbreviation body := (col_body step posQuery posTarget set addScore).

Lemma with_k_same (st : col_state D) : with_k st (c_k st) = st.
Proof. now destruct st. Qed.

Lemma with_k_twice (st : col_state D) k1 k2 :
  with_k (with_k st k1) k2 = with_k st k2.
Proof. reflexivity. Qed.

(** The scan of [j = a, ..., a + m - 1], over hits ordered by target
    position. *)
Lemma col_scan_result (c : nat) (m : nat) :
  forall (a : nat) (st : col_state D),
    (c_k st <= a)%nat ->
    (forall i j, (a <= i < j)%nat -> (j < a + m)%nat ->
                 posTarget !!! i <= posTarget !!! j) ->
    result (seq a m) c st (scan (seq a m) c st).
Proof.
  induction m as [|m IH]; intros a st Hk Hsorted.
  - exists (c_k st). simpl. split; [now left|]. split; [contradiction|].
    left. split; [now rewrite with_k_same|]. intros j [].
  - simpl.
    destruct (Z.gtb_spec (posTarget !!! c - posTarget !!! a) step) as [Hgt|Hle].
    + destruct (IH (S a) (with_k st (a + 1))) as (k' & Hk' & Hfar & Hres).
      * simpl. lia.
      * intros i j Hij Hj. apply Hsorted; lia.
      * exists k'. split; [|split].
        -- right. destruct Hk' as [->|(j0 & Hj0 & -> & Hd)].
           ++ exists a. split; [now left|]. split; [reflexivity|lia].
           ++ exists j0. split; [now right|]. split; [reflexivity|assumption].
        -- intros j [<-|Hj] Hlt; [lia|now apply Hfar].
        -- destruct Hres as [(Hst & Hno)|(j & Hj & Hadj & Hst)].
           ++ left. split; [exact Hst|].
              intros j [<-|Hj]; [|now apply Hno].
              intros (HT & _). lia.
           ++ right. exists j. split; [now right|]. split; assumption.
    + destruct (Z.eqb_spec (posTarget !!! c - posTarget !!! a) step) as [Heq|Hne].
      * destruct (Z.eqb_spec (posQuery !!! c - posQuery !!! a) step) as [HQ|HQ].
        -- exists (c_k st). split; [now left|]. split;
          [intros j [<-|Hj] Hlt; [lia|apply in_seq in Hj; lia]|].
           right. exists a. split; [now left|]. split; [now split|].
           now rewrite with_k_same.
        -- destruct (IH (S a) st) as (k' & Hk' & Hfar & Hres).
           ++ lia.
           ++ intros i j Hij Hj. apply Hsorted; lia.
           ++ assert (Hka : k' = c_k st).
              { destruct Hk' as [->|(j0 & Hj0 & -> & Hd)]; [reflexivity|].
                apply in_seq in Hj0.
                specialize (Hsorted a j0 ltac:(lia) ltac:(lia)). lia. }
              exists k'. split; [now left|]. split.
              ** intros j [<-|Hj] Hlt; [lia|now apply Hfar].
              ** destruct Hres as [(Hst & Hno)|(j & Hj & Hadj & Hst)].
                 --- left. split; [exact Hst|].
                     intros j [<-|Hj]; [|now apply Hno].
                     intros (_ & HQ'). contradiction.
                 --- right. exists j. split; [now right|]. split; assumption.
      * exists (c_k st). split; [now left|]. split;
          [intros j [<-|Hj] Hlt; [lia|apply in_seq in Hj; lia]|].
        left. split; [now rewrite with_k_same|].
        intros j [<-|Hj] (HT & _); [lia|].
        apply in_seq in Hj.
        specialize (Hsorted a j ltac:(lia) ltac:(lia)). lia.
Qed.

(** ** Which hits are kept *)

Section KeptHits.
Variable s : nat.
Hypothesis Hstep : 1 <= step.
Hypothesis Hsorted : hits_sorted posTarget set s.

Local Abbreviation kok := (keep_ok step posQuery posTarget set s).

Lemma sorted_set_le i j : (i <= j < s)%nat -> set !!! i <= set !!! j.
Proof.
  intros Hij. destruct (Nat.eq_dec i j) as [->|Hne]; [lia|].
  destruct (Hsorted i j ltac:(lia)); lia.
Qed.

Lemma sorted_pos_le i j :
  (i <= j < s)%nat -> set !!! i = set !!! j ->
  posTarget !!! i <= posTarget !!! j.
Proof.
  intros Hij Hset. destruct (Nat.eq_dec i j) as [->|Hne]; [lia|].
  destruct (Hsorted i j ltac:(lia)); lia.
Qed.

Lemma keep_ok_init (score : list D) :
  length score = s -> (1 <= s)%nat -> kok 1 (col_init K score).
Proof.
  intros Hl Hs. unfold keep_ok, col_lengths, col_init. simpl.
  rewrite Hl, !length_replicate, length_seq.
  split; [auto|]. split; [lia|]. split; [reflexivity|].
  split; [intros; lia|]. split.
  - intros c Hc. assert (c = 0%nat) by lia. subst c.
    rewrite lookup_total_replicate_2 by lia.
    split; [intros _ j Hj; lia|reflexivity].
  - intros c Hc. apply lookup_total_replicate_2. lia.
Qed.

(** What the body of the loop does for hit [n]. *)
Lemma col_body_cases n st :
  (1 <= n < s)%nat -> kok n st ->
  exists k',
    (k' <= n)%nat /\ set !!! k' = set !!! n /\
    (forall j, (j < k')%nat -> set !!! j = set !!! n ->
               posTarget !!! n - posTarget !!! j > step) /\
    ((body st n = with_k st k' /\
      forall j, (j < n)%nat -> set !!! j = set !!! n -> ~ adj n j)
     \/ (exists j, (j < n)%nat /\ set !!! j = set !!! n /\ adj n j /\
                   body st n = merge n j (with_k st k'))).
Proof.
  intros Hn ((Ll & Lo & Lk & Ls) & Hkn & Hkset & Hfar & Hkeep & Hrest).
  unfold col_body.
  destruct (Z.eqb_spec (set !!! c_k st) (set !!! n)) as [Heq|Hne].
  - assert (Hsets : forall i, (c_k st <= i <= n)%nat -> set !!! i = set !!! n).
    { intros i Hi.
      pose proof (sorted_set_le (c_k st) i ltac:(lia)).
      pose proof (sorted_set_le i n ltac:(lia)). lia. }
    assert (Hprev : set !!! (n - 1)%nat = set !!! n) by (apply Hsets; lia).
    destruct (col_scan_result n (n - c_k st) (c_k st) st (Nat.le_refl _))
      as (k' & Hk' & Hfar' & Hres).
    { intros i j Hij Hj. apply sorted_pos_le; [lia|].
      rewrite (Hsets i), (Hsets j) by lia. reflexivity. }
    assert (Hk'n : (c_k st <= k' <= n)%nat).
    { destruct Hk' as [->|(j0 & Hj0 & -> & _)]; [lia|].
      apply in_seq in Hj0. lia. }
    assert (Hfar1 : forall j, (j < k')%nat -> set !!! j = set !!! n ->
                              posTarget !!! n - posTarget !!! j > step).
    { intros j Hj Hset.
      destruct (Nat.lt_ge_cases j (c_k st)) as [Hlt|Hge].
      - specialize (Hfar j Hlt ltac:(congruence)).
        pose proof (sorted_pos_le (n - 1) n ltac:(lia) Hprev). lia.
      - apply Hfar'; [apply in_seq; lia|assumption]. }
    exists k'. split; [lia|]. split; [apply Hsets; lia|].
    split; [exact Hfar1|].
    destruct Hres as [(-> & Hno)|(j & Hj & Hadj & ->)].
    + left. split; [reflexivity|]. intros j Hj Hset.
      destruct (Nat.lt_ge_cases j (c_k st)) as [Hlt|Hge].
      * intros (HT & _). specialize (Hfar1 j ltac:(lia) Hset). lia.
      * apply Hno. apply in_seq. lia.
    + apply in_seq in Hj. right. exists j.
      split; [lia|]. split; [apply Hsets; lia|]. split; [assumption|reflexivity].
  - assert (Hnone : forall j, (j < n)%nat -> set !!! j <> set !!! n).
    { intros j Hj Hset.
      pose proof (sorted_set_le j (n - 1) ltac:(lia)).
      pose proof (sorted_set_le (n - 1) n ltac:(lia)). lia. }
    exists n. split; [lia|]. split; [reflexivity|].
    split; [intros j Hj Hset; now apply Hnone in Hset|].
    left. split; [reflexivity|]. intros j Hj Hset. now apply Hnone in Hset.
Qed.

Lemma keep_ok_step n st :
  (1 <= n < s)%nat -> kok n st -> kok (S n) (body st n).
Proof.
  intros Hn Hkok.
  destruct (col_body_cases n st Hn Hkok) as (k' & Hk'n & Hk'set & Hfar1 & Hres).
  destruct Hkok as ((Ll & Lo & Lk & Ls) & Hkn & Hkset & Hfar & Hkeep & Hrest).
  unfold keep_ok. replace (S n - 1)%nat with n by lia.
  destruct Hres as [(-> & Hno)|(j & Hj & Hset & Hadj & ->)].
  - split; [split; auto|]. simpl.
    split; [lia|]. split; [assumption|]. split; [exact Hfar1|].
    split.
    + intros c Hc. destruct (Nat.eq_dec c n) as [->|Hcn].
      * rewrite (Hrest n ltac:(lia)). split; [|reflexivity].
        intros _. exact Hno.
      * apply Hkeep. lia.
    + intros c Hc. apply Hrest. lia.
  - split; [split; simpl; rewrite ?length_insert; auto|]. simpl.
    split; [lia|]. split; [assumption|]. split; [exact Hfar1|].
    split.
    + intros c Hc. destruct (Nat.eq_dec c n) as [->|Hcn].
      * rewrite list_lookup_total_insert_eq by lia.
        split; [discriminate|]. intros Hall. exfalso.
        now apply (Hall j Hj Hset).
      * rewrite list_lookup_total_insert_ne by lia. apply Hkeep. lia.
    + intros c Hc. rewrite list_lookup_total_insert_ne by lia.
      apply Hrest. lia.
Qed.

Lemma keep_ok_prefix (score : list D) (n : nat) :
  length score = s -> (1 <= n <= s)%nat ->
  kok n (fold_left body (seq 1 (n - 1)) (col_init K score)).
Proof.
  intros Hl Hn.
  pose proof (fold_left_seq_inv body
                (fun i st => (i <= s)%nat -> kok i st) (n - 1) 1
                (col_init K score)) as Hfold.
  replace (1 + (n - 1))%nat with n in Hfold by lia.
  apply Hfold; [| |lia].
  - intros _. apply keep_ok_init; [assumption|lia].
  - intros i st Hi Hst Hle. apply keep_ok_step; [lia|]. apply Hst. lia.
Qed.

Lemma keep_ok_final (score : list D) :
  length score = s -> (1 <= s)%nat ->
  kok s (collapse_state K step posQuery posTarget set addScore score).
Proof.
  intros Hl Hs. unfold collapse_state. rewrite Hl.
  apply keep_ok_prefix; [assumption|lia].
Qed.

(** C5.  For hits ordered by target and target position, a step of at
    least one: no two hits that survive the collapse are on one target
    with target positions and query positions both exactly one step
    apart; a hit that continues an earlier hit of its target in this way
    is dropped, and when its turn comes the body of the loop is the merge
    of lines 321-325 into the origin of a hit it continues ([step] added
    to the length and [addScore[c]] to the score of that origin). *)
Theorem C5_collapse_invariant (score : list D) :
  length score = s -> length posQuery = s -> length posTarget = s ->
  length set = s ->
  let st := collapse_state K step posQuery posTarget set addScore score in
  let a := collapse K step posQuery posTarget set addScore score in
  (forall x y, (x < length (a_set a))%nat -> (y < length (a_set a))%nat ->
               a_set a !!! x = a_set a !!! y ->
               ~ (a_posTarget a !!! y - a_posTarget a !!! x = step /\
                  a_posQuery a !!! y - a_posQuery a !!! x = step))
  /\ (forall c j, (j < c < s)%nat -> set !!! j = set !!! c -> adj c j ->
                  c_keep st !!! c = false)
  /\ (forall c j, (j < c < s)%nat -> set !!! j = set !!! c -> adj c j ->
        let stc := fold_left body (seq 1 (c - 1)) (col_init K score) in
        exists j' k', (j' < c)%nat /\ set !!! j' = set !!! c /\ adj c j' /\
                      body stc c = merge c j' (with_k stc k')).
Proof.
  intros Hl Hlq Hlt Hls st a.
  destruct (Nat.eq_dec s 0%nat) as [Hs0|Hs0].
  { assert (score = []) by (destruct score; [reflexivity|simpl in Hl; lia]).
    subst score. split; [|split]; try (intros; lia).
    intros x y Hx. simpl in Hx. lia. }
  pose proof (keep_ok_final score Hl ltac:(lia)) as Hfin. fold st in Hfin.
  destruct Hfin as ((_ & _ & Lk & _) & _ & _ & _ & Hkeep & _).
  split; [|split].
  - unfold a, collapse. fold st. simpl.
    rewrite !(kept_flagged (c_keep st)) by congruence.
    rewrite length_map. intros x y Hx Hy.
    rewrite !lookup_total_map by assumption.
    set (ix := flagged (c_keep st) !!! x).
    set (iy := flagged (c_keep st) !!! y).
    assert (Hix : In ix (flagged (c_keep st)))
      by (apply list_elem_of_In, list_elem_of_lookup_total_2; assumption).
    assert (Hiy : In iy (flagged (c_keep st)))
      by (apply list_elem_of_In, list_elem_of_lookup_total_2; assumption).
    apply in_flagged in Hix. apply in_flagged in Hiy.
    destruct Hix as (Hixs & _). destruct Hiy as (Hiys & Hky).
    intros Hset (HT & HQ).
    assert (Hlt' : (ix < iy)%nat).
    { destruct (Nat.lt_ge_cases ix iy) as [?|Hge]; [assumption|].
      pose proof (sorted_pos_le iy ix ltac:(lia) (eq_sym Hset)). lia. }
    apply (proj1 (Hkeep iy ltac:(lia)) Hky ix Hlt' Hset). now split.
  - intros c j Hjc Hset Hadj.
    destruct (c_keep st !!! c) eqn:Hk; [|reflexivity].
    exfalso. apply (proj1 (Hkeep c ltac:(lia)) Hk j ltac:(lia) Hset Hadj).
  - intros c j Hjc Hset Hadj stc.
    pose proof (keep_ok_prefix score c Hl ltac:(lia)) as Hpre. fold stc in Hpre.
    destruct (col_body_cases c stc ltac:(lia) Hpre)
      as (k' & _ & _ & _ & [(_ & Hno)|(j' & Hj' & Hset' & Hadj' & Hb)]).
    + exfalso. apply (Hno j ltac:(lia) Hset Hadj).
    + exists j', k'. auto.
Qed.
End KeptHits.
End CollapseFacts.

Lemma C5_collapse_invariant_witness :
  let posQuery := [1; 2; 3; 1; 2] in
  let posTarget := [1; 1; 1; 2; 2] in
  let set := [1; 1; 1; 1; 1] in
  let a := collapse 3 1 posQuery posTarget set [2; 2; 2; 2; 2] [6; 6; 6; 6; 6] in
  a_posQuery a = [1; 2; 3; 1] /\ a_len a = [4; 3; 3; 3] /\
  a_score a = [8; 6; 6; 6] /\
  forall x y, (x < length (a_set a))%nat -> (y < length (a_set a))%nat ->
              a_set a !!! x = a_set a !!! y ->
              ~ (a_posTarget a !!! y - a_posTarget a !!! x = 1 /\
                 a_posQuery a !!! y - a_posQuery a !!! x = 1).
Proof.
  intros posQuery posTarget set a.
  split; [reflexivity|]. split; [reflexivity|]. split; [reflexivity|].
  apply (C5_collapse_invariant 3 1 posQuery posTarget set [2; 2; 2; 2; 2] 5).
  - lia.
  - intros i j Hij. right. split.
    + do 5 (destruct i as [|i]; [do 5 (destruct j as [|j]; [reflexivity|]); lia|]).
      lia.
    + do 5 (destruct i as [|i];
            [do 5 (destruct j as [|j];
                   [first [lia|vm_compute; discriminate]|]); lia|]).
      lia.
  - reflexivity.
  - reflexivity.
  - reflexivity.
  - reflexivity.
Defined.

(** * The width of a query and the letters its k-mers cover *)

Lemma indexed_lookup {A} `{Inhabited A} (w : list A) (a j : nat) :
  (j < length w)%nat ->
  combine (seq a (length w)) w !! j = Some ((a + j)%nat, w !!! j).
Proof.
  revert a j. induction w as [|x w IH]; intros a j Hj; simpl in Hj; [lia|].
  destruct j as [|j]; simpl.
  - now rewrite Nat.add_0_r.
  - change ((x :: w) !!! S j) with (w !!! j).
    rewrite IH by lia. do 2 f_equal. lia.
Qed.

Lemma length_indexed {A} (w : list A) : length (indexed w) = length w.
Proof. unfold indexed. rewrite length_combine, length_seq. lia. Qed.

Section Width.
Variables (K : Z) (w : list Z).
Hypothesis HK : 1 <= K.

Local Abbreviation upto := (width_upto K w).

Lemma width_upto_S (j : nat) :
  (j < length w)%nat ->
  upto (S j) = width_body K (upto j) (j, w !!! j).
Proof.
  intros Hj. unfold width_upto, indexed.
  rewrite (take_S_r _ j (j, w !!! j)).
  - now rewrite fold_left_app.
  - apply (indexed_lookup w 0 j Hj).
Qed.

Lemma width_upto_all : query_width K w = fst (upto (length w)).
Proof.
  unfold query_width, width_upto.
  rewrite take_ge; [reflexivity|]. rewrite length_indexed. lia.
Qed.

(** [k] is the last unmasked position read, and the first unmasked k-mer
    has added [K]. *)
Lemma width_last (j : nat) :
  (j <= length w)%nat ->
  (snd (upto j) = -2 \/ 0 <= snd (upto j) < Z.of_nat j) /\
  (forall i, j = S i -> snd (upto j) = Z.of_nat i <-> w !!! i <> NA_INTEGER) /\
  (snd (upto j) <> -2 -> K <= fst (upto j)) /\
  0 <= fst (upto j).
Proof.
  induction j as [|j IH]; intros Hj.
  - unfold width_upto. simpl. repeat split; try lia; discriminate.
  - destruct (IH ltac:(lia)) as (Hk & _ & HKle & H0).
    rewrite width_upto_S by lia.
    destruct (upto j) as [wd k]. simpl in *. unfold width_body.
    destruct (Z.eqb_spec (w !!! j) NA_INTEGER) as [Hna|Hna]; simpl.
    + split; [lia|]. split; [|split; assumption].
      intros i [= <-]. split; [lia|congruence].
    + split; [lia|]. split.
      { intros i [= <-]. split; [intros _; assumption|reflexivity]. }
      destruct (Z.eqb_spec k (Z.of_nat j - 1)); split; intros; lia.
Qed.

(** What reading position [j] adds to the width. *)
Lemma width_step (j : nat) :
  (j < length w)%nat -> w !!! j <> NA_INTEGER ->
  (exists i, j = S i /\ w !!! i <> NA_INTEGER /\
             fst (upto (S j)) = fst (upto j) + 1)
  \/ fst (upto (S j)) = fst (upto j) + K.
Proof.
  intros Hj Hna. rewrite width_upto_S by assumption.
  destruct (width_last j ltac:(lia)) as (Hk & Hprev & _).
  destruct (upto j) as [wd k]. simpl in *. unfold width_body.
  destruct (Z.eqb_spec (w !!! j) NA_INTEGER) as [?|_]; [contradiction|].
  destruct (Z.eqb_spec k (Z.of_nat j - 1)) as [Hkj|Hkj]; simpl; [|now right].
  left. destruct j as [|i]; [lia|]. exists i. split; [reflexivity|].
  split; [|reflexivity]. apply (Hprev i eq_refl). lia.
Qed.

Lemma width_mono_S (j : nat) :
  (j < length w)%nat -> fst (upto j) <= fst (upto (S j)).
Proof.
  intros Hj.
  destruct (Z.eq_dec (w !!! j) NA_INTEGER) as [Hna|Hna].
  - rewrite width_upto_S by assumption.
    destruct (upto j) as [wd k]. unfold width_body.
    destruct (Z.eqb_spec (w !!! j) NA_INTEGER); [simpl; lia|contradiction].
  - destruct (width_step j Hj Hna) as [(i & _ & _ & ->)| ->]; lia.
Qed.

Lemma width_mono (j j' : nat) :
  (j <= j' <= length w)%nat -> fst (upto j) <= fst (upto j').
Proof.
  induction j' as [|j' IH]; intros Hj.
  - replace j with 0%nat by lia. lia.
  - destruct (Nat.eq_dec j (S j')) as [->|Hne]; [lia|].
    pose proof (width_mono_S j' ltac:(lia)). specialize (IH ltac:(lia)). lia.
Qed.

(** After an unmasked k-mer the width is at least [K]. *)
Lemma width_first (j : nat) :
  (j < length w)%nat -> w !!! j <> NA_INTEGER -> K <= fst (upto (S j)).
Proof.
  intros Hj Hna.
  destruct (width_last (S j) ltac:(lia)) as (Hk & Hprev & HKle & _).
  apply HKle. apply (Hprev j eq_refl) in Hna. lia.
Qed.

(** Between position [a] and a later unmasked position [b] the width
    grows by at least [b - a], or by [K] if that is less. *)
Lemma width_gain (a b : nat) :
  (a < b < length w)%nat -> w !!! b <> NA_INTEGER ->
  fst (upto (S a)) + Z.min (Z.of_nat b - Z.of_nat a) K <= fst (upto (S b)).
Proof.
  induction b as [|b IH]; intros Hab Hna; [lia|].
  destruct (width_step (S b) ltac:(lia) Hna) as [(i & [= <-] & Hi & ->)| ->].
  - destruct (Nat.eq_dec a b) as [->|Hne]; [lia|].
    specialize (IH ltac:(lia) Hi). lia.
  - pose proof (width_mono (S a) (S b) ltac:(lia)). lia.
Qed.

(** The same facts for positions counted from one. *)
Local Abbreviation Wd := (fun q : Z => fst (upto (Z.to_nat q))).

Lemma unmasked_width (q : Z) : unmasked_at w q -> K <= Wd q.
Proof.
  intros (j & Hj & Hna & ->).
  replace (Z.to_nat (Z.of_nat j + 1)) with (S j) by lia.
  now apply width_first.
Qed.

Lemma unmasked_gain (p q : Z) :
  1 <= p < q -> unmasked_at w q -> Wd p + Z.min (q - p) K <= Wd q.
Proof.
  intros Hpq (j & Hj & Hna & ->).
  replace (Z.to_nat (Z.of_nat j + 1)) with (S j) by lia.
  pose proof (width_gain (Z.to_nat p - 1) j ltac:(lia) Hna) as Hg.
  replace (S (Z.to_nat p - 1)) with (Z.to_nat p) in Hg by lia.
  lia.
Qed.

Lemma unmasked_total (q : Z) : unmasked_at w q -> Wd q <= query_width K w.
Proof.
  intros (j & Hj & Hna & ->). rewrite width_upto_all.
  apply width_mono. lia.
Qed.

(** An anchor of [m + 1] k-mers, [step] letters apart. *)
Lemma span_width (step q : Z) (m : nat) :
  1 <= step <= K ->
  (forall d, (d <= m)%nat -> unmasked_at w (q + step * Z.of_nat d)) ->
  Wd q + step * Z.of_nat m <= Wd (q + step * Z.of_nat m).
Proof.
  intros Hstep. induction m as [|m IH]; intros Hall.
  - replace (q + step * Z.of_nat 0%nat) with q by lia. lia.
  - specialize (IH ltac:(intros d Hd; apply Hall; lia)).
    assert (Hq : 1 <= q + step * Z.of_nat m).
    { destruct (Hall m ltac:(lia)) as (j & _ & _ & ->). lia. }
    pose proof (unmasked_gain (q + step * Z.of_nat m)
                  (q + step * Z.of_nat (S m)) ltac:(nia)
                  (Hall (S m) ltac:(lia))) as Hg.
    nia.
Qed.
End Width.

(** * The coverage of a chain and the width of the query *)

Section Coverage.
Context {D : Type} `{ScoreOps D} `{Inhabited D}.
Variables (K step maxSep : Z) (gapCost sepCost : list D).
Variables (w posQuery posTarget set len : list Z).
Hypothesis Hstep : 1 <= step <= K.

Local Abbreviation chains := (chainDP maxSep gapCost sepCost posQuery posTarget set len).

(** The coverage of the chain that ends in anchor [i] is below the width
    of the query up to the last k-mer of that anchor. *)
Lemma chain_cov_upto (score0 : list D) :
  anchor_spans K step w posQuery len (length score0) ->
  forall i, (i < length score0)%nat ->
    unmasked_at w (posQuery !!! i + len !!! i - K) /\
    dp_cov (chains score0) !!! i + 1
    <= fst (width_upto K w (Z.to_nat (posQuery !!! i + len !!! i - K))).
Proof.
  intros Hspans.
  assert (HK : 1 <= K) by lia.
  destruct (chainDP_inv maxSep gapCost sepCost posQuery posTarget set len score0)
    as (_ & Hall & _).
  intros i. induction i as [i IH] using lt_wf_ind. intros Hi.
  destruct (Hspans i Hi) as (m & Hlen & Hun).
  assert (Hend : posQuery !!! i + len !!! i - K
                 = posQuery !!! i + step * Z.of_nat m) by lia.
  rewrite Hend. split; [apply Hun; lia|].
  pose proof (span_width K w HK step (posQuery !!! i) m Hstep Hun) as Hsp.
  cbv beta in Hsp.
  assert (Hq : unmasked_at w (posQuery !!! i)).
  { specialize (Hun 0%nat ltac:(lia)).
    now replace (posQuery !!! i + step * Z.of_nat 0) with (posQuery !!! i)
      in Hun by lia. }
  destruct (Hall i Hi) as (Hnode & _).
  destruct Hnode as [(_ & _ & Hcov & _)|(p & Hp & _ & Hlink & _ & Hcov & _)].
  - rewrite Hcov. pose proof (unmasked_width K w HK _ Hq) as Hw. cbv beta in Hw. lia.
  - destruct (IH p Hp ltac:(lia)) as (Hpe & Hpc).
    destruct Hlink as (_ & HdQ & _). unfold deltaQ in HdQ.
    assert (Hp1 : 1 <= posQuery !!! p + len !!! p - K).
    { destruct Hpe as (j & _ & _ & ->). lia. }
    assert (Hlt : 1 <= posQuery !!! p + len !!! p - K < posQuery !!! i) by lia.
    pose proof (unmasked_gain K w HK _ _ Hlt Hq) as Hg.
    cbv beta in Hg.
    rewrite Hcov. lia.
Qed.

Lemma chain_cov_width (score0 : list D) :
  anchor_spans K step w posQuery len (length score0) ->
  forall i, (i < length score0)%nat ->
    1 <= query_width K w - dp_cov (chains score0) !!! i.
Proof.
  intros Hspans i Hi.
  destruct (chain_cov_upto score0 Hspans i Hi) as (Hun & Hcov).
  assert (HK : 1 <= K) by lia.
  pose proof (unmasked_total K w HK _ Hun) as Ht. cbv beta in Ht. lia.
Qed.
End Coverage.

(** * The hits merged into one anchor *)

Section Groups.
Context {D : Type} `{ScoreOps D} `{Inhabited D}.
Variables (K step : Z).
Variables (posQuery posTarget set : list Z) (addScore : list D).
Variable s : nat.
Hypothesis Hstep : 1 <= step.
Hypothesis Hsorted : hits_sorted posTarget set s.
Hypothesis Hdistinct : hits_distinct posQuery posTarget set s.

Local Abbreviation cbody := (col_body step posQuery posTarget set addScore).
Local Abbreviation cmerge := (col_merge step addScore).
Local Abbreviation ckok := (keep_ok step posQuery posTarget set s).
Local Abbreviation grp := (col_groups K step posQuery posTarget set s).

Lemma col_groups_init (score : list D) :
  length score = s -> (1 <= s)%nat -> grp 1 (col_init K score).
Proof.
  intros Hl Hs. unfold col_groups, col_init. rewrite Hl.
  cbn [c_len c_origin].
  split; [|split].
  - intros i Hi. rewrite lookup_total_seq_lt by lia.
    rewrite lookup_total_replicate_2 by lia. split; [lia|reflexivity].
  - intros i Hi. replace i with 0%nat by lia. cbv zeta.
    rewrite !lookup_total_seq_lt by lia. rewrite !Nat.add_0_l.
    rewrite lookup_total_replicate_2 by lia.
    split; [lia|]. split; [reflexivity|]. split; [reflexivity|].
    exists 0%nat. lia.
  - intros o Ho. rewrite lookup_total_replicate_2 by lia.
    exists 0%nat. split; [lia|]. intros d Hd. lia.
Qed.

Lemma col_groups_step n st :
  (1 <= n < s)%nat -> ckok n st -> grp n st -> grp (S n) (cbody st n).
Proof.
  intros Hn Hkok (Ha & Hb & Hc).
  destruct (col_body_cases step posQuery posTarget set addScore s
              Hsorted n st Hn Hkok) as (k' & _ & _ & _ & Hres).
  destruct Hkok as ((Ll & Lo & Lk & Ls) & _).
  destruct (Ha n ltac:(lia)) as (Hon & Hln).
  destruct Hres as [(-> & _)|(j & Hj & Hset & (HT & HQ) & ->)].
  - unfold col_groups, with_k. cbn [c_len c_origin]. cbv zeta.
    split; [intros i Hi; apply Ha; lia|]. split.
    + intros i Hi. destruct (Nat.eq_dec i n) as [->|Hne].
      * rewrite Hon. split; [lia|]. split; [assumption|].
        split; [reflexivity|]. exists 0%nat. rewrite Hln. lia.
      * apply Hb. lia.
    + intros o Ho. destruct (Hc o Ho) as (m & Hm & Hd).
      exists m. split; [assumption|]. intros d Hdm.
      destruct (Hd d Hdm) as (i & Hi & Hrest).
      exists i. split; [lia|assumption].
  - destruct (Hb j Hj) as (Hoj & Hoo & Hso & dj & HTj & HQj & Hlj).
    unfold col_groups, col_merge, with_k. cbn [c_len c_origin]. cbv zeta.
    cbv zeta in Hoj, Hoo, Hso, HTj, HQj, Hlj.
    set (o := c_origin st !!! j) in *.
    destruct (Hc o ltac:(lia)) as (m & Hm & Hd).
    assert (Hdm : dj = m).
    { destruct (Nat.lt_ge_cases dj m) as [Hlt|Hge]; [|nia].
      exfalso. destruct (Hd (S dj) ltac:(lia)) as (i & Hi & Hsi & HTi & HQi).
      assert (i = n); [|lia].
      apply Hdistinct; [lia|lia|congruence|lia|lia]. }
    subst dj.
    split; [|split].
    + intros i Hi. rewrite !list_lookup_total_insert_ne by lia.
      apply Ha. lia.
    + intros i Hi. destruct (Nat.eq_dec i n) as [->|Hne].
      * rewrite list_lookup_total_insert_eq by lia.
        rewrite (list_lookup_total_insert_ne (c_origin st) n o) by lia.
        rewrite list_lookup_total_insert_eq by lia.
        split; [lia|]. split; [assumption|]. split; [congruence|].
        exists (S m). lia.
      * rewrite (list_lookup_total_insert_ne _ n i) by lia.
        destruct (Hb i ltac:(lia)) as (Hoi & Hooi & Hsi & d & HTi & HQi & Hli).
        cbv zeta in Hoi, Hooi, Hsi, HTi, HQi, Hli.
        rewrite (list_lookup_total_insert_ne (c_origin st) n) by lia.
        split; [assumption|]. split; [assumption|]. split; [assumption|].
        exists d. split; [assumption|]. split; [assumption|].
        destruct (Nat.eq_dec (c_origin st !!! i) o) as [Heqo|Hneo].
        -- rewrite Heqo in *. rewrite list_lookup_total_insert_eq by lia. lia.
        -- rewrite list_lookup_total_insert_ne by congruence. assumption.
    + intros o' Ho'. destruct (Nat.eq_dec o' o) as [->|Hneo].
      * rewrite list_lookup_total_insert_eq by lia.
        exists (S m). split; [lia|].
        intros d Hdm. destruct (Nat.eq_dec d (S m)) as [->|Hd'].
        -- exists n. split; [lia|]. split; [congruence|]. lia.
        -- destruct (Hd d ltac:(lia)) as (i & Hi & Hrest).
           exists i. split; [lia|assumption].
      * rewrite list_lookup_total_insert_ne by congruence.
        destruct (Hc o' Ho') as (m' & Hm' & Hd').
        exists m'. split; [assumption|]. intros d Hdm.
        destruct (Hd' d Hdm) as (i & Hi & Hrest).
        exists i. split; [lia|assumption].
Qed.

Lemma col_groups_final (score : list D) :
  length score = s -> (1 <= s)%nat ->
  grp s (collapse_state K step posQuery posTarget set addScore score).
Proof.
  intros Hl Hs. unfold collapse_state. rewrite Hl.
  pose proof (fold_left_seq_inv cbody
                (fun n st => ckok n st /\ grp n st) (s - 1) 1
                (col_init K score)) as Hfold.
  replace (1 + (s - 1))%nat with s in Hfold by lia.
  apply Hfold.
  - split; [now apply keep_ok_init|now apply col_groups_init].
  - intros i st Hi (Hk & Hg). split.
    + apply keep_ok_step; [assumption|lia|assumption].
    + apply col_groups_step; [lia|assumption|assumption].
Qed.

(** Every anchor the collapse leaves spans unmasked k-mers of the query,
    one every [step] letters. *)
Lemma collapse_spans (w : list Z) (score : list D) :
  length score = s -> length posQuery = s ->
  (forall i, (i < s)%nat -> unmasked_at w (posQuery !!! i)) ->
  let a := collapse K step posQuery posTarget set addScore score in
  anchor_spans K step w (a_posQuery a) (a_len a) (length (a_score a)).
Proof.
  intros Hl Hlq Hun a.
  destruct (Nat.eq_dec s 0%nat) as [Hs0|Hs0].
  { assert (score = []) by (destruct score; [reflexivity|simpl in Hl; lia]).
    subst score. intros x Hx. simpl in Hx. lia. }
  pose proof (keep_ok_final K step posQuery posTarget set addScore s Hsorted
                score Hl ltac:(lia)) as ((Ll & _ & Lk & Ls) & _).
  pose proof (col_groups_final score Hl ltac:(lia)) as (_ & _ & Hc).
  unfold a, collapse. cbn [a_posQuery a_len a_score].
  set (st := collapse_state K step posQuery posTarget set addScore score) in *.
  rewrite !(kept_flagged (c_keep st)) by congruence.
  rewrite length_map. intros x Hx.
  rewrite !lookup_total_map by assumption.
  set (o := flagged (c_keep st) !!! x).
  assert (Ho : In o (flagged (c_keep st)))
    by (apply list_elem_of_In, list_elem_of_lookup_total_2; assumption).
  apply in_flagged in Ho. destruct Ho as (Ho & _).
  destruct (Hc o ltac:(lia)) as (m & Hm & Hd).
  exists m. split; [assumption|].
  intros d Hdm. destruct (Nat.eq_dec d 0%nat) as [->|Hd0].
  - replace (posQuery !!! o + step * Z.of_nat 0) with (posQuery !!! o) by lia.
    apply Hun. lia.
  - destruct (Hd d ltac:(lia)) as (i & Hi & _ & _ & HQi).
    rewrite <- HQi. apply Hun. assumption.
Qed.
End Groups.

(** * The hits gathered for one query *)

Lemma combine_snoc {A B} (l1 : list A) (l2 : list B) (x : A) (y : B) :
  length l1 = length l2 ->
  combine (l1 ++ [x]) (l2 ++ [y]) = combine l1 l2 ++ [(x, y)].
Proof.
  revert l2. induction l1 as [|a l1 IH]; intros [|b l2] Hl; simpl in *;
    try discriminate; [reflexivity|].
  now rewrite IH by lia.
Qed.

Lemma initial_runs_app (c1 c2 : list nat) (a : nat) :
  initial_runs a (c1 ++ c2)
  = initial_runs a c1 ++ initial_runs (a + list_sum c1) c2.
Proof.
  revert a. induction c1 as [|n c1 IH]; intros a; simpl.
  - now rewrite Nat.add_0_r.
  - rewrite IH. do 3 f_equal. lia.
Qed.

Lemma initial_runs_below (counts : list nat) (run : list nat) (x : nat) :
  In run (initial_runs 0 counts) -> In x run -> (x < list_sum counts)%nat.
Proof.
  intros Hrun Hx.
  assert (Hin : In x (concat (initial_runs 0 counts)))
    by (apply in_concat; eauto).
  rewrite initial_runs_concat in Hin. apply in_seq in Hin. lia.
Qed.

Lemma StronglySorted_impl_in {A} (R R' : A -> A -> Prop) (l : list A) :
  (forall x y, In x l -> In y l -> R x y -> R' x y) ->
  StronglySorted R l -> StronglySorted R' l.
Proof.
  intros Himpl Hs. induction Hs as [|x l Hl IH Hx]; constructor.
  - apply IH. intros a b Ha Hb. apply Himpl; now right.
  - rewrite List.Forall_forall in *. intros y Hy.
    apply Himpl; [now left|now right|now apply Hx].
Qed.

Lemma StronglySorted_seq (R : nat -> nat -> Prop) (n : nat) :
  forall a, (forall x y, (a <= x < y)%nat -> (y < a + n)%nat -> R x y) ->
            StronglySorted R (seq a n).
Proof.
  induction n as [|n IH]; intros a HR; simpl; constructor.
  - apply IH. intros x y Hxy Hy. apply HR; lia.
  - apply List.Forall_forall. intros y Hy. apply in_seq in Hy.
    apply HR; lia.
Qed.

Lemma count_targets_counts (num w : list Z) :
  forall s counts s',
    count_targets num w s = Some (counts, s') ->
    counts = map (kmer_count num) w.
Proof.
  induction w as [|wj w IH]; intros s counts s' Hc; simpl in Hc.
  - now inversion Hc.
  - unfold kmer_count at 1. simpl.
    destruct (wj =? NA_INTEGER).
    + destruct (count_targets num w s) as [[c0 s0]|] eqn:Hrec; [|discriminate].
      inversion Hc; subst. f_equal. eapply IH; eassumption.
    + destruct (wrap32 (s + num !!! Z.to_nat wj) <? 0); [discriminate|].
      destruct (count_targets num w (wrap32 (s + num !!! Z.to_nat wj)))
        as [[c0 s0]|] eqn:Hrec; [|discriminate].
      inversion Hc; subst. f_equal. eapply IH; eassumption.
Qed.

Lemma unmasked_at_app (w : list Z) (wj q : Z) :
  unmasked_at w q -> unmasked_at (w ++ [wj]) q.
Proof.
  intros (j & Hj & Hna & ->). exists j.
  rewrite length_app, lookup_total_app_l by assumption.
  split; [lia|]. split; [assumption|reflexivity].
Qed.

Section GatherFacts.
Context {D : Type} `{ScoreOps D} `{Inhabited D}.
Variables (num loc ind : list Z) (scores addScores : list D).
Hypothesis Hidx : index_sorted num loc ind.

Local Abbreviation gath := (gather num loc ind scores addScores).
Local Abbreviation bkt := (bucket num loc ind scores addScores).

Lemma bucket_eq (j : nat) (wj cj : Z) :
  bkt j wj cj
  = let P := Z.to_nat (offsets num !!! Z.to_nat wj) in
    let n := Z.to_nat cj in
    mkHits (replicate n (Z.of_nat j + 1))
           (map (fun k => loc !!! (P + k)%nat) (seq 0 n))
           (map (fun k => ind !!! (P + k)%nat) (seq 0 n))
           (replicate n (scores !!! Z.to_nat wj))
           (replicate n (addScores !!! Z.to_nat wj)).
Proof.
  unfold bucket. destruct (Z.gtb_spec cj 0) as [Hpos|Hneg]; [reflexivity|].
  replace (Z.to_nat cj) with 0%nat by lia. reflexivity.
Qed.

Lemma gather_snoc (w counts : list Z) (wj cj : Z) :
  length w = length counts ->
  gath (w ++ [wj]) (counts ++ [cj])
  = hits_app (gath w counts) (bkt (length w) wj cj).
Proof.
  intros Hl. unfold gather, indexed.
  rewrite combine_snoc by assumption.
  rewrite combine_seq_app, fold_left_app.
  rewrite length_combine, <- Hl, Nat.min_id. reflexivity.
Qed.

Lemma gather_wf (w : list Z) :
  hits_wf w (gath w (map (kmer_count num) w))
          (map Z.to_nat (map (kmer_count num) w)).
Proof.
  induction w as [|wj w IH] using rev_ind.
  - unfold hits_wf. simpl. repeat split; try reflexivity; try (intros; lia).
    + intros i j Hi. lia.
    + constructor.
  - rewrite !map_app. cbn [map].
    rewrite gather_snoc by (now rewrite length_map).
    rewrite bucket_eq. cbv zeta.
    set (h := gath w (map (kmer_count num) w)) in *.
    set (cnts := map Z.to_nat (map (kmer_count num) w)) in *.
    set (n := Z.to_nat (kmer_count num wj)).
    set (P := Z.to_nat (offsets num !!! Z.to_nat wj)).
    destruct IH as ((Lq & Lt & Lset & Lsc & La) & Hun & Hdist & Hruns).
    set (T := list_sum cnts) in *.
    assert (HT : list_sum (cnts ++ [n]) = (T + n)%nat).
    { rewrite list_sum_app. simpl. fold T. lia. }
    assert (Hwj : (0 < n)%nat -> wj <> NA_INTEGER /\
                                 n = Z.to_nat (num !!! Z.to_nat wj)).
    { unfold n, kmer_count.
      destruct (Z.eqb_spec wj NA_INTEGER); [simpl; lia|].
      intros _. split; [assumption|reflexivity]. }
    assert (Eq : forall i, (i < T + n)%nat ->
              (h_posQuery h ++ replicate n (Z.of_nat (length w) + 1)) !!! i
              = if (i <? T)%nat then h_posQuery h !!! i
                else Z.of_nat (length w) + 1).
    { intros i Hi. destruct (Nat.ltb_spec i T).
      - now rewrite lookup_total_app_l by lia.
      - rewrite lookup_total_app_r by lia.
        now rewrite lookup_total_replicate_2 by lia. }
    assert (Et : forall i, (i < T + n)%nat ->
              (h_posTarget h ++ map (fun k => loc !!! (P + k)%nat) (seq 0 n)) !!! i
              = if (i <? T)%nat then h_posTarget h !!! i
                else loc !!! (P + (i - T))%nat).
    { intros i Hi. destruct (Nat.ltb_spec i T).
      - now rewrite lookup_total_app_l by lia.
      - rewrite lookup_total_app_r by lia. rewrite Lt.
        rewrite lookup_total_map by (rewrite length_seq; lia).
        now rewrite lookup_total_seq_lt by lia. }
    assert (Es : forall i, (i < T + n)%nat ->
              (h_set h ++ map (fun k => ind !!! (P + k)%nat) (seq 0 n)) !!! i
              = if (i <? T)%nat then h_set h !!! i
                else ind !!! (P + (i - T))%nat).
    { intros i Hi. destruct (Nat.ltb_spec i T).
      - now rewrite lookup_total_app_l by lia.
      - rewrite lookup_total_app_r by lia. rewrite Lset.
        rewrite lookup_total_map by (rewrite length_seq; lia).
        now rewrite lookup_total_seq_lt by lia. }
    assert (Hbucket : forall k1 k2, (k1 < k2 < n)%nat ->
              ind !!! (P + k1)%nat < ind !!! (P + k2)%nat
              \/ (ind !!! (P + k1)%nat = ind !!! (P + k2)%nat
                  /\ loc !!! (P + k1)%nat < loc !!! (P + k2)%nat)).
    { intros k1 k2 Hk. destruct (Hwj ltac:(lia)) as (_ & Hn).
      apply Hidx; lia. }
    unfold hits_wf, hits_app. cbn [h_posQuery h_posTarget h_set h_score h_addScore].
    rewrite HT. split; [|split; [|split]].
    + rewrite !length_app, !length_map, !length_replicate, !length_seq. lia.
    + intros i Hi. rewrite Eq by assumption.
      destruct (Nat.ltb_spec i T) as [Hlt|Hge].
      * apply unmasked_at_app, Hun. assumption.
      * destruct (Hwj ltac:(lia)) as (Hna & _).
        exists (length w). rewrite length_app. simpl.
        rewrite lookup_total_app_r by lia. rewrite Nat.sub_diag.
        split; [lia|]. split; [exact Hna|reflexivity].
    + intros i1 i2 Hi1 Hi2. rewrite !Es, !Et, !Eq by assumption.
      assert (Hold : forall i, (i < T)%nat ->
                h_posQuery h !!! i < Z.of_nat (length w) + 1).
      { intros i Hi. destruct (Hun i Hi) as (j & Hj & _ & ->). lia. }
      destruct (Nat.ltb_spec i1 T) as [H1|H1];
        destruct (Nat.ltb_spec i2 T) as [H2|H2]; intros Hs Ht Hq.
      * now apply Hdist.
      * specialize (Hold i1 H1). lia.
      * specialize (Hold i2 H2). lia.
      * destruct (Nat.lt_total (i1 - T) (i2 - T)) as [Hlt|[Heq|Hgt]]; [|lia|].
        -- destruct (Hbucket (i1 - T)%nat (i2 - T)%nat ltac:(lia)); lia.
        -- destruct (Hbucket (i2 - T)%nat (i1 - T)%nat ltac:(lia)); lia.
    + rewrite initial_runs_app. apply Forall_app. split.
      * apply List.Forall_forall. intros run Hrun.
        rewrite List.Forall_forall in Hruns.
        apply (StronglySorted_impl_in _ _ run) with (2 := Hruns run Hrun).
        intros x y Hx Hy.
        pose proof (initial_runs_below cnts run x Hrun Hx) as HxT.
        pose proof (initial_runs_below cnts run y Hrun Hy) as HyT.
        unfold takes_left. fold T in HxT, HyT.
        rewrite !Es, !Et by lia.
        destruct (Nat.ltb_spec x T); [|lia].
        destruct (Nat.ltb_spec y T); [|lia]. auto.
      * simpl. constructor; [|constructor]. fold T.
        apply StronglySorted_seq. intros x y Hxy Hy.
        unfold takes_left. rewrite !Es, !Et by lia.
        destruct (Nat.ltb_spec x T); [lia|].
        destruct (Nat.ltb_spec y T); [lia|].
        destruct (Hbucket (x - T)%nat (y - T)%nat ltac:(lia)) as [Hlt|(Heq & Hlt)].
        -- destruct (Z.eqb_spec (ind !!! (P + (x - T))%nat)
                                 (ind !!! (P + (y - T))%nat)); [lia|].
           apply Z.ltb_lt. assumption.
        -- rewrite Heq, Z.eqb_refl. apply Z.leb_le. lia.
Qed.
End GatherFacts.

(** * The buckets of a built index are ordered *)

Lemma StronglySorted_filter {A} (R : A -> A -> Prop) (p : A -> bool)
      (l : list A) :
  StronglySorted R l -> StronglySorted R (List.filter p l).
Proof.
  induction 1 as [|x l Hl IH Hx]; simpl; [constructor|].
  destruct (p x); [|assumption]. constructor; [assumption|].
  rewrite List.Forall_forall in *. intros y Hy.
  apply filter_In in Hy. apply Hx, Hy.
Qed.

Lemma StronglySorted_map {A B} (R : A -> A -> Prop) (R' : B -> B -> Prop)
      (g : A -> B) (l : list A) :
  (forall x y, R x y -> R' (g x) (g y)) ->
  StronglySorted R l -> StronglySorted R' (map g l).
Proof.
  intros Hg. induction 1 as [|x l Hl IH Hx]; simpl; constructor;
    [assumption|].
  rewrite List.Forall_forall in *. intros y Hy.
  apply in_map_iff in Hy. destruct Hy as (z & <- & Hz). apply Hg, Hx, Hz.
Qed.

Lemma StronglySorted_app {A} (R : A -> A -> Prop) (l1 l2 : list A) :
  StronglySorted R l1 -> StronglySorted R l2 ->
  (forall x y, In x l1 -> In y l2 -> R x y) ->
  StronglySorted R (l1 ++ l2).
Proof.
  intros H1 H2. induction H1 as [|x l Hl IH Hx]; intros H12; simpl;
    [assumption|].
  constructor.
  - apply IH. intros a b Ha Hb. apply H12; [now right|assumption].
  - rewrite List.Forall_forall in *. intros y Hy.
    apply in_app_or in Hy. destruct Hy as [Hy|Hy]; [now apply Hx|].
    apply H12; [now left|assumption].
Qed.

(** ** [updateIndex] on [offset] and [location] *)

Lemma index_write_locs c kmers (js : list nat) st :
  off_loc (fold_left (index_write c kmers) js st)
  = fold_left write_event
      (map ev_swap
           (map (fun j => (Z.to_nat (kmers !!! j), c, Z.of_nat j + 1))
                (List.filter (fun j => negb (kmers !!! j =? NA_INTEGER)) js)))
      (off_loc st).
Proof.
  revert st. induction js as [|j js IH]; intros st; simpl; [reflexivity|].
  rewrite IH. unfold index_write.
  destruct (kmers !!! j =? NA_INTEGER); simpl; reflexivity.
Qed.

Lemma update_seq_locs K s c0 st i kmers :
  off_loc (update_seq K s c0 st (i, kmers))
  = fold_left write_event
      (map ev_swap (seq_events s (Z.of_nat c0 + Z.of_nat i + 1) kmers))
      (off_loc st).
Proof.
  unfold update_seq. rewrite index_write_locs. reflexivity.
Qed.

Lemma updateIndex_locs_from K s c0 (query : list (list Z)) a st :
  off_loc (fold_left (update_seq K s c0)
                     (combine (seq a (length query)) query) st)
  = fold_left write_event
      (map ev_swap
           (flat_map (fun ik => seq_events s (Z.of_nat c0 + Z.of_nat (fst ik) + 1)
                                           (snd ik))
                     (combine (seq a (length query)) query)))
      (off_loc st).
Proof.
  revert a st. induction query as [|kmers query IH]; intros a st;
    [reflexivity|].
  cbn [length seq combine flat_map fold_left fst snd].
  rewrite map_app, fold_left_app, IH, update_seq_locs. reflexivity.
Qed.

Lemma updateIndex_locs offset query K s location index positions c0 :
  off_loc (updateIndex offset query K s location index positions c0)
  = fold_left write_event (map ev_swap (corpus_events s c0 query))
              (offset, location).
Proof. apply updateIndex_locs_from. Qed.

Lemma code_count_swap es c : code_count (map ev_swap es) c = code_count es c.
Proof.
  unfold code_count. rewrite map_map. reflexivity.
Qed.

Lemma code_targets_swap es c :
  code_targets (map ev_swap es) c
  = map ev_loc (List.filter (fun e => (ev_code e =? c)%nat) es).
Proof.
  unfold code_targets. induction es as [|e es IH]; simpl; [reflexivity|].
  change (ev_code (ev_swap e)) with (ev_code e).
  destruct (ev_code e =? c)%nat; simpl; now rewrite IH.
Qed.

Lemma code_count_filter es c :
  code_count es c = length (List.filter (fun e => (ev_code e =? c)%nat) es).
Proof.
  induction es as [|e es IH]; [reflexivity|].
  rewrite code_count_cons, IH. simpl.
  destruct (ev_code e =? c)%nat; reflexivity.
Qed.

(** ** The events are written in order *)

Lemma seq_events_sorted (s : nat) (c : Z) (kmers : list Z) :
  (1 <= s)%nat -> StronglySorted ev_before (seq_events s c kmers).
Proof.
  intros Hs. unfold seq_events, unmasked_strided.
  rewrite stride_spec by assumption.
  apply (StronglySorted_map lt).
  - intros x y Hxy. right. unfold ev_target, ev_loc. simpl. lia.
  - do 2 apply StronglySorted_filter.
    apply StronglySorted_seq. intros x y Hxy _. lia.
Qed.

Lemma corpus_events_sorted_from s c0 (query : list (list Z)) a :
  (1 <= s)%nat ->
  StronglySorted ev_before
    (flat_map (fun ik => seq_events s (Z.of_nat c0 + Z.of_nat (fst ik) + 1)
                                    (snd ik))
              (combine (seq a (length query)) query)).
Proof.
  intros Hs. revert a. induction query as [|kmers query IH]; intros a.
  - constructor.
  - cbn [length seq combine flat_map fst snd].
    apply StronglySorted_app.
    + now apply seq_events_sorted.
    + apply IH.
    + intros x y Hx Hy. left.
      apply in_corpus_events in Hy.
      destruct Hy as (i & km & j & Hi & _ & _ & ->).
      unfold seq_events in Hx. apply in_map_iff in Hx.
      destruct Hx as (j' & <- & _). unfold ev_target. simpl. lia.
Qed.

Lemma corpus_events_sorted s c0 (query : list (list Z)) :
  (1 <= s)%nat -> StronglySorted ev_before (corpus_events s c0 query).
Proof. apply corpus_events_sorted_from. Qed.

(** ** Every bucket holds the events of its k-mer, in order *)

Lemma write_events_buckets (L : nat) (es : list (nat * Z * Z))
      (counts arr : list Z) :
  Forall (fun e => (ev_code e < L)%nat) es ->
  length counts = L ->
  (forall c, (c < L)%nat -> counts !!! c = Z.of_nat (code_count es c)) ->
  Z.of_nat (length arr) = fold_right Z.add 0 counts ->
  forall c k, (c < L)%nat -> (k < code_count es c)%nat ->
    snd (fold_left write_event es (offsets counts, arr))
    !!! (Z.to_nat (offsets counts !!! c) + k)%nat
    = code_targets es c !!! k.
Proof.
  intros Hcodes Hlc Hc Hlen.
  assert (Hoff : forall c, (c < L)%nat ->
             offsets counts !!! c = Z.of_nat (prefix_sum (code_count es) c)).
  { intros c HcL. unfold offsets.
    rewrite offsets_from_lookup by lia.
    rewrite (sum_take_prefix counts (code_count es)); [lia|lia|].
    intros c' Hc'. apply Hc. lia. }
  assert (Htot : length arr = prefix_sum (code_count es) L).
  { apply Nat2Z.inj. rewrite Hlen.
    rewrite <- (take_ge counts L) at 1 by lia.
    apply sum_take_prefix; [lia|]. intros c' Hc'. apply Hc. lia. }
  assert (Hinit : index_inv L (prefix_sum (code_count es))
                            (prefix_sum (code_count es) L) []
                            (offsets counts, arr)).
  { split; [unfold offsets; now rewrite offsets_from_length|].
    split; [assumption|]. intros c HcL.
    change (code_count [] c) with 0%nat.
    rewrite Nat.add_0_r, slice_empty. split; [now apply Hoff|reflexivity]. }
  pose proof (index_inv_fold L es Hcodes es [] (offsets counts, arr) eq_refl
                Hinit) as Hfin.
  destruct (fold_left write_event es (offsets counts, arr)) as [off' arr'].
  destruct Hfin as (_ & _ & Hall).
  intros c k HcL Hk. simpl.
  destruct (Hall c HcL) as (_ & Hsl).
  rewrite Hoff by assumption. rewrite Nat2Z.id.
  rewrite !list_lookup_total_alt. f_equal.
  rewrite <- Hsl, slice_lookup.
  destruct (decide (k < prefix_sum (code_count es) c + code_count es c
                        - prefix_sum (code_count es) c)%nat); [reflexivity|lia].
Qed.

(** The index built by [countIndex] and [updateIndex] lists the
    occurrences of every k-mer by increasing target and, within a target,
    increasing location. *)
Lemma updateIndex_sorted (L : nat) (corpus : list (list Z)) (K : Z)
      (s c0 : nat) (location index positions : list Z) :
  (1 <= s)%nat ->
  (forall kmers j, In kmers corpus -> (j < length kmers)%nat ->
                   (j mod s = 0)%nat -> kmers !!! j <> NA_INTEGER ->
                   0 <= kmers !!! j < Z.of_nat L) ->
  let counts := countIndex (replicate L 0) corpus s in
  Z.of_nat (length index) = fold_right Z.add 0 counts ->
  length location = length index ->
  let st := updateIndex (offsets counts) corpus K s location index positions
                        c0 in
  index_sorted counts (i_loc st) (i_ind st).
Proof.
  intros Hs Hrange counts Hlen Hlloc st.
  set (events := corpus_events s c0 corpus).
  assert (Hcodes : Forall (fun e => (ev_code e < L)%nat) events).
  { apply List.Forall_forall. intros e He.
    apply in_corpus_events in He.
    destruct He as (i & kmers & j & _ & Hk & Hj & ->).
    unfold unmasked_strided in Hj. rewrite stride_spec in Hj by assumption.
    apply filter_In in Hj. destruct Hj as (Hj & Hun).
    apply filter_In in Hj. destruct Hj as (Hj & Hmod).
    apply in_seq in Hj. apply Nat.eqb_eq in Hmod.
    apply negb_true_iff, Z.eqb_neq in Hun.
    specialize (Hrange kmers j Hk ltac:(lia) Hmod Hun).
    unfold ev_code. simpl. lia. }
  assert (Hcounts : counts = fold_left bump (map ev_code events)
                                       (replicate L 0))
    by apply countIndex_events.
  assert (Hlc : length counts = L)
    by (rewrite Hcounts, bump_length; apply length_replicate).
  assert (Hc : forall c, (c < L)%nat ->
                         counts !!! c = Z.of_nat (code_count events c)).
  { intros c Hc. rewrite Hcounts, bump_count
      by (rewrite length_replicate; lia).
    rewrite lookup_total_replicate_2 by lia. reflexivity. }
  assert (Hcodes' : Forall (fun e => (ev_code e < L)%nat)
                           (map ev_swap events)).
  { apply List.Forall_forall. intros e He. apply in_map_iff in He.
    destruct He as (e0 & <- & He0).
    rewrite List.Forall_forall in Hcodes. apply (Hcodes e0 He0). }
  pose proof (write_events_buckets L events counts index Hcodes Hlc Hc Hlen)
    as Hind.
  pose proof (write_events_buckets L (map ev_swap events) counts location
                Hcodes' Hlc
                ltac:(intros c HcL; rewrite code_count_swap; now apply Hc)
                ltac:(now rewrite Hlloc)) as Hloc.
  pose proof (updateIndex_events (offsets counts) corpus K s location index
                positions c0) as Hev.
  pose proof (updateIndex_locs (offsets counts) corpus K s location index
                positions c0) as Hlv.
  fold st events in Hev, Hlv. rewrite <- Hev in Hind. rewrite <- Hlv in Hloc.
  unfold off_ind, off_loc in *. simpl in Hind, Hloc.
  intros c k1 k2 Hk1 Hk2 P.
  destruct (Nat.lt_ge_cases c L) as [HcL|HcL].
  - rewrite (Hc c HcL), Nat2Z.id in Hk2. unfold P.
    rewrite !Hind by lia.
    rewrite !Hloc by (rewrite ?code_count_swap; lia).
    rewrite code_targets_swap. unfold code_targets.
    set (E := List.filter (fun e => (ev_code e =? c)%nat) events).
    assert (HE : length E = code_count events c)
      by (symmetry; apply code_count_filter).
    rewrite !lookup_total_map by lia.
    apply (StronglySorted_lookup ev_before E).
    + apply StronglySorted_filter, corpus_events_sorted, Hs.
    + lia.
  - exfalso. rewrite list_lookup_total_alt in Hk2.
    rewrite lookup_ge_None_2 in Hk2 by lia. simpl in Hk2.
    change (Z.to_nat inhabitant) with 1%nat in Hk2. lia.
Qed.

(** * From the index to the coverage of the chains *)

(** Reading well-formed hits through the order of the sort. *)
Lemma reorder_wf {D : Type} `{Inhabited D} (w : list Z) (h : hits D)
      (cnts : list nat) (o1 : list nat) :
  hits_wf w h cnts ->
  StronglySorted (hit_before (h_set h) (h_posTarget h)) o1 ->
  Permutation o1 (seq 0 (list_sum cnts)) ->
  let h' := reorder_hits o1 h in
  let T := list_sum cnts in
  length (h_score h') = T /\ length (h_posQuery h') = T /\
  hits_sorted (h_posTarget h') (h_set h') T /\
  hits_distinct (h_posQuery h') (h_posTarget h') (h_set h') T /\
  (forall i, (i < T)%nat -> unmasked_at w (h_posQuery h' !!! i)).
Proof.
  intros (_ & Hun & Hdist & _) Hso Hperm h' T.
  assert (Hlen : length o1 = T).
  { rewrite (Permutation_length Hperm). apply length_seq. }
  assert (Hin : forall i, (i < T)%nat -> (o1 !!! i < T)%nat).
  { intros i Hi.
    assert (Hi' : In (o1 !!! i) o1)
      by (apply list_elem_of_In, list_elem_of_lookup_total_2; lia).
    apply (Permutation_in _ Hperm) in Hi'. apply in_seq in Hi'. lia. }
  assert (Hnd : NoDup o1).
  { rewrite Hperm. apply NoDup_seq. }
  unfold h', reorder_hits. cbn [h_posQuery h_posTarget h_set h_score].
  split; [now rewrite reorder_length|].
  split; [now rewrite reorder_length|].
  split; [|split].
  - intros i j Hij. rewrite !reorder_lookup by lia.
    pose proof (StronglySorted_lookup _ o1 Hso i j ltac:(lia)) as Hb.
    unfold hit_before in Hb. lia.
  - intros i j Hi Hj. rewrite !reorder_lookup by lia. intros Hs Ht Hq.
    pose proof (Hdist _ _ (Hin i Hi) (Hin j Hj) Hs Ht Hq) as Heq.
    apply (NoDup_lookup o1 i j (o1 !!! i) Hnd).
    + apply list_lookup_lookup_total_lt. lia.
    + rewrite Heq. apply list_lookup_lookup_total_lt. lia.
  - intros i Hi. rewrite reorder_lookup by lia. apply Hun, Hin, Hi.
Qed.

Section Pipeline.
Context {D : Type} `{ScoreOps D} `{Inhabited D}.
Variables (K step : Z) (num loc ind : list Z) (scores addScores : list D).
Variables (maxSep : Z) (gapCost sepCost : list D).
Hypothesis Hstep : 1 <= step <= K.
Hypothesis Hidx : index_sorted num loc ind.

(** The sort of the gathered hits ends, and the anchors left by the
    collapse span unmasked k-mers of the query. *)
Lemma sorted_anchors_spans (w : list Z) :
  exists a,
    sorted_anchors K step num loc ind scores addScores w
                   (map (kmer_count num) w) = Some a /\
    anchor_spans K step w (a_posQuery a) (a_len a) (length (a_score a)).
Proof.
  pose proof (gather_wf num loc ind scores addScores Hidx w) as Hwf.
  unfold sorted_anchors.
  set (h := gather num loc ind scores addScores w (map (kmer_count num) w))
    in *.
  set (cnts := map Z.to_nat (map (kmer_count num) w)) in *.
  destruct (sort_order_sorted (h_set h) (h_posTarget h) cnts)
    as (o1 & Ho1 & Hso & Hperm).
  { destruct Hwf as (_ & _ & _ & Hruns). exact Hruns. }
  assert (Hls : length (h_set h) = list_sum cnts).
  { destruct Hwf as ((_ & _ & Hls & _) & _). exact Hls. }
  rewrite Hls, Ho1.
  eexists. split; [reflexivity|].
  destruct (reorder_wf w h cnts o1 Hwf Hso Hperm)
    as (Lsc & Lq & Hsorted & Hdist & Hun).
  apply (collapse_spans K step _ _ _ _ (list_sum cnts)); try assumption.
  lia.
Qed.

(** C6.  With [step <= K] and an index whose buckets list their
    occurrences by increasing target and, within a target, increasing
    location, a query whose hit counter does not overflow is sorted and
    collapsed into anchors, and for every anchor [j] the coverage the
    chain DP leaves in [cov[j]] satisfies [width - cov[j] >= 1]: the
    argument of the logarithm of the second search-space correction is
    positive.  [updateIndex_sorted] shows that [countIndex] and
    [updateIndex] build an index with such buckets. *)
Theorem C6_coverage_below_width (w counts : list Z) (s : Z) :
  count_targets num w 0 = Some (counts, s) ->
  exists a,
    sorted_anchors K step num loc ind scores addScores w counts = Some a /\
    let st := chainDP maxSep gapCost sepCost (a_posQuery a) (a_posTarget a)
                      (a_set a) (a_len a) (a_score a) in
    length (dp_cov st) = length (a_score a) /\
    forall j, (j < length (a_score a))%nat ->
              1 <= query_width K w - dp_cov st !!! j.
Proof.
  intros Hc. apply count_targets_counts in Hc. subst counts.
  destruct (sorted_anchors_spans w) as (a & Ha & Hspans).
  exists a. split; [assumption|]. cbv zeta. split.
  - apply chainDP_lengths.
  - intros j Hj. eapply chain_cov_width; eassumption.
Qed.
End Pipeline.

(** With [K = 1] and [step = 2] the index of the target [0 1 2] holds the
    k-mers at locations 1 and 3; for the query [0 NA 2] the width is 2, the
    two hits are collapsed into one anchor of length 3, and [cov] is 2. *)
Lemma C6_counterexample :
  let corpus := [[0; 1; 2]] in
  let num := countIndex [0; 0; 0; 0] corpus 2 in
  let idx := updateIndex (offsets num) corpus 1 2 [0; 0] [0; 0] [0] 0 in
  let w := [0; NA_INTEGER; 2] in
  index_sorted num (i_loc idx) (i_ind idx) /\
  count_targets num w 0 = Some ([1; 0; 1], 2) /\
  exists a,
    sorted_anchors 1 2 num (i_loc idx) (i_ind idx) [3; 3; 3; 3] [3; 3; 3; 3]
                   w [1; 0; 1] = Some a /\
    length (a_score a) = 1%nat /\
    query_width 1 w
    - dp_cov (chainDP 10 (replicate 11 0) (replicate 11 0) (a_posQuery a)
                      (a_posTarget a) (a_set a) (a_len a) (a_score a))
      !!! 0%nat = 0.
Proof.
  intros corpus num idx w. split; [|split].
  - intros c k1 k2 H1 H2.
    do 4 (destruct c as [|c]; [vm_compute in H2; lia|]).
    vm_compute in H2. lia.
  - reflexivity.
  - eexists. split; [vm_compute; reflexivity|].
    split; reflexivity.
Qed.

Lemma C6_coverage_below_width_witness :
  let corpus := [[0; 1; 2; 1; 0]] in
  let num := countIndex [0; 0; 0; 0] corpus 2 in
  let idx := updateIndex (offsets num) corpus 2 2 [0; 0; 0] [0; 0; 0] [0] 0 in
  let w := [0; NA_INTEGER; 2; 1; 0] in
  exists a,
    sorted_anchors 2 2 num (i_loc idx) (i_ind idx) [3; 3; 3; 3] [3; 3; 3; 3]
                   w [2; 0; 1; 0; 2] = Some a /\
    let st := chainDP 10 (replicate 11 0) (replicate 11 0) (a_posQuery a)
                      (a_posTarget a) (a_set a) (a_len a) (a_score a) in
    length (dp_cov st) = length (a_score a) /\
    forall j, (j < length (a_score a))%nat ->
              1 <= query_width 2 w - dp_cov st !!! j.
Proof.
  intros corpus num idx w.
  apply (C6_coverage_below_width 2 2 num (i_loc idx) (i_ind idx)
           [3; 3; 3; 3] [3; 3; 3; 3] 10 (replicate 11 0) (replicate 11 0)
           ltac:(lia)) with (s := 5).
  - intros c k1 k2 H1 H2.
    destruct c as [|c].
    { vm_compute in H2. assert (k1 = 0%nat) as -> by lia.
      assert (k2 = 1%nat) as -> by lia.
      right. split; vm_compute; reflexivity. }
    do 3 (destruct c as [|c]; [vm_compute in H2; lia|]).
    vm_compute in H2. lia.
  - reflexivity.
Defined.

(** * The selectors for the top hit and for one hit per target *)

Section SelectTop.
Context {D : Type} `{ScoreOps D} `{Inhabited D}.
Variables (origin : list nat) (set : list Z) (score : list D).
Hypothesis Hord : dlt_order D.

Local Abbreviation top_body :=
  (fun r j : nat => if dlt (score !!! r) (score !!! j) then j else r).

Lemma top_body_inv (n r : nat) :
  (r < n)%nat ->
  (forall j, (j < n)%nat -> dlt (score !!! r) (score !!! j) = false) ->
  (forall j, (j < r)%nat -> dlt (score !!! j) (score !!! r) = true) ->
  let r' := top_body r n in
  (r' < S n)%nat /\
  (forall j, (j < S n)%nat -> dlt (score !!! r') (score !!! j) = false) /\
  (forall j, (j < r')%nat -> dlt (score !!! j) (score !!! r') = true).
Proof.
  destruct Hord as (Hirr & Htr & Hntr).
  intros Hr Hmax Hfirst. cbv zeta.
  destruct (dlt (score !!! r) (score !!! n)) eqn:Hlt.
  - split; [lia|]. split.
    + intros j Hj. destruct (Nat.eq_dec j n) as [->|Hne]; [apply Hirr|].
      destruct (dlt (score !!! n) (score !!! j)) eqn:Hnj; [|reflexivity].
      rewrite <- (Hmax j ltac:(lia)). symmetry. eapply Htr; eassumption.
    + intros j Hj.
      destruct (dlt (score !!! j) (score !!! n)) eqn:Hjn; [reflexivity|].
      rewrite <- Hlt. symmetry. apply (Hntr _ (score !!! j)); [|assumption].
      apply Hmax. lia.
  - split; [lia|]. split; [|assumption].
    intros j Hj. destruct (Nat.eq_dec j n) as [->|Hne]; [assumption|].
    apply Hmax. lia.
Qed.

(** The selector for the top hit (lines 486-491) returns one hit: no hit
    scores higher, and every earlier hit scores lower. *)
Theorem select_top_highest :
  (1 <= length score)%nat ->
  exists r,
    select_top score = [r] /\ (r < length score)%nat /\
    (forall j, (j < length score)%nat ->
               dlt (score !!! r) (score !!! j) = false) /\
    (forall j, (j < r)%nat -> dlt (score !!! j) (score !!! r) = true).
Proof.
  intros Hs. unfold select_top. eexists. split; [reflexivity|].
  pose proof (fold_left_seq_inv top_body
                (fun n r => (r < n)%nat /\
                   (forall j, (j < n)%nat ->
                              dlt (score !!! r) (score !!! j) = false) /\
                   (forall j, (j < r)%nat ->
                              dlt (score !!! j) (score !!! r) = true))
                (length score - 1) 1 0%nat) as Hfold.
  replace (1 + (length score - 1))%nat with (length score) in Hfold by lia.
  apply Hfold.
  - destruct Hord as (Hirr & _).
    split; [lia|]. split; [|intros j Hj; lia].
    intros j Hj. replace j with 0%nat by lia. apply Hirr.
  - intros i r _ (Hr & Hmax & Hfirst). now apply top_body_inv.
Qed.
End SelectTop.

Lemma select_top_highest_witness :
  exists r,
    select_top [3; 7; 2; 7] = [r] /\ (r < 4)%nat /\
    (forall j, (j < 4)%nat -> dlt ([3; 7; 2; 7] !!! r) ([3; 7; 2; 7] !!! j) = false) /\
    (forall j, (j < r)%nat -> dlt ([3; 7; 2; 7] !!! j) ([3; 7; 2; 7] !!! r) = true).
Proof.
  apply (select_top_highest [3; 7; 2; 7] Z_dlt_order). simpl. lia.
Defined.

Section SelectTarget.
Context {D : Type} `{ScoreOps D} `{Inhabited D}.
Variables (set : list Z) (score : list D).
Hypothesis Hord : dlt_order D.
Hypothesis Hsorted :
  forall i j, (i < j < length score)%nat -> set !!! i <= set !!! j.
Hypothesis Hids :
  forall j, (j < length score)%nat -> set !!! j <> NA_INTEGER.

Local Abbreviation best := (target_best set score).
Local Abbreviation tinv := (target_inv set score).
Local Abbreviation tbody := (target_body set score).

Lemma target_best_unique n b b' :
  best n b -> best n b' -> set !!! b = set !!! b' -> b = b'.
Proof.
  intros (Hb & Hmax & Hfirst) (Hb' & Hmax' & Hfirst') Hset.
  destruct (Nat.lt_total b b') as [Hlt|[Heq|Hgt]]; [|assumption|].
  - specialize (Hfirst' b Hlt Hset). rewrite (Hmax b' Hb' (eq_sym Hset)) in Hfirst'.
    discriminate.
  - specialize (Hfirst b' Hgt (eq_sym Hset)). rewrite (Hmax' b Hb Hset) in Hfirst.
    discriminate.
Qed.

Lemma target_best_earlier n b : best (S n) b -> (b < n)%nat -> best n b.
Proof.
  intros (Hb & Hmax & Hfirst) Hlt. split; [assumption|]. split; [|assumption].
  intros j Hj. apply Hmax. lia.
Qed.

Lemma target_inv_init : tinv 0 (replicate (length score) false, NA_INTEGER, 0%nat).
Proof.
  unfold target_inv. split; [apply length_replicate|].
  split; [auto|]. split; [lia|]. split.
  - intros b Hb. rewrite lookup_total_replicate_2 by assumption.
    split; [discriminate|]. intros (Hlt & _). lia.
  - intros j Hj. lia.
Qed.

Lemma target_inv_step n st :
  (n < length score)%nat -> tinv n st -> tinv (S n) (tbody st n).
Proof.
  destruct Hord as (Hirr & Htr & Hntr).
  intros Hn. destruct st as [[keep p] k].
  intros (Hlen & Hzero & Hpos & Hkeep & Hsome).
  assert (Hnew : p <> set !!! n ->
                 forall j, (j < n)%nat -> set !!! j <> set !!! n).
  { intros Hp j Hj Hset. destruct (Hpos ltac:(lia)) as (Hpn & _).
    pose proof (Hsorted (n - 1)%nat n ltac:(lia)) as Hb.
    destruct (Nat.eq_dec j (n - 1)%nat) as [->|Hne]; [congruence|].
    pose proof (Hsorted j (n - 1)%nat ltac:(lia)) as Ha. lia. }
  assert (Hother : forall b, (b < n)%nat -> set !!! b <> set !!! n ->
                             best (S n) b <-> best n b).
  { intros b Hb Hset. split; [intros Hbest; now apply target_best_earlier|].
    intros (_ & Hmax & Hfirst). split; [lia|]. split; [|assumption].
    intros j Hj Hsj. apply Hmax; [|assumption].
    destruct (Nat.eq_dec j n) as [->|Hne]; [congruence|lia]. }
  unfold target_body.
  destruct (Z.eqb_spec p (set !!! n)) as [Hp|Hp]; cbn [negb].
  - assert (Hn1 : (1 <= n)%nat).
    { destruct n as [|n']; [|lia]. destruct Hzero as (HpNA & _); [reflexivity|].
      exfalso. apply (Hids 0%nat Hn). congruence. }
    destruct (Hpos Hn1) as (Hpn & Hkp & Hbk).
    assert (Hkn : set !!! k = set !!! n) by congruence.
    pose proof Hbk as (Hk & Hkmax & Hkfirst).
    assert (Hsame : forall b, (b < n)%nat -> set !!! b = set !!! n ->
                              best n b -> b = k).
    { intros b Hb Hset Hbest.
      apply (target_best_unique n); auto. congruence. }
    destruct (dlt (score !!! k) (score !!! n)) eqn:Hlt.
    + assert (Hbn : best (S n) n).
      { split; [lia|]. split.
        - intros j Hj Hset.
          destruct (Nat.eq_dec j n) as [->|Hne]; [apply Hirr|].
          destruct (dlt (score !!! n) (score !!! j)) eqn:Hnj; [|reflexivity].
          rewrite <- (Hkmax j ltac:(lia) ltac:(congruence)).
          symmetry. eapply Htr; eassumption.
        - intros j Hj Hset.
          destruct (dlt (score !!! j) (score !!! n)) eqn:Hjn; [reflexivity|].
          rewrite <- Hlt. symmetry.
          apply (Hntr _ (score !!! j)); [|assumption].
          apply Hkmax; [lia|congruence]. }
      unfold target_inv. rewrite !length_insert.
      split; [assumption|]. split; [lia|]. split.
      { intros _. replace (S n - 1)%nat with n by lia. auto. }
      split.
      * intros b Hb. destruct (Nat.eq_dec b n) as [->|Hbn'].
        { rewrite list_lookup_total_insert_eq
            by (rewrite length_insert; lia). tauto. }
        rewrite list_lookup_total_insert_ne by lia.
        destruct (Nat.eq_dec b k) as [->|Hbk'].
        { rewrite list_lookup_total_insert_eq by lia.
          split; [discriminate|]. intros (_ & Hmax' & _).
          rewrite (Hmax' n ltac:(lia) (eq_sym Hkn)) in Hlt. discriminate. }
        rewrite list_lookup_total_insert_ne by lia. rewrite (Hkeep b Hb).
        split.
        -- intros Hbest. pose proof Hbest as (Hbn0 & _).
           apply Hother; [assumption| |assumption].
           intros Hs. apply Hbk'. now apply Hsame.
        -- intros Hbest. pose proof Hbest as (Hbn0 & _).
           apply target_best_earlier; [assumption|lia].
      * intros j Hj. destruct (Nat.eq_dec j n) as [->|Hne].
        { exists n. split; [lia|]. split; [|reflexivity].
          apply list_lookup_total_insert_eq. rewrite length_insert. lia. }
        destruct (Hsome j ltac:(lia)) as (b & Hb & Hkb & Hsb).
        destruct (Nat.eq_dec b k) as [->|Hbk'].
        -- exists n. split; [lia|]. split; [|congruence].
           apply list_lookup_total_insert_eq. rewrite length_insert. lia.
        -- exists b. split; [lia|]. split; [|assumption].
           rewrite !list_lookup_total_insert_ne by lia. assumption.
    + unfold target_inv.
      split; [assumption|]. split; [lia|]. split.
      { intros _. replace (S n - 1)%nat with n by lia.
        split; [assumption|]. split; [assumption|].
        split; [lia|]. split; [|assumption].
        intros j Hj Hset. destruct (Nat.eq_dec j n) as [->|Hne]; [assumption|].
        apply Hkmax; [lia|assumption]. }
      split.
      * intros b Hb. rewrite (Hkeep b Hb). split.
        -- intros Hbest. pose proof Hbest as (Hbn0 & Hbmax & Hbfirst).
           destruct (Z.eq_dec (set !!! b) (set !!! n)) as [Hs|Hs];
             [|now apply Hother].
           assert (b = k) by now apply Hsame. subst b.
           split; [lia|]. split; [|assumption].
           intros j Hj Hset.
           destruct (Nat.eq_dec j n) as [->|Hne]; [assumption|].
           apply Hkmax; [lia|assumption].
        -- intros Hbest. pose proof Hbest as (Hbn0 & Hbmax & Hbfirst).
           destruct (Nat.eq_dec b n) as [->|Hbn'].
           ++ rewrite (Hbfirst k Hk Hkn) in Hlt. discriminate.
           ++ apply target_best_earlier; [assumption|lia].
      * intros j Hj. destruct (Nat.eq_dec j n) as [->|Hne].
        -- exists k. split; [lia|]. split; [|assumption].
           assert (Hks : (k < length score)%nat) by lia.
           apply (proj2 (Hkeep k Hks)). assumption.
        -- destruct (Hsome j ltac:(lia)) as (b & Hb & Hrest).
           exists b. split; [lia|assumption].
  - assert (Hbn : best (S n) n).
    { split; [lia|]. split.
      - intros j Hj Hset.
        destruct (Nat.eq_dec j n) as [->|Hne]; [apply Hirr|].
        exfalso. apply (Hnew Hp j); [lia|assumption].
      - intros j Hj Hset. exfalso. now apply (Hnew Hp j). }
    unfold target_inv. rewrite length_insert.
    split; [assumption|]. split; [lia|]. split.
    { intros _. replace (S n - 1)%nat with n by lia. auto. }
    split.
    + intros b Hb. destruct (Nat.eq_dec b n) as [->|Hbn'].
      { rewrite list_lookup_total_insert_eq by lia. tauto. }
      rewrite list_lookup_total_insert_ne by lia. rewrite (Hkeep b Hb).
      split.
      * intros Hbest. pose proof Hbest as (Hbn0 & _).
        apply Hother; auto.
      * intros Hbest. pose proof Hbest as (Hbn0 & _).
        apply target_best_earlier; [assumption|lia].
    + intros j Hj. destruct (Nat.eq_dec j n) as [->|Hne].
      { exists n. split; [lia|]. split; [|reflexivity].
        apply list_lookup_total_insert_eq. lia. }
      destruct (Hsome j ltac:(lia)) as (b & Hb & Hkb & Hsb).
      exists b. split; [lia|]. split; [|assumption].
      rewrite list_lookup_total_insert_ne by lia. assumption.
Qed.

(** The selector for one hit per target (lines 465-483), for hits grouped
    by target: the hits retained are, for every target, the hit with the
    highest score among the hits of that target, the first one if several
    have that score; every target of a hit has exactly one. *)
Theorem select_target_best :
  let res := select_target set score in
  StronglySorted lt res /\
  (forall r, In r res <-> best (length score) r) /\
  (forall j, (j < length score)%nat ->
             exists r, In r res /\ set !!! r = set !!! j) /\
  (forall r r', In r res -> In r' res -> set !!! r = set !!! r' -> r = r').
Proof.
  unfold select_target.
  pose proof (fold_left_seq_inv tbody
                (fun n st => (n <= length score)%nat -> tinv n st)
                (length score) 0
                (replicate (length score) false, NA_INTEGER, 0%nat)) as Hfold.
  cbn [Nat.add] in Hfold.
  specialize (Hfold ltac:(intros _; apply target_inv_init)).
  specialize (Hfold ltac:(intros i st Hi Hst Hle;
                          apply target_inv_step; [lia|apply Hst; lia])).
  specialize (Hfold (Nat.le_refl _)).
  destruct (fold_left tbody (seq 0 (length score))
                      (replicate (length score) false, NA_INTEGER, 0%nat))
    as [[keep p] k].
  destruct Hfold as (Hlen & _ & _ & Hkeep & Hsome).
  assert (Hin : forall r, In r (flagged keep) <-> best (length score) r).
  { intros r. rewrite in_flagged, Hlen. split.
    - intros (Hr & Hk). now apply Hkeep.
    - intros Hbest. pose proof Hbest as (Hr & _). split; [assumption|].
      now apply Hkeep. }
  cbv zeta. split; [apply flagged_sorted|]. split; [exact Hin|]. split.
  - intros j Hj. destruct (Hsome j Hj) as (b & Hb & Hkb & Hsb).
    exists b. split; [|assumption]. apply in_flagged. rewrite Hlen. auto.
  - intros r r' Hr Hr' Hset. apply Hin in Hr. apply Hin in Hr'.
    now apply (target_best_unique (length score)).
Qed.
End SelectTarget.

Lemma select_target_best_witness :
  let set := [1; 1; 2; 2; 2; 5] in
  let score := [4; 4; 3; 9; 9; 1] in
  select_target set score = [0; 3; 5]%nat /\
  forall r, In r (select_target set score) <-> target_best set score 6 r.
Proof.
  intros set score. split; [reflexivity|].
  apply (select_target_best set score Z_dlt_order).
  - intros i j Hij.
    do 6 (destruct i as [|i];
          [do 6 (destruct j as [|j]; [first [lia|vm_compute; discriminate]|]);
           simpl in Hij; lia|]).
    simpl in Hij. lia.
  - intros j Hj.
    do 6 (destruct j as [|j]; [vm_compute; discriminate|]).
    simpl in Hj. lia.
Defined.

(** * The loop over the queries and the answer *)

Lemma count_targets_none (num w : list Z) :
  Forall (fun wj => kmer_count num wj = 0) w ->
  count_targets num w 0 = Some (map (fun _ => 0) w, 0).
Proof.
  induction 1 as [|wj w Hwj Hw IH]; [reflexivity|].
  simpl. unfold kmer_count in Hwj.
  destruct (wj =? NA_INTEGER).
  - now rewrite IH.
  - rewrite Hwj. change (wrap32 (0 + 0)) with 0. simpl. now rewrite IH.
Qed.

Lemma all_some_length {A} (l : list (option A)) (xs : list A) :
  all_some l = Some xs -> length xs = length l.
Proof.
  revert xs. induction l as [|[x|] l IH]; intros xs Hl; simpl in Hl;
    [now inversion Hl| |discriminate].
  destruct (all_some l) as [ys|]; [|discriminate].
  inversion Hl; subst. simpl. f_equal. now apply IH.
Qed.

Lemma flat_map_replicate_sorted {A} (f : A -> nat) (l : list A) :
  forall a : nat,
    StronglySorted Z.le
      (flat_map (fun ir => replicate (f (snd ir)) (Z.of_nat (fst ir) + 1))
                (combine (seq a (length l)) l)) /\
    Forall (fun x => Z.of_nat a + 1 <= x <= Z.of_nat a + Z.of_nat (length l))
           (flat_map (fun ir => replicate (f (snd ir)) (Z.of_nat (fst ir) + 1))
                     (combine (seq a (length l)) l)).
Proof.
  induction l as [|x l IH]; intros a.
  - simpl. split; constructor.
  - cbn [length seq combine flat_map fst snd].
    destruct (IH (S a)) as (Hso & Hall).
    rewrite List.Forall_forall in Hall. split.
    + induction (f x) as [|n IHn]; simpl; [assumption|].
      constructor; [assumption|].
      apply List.Forall_forall. intros y Hy. apply in_app_or in Hy.
      destruct Hy as [Hy|Hy].
      * apply list_elem_of_In, elem_of_replicate in Hy. lia.
      * specialize (Hall y Hy). lia.
    + apply List.Forall_forall. intros y Hy. apply in_app_or in Hy.
      destruct Hy as [Hy|Hy].
      * apply list_elem_of_In, elem_of_replicate in Hy. simpl. lia.
      * specialize (Hall y Hy). simpl. lia.
Qed.

Lemma length_flat_map_replicate {A B} (f : A -> nat) (g : nat * A -> B)
      (l : list A) (a : nat) :
  length (flat_map (fun ir => replicate (f (snd ir)) (g ir))
                   (combine (seq a (length l)) l))
  = list_sum (map f l).
Proof.
  revert a. induction l as [|x l IH]; intros a; [reflexivity|].
  cbn [length seq combine flat_map fst snd map list_sum].
  now rewrite length_app, length_replicate, IH.
Qed.

Lemma length_flat_map_sum {A B} (g : A -> list B) (l : list A) :
  length (flat_map g l) = list_sum (map (fun x => length (g x)) l).
Proof.
  induction l as [|x l IH]; [reflexivity|].
  simpl. now rewrite length_app, IH.
Qed.

Section Answers.
Context {D : Type} `{ScoreOps D} `{Inhabited D}.
Variables (K step : Z) (num loc ind pos : list Z).
Variables (scores addScores : list D).
Variables (maxSep : Z) (gapCost sepCost : list D).
Variables (type : Z) (tot : D) (minS : option D) (sO : bool).
Variable check : nat -> option Z.

Local Abbreviation qbody :=
  (driver_body K step num loc ind pos scores addScores maxSep gapCost sepCost
               type tot minS sO check).
Local Abbreviation qrun :=
  (run_queries K step num loc ind pos scores addScores maxSep gapCost sepCost
               type tot minS sO check).
Local Abbreviation search :=
  (searchIndex K step num loc ind pos scores addScores maxSep gapCost sepCost
               type tot minS sO check).
Local Abbreviation one :=
  (search_query K step num loc ind pos scores addScores maxSep gapCost sepCost
                type tot minS sO).
Local Abbreviation rows_pass := (row_passes step pos tot minS).

(** A query none of whose k-mers is in the index takes the [continue] of
    line 188. *)
Lemma search_query_no_hits (w : list Z) :
  Forall (fun wj => kmer_count num wj = 0) w -> one w = QEmpty.
Proof.
  intros Hw. unfold search_query. rewrite (count_targets_none num w Hw).
  simpl. now rewrite orb_true_r.
Qed.

Lemma run_no_hits (l : list (nat * list Z)) (out : list (qresult D)) :
  Forall (fun iw => Forall (fun wj => kmer_count num wj = 0) (snd iw)) l ->
  fold_left qbody l (Some (0, out))
  = Some (0, out ++ replicate (length l) empty_result).
Proof.
  intros Hl. revert out. induction Hl as [|[i w] l Hw Hl IH]; intros out.
  - simpl. now rewrite app_nil_r.
  - cbn [fold_left driver_body]. simpl in Hw.
    rewrite (search_query_no_hits w Hw). simpl.
    rewrite IH, <- app_assoc. reflexivity.
Qed.

(** When no k-mer of any query is in the index (masked k-mers included),
    [searchIndex] returns the empty answer, whatever the interrupt checks
    would say: it makes none. *)
Theorem searchIndex_no_hits (query : list (list Z)) :
  Forall (Forall (fun wj => kmer_count num wj = 0)) query ->
  search query
  = Some (Answer [] [] [] (if sO then None else Some [])).
Proof.
  intros Hq. unfold searchIndex, run_queries.
  rewrite run_no_hits.
  - rewrite length_indexed. simpl. unfold assemble.
    assert (Hempty : forall (n a : nat),
               flat_map (fun ir : nat * qresult D =>
                           replicate (length (r_set (snd ir)))
                                     (Z.of_nat (fst ir) + 1))
                        (combine (seq a n) (replicate n empty_result)) = []).
    { induction n as [|n IH]; intros a; [reflexivity|]. simpl. apply IH. }
    unfold indexed. rewrite length_replicate, Hempty.
    assert (Hnil : forall (B : Type) (g : qresult D -> list B) (n : nat),
               g empty_result = [] ->
               flat_map g (replicate n empty_result) = []).
    { intros B g n Hg. induction n as [|n IH]; [reflexivity|].
      simpl. now rewrite Hg, IH. }
    rewrite !Hnil by reflexivity. reflexivity.
  - unfold indexed. apply List.Forall_forall. intros [i w] Hiw.
    apply in_combine_r in Hiw. rewrite List.Forall_forall in Hq.
    now apply Hq.
Qed.


Lemma combine_map_same {A B C} (f : A -> B) (g : A -> C) (l : list A) :
  combine (map f l) (map g l) = map (fun x => (f x, g x)) l.
Proof. induction l as [|x l IH]; simpl; [reflexivity|now rewrite IH]. Qed.

(** What one query hands back: parallel vectors, every row above its
    threshold. *)
Lemma chain_results_ok (width : Z) (a : anchors D) (r : qresult D) :
  chain_results step pos maxSep gapCost sepCost type tot minS sO width a
  = Some r ->
  result_ok sO r /\ Forall rows_pass (combine (r_set r) (r_score r)).
Proof.
  unfold chain_results.
  set (st := chainDP maxSep gapCost sepCost (a_posQuery a) (a_posTarget a)
                     (a_set a) (a_len a) (a_score a)).
  set (score := correct_scores step width pos (a_set a) (dp_cov st)
                               (dp_score st)).
  destruct (select (dp_origin st) (a_set a) score type) as [res|];
    [|discriminate].
  set (res' := List.filter (passes (a_set a) score step pos tot minS) res).
  assert (Hrows : Forall rows_pass
                         (combine (map (fun r => a_set a !!! r) res')
                                  (map (fun r => score !!! r) res'))).
  { rewrite combine_map_same. apply List.Forall_forall. intros row Hrow.
    apply in_map_iff in Hrow. destruct Hrow as (x & <- & Hx).
    apply filter_In in Hx. destruct Hx as (_ & Hx).
    unfold row_passes, threshold. unfold passes in Hx. simpl.
    destruct minS; exact Hx. }
  destruct sO.
  - intros [= <-]. unfold result_ok. simpl.
    rewrite !length_map. auto.
  - destruct (all_some _) as [anchors|] eqn:Hall; [|discriminate].
    intros [= <-]. unfold result_ok. simpl.
    apply all_some_length in Hall. rewrite !length_map in *. auto.
Qed.

Lemma search_query_ok (w : list Z) (r : qresult D) :
  one w = QDone r ->
  result_ok sO r /\ Forall rows_pass (combine (r_set r) (r_score r)).
Proof.
  unfold search_query.
  destruct (count_targets num w 0) as [[counts s]|]; [|discriminate].
  destruct ((query_width K w =? 0) || (s =? 0)); [discriminate|].
  destruct (sorted_anchors _ _ _ _ _ _ _ _ _) as [a|]; [|discriminate].
  destruct (chain_results _ _ _ _ _ _ _ _ _ _ _) as [r'|] eqn:Hr;
    [|discriminate].
  intros [= <-]. eapply chain_results_ok; eassumption.
Qed.

Lemma empty_result_ok :
  result_ok sO (@empty_result D) /\
  Forall rows_pass (combine (r_set (@empty_result D))
                            (r_score (@empty_result D))).
Proof.
  split; [|constructor]. unfold result_ok. simpl. now destruct sO.
Qed.

Lemma run_queries_ok (l : list (nat * list Z)) :
  forall ab out ab' out',
    fold_left qbody l (Some (ab, out)) = Some (ab', out') ->
    Forall (fun r => result_ok sO r /\
                     Forall rows_pass (combine (r_set r) (r_score r))) out ->
    length out' = (length out + length l)%nat /\
    Forall (fun r => result_ok sO r /\
                     Forall rows_pass (combine (r_set r) (r_score r))) out'.
Proof.
  induction l as [|[i w] l IH]; intros ab out ab' out' Hrun Hout.
  - simpl in Hrun. inversion Hrun; subst. split; [simpl; lia|assumption].
  - cbn [fold_left driver_body] in Hrun.
    assert (Hsnoc : forall r,
               result_ok sO r /\
               Forall rows_pass (combine (r_set r) (r_score r)) ->
               Forall (fun r => result_ok sO r /\
                                Forall rows_pass
                                       (combine (r_set r) (r_score r)))
                      (out ++ [r])).
    { intros r Hr. apply Forall_app. split; [assumption|].
      constructor; [assumption|constructor]. }
    destruct (ab =? 0).
    + destruct (one w) as [| |r|] eqn:Hone.
      * apply IH in Hrun; [|apply Hsnoc, empty_result_ok].
        rewrite length_app in Hrun. simpl in *. split; [lia|tauto].
      * apply IH in Hrun; [|apply Hsnoc, empty_result_ok].
        rewrite length_app in Hrun. simpl in *. split; [lia|tauto].
      * apply IH in Hrun; [|apply Hsnoc, (search_query_ok w r Hone)].
        rewrite length_app in Hrun. simpl in *. split; [lia|tauto].
      * assert (Hnone : forall l', fold_left qbody l' None = None)
          by (induction l' as [|[? ?] ? ?]; simpl; auto).
        rewrite Hnone in Hrun. discriminate.
    + apply IH in Hrun; [|apply Hsnoc, empty_result_ok].
      rewrite length_app in Hrun. simpl in *. split; [lia|tauto].
Qed.

Lemma flat_combine (out : list (qresult D)) :
  Forall (fun r => length (r_score r) = length (r_set r)) out ->
  combine (flat_map r_set out) (flat_map r_score out)
  = flat_map (fun r => combine (r_set r) (r_score r)) out.
Proof.
  induction 1 as [|r out Hr Hout IH]; [reflexivity|].
  simpl. rewrite <- IH. clear IH Hout.
  generalize dependent (r_score r). generalize (r_set r).
  induction l as [|x l IHl]; intros [|y l'] Hl; simpl in *;
    try discriminate; [reflexivity|].
  f_equal. apply IHl. lia.
Qed.

(** An answer is made of parallel vectors, one row per result: the query
    numbers, from 1 to the number of queries and in order; the targets; the
    scores; and, when anchors are requested, one matrix per row. *)
Theorem searchIndex_answer_shape (query : list (list Z)) (ans0 ans1 : list Z)
        (ans2 : list D) (ans3 : option (list (list Z))) :
  searchIndex K step num loc ind pos scores addScores maxSep gapCost sepCost
              type tot minS sO check query = Some (Answer ans0 ans1 ans2 ans3) ->
  length ans1 = length ans0 /\ length ans2 = length ans0 /\
  match ans3 with
  | None => sO = true
  | Some ms => sO = false /\ length ms = length ans0
  end /\
  Forall (fun q => 1 <= q <= Z.of_nat (length query)) ans0 /\
  StronglySorted Z.le ans0.
Proof.
  unfold searchIndex.
  destruct (qrun query) as [[ab out]|] eqn:Hrun; [|discriminate].
  destruct (ab =? 0); simpl; [|destruct (ab <? 0); discriminate].
  unfold assemble. intros [= <- <- <- <-].
  unfold run_queries in Hrun.
  apply run_queries_ok in Hrun; [|constructor].
  destruct Hrun as (Hlen & Hok). rewrite length_indexed in Hlen.
  simpl in Hlen. unfold indexed.
  rewrite (length_flat_map_replicate
             (fun r : qresult D => length (r_set r))
             (fun ir : nat * qresult D => Z.of_nat (fst ir) + 1) out 0).
  rewrite !length_flat_map_sum.
  rewrite List.Forall_forall in Hok.
  assert (Hsc : map (fun x => length (r_score x)) out
                = map (fun r => length (r_set r)) out).
  { apply map_ext_in. intros r Hr. apply (Hok r Hr). }
  split; [reflexivity|]. split; [now rewrite Hsc|]. split.
  - destruct sO; [reflexivity|]. split; [reflexivity|].
    rewrite length_map, length_flat_map_sum. f_equal.
    apply map_ext_in. intros r Hr. apply (Hok r Hr).
  - destruct (flat_map_replicate_sorted (fun r : qresult D => length (r_set r))
                out 0) as (Hso & Hall).
    split; [|exact Hso]. rewrite <- Hlen.
    eapply List.Forall_impl; [|exact Hall]. simpl. intros q Hq. lia.
Qed.

(** Every row of an answer passes the threshold of its target: the given
    [minScore], or [log((total - positions[target]) / step)]. *)
Theorem searchIndex_rows_pass (query : list (list Z)) (ans0 ans1 : list Z)
        (ans2 : list D) (ans3 : option (list (list Z))) :
  searchIndex K step num loc ind pos scores addScores maxSep gapCost sepCost
              type tot minS sO check query = Some (Answer ans0 ans1 ans2 ans3) ->
  length ans2 = length ans1 /\
  Forall rows_pass (combine ans1 ans2).
Proof.
  unfold searchIndex.
  destruct (qrun query) as [[ab out]|] eqn:Hrun; [|discriminate].
  destruct (ab =? 0); simpl; [|destruct (ab <? 0); discriminate].
  unfold assemble. intros [= <- <- <- <-].
  unfold run_queries in Hrun.
  apply run_queries_ok in Hrun; [|constructor].
  destruct Hrun as (_ & Hok). rewrite List.Forall_forall in Hok.
  split.
  - rewrite !length_flat_map_sum. f_equal.
    apply map_ext_in. intros r Hr. apply (Hok r Hr).
  - rewrite flat_combine.
    + apply List.Forall_forall. intros row Hrow.
      apply in_flat_map in Hrow. destruct Hrow as (r & Hr & Hrow).
      destruct (Hok r Hr) as (_ & Hrows).
      rewrite List.Forall_forall in Hrows. now apply Hrows.
    + apply List.Forall_forall. intros r Hr. apply (Hok r Hr).
Qed.
End Answers.

Lemma searchIndex_no_hits_witness :
  searchIndex 2 1 [3; 3; 2; 0] [1; 5; 3; 2; 4; 2; 3; 1]
              [1; 1; 2; 1; 1; 2; 1; 2] [6; 4] [3; 3; 3; 3] [1; 1; 1; 1]
              2 [0; 0; 0] [0; 0; 0] 1 100 (Some 0) false
              (fun _ => Some (-1)) [[3; NA_INTEGER]; []; [NA_INTEGER]]
  = Some (Answer [] [] [] (Some [])).
Proof.
  apply (searchIndex_no_hits 2 1 [3; 3; 2; 0] [1; 5; 3; 2; 4; 2; 3; 1]
           [1; 1; 2; 1; 1; 2; 1; 2] [6; 4] [3; 3; 3; 3] [1; 1; 1; 1]
           2 [0; 0; 0] [0; 0; 0] 1 100 (Some 0) false (fun _ => Some (-1))).
  repeat constructor.
Defined.


Lemma searchIndex_answer_shape_witness :
  let ans0 := [1; 1; 1; 1; 1; 1; 3; 3; 3; 3] in
  let ans1 := [1; 1; 1; 2; 2; 2; 1; 1; 1; 2] in
  let ans2 := [4; 0; 0; 1; 1; 1; 0; 0; 2; 3] in
  let ms := [[1; 4; 1; 4]; [2; 3; 4; 5]; [1; 2; 5; 6]; [3; 4; 1; 2];
             [2; 3; 2; 3]; [1; 2; 3; 4]; [2; 3; 1; 2]; [1; 2; 2; 3];
             [1; 3; 4; 6]; [1; 3; 2; 4]] in
  length ans1 = length ans0 /\ length ans2 = length ans0 /\
  (false = false /\ length ms = length ans0) /\
  Forall (fun q => 1 <= q <= Z.of_nat 3) ans0 /\
  StronglySorted Z.le ans0.
Proof.
  intros ans0 ans1 ans2 ms.
  apply (searchIndex_answer_shape 2 1 [3; 3; 2; 0] [1; 5; 3; 2; 4; 2; 3; 1]
           [1; 1; 2; 1; 1; 2; 1; 2] [6; 4] [3; 3; 3; 3] [1; 1; 1; 1]
           2 [0; 0; 0] [0; 0; 0] 1 100 (Some 0) false (fun _ => None)
           [[0; 1; 2]; [3; NA_INTEGER]; [1; 0]] ans0 ans1 ans2 (Some ms)).
  vm_compute. reflexivity.
Defined.

Lemma searchIndex_rows_pass_witness :
  let ans1 := [1; 1; 1; 2; 2; 2; 1; 1; 1; 2] in
  let ans2 := [4; 0; 0; 1; 1; 1; 0; 0; 2; 3] in
  length ans2 = length ans1 /\
  Forall (row_passes 1 [6; 4] 100 (Some 0)) (combine ans1 ans2).
Proof.
  intros ans1 ans2.
  apply (searchIndex_rows_pass 2 1 [3; 3; 2; 0] [1; 5; 3; 2; 4; 2; 3; 1]
           [1; 1; 2; 1; 1; 2; 1; 2] [6; 4] [3; 3; 3; 3] [1; 1; 1; 1]
           2 [0; 0; 0] [0; 0; 0] 1 100 (Some 0) false (fun _ => None)
           [[0; 1; 2]; [3; NA_INTEGER]; [1; 0]]
           [1; 1; 1; 1; 1; 1; 3; 3; 3; 3] ans1 ans2
           (Some [[1; 4; 1; 4]; [2; 3; 4; 5]; [1; 2; 5; 6]; [3; 4; 1; 2];
                  [2; 3; 2; 3]; [1; 2; 3; 4]; [2; 3; 1; 2]; [1; 2; 2; 3];
                  [1; 3; 4; 6]; [1; 3; 2; 4]])).
  vm_compute. reflexivity.
Defined.

(** * The number of hits left by the collapse *)

Lemma length_kept {A} (keep : list bool) (a : list A) :
  length keep = length a ->
  length (kept keep a) = count_occ bool_dec keep true.
Proof.
  revert a. induction keep as [|b keep IH]; intros [|x a] Hl; simpl in *;
    try discriminate; [reflexivity|].
  destruct b; simpl; rewrite IH by lia; reflexivity.
Qed.

Lemma count_insert_false (keep : list bool) (c : nat) :
  (c < length keep)%nat -> keep !!! c = true ->
  S (count_occ bool_dec (<[c := false]> keep) true)
  = count_occ bool_dec keep true.
Proof.
  revert c. induction keep as [|b keep IH]; intros c Hc Hk; simpl in Hc;
    [lia|].
  destruct c as [|c].
  - change ((b :: keep) !!! 0%nat) with b in Hk. subst b. reflexivity.
  - change ((b :: keep) !!! S c) with (keep !!! c) in Hk.
    change (<[S c := false]> (b :: keep)) with (b :: <[c := false]> keep).
    simpl. destruct (bool_dec b true); rewrite <- (IH c) by (lia || assumption);
      reflexivity.
Qed.

Section CollapseCount.
Context {D : Type} `{ScoreOps D} `{Inhabited D}.
Variables (K step : Z).
Variables (posQuery posTarget set : list Z) (addScore : list D).

Local Abbreviation cscan := (col_scan step posQuery posTarget addScore).
Local Abbreviation cmerge := (col_merge step addScore).
Local Abbreviation cbody := (col_body step posQuery posTarget set addScore).

(** The scan of the predecessors of [c] moves [k], and merges [c] at
    most once. *)
Lemma col_scan_shape (c : nat) (js : list nat) :
  forall st, exists k',
    cscan js c st = with_k st k'
    \/ exists j, cscan js c st = cmerge c j (with_k st k').
Proof.
  induction js as [|j js IH]; intros st; simpl.
  - exists (c_k st). left. now destruct st.
  - destruct (posTarget !!! c - posTarget !!! j >? step).
    + destruct (IH (mkCol (c_len st) (c_origin st) (c_keep st) (c_score st)
                          (j + 1) (c_p st))) as (k' & Hk').
      exists k'. exact Hk'.
    + destruct (posTarget !!! c - posTarget !!! j =? step).
      * destruct (posQuery !!! c - posQuery !!! j =? step).
        -- exists (c_k st). right. exists j. now destruct st.
        -- apply IH.
      * exists (c_k st). left. now destruct st.
Qed.

Lemma col_body_shape (st : col_state D) (c : nat) :
  exists k',
    cbody st c = with_k st k' \/ exists j, cbody st c = cmerge c j (with_k st k').
Proof.
  unfold col_body. destruct (set !!! c_k st =? set !!! c).
  - apply col_scan_shape.
  - exists c. now left.
Qed.

(** The counter [p] of lines 307-321 is the number of hits still kept:
    the arrays allocated with [p] cells in lines 341-345 are filled
    exactly by lines 347-356.  The five arrays left by the collapse have
    that length, and a hit is left whenever there was one. *)
Theorem collapse_count (score : list D) :
  length posQuery = length score -> length posTarget = length score ->
  length set = length score ->
  let st := collapse_state K step posQuery posTarget set addScore score in
  let a := collapse K step posQuery posTarget set addScore score in
  length (a_posQuery a) = c_p st /\ length (a_posTarget a) = c_p st /\
  length (a_set a) = c_p st /\ length (a_len a) = c_p st /\
  length (a_score a) = c_p st /\
  (c_p st <= length score)%nat /\
  ((1 <= length score)%nat -> (1 <= c_p st)%nat).
Proof.
  intros Hlq Hlt Hls st a.
  set (s := length score) in *.
  assert (Hinv :
            length (c_len st) = s /\ length (c_keep st) = s /\
            length (c_score st) = s /\
            c_p st = count_occ bool_dec (c_keep st) true /\
            (c_p st <= s)%nat /\
            ((1 <= s)%nat -> c_keep st !!! 0%nat = true)).
  { unfold st, collapse_state. fold s.
    assert (Hfold :
              (fun (n : nat) (st : col_state D) =>
                 length (c_len st) = s /\ length (c_keep st) = s /\
                 length (c_score st) = s /\
                 c_p st = count_occ bool_dec (c_keep st) true /\
                 (c_p st <= s)%nat /\
                 (forall c, (c < s)%nat -> (c = 0%nat \/ n <= c)%nat ->
                            c_keep st !!! c = true))
                (1 + (s - 1))%nat
                (fold_left cbody (seq 1 (s - 1)) (col_init K score))).
    { apply fold_left_seq_inv.
      - unfold col_init. fold s. cbn [c_len c_keep c_score c_p].
        rewrite !length_replicate. repeat split; auto.
        + clear. induction s as [|n IH]; simpl; [reflexivity|now rewrite <- IH].
        + intros c Hc _. now apply lookup_total_replicate_2.
      - intros n st0 Hn (L1 & L2 & L3 & Hp & Hps & Hk).
        destruct (col_body_shape st0 n) as (k' & [-> | (j & ->)]).
        + unfold with_k. cbn [c_len c_keep c_score c_p].
          repeat split; auto. intros c Hc Hcn. apply Hk; [assumption|lia].
        + unfold col_merge, with_k. cbn [c_len c_origin c_keep c_score c_p].
          rewrite !length_insert.
          pose proof (count_insert_false (c_keep st0) n ltac:(lia)
                        (Hk n ltac:(lia) ltac:(lia))) as Hcnt.
          repeat split; auto; try lia.
          intros c Hc Hcn. rewrite list_lookup_total_insert_ne by lia.
          apply Hk; [assumption|lia]. }
    cbv beta in Hfold. destruct Hfold as (H1 & H2 & H3 & H4 & H5 & H6).
    do 5 (split; [assumption|]). intros Hs. apply H6; [lia|now left]. }
  destruct Hinv as (L1 & L2 & L3 & Hp & Hps & H0').
  unfold a, collapse. fold st. cbn [a_posQuery a_posTarget a_set a_len a_score].
  rewrite !length_kept by congruence. rewrite <- Hp.
  repeat split; auto. intros Hs.
  rewrite Hp. specialize (H0' Hs).
  destruct (c_keep st) as [|b keep]; [simpl in L2; lia|].
  change ((b :: keep) !!! 0%nat) with b in H0'. subst b. simpl. lia.
Qed.
End CollapseCount.

Lemma collapse_count_witness :
  let posQuery := [1; 2; 3; 1; 2] in
  let posTarget := [1; 2; 3; 5; 6] in
  let set := [1; 1; 1; 1; 1] in
  let st := collapse_state 3 1 posQuery posTarget set [2; 2; 2; 2; 2]
                           [6; 6; 6; 6; 6] in
  let a := collapse 3 1 posQuery posTarget set [2; 2; 2; 2; 2]
                    [6; 6; 6; 6; 6] in
  c_p st = 2%nat /\
  length (a_posQuery a) = c_p st /\ length (a_posTarget a) = c_p st /\
  length (a_set a) = c_p st /\ length (a_len a) = c_p st /\
  length (a_score a) = c_p st /\
  (c_p st <= 5)%nat /\ ((1 <= 5)%nat -> (1 <= c_p st)%nat).
Proof.
  intros posQuery posTarget set st a. split; [reflexivity|].
  apply (collapse_count 3 1 posQuery posTarget set [2; 2; 2; 2; 2]
           [6; 6; 6; 6; 6]); reflexivity.
Defined.

(** * Chains stay on one target *)

Section ChainTargets.
Context {D : Type} `{ScoreOps D} `{Inhabited D}.
Variables (maxSep : Z) (gapCost sepCost : list D).
Variables (posQuery posTarget set len : list Z).
Variable s : nat.
Hypothesis Hsorted : forall i j, (i <= j < s)%nat -> set !!! i <= set !!! j.

Local Abbreviation dinner := (dp_inner_body maxSep gapCost sepCost posQuery posTarget len).
Local Abbreviation douter := (dp_outer_body maxSep gapCost sepCost posQuery posTarget set len).

(** Hits [i < s]: the predecessor and the origin of [i] are not after [i]
    and are on the target of [i]. *)
Local Abbreviation on_target :=
  (fun st : dp_state D =>
     length (dp_chain st) = s /\ length (dp_origin st) = s /\
     forall i, (i < s)%nat ->
               (dp_chain st !!! i <= i)%nat /\ (dp_origin st !!! i <= i)%nat /\
               set !!! (dp_chain st !!! i) = set !!! i /\
               set !!! (dp_origin st !!! i) = set !!! i).

Lemma inner_on_target (k p : nat) (prevScore : D) (st : dp_state D) :
  (p < k < s)%nat -> set !!! p = set !!! k ->
  on_target st -> (dp_j st < k)%nat ->
  on_target (dinner k prevScore st p) /\
  (dp_j (dinner k prevScore st p) < k)%nat.
Proof.
  intros Hpk Hset (Lc & Lo & Hall) Hj.
  destruct (fires maxSep gapCost sepCost posQuery posTarget len k p prevScore st)
    eqn:Hf.
  - rewrite (inner_fires _ _ _ _ _ _ _ _ _ _ Hf).
    unfold dp_link. cbn [dp_chain dp_origin dp_j]. rewrite !length_insert.
    split; [|assumption]. split; [assumption|]. split; [assumption|].
    intros i Hi. destruct (Nat.eq_dec i k) as [->|Hne].
    + rewrite !list_lookup_total_insert_eq by lia.
      destruct (Hall p ltac:(lia)) as (_ & Hop & _ & Hsp).
      split; [lia|]. split; [lia|]. split; [assumption|congruence].
    + rewrite !list_lookup_total_insert_ne by lia. apply Hall, Hi.
  - destruct (inner_idle _ _ _ _ _ _ _ _ _ _ Hf) as (_ & Ec & Eo & _).
    rewrite Ec, Eo. split; [split; [|split]; assumption|].
    unfold dp_inner_body.
    repeat match goal with
           | |- context [if ?b then _ else _] => destruct b
           | |- context [let '(_, _) := ?x in _] => destruct x
           end; cbn [dp_j dp_link]; lia.
Qed.

Lemma outer_on_target (k : nat) (st : dp_state D) :
  (1 <= k < s)%nat ->
  on_target st /\ (dp_j st < k)%nat ->
  on_target (douter st k) /\ (dp_j (douter st k) < S k)%nat.
Proof.
  intros Hk (Hon & Hj). unfold dp_outer_body.
  destruct (Z.eqb_spec (set !!! k) (set !!! dp_j st)) as [Heq|Hne];
    cbn [negb].
  - assert (Hfold :
              on_target (fold_left (dinner k (dp_score st !!! k))
                                   (seq (dp_j st) (k - dp_j st)) st) /\
              (dp_j (fold_left (dinner k (dp_score st !!! k))
                               (seq (dp_j st) (k - dp_j st)) st) < k)%nat).
    { apply (fold_left_inv _ (fun st' => on_target st' /\ (dp_j st' < k)%nat)
                           (fun p => (dp_j st <= p < k)%nat)).
      - split; assumption.
      - apply Forall_forall. intros p Hp. apply elem_of_seq in Hp. lia.
      - intros st' p Hp (Hon' & Hj').
        apply inner_on_target; try assumption; [lia|].
        pose proof (Hsorted (dp_j st) p ltac:(lia)).
        pose proof (Hsorted p k ltac:(lia)). lia. }
    destruct Hfold as (Hon' & Hj'). split; [assumption|lia].
  - cbn [dp_chain dp_origin dp_j]. split; [assumption|lia].
Qed.

(** After the chain DP over hits grouped by target, the predecessor and
    the origin of every hit are on the target of the hit, and so is every
    hit of the traceback from it. *)
Theorem chainDP_same_target (score0 : list D) :
  length score0 = s ->
  let st := chainDP maxSep gapCost sepCost posQuery posTarget set len score0 in
  forall i, (i < s)%nat ->
    set !!! (dp_chain st !!! i) = set !!! i /\
    set !!! (dp_origin st !!! i) = set !!! i /\
    forall ps, chain_path (dp_chain st) i ps ->
               Forall (fun p => set !!! p = set !!! i) ps.
Proof.
  intros Hl st.
  assert (Hon : on_target st).
  { unfold st, chainDP. rewrite Hl.
    assert (Hfold :
              (fun (n : nat) (st' : dp_state D) =>
                 on_target st' /\ (dp_j st' < n)%nat)
                (1 + (s - 1))%nat
                (fold_left douter (seq 1 (s - 1)) (dp_init len score0))).
    { apply fold_left_seq_inv.
      - unfold dp_init. rewrite Hl. cbn [dp_chain dp_origin dp_j].
        rewrite !length_seq. split; [|lia].
        split; [reflexivity|]. split; [reflexivity|].
        intros i Hi. rewrite !lookup_total_seq_lt by lia. simpl. auto.
      - intros k st' Hk Hst'. apply outer_on_target; [lia|assumption]. }
    apply Hfold. }
  destruct Hon as (Lc & Lo & Hall).
  intros i Hi. destruct (Hall i Hi) as (_ & _ & Hc & Ho).
  split; [assumption|]. split; [assumption|].
  intros ps Hps. revert Hi Hc Ho.
  induction Hps as [p Hp|p ps Hne Hps IH]; intros Hi Hc Ho.
  - constructor; [reflexivity|constructor].
  - constructor; [reflexivity|].
    destruct (Hall p Hi) as (Hle & _ & Hcp & _).
    destruct (Hall (dp_chain st !!! p) ltac:(lia)) as (_ & _ & Hc' & Ho').
    specialize (IH ltac:(lia) Hc' Ho').
    eapply List.Forall_impl; [|exact IH]. simpl. intros q Hq. congruence.
Qed.
End ChainTargets.

Lemma chainDP_same_target_witness :
  let posQuery := [1; 5; 9; 1; 6] in
  let posTarget := [1; 5; 9; 2; 7] in
  let set := [1; 1; 1; 2; 2] in
  let len := [3; 3; 3; 3; 3] in
  let st := chainDP 4 [0; 0; 0; 0; 0] [0; 0; 0; 0; 0] posQuery posTarget set
                    len [5; 5; 5; 5; 5] in
  dp_chain st = [0; 0; 1; 3; 3]%nat /\
  forall i, (i < 5)%nat ->
    set !!! (dp_chain st !!! i) = set !!! i /\
    set !!! (dp_origin st !!! i) = set !!! i /\
    forall ps, chain_path (dp_chain st) i ps ->
               Forall (fun p => set !!! p = set !!! i) ps.
Proof.
  intros posQuery posTarget set len st. split; [reflexivity|].
  apply (chainDP_same_target 4 [0; 0; 0; 0; 0] [0; 0; 0; 0; 0] posQuery
           posTarget set len 5).
  - intros i j Hij.
    do 5 (destruct i as [|i];
          [do 5 (destruct j as [|j]; [first [lia|vm_compute; discriminate]|]);
           lia|]).
    lia.
  - reflexivity.
Defined.

(** * What a built index holds *)

Lemma in_unmasked_strided (s : nat) (kmers : list Z) (j : nat) :
  (1 <= s)%nat ->
  In j (unmasked_strided s kmers) <->
  (j < length kmers)%nat /\ (j mod s = 0)%nat /\ kmers !!! j <> NA_INTEGER.
Proof.
  intros Hs. unfold unmasked_strided. rewrite stride_spec by assumption.
  rewrite !filter_In, in_seq, Nat.eqb_eq, negb_true_iff, Z.eqb_neq.
  intuition lia.
Qed.

Lemma in_corpus_events_iff s c0 (query : list (list Z)) a e :
  In e (flat_map (fun ik => seq_events s (Z.of_nat c0 + Z.of_nat (fst ik) + 1)
                                       (snd ik))
                 (combine (seq a (length query)) query)) <->
  exists i j,
    (a <= i < a + length query)%nat /\
    In j (unmasked_strided s (query !!! (i - a)%nat)) /\
    e = (Z.to_nat ((query !!! (i - a)%nat) !!! j),
         Z.of_nat c0 + Z.of_nat i + 1, Z.of_nat j + 1).
Proof.
  revert a. induction query as [|kmers query IH]; intros a.
  - simpl. split; [contradiction|]. intros (i & j & Hi & _). lia.
  - cbn [length seq combine flat_map fst snd].
    rewrite in_app_iff, IH. unfold seq_events. rewrite in_map_iff. split.
    + intros [(j & <- & Hj)|(i & j & Hi & Hj & ->)].
      * exists a, j. rewrite Nat.sub_diag. split; [lia|]. auto.
      * exists i, j. split; [lia|].
        replace (i - a)%nat with (S (i - S a)) by lia. auto.
    + intros (i & j & Hi & Hj & ->).
      destruct (Nat.eq_dec i a) as [->|Hne].
      * left. rewrite Nat.sub_diag in *. exists j. auto.
      * right. exists i, j. split; [lia|].
        replace (i - a)%nat with (S (i - S a)) in * by lia. auto.
Qed.

Section BuiltIndex.
Variables (L : nat) (corpus : list (list Z)) (K : Z) (s c0 : nat).
Variables (location index positions : list Z).
Hypothesis Hs : (1 <= s)%nat.
Hypothesis Hrange :
  forall kmers j, In kmers corpus -> (j < length kmers)%nat ->
                  (j mod s = 0)%nat -> kmers !!! j <> NA_INTEGER ->
                  0 <= kmers !!! j < Z.of_nat L.

Local Abbreviation counts := (countIndex (replicate L 0) corpus s).
Local Abbreviation built :=
  (updateIndex (offsets counts) corpus K s location index positions c0).
Local Abbreviation events := (corpus_events s c0 corpus).
Local Abbreviation of_code :=
  (fun c : nat => List.filter (fun e => (ev_code e =? c)%nat) events).

Hypothesis Hlen : Z.of_nat (length index) = fold_right Z.add 0 counts.
Hypothesis Hlloc : length location = length index.

Lemma events_codes : Forall (fun e => (ev_code e < L)%nat) events.
Proof.
  apply List.Forall_forall. intros e He.
  apply in_corpus_events in He.
  destruct He as (i & kmers & j & _ & Hk & Hj & ->).
  apply in_unmasked_strided in Hj; [|assumption].
  destruct Hj as (Hj & Hmod & Hun).
  specialize (Hrange kmers j Hk Hj Hmod Hun).
  unfold ev_code. simpl. lia.
Qed.

Lemma counts_events :
  length counts = L /\
  forall c, (c < L)%nat -> counts !!! c = Z.of_nat (code_count events c).
Proof.
  assert (Hcounts : counts = fold_left bump (map ev_code events)
                                       (replicate L 0))
    by apply countIndex_events.
  split.
  - rewrite Hcounts, bump_length. apply length_replicate.
  - intros c Hc. rewrite Hcounts, bump_count
      by (rewrite length_replicate; lia).
    rewrite lookup_total_replicate_2 by lia. reflexivity.
Qed.

(** Cell [k] of the bucket of k-mer [c] holds the target and the location
    of the [k]-th event of [c]. *)
Lemma built_buckets (c k : nat) :
  (c < L)%nat -> (k < Z.to_nat (counts !!! c))%nat ->
  (k < length (of_code c))%nat /\
  i_ind built !!! (Z.to_nat (offsets counts !!! c) + k)%nat
  = ev_target (of_code c !!! k) /\
  i_loc built !!! (Z.to_nat (offsets counts !!! c) + k)%nat
  = ev_loc (of_code c !!! k).
Proof.
  intros HcL Hk.
  destruct counts_events as (Hlc & Hc).
  pose proof events_codes as Hcodes.
  assert (Hcodes' : Forall (fun e => (ev_code e < L)%nat)
                           (map ev_swap events)).
  { apply List.Forall_forall. intros e He. apply in_map_iff in He.
    destruct He as (e0 & <- & He0).
    rewrite List.Forall_forall in Hcodes. apply (Hcodes e0 He0). }
  rewrite (Hc c HcL), Nat2Z.id in Hk.
  pose proof (write_events_buckets L events counts index Hcodes Hlc Hc Hlen
                c k HcL Hk) as Hind.
  assert (Hc' : forall c', (c' < L)%nat ->
                  counts !!! c' = Z.of_nat (code_count (map ev_swap events) c')).
  { intros c' Hc'. rewrite code_count_swap. now apply Hc. }
  assert (Hlen' : Z.of_nat (length location) = fold_right Z.add 0 counts)
    by (now rewrite Hlloc).
  pose proof (write_events_buckets L (map ev_swap events) counts location
                Hcodes' Hlc Hc' Hlen' c k HcL
                ltac:(now rewrite code_count_swap)) as Hloc.
  rewrite <- (updateIndex_events (offsets counts) corpus K s location index
                                 positions c0) in Hind.
  rewrite <- (updateIndex_locs (offsets counts) corpus K s location index
                               positions c0) in Hloc.
  unfold off_ind, off_loc in *. cbn [snd] in Hind, Hloc.
  rewrite code_count_filter in Hk.
  split; [assumption|].
  rewrite Hind, Hloc, code_targets_swap. unfold code_targets.
  rewrite !lookup_total_map by assumption. auto.
Qed.

Lemma bucket_occurrences (c : nat) (t l : Z) :
  (c < L)%nat ->
  (exists k, (k < Z.to_nat (counts !!! c))%nat /\
             i_ind built !!! (Z.to_nat (offsets counts !!! c) + k)%nat = t /\
             i_loc built !!! (Z.to_nat (offsets counts !!! c) + k)%nat = l)
  <-> (exists i j, occurs s corpus (Z.of_nat c) i j /\
                   t = Z.of_nat c0 + Z.of_nat i + 1 /\ l = Z.of_nat j + 1).
Proof.
  intros HcL. destruct counts_events as (Hlc & Hc). split.
  - intros (k & Hk & <- & <-).
    destruct (built_buckets c k HcL Hk) as (HkE & -> & ->).
    assert (Hin : In (of_code c !!! k) (of_code c))
      by (apply list_elem_of_In, list_elem_of_lookup_total_2; assumption).
    apply filter_In in Hin. destruct Hin as (Hin & Hcode).
    apply Nat.eqb_eq in Hcode.
    unfold corpus_events, indexed in Hin. apply in_corpus_events_iff in Hin.
    destruct Hin as (i & j & Hi & Hj & He).
    rewrite Nat.sub_0_r in *. unfold corpus_events, indexed in *.
    rewrite He in *. clear He.
    apply in_unmasked_strided in Hj; [|assumption].
    destruct Hj as (Hj & Hmod & Hun).
    exists i, j. split; [|split; reflexivity].
    split; [lia|]. split; [assumption|]. split; [assumption|].
    assert (Hk' : In (corpus !!! i) corpus)
      by (apply list_elem_of_In, list_elem_of_lookup_total_2; lia).
    specialize (Hrange _ j Hk' Hj Hmod Hun).
    unfold ev_code in Hcode. simpl in Hcode. lia.
  - intros (i & j & (Hi & Hj & Hmod & Hkmer) & -> & ->).
    set (e := (c, Z.of_nat c0 + Z.of_nat i + 1, Z.of_nat j + 1)).
    assert (Hin : In e (of_code c)).
    { apply filter_In. split; [|apply Nat.eqb_refl].
      unfold corpus_events, indexed. apply in_corpus_events_iff.
      exists i, j. rewrite Nat.sub_0_r. split; [lia|]. split.
      - apply in_unmasked_strided; [assumption|].
        split; [assumption|]. split; [assumption|].
        rewrite Hkmer. unfold NA_INTEGER. lia.
      - unfold e. rewrite Hkmer, Nat2Z.id. reflexivity. }
    apply list_elem_of_In, list_elem_of_lookup_total_1 in Hin.
    destruct Hin as (k & Hk & Hke).
    assert (Hk' : (k < Z.to_nat (counts !!! c))%nat).
    { rewrite (Hc c HcL), Nat2Z.id, code_count_filter. exact Hk. }
    exists k. split; [assumption|].
    destruct (built_buckets c k HcL Hk') as (_ & -> & ->).
    rewrite Hke. auto.
Qed.

(** The bucket of a k-mer lists the occurrences of that k-mer in the
    corpus, and nothing else: cell [k] holds target [c0 + i + 1] and
    location [j + 1] for an occurrence at position [j] of sequence [i],
    and every occurrence is in a cell. *)
Theorem index_lists_occurrences (c : nat) (t l : Z) :
  (c < L)%nat ->
  (exists k, (k < Z.to_nat (counts !!! c))%nat /\
             i_ind built !!! (Z.to_nat (offsets counts !!! c) + k)%nat = t /\
             i_loc built !!! (Z.to_nat (offsets counts !!! c) + k)%nat = l)
  <-> (exists i j, occurs s corpus (Z.of_nat c) i j /\
                   t = Z.of_nat c0 + Z.of_nat i + 1 /\ l = Z.of_nat j + 1).
Proof. apply bucket_occurrences. Qed.
End BuiltIndex.

Lemma index_lists_occurrences_witness :
  let corpus := [[0; 1; 2; 1; 0]; [2; 1; 0]] in
  let counts := countIndex (replicate 4 0) corpus 1 in
  let built := updateIndex (offsets counts) corpus 2 1 (replicate 8 0)
                           (replicate 8 0) [0; 0] 0 in
  counts = [3; 3; 2; 0] /\
  i_ind built = [1; 1; 2; 1; 1; 2; 1; 2] /\
  i_loc built = [1; 5; 3; 2; 4; 2; 3; 1] /\
  ((exists k, (k < Z.to_nat (counts !!! 1%nat))%nat /\
              i_ind built !!! (Z.to_nat (offsets counts !!! 1%nat) + k)%nat = 2 /\
              i_loc built !!! (Z.to_nat (offsets counts !!! 1%nat) + k)%nat = 2)
   <-> (exists i j, occurs 1 corpus (Z.of_nat 1) i j /\
                    2 = Z.of_nat 0 + Z.of_nat i + 1 /\ 2 = Z.of_nat j + 1)).
Proof.
  intros corpus counts built.
  split; [reflexivity|]. split; [reflexivity|]. split; [reflexivity|].
  apply (index_lists_occurrences 4 corpus 2 1 0 (replicate 8 0)
           (replicate 8 0) [0; 0]).
  - lia.
  - intros kmers j [<-|[<-|[]]] Hj _ _;
      do 5 (destruct j as [|j]; [vm_compute; split; [discriminate|reflexivity]|]);
      simpl in Hj; lia.
  - reflexivity.
  - reflexivity.
  - lia.
Defined.

(** The index built by [countIndex] and [updateIndex], for a step of at
    least one and k-mers below the number [L] of buckets, lists the
    occurrences of every k-mer by increasing target and, within a target,
    increasing location: the order that the sort of [searchIndex] relies
    on. *)
Theorem built_index_sorted (L : nat) (corpus : list (list Z)) (K : Z)
        (s c0 : nat) (location index positions : list Z) :
  (1 <= s)%nat ->
  (forall kmers j, In kmers corpus -> (j < length kmers)%nat ->
                   (j mod s = 0)%nat -> kmers !!! j <> NA_INTEGER ->
                   0 <= kmers !!! j < Z.of_nat L) ->
  let counts := countIndex (replicate L 0) corpus s in
  Z.of_nat (length index) = fold_right Z.add 0 counts ->
  length location = length index ->
  let st := updateIndex (offsets counts) corpus K s location index positions
                        c0 in
  index_sorted counts (i_loc st) (i_ind st).
Proof. apply updateIndex_sorted. Qed.

Lemma built_index_sorted_witness :
  let corpus := [[0; 1; 2; 1; 0]; [2; 1; 0]] in
  let counts := countIndex (replicate 4 0) corpus 1 in
  let built := updateIndex (offsets counts) corpus 2 1 (replicate 8 0)
                           (replicate 8 0) [0; 0] 0 in
  i_ind built = [1; 1; 2; 1; 1; 2; 1; 2] /\
  i_loc built = [1; 5; 3; 2; 4; 2; 3; 1] /\
  index_sorted counts (i_loc built) (i_ind built).
Proof.
  intros corpus counts built.
  split; [reflexivity|]. split; [reflexivity|].
  apply (built_index_sorted 4 corpus 2 1 0 (replicate 8 0) (replicate 8 0)
           [0; 0]).
  - lia.
  - intros kmers j [<-|[<-|[]]] Hj _ _;
      do 5 (destruct j as [|j]; [vm_compute; split; [discriminate|reflexivity]|]);
      simpl in Hj; lia.
  - reflexivity.
  - reflexivity.
Defined.

(** * The positions recorded for a target *)

Lemma positions_width (K : Z) (l : list (nat * Z)) :
  forall a k,
    fold_left (positions_body K 1) l (a, k)
    = (a + fst (fold_left (width_body K) l (0, k)),
       snd (fold_left (width_body K) l (0, k))).
Proof.
  assert (Hgen : forall l a b k,
             fold_left (positions_body K 1) l (a + b, k)
             = (a + fst (fold_left (width_body K) l (b, k)),
                snd (fold_left (width_body K) l (b, k)))).
  { clear l. induction l as [|[j kmer] l IH]; intros a b k.
    - reflexivity.
    - cbn [fold_left positions_body width_body].
      destruct (kmer =? NA_INTEGER); [apply IH|].
      destruct (k =? Z.of_nat j - 1).
      + replace (a + b + 1) with (a + (b + 1)) by lia. apply IH.
      + replace (a + b + K) with (a + (b + K)) by lia. apply IH. }
  intros a k. rewrite <- (Hgen l a 0 k). now rewrite Z.add_0_r.
Qed.

Lemma index_write_pos c kmers (js : list nat) st :
  i_pos (fold_left (index_write c kmers) js st) = i_pos st.
Proof.
  revert st. induction js as [|j js IH]; intros st; [reflexivity|].
  simpl. rewrite IH. unfold index_write.
  destruct (negb (kmers !!! j =? NA_INTEGER)); reflexivity.
Qed.

Lemma update_seq_pos (K : Z) (c0 : nat) st i kmers :
  i_pos (update_seq K 1 c0 st (i, kmers))
  = <[(c0 + i)%nat := i_pos st !!! (c0 + i)%nat + query_width K kmers]>
      (i_pos st).
Proof.
  unfold update_seq. rewrite index_write_pos. cbn [i_pos].
  change (- Z.of_nat 1 - 1) with (-2). change (Z.of_nat 1) with 1.
  rewrite positions_width. reflexivity.
Qed.

Lemma updateIndex_pos_from (K : Z) (c0 : nat) (query : list (list Z)) :
  forall a st t,
    (t < length (i_pos st))%nat ->
    length (i_pos (fold_left (update_seq K 1 c0)
                             (combine (seq a (length query)) query) st))
    = length (i_pos st) /\
    i_pos (fold_left (update_seq K 1 c0)
                     (combine (seq a (length query)) query) st) !!! t
    = i_pos st !!! t
      + if ((c0 + a <=? t) && (t <? c0 + a + length query))%nat
        then query_width K (query !!! (t - c0 - a)%nat) else 0.
Proof.
  induction query as [|kmers query IH]; intros a st t Ht.
  - simpl. split; [reflexivity|].
    destruct (Nat.leb_spec (c0 + a)%nat t), (Nat.ltb_spec t (c0 + a + 0)%nat);
      simpl; lia.
  - cbn [length seq combine fold_left].
    destruct (IH (S a) (update_seq K 1 c0 st (a, kmers)) t) as (Hl & Hv).
    { rewrite update_seq_pos, length_insert. assumption. }
    rewrite Hl, Hv, update_seq_pos, length_insert. split; [reflexivity|].
    destruct (Nat.eq_dec t (c0 + a)%nat) as [->|Hne].
    + rewrite list_lookup_total_insert_eq by lia.
      replace (c0 + a - c0 - a)%nat with 0%nat by lia.
      destruct (Nat.leb_spec (c0 + S a)%nat (c0 + a)%nat); [lia|].
      destruct (Nat.leb_spec (c0 + a)%nat (c0 + a)%nat); [|lia].
      destruct (Nat.ltb_spec (c0 + a) (c0 + a + S (length query))); [|lia].
      simpl. change ((kmers :: query) !!! 0%nat) with kmers. lia.
    + rewrite list_lookup_total_insert_ne by lia.
      destruct (Nat.leb_spec (c0 + S a)%nat t), (Nat.leb_spec (c0 + a)%nat t),
        (Nat.ltb_spec t (c0 + S a + length query)%nat),
        (Nat.ltb_spec t (c0 + a + S (length query))); simpl; try lia.
      replace (t - c0 - a)%nat with (S (t - c0 - S a)) by lia. reflexivity.
Qed.

(** With a step of one, [updateIndex] adds to [positions[count + i]] the
    width that [searchIndex] computes for sequence [i] read as a query
    (lines 794-804 against lines 144-157), and leaves the other cells of
    [positions] as they are. *)
Theorem updateIndex_positions (offset : list Z) (corpus : list (list Z))
        (K : Z) (c0 : nat) (location index positions : list Z) (t : nat) :
  (t < length positions)%nat ->
  let built := updateIndex offset corpus K 1 location index positions c0 in
  length (i_pos built) = length positions /\
  ((c0 <= t < c0 + length corpus)%nat ->
   i_pos built !!! t
   = positions !!! t + query_width K (corpus !!! (t - c0)%nat)) /\
  ((t < c0 \/ c0 + length corpus <= t)%nat ->
   i_pos built !!! t = positions !!! t).
Proof.
  intros Ht built. unfold built, updateIndex, indexed.
  destruct (updateIndex_pos_from K c0 corpus 0
              (mkIndex offset location index positions) t Ht) as (Hl & Hv).
  cbn [i_pos] in Hl, Hv. rewrite Hl, Hv.
  split; [reflexivity|]. split; intros Hc.
  - destruct (Nat.leb_spec (c0 + 0)%nat t); [|lia].
    destruct (Nat.ltb_spec t (c0 + 0 + length corpus)%nat); [|lia].
    simpl. now rewrite Nat.sub_0_r.
  - destruct (Nat.leb_spec (c0 + 0)%nat t),
      (Nat.ltb_spec t (c0 + 0 + length corpus)%nat); simpl; lia.
Qed.

Lemma updateIndex_positions_witness :
  let corpus := [[0; 1; NA_INTEGER; 1; 0]; [2; 1; 0]] in
  let built := updateIndex [0; 2; 5; 6] corpus 3 1 (replicate 7 0)
                           (replicate 7 0) [9; 0; 0; 9] 1 in
  i_pos built = [9; 8; 5; 9] /\
  length (i_pos built) = length [9; 0; 0; 9] /\
  ((1 <= 1 < 1 + length corpus)%nat ->
   i_pos built !!! 1%nat
   = [9; 0; 0; 9] !!! 1%nat + query_width 3 (corpus !!! (1 - 1)%nat)) /\
  ((1 < 1 \/ 1 + length corpus <= 1)%nat ->
   i_pos built !!! 1%nat = [9; 0; 0; 9] !!! 1%nat).
Proof.
  intros corpus built. split; [reflexivity|].
  apply (updateIndex_positions [0; 2; 5; 6] corpus 3 1 (replicate 7 0)
           (replicate 7 0) [9; 0; 0; 9] 1).
  simpl. lia.
Defined.

(** * The hits of a query are the shared k-mers *)

Section GatherCells.
Context {D : Type} `{ScoreOps D} `{Inhabited D}.
Variables (num loc ind : list Z) (scores addScores : list D).

Local Abbreviation gth := (gather num loc ind scores addScores).
Local Abbreviation cell := (bucket_cell num loc ind).

Lemma bucket_cell_app (w : list Z) (wj q t l : Z) :
  cell (w ++ [wj]) q t l <->
  cell w q t l
  \/ (wj <> NA_INTEGER /\ q = Z.of_nat (length w) + 1 /\
      exists k, (k < Z.to_nat (num !!! Z.to_nat wj))%nat /\
                t = ind !!! (Z.to_nat (offsets num !!! Z.to_nat wj) + k)%nat /\
                l = loc !!! (Z.to_nat (offsets num !!! Z.to_nat wj) + k)%nat).
Proof.
  unfold bucket_cell. split.
  - intros (j & k & Hj & Hna & Hq & Hk & Ht & Hl).
    rewrite length_app in Hj. simpl in Hj.
    destruct (Nat.eq_dec j (length w)) as [->|Hne].
    + rewrite lookup_total_app_r, Nat.sub_diag in * by lia.
      change ([wj] !!! 0%nat) with wj in *.
      right. split; [assumption|]. split; [assumption|]. exists k. auto.
    + rewrite lookup_total_app_l in * by lia.
      left. exists j, k. split; [lia|]. auto.
  - intros [(j & k & Hj & Hna & Hq & Hk & Ht & Hl)|(Hna & Hq & k & Hk & Ht & Hl)].
    + exists j, k. rewrite length_app, lookup_total_app_l by lia.
      split; [lia|]. auto.
    + exists (length w), k. rewrite length_app.
      rewrite lookup_total_app_r, Nat.sub_diag by lia.
      change ([wj] !!! 0%nat) with wj. simpl. split; [lia|]. auto.
Qed.

(** The hits gathered for a query: for every unmasked k-mer of the query,
    every cell of its bucket. *)
Lemma gather_cells (w : list Z) :
  let h := gth w (map (kmer_count num) w) in
  length (h_posTarget h) = length (h_posQuery h) /\
  length (h_set h) = length (h_posQuery h) /\
  forall q t l, is_hit h q t l <-> cell w q t l.
Proof.
  induction w as [|wj w IH] using rev_ind.
  - simpl. split; [reflexivity|]. split; [reflexivity|].
    intros q t l. split.
    + intros (i & Hi & _). simpl in Hi. lia.
    + intros (j & k & Hj & _). simpl in Hj. lia.
  - rewrite map_app. cbn [map].
    rewrite gather_snoc by (now rewrite length_map).
    rewrite bucket_eq. cbv zeta in *.
    set (h := gth w (map (kmer_count num) w)) in *.
    set (n := Z.to_nat (kmer_count num wj)).
    set (P := Z.to_nat (offsets num !!! Z.to_nat wj)).
    destruct IH as (Lt & Ls & IH).
    set (T := length (h_posQuery h)) in *.
    unfold hits_app. cbn [h_posQuery h_posTarget h_set].
    assert (Hwj : (0 < n)%nat -> wj <> NA_INTEGER /\
                                 n = Z.to_nat (num !!! Z.to_nat wj)).
    { unfold n, kmer_count.
      destruct (Z.eqb_spec wj NA_INTEGER); [simpl; lia|].
      intros _. split; [assumption|reflexivity]. }
    assert (Hn : wj <> NA_INTEGER -> n = Z.to_nat (num !!! Z.to_nat wj)).
    { intros Hna. unfold n, kmer_count.
      destruct (Z.eqb_spec wj NA_INTEGER); [contradiction|reflexivity]. }
    rewrite !length_app, !length_map, !length_replicate, !length_seq.
    split; [lia|]. split; [lia|].
    intros q t l. rewrite bucket_cell_app, <- IH. unfold is_hit.
    cbn [h_posQuery h_posTarget h_set].
    rewrite length_app, length_replicate. fold T. split.
    + intros (i & Hi & Hq & Ht & Hl).
      destruct (Nat.lt_ge_cases i T) as [Hlt|Hge].
      * left. exists i. rewrite !lookup_total_app_l in * by lia. auto.
      * right. rewrite !lookup_total_app_r in * by lia.
        rewrite Lt, Ls in *. fold T in Hq, Ht, Hl.
        rewrite lookup_total_replicate_2 in Hq by lia.
        rewrite lookup_total_map, lookup_total_seq_lt in Ht, Hl
          by (rewrite ?length_seq; lia).
        destruct (Hwj ltac:(lia)) as (Hna & Hnn).
        split; [assumption|]. split; [congruence|].
        exists (i - T)%nat. simpl in Ht, Hl. split; [lia|]. auto.
    + intros [(i & Hi & Hq & Ht & Hl)|(Hna & Hq & k & Hk & Ht & Hl)].
      * exists i. rewrite !lookup_total_app_l by lia. split; [lia|]. auto.
      * exists (T + k)%nat. rewrite <- (Hn Hna) in Hk.
        rewrite !lookup_total_app_r by lia. rewrite Lt, Ls. fold T.
        replace (T + k - T)%nat with k by lia.
        rewrite lookup_total_replicate_2 by lia.
        rewrite !lookup_total_map, !lookup_total_seq_lt
          by (rewrite ?length_seq; lia).
        simpl. split; [lia|]. auto.
Qed.
End GatherCells.

Section GatherMatches.
Context {D : Type} `{ScoreOps D} `{Inhabited D}.
Variables (L : nat) (corpus : list (list Z)) (K : Z) (s c0 : nat).
Variables (location index positions : list Z).
Variables (scores addScores : list D).
Hypothesis Hs : (1 <= s)%nat.
Hypothesis Hrange :
  forall kmers j, In kmers corpus -> (j < length kmers)%nat ->
                  (j mod s = 0)%nat -> kmers !!! j <> NA_INTEGER ->
                  0 <= kmers !!! j < Z.of_nat L.

Local Abbreviation counts := (countIndex (replicate L 0) corpus s).
Local Abbreviation built :=
  (updateIndex (offsets counts) corpus K s location index positions c0).

Hypothesis Hlen : Z.of_nat (length index) = fold_right Z.add 0 counts.
Hypothesis Hlloc : length location = length index.

(** For an index built by [countIndex] and [updateIndex], and a query
    whose unmasked k-mers are k-mers of the index: the hits gathered for
    the query are the triples of a position of the query, a target and a
    position of the target where query and target have the same unmasked
    k-mer, the target at a multiple of the step; every such triple is a
    hit. *)
Theorem gather_hits_are_matches (w cts : list Z) (total : Z) (q t l : Z) :
  (forall j, (j < length w)%nat -> w !!! j <> NA_INTEGER ->
             0 <= w !!! j < Z.of_nat L) ->
  count_targets counts w 0 = Some (cts, total) ->
  is_hit (gather counts (i_loc built) (i_ind built) scores addScores w cts)
         q t l
  <-> exists j i' j' : nat,
        (j < length w)%nat /\ w !!! j <> NA_INTEGER /\
        occurs s corpus (w !!! j) i' j' /\
        q = Z.of_nat j + 1 /\ t = Z.of_nat c0 + Z.of_nat i' + 1 /\
        l = Z.of_nat j' + 1.
Proof.
  intros Hw Hc. apply count_targets_counts in Hc. subst cts.
  destruct (gather_cells counts (i_loc built) (i_ind built) scores addScores w)
    as (_ & _ & Hcells).
  rewrite Hcells. unfold bucket_cell. split.
  - intros (j & k & Hj & Hna & -> & Hk & Ht & Hl).
    specialize (Hw j Hj Hna).
    destruct (proj1 (bucket_occurrences L corpus K s c0 location index
                       positions Hs Hrange Hlen Hlloc
                       (Z.to_nat (w !!! j)) t l ltac:(lia)))
      as (i' & j' & Hocc & -> & ->).
    { exists k. auto. }
    exists j, i', j'. rewrite Z2Nat.id in Hocc by lia. auto 10.
  - intros (j & i' & j' & Hj & Hna & Hocc & -> & -> & ->).
    specialize (Hw j Hj Hna).
    destruct (proj2 (bucket_occurrences L corpus K s c0 location index
                       positions Hs Hrange Hlen Hlloc
                       (Z.to_nat (w !!! j))
                       (Z.of_nat c0 + Z.of_nat i' + 1) (Z.of_nat j' + 1)
                       ltac:(lia)))
      as (k & Hk & Ht & Hl).
    { exists i', j'. rewrite Z2Nat.id by lia. auto. }
    exists j, k. auto 10.
Qed.
End GatherMatches.

Lemma gather_hits_are_matches_witness :
  let corpus := [[0; 1; 2; 1; 0]; [2; 1; 0]] in
  let counts := countIndex (replicate 4 0) corpus 1 in
  let built := updateIndex (offsets counts) corpus 2 1 (replicate 8 0)
                           (replicate 8 0) [0; 0] 0 in
  let w := [1; NA_INTEGER; 0] in
  let h := gather counts (i_loc built) (i_ind built) [3; 3; 3; 3]
                  [1; 1; 1; 1] w [3; 0; 3] in
  h_posQuery h = [1; 1; 1; 3; 3; 3] /\ h_set h = [1; 1; 2; 1; 1; 2] /\
  h_posTarget h = [2; 4; 2; 1; 5; 3] /\
  (is_hit h 1 2 2
   <-> exists j i' j' : nat,
         (j < length w)%nat /\ w !!! j <> NA_INTEGER /\
         occurs 1 corpus (w !!! j) i' j' /\
         1 = Z.of_nat j + 1 /\ 2 = Z.of_nat 0 + Z.of_nat i' + 1 /\
         2 = Z.of_nat j' + 1).
Proof.
  intros corpus counts built w h.
  split; [reflexivity|]. split; [reflexivity|]. split; [reflexivity|].
  apply (gather_hits_are_matches 4 corpus 2 1 0 (replicate 8 0)
           (replicate 8 0) [0; 0] [3; 3; 3; 3] [1; 1; 1; 1]) with (total := 6).
  - lia.
  - intros kmers j [<-|[<-|[]]] Hj _ _;
      do 5 (destruct j as [|j]; [vm_compute; split; [discriminate|reflexivity]|]);
      simpl in Hj; lia.
  - reflexivity.
  - reflexivity.
  - intros j Hj Hna.
    destruct j as [|j]; [vm_compute; split; [discriminate|reflexivity]|].
    destruct j as [|j]; [exfalso; apply Hna; reflexivity|].
    destruct j as [|j]; [vm_compute; split; [discriminate|reflexivity]|].
    simpl in Hj. lia.
  - reflexivity.
Defined.

(** * Offsets and approximate letter frequencies *)

Lemma list_eq_total {A} `{Inhabited A} (l1 l2 : list A) :
  length l1 = length l2 ->
  (forall i, (i < length l1)%nat -> l1 !!! i = l2 !!! i) ->
  l1 = l2.
Proof.
  revert l2. induction l1 as [|x l1 IH]; intros [|y l2] Hl Hall;
    simpl in Hl; try discriminate; [reflexivity|].
  f_equal.
  - apply (Hall 0%nat). simpl. lia.
  - apply IH; [lia|]. intros i Hi. apply (Hall (S i)). simpl. lia.
Qed.

Lemma sum_list_app (l1 l2 : list Z) :
  sum_list (l1 ++ l2) = sum_list l1 + sum_list l2.
Proof. apply fold_right_add_app. Qed.

Lemma sum_take_S (num : list Z) (n : nat) :
  (n < length num)%nat ->
  sum_list (take (S n) num) = sum_list (take n num) + num !!! n.
Proof.
  intros Hn.
  rewrite (take_S_r num n (num !!! n))
    by (apply list_lookup_lookup_total_lt; assumption).
  rewrite sum_list_app. unfold sum_list. simpl. lia.
Qed.

Lemma slice_snoc (num : list Z) (a e : nat) :
  (a <= e < length num)%nat ->
  slice num a (S e) = slice num a e ++ [num !!! e].
Proof.
  intros Hae. unfold slice.
  replace (S e - a)%nat with (S (e - a)) by lia.
  apply take_S_r. rewrite lookup_drop.
  replace (a + (e - a))%nat with e by lia.
  apply list_lookup_lookup_total_lt. lia.
Qed.

Lemma fold_approx_none (num : list Z) (b : Z) (l : list nat) :
  fold_left (approx_body num b) l None = None.
Proof. induction l as [|i l IH]; [reflexivity|exact IH]. Qed.

Section ApproxFreqs.
Variables (offset freqs num : list Z).

Local Abbreviation abody := (approx_body num (Z.of_nat (length offset / length freqs))).
Local Abbreviation init :=
  (Some (mkFreq offset (<[0%nat := num !!! 0%nat]> freqs) 0
                (Z.of_nat (length offset / length freqs)))).

(** While no cell outside an array is used, [offset] is filled with the
    running sums of the counts. *)
Lemma approx_offsets_upto (n : nat) (st : freq_state) :
  (n <= length offset - 1)%nat ->
  fold_left abody (seq 0 n) init = Some st ->
  length (f_off st) = length offset /\
  forall t, (t <= n)%nat ->
            f_off st !!! t = offset !!! 0%nat + sum_list (take t num).
Proof.
  revert st. induction n as [|n IH]; intros st Hn Hrun.
  - simpl in Hrun. inversion Hrun; subst. cbn [f_off].
    split; [reflexivity|]. intros t Ht. replace t with 0%nat by lia.
    unfold sum_list. simpl. lia.
  - rewrite seq_S, fold_left_app in Hrun. cbn [fold_left Nat.add] in Hrun.
    destruct (fold_left abody (seq 0 n) init) as [st0|] eqn:Hprev;
      [|discriminate].
    destruct (IH st0 ltac:(lia) eq_refl) as (Hl & Hoff).
    unfold approx_body in Hrun.
    destruct (Nat.ltb_spec (S n) (length num)) as [Hnum|?]; [|discriminate].
    destruct (if Z.of_nat (S n) >=? f_n st0
              then (wrap32 (f_k st0 + 1),
                    wrap32 (f_n st0 + Z.of_nat (length offset / length freqs)))
              else (f_k st0, f_n st0)) as [k n'].
    destruct ((0 <=? k) && (k <? Z.of_nat (length (f_freq st0))));
      [|discriminate].
    inversion Hrun; subst. cbn [f_off]. rewrite length_insert.
    split; [assumption|]. intros t Ht.
    destruct (Nat.eq_dec t (S n)) as [->|Hne].
    + rewrite list_lookup_total_insert_eq by lia.
      rewrite (Hoff n ltac:(lia)), sum_take_S by lia. lia.
    + rewrite list_lookup_total_insert_ne by lia. apply Hoff. lia.
Qed.

(** When [approxFreqs] uses no cell outside its arrays, it leaves in
    [offset[j]] the value of [offset[0]] plus the counts before [j]; from
    [offset[0] = 0] these are the offsets that [searchIndex] computes in
    lines 116-122. *)
Theorem approxFreqs_offsets (off' freq' : list Z) :
  approxFreqs offset freqs num = Some (off', freq') ->
  length off' = length offset /\
  (forall j, (j < length offset)%nat ->
             off' !!! j = offset !!! 0%nat + sum_list (take j num)) /\
  (offset !!! 0%nat = 0 -> length num = length offset ->
   off' = offsets num).
Proof.
  unfold approxFreqs.
  destruct (length freqs =? 0)%nat; [discriminate|].
  destruct (length num =? 0)%nat; [discriminate|].
  destruct (fold_left abody (seq 0 (length offset - 1)) init) as [st|] eqn:Hrun;
    [|discriminate].
  intros [= <- <-].
  destruct (approx_offsets_upto (length offset - 1) st (Nat.le_refl _) Hrun)
    as (Hl & Hoff).
  split; [assumption|]. split; [intros j Hj; apply Hoff; lia|].
  intros H0 Hnum. apply list_eq_total.
  - unfold offsets. rewrite offsets_from_length. congruence.
  - intros j Hj. rewrite Hoff by lia. unfold offsets.
    rewrite offsets_from_lookup by lia. rewrite H0. reflexivity.
Qed.
End ApproxFreqs.

Lemma approxFreqs_offsets_witness :
  approxFreqs [0; 0; 0; 0; 0; 0] [0; 0; 0] [4; 1; 0; 2; 5; 3]
  = Some ([0; 4; 5; 5; 7; 12], [5; 2; 8]) /\
  length [0; 4; 5; 5; 7; 12] = length [0; 0; 0; 0; 0; 0] /\
  (forall j, (j < length [0; 0; 0; 0; 0; 0])%nat ->
             [0; 4; 5; 5; 7; 12] !!! j
             = [0; 0; 0; 0; 0; 0] !!! 0%nat
               + sum_list (take j [4; 1; 0; 2; 5; 3])) /\
  ([0; 0; 0; 0; 0; 0] !!! 0%nat = 0 ->
   length [4; 1; 0; 2; 5; 3] = length [0; 0; 0; 0; 0; 0] ->
   [0; 4; 5; 5; 7; 12] = offsets [4; 1; 0; 2; 5; 3]).
Proof.
  split; [reflexivity|].
  apply (approxFreqs_offsets [0; 0; 0; 0; 0; 0] [0; 0; 0] [4; 1; 0; 2; 5; 3]
           [0; 4; 5; 5; 7; 12] [5; 2; 8]).
  reflexivity.
Defined.

Section ApproxBins.
Variables (offset freqs num : list Z) (b : nat).
Hypothesis Hb : (1 <= b)%nat.
Hypothesis Hbin : (length offset / length freqs = b)%nat.
Hypothesis Hint : Z.of_nat (length offset) <= INT_MAX.

Local Abbreviation bbody := (approx_body num (Z.of_nat b)).
Local Abbreviation binv := (approx_inv offset freqs num b).

Lemma bins_fit : (length freqs * b <= length offset)%nat.
Proof.
  rewrite <- Hbin. apply Nat.Div0.mul_div_le.
Qed.

Lemma freqs_nonempty : (1 <= length freqs)%nat.
Proof.
  destruct (length freqs) as [|s]; [|lia].
  simpl in Hbin. lia.
Qed.

Lemma approx_inv_init :
  (1 <= length num)%nat ->
  binv 0 (mkFreq offset (<[0%nat := num !!! 0%nat]> freqs) 0 (Z.of_nat b)).
Proof.
  intros Hnum. pose proof freqs_nonempty as Hs.
  exists 0%nat, 0%nat. cbn [f_off f_freq f_k f_n].
  rewrite length_insert.
  split; [lia|]. split; [lia|]. split; [reflexivity|].
  split; [f_equal; lia|]. split; [reflexivity|]. split; [reflexivity|].
  split; [|split; [|split]].
  - intros t Ht. replace t with 0%nat by lia. unfold sum_list. simpl. lia.
  - intros k Hk. lia.
  - rewrite list_lookup_total_insert_eq by lia.
    replace (0 * b)%nat with 0%nat by lia.
    rewrite (slice_snoc num 0 0) by lia. unfold slice, sum_list. simpl. lia.
  - intros k Hk. apply list_lookup_total_insert_ne. lia.
Qed.

(** The turn for [i]: it succeeds while [i + 1] is below
    [length freqs * b], and uses [freqs[length freqs]] when [i + 1] is
    [length freqs * b]. *)
Lemma approx_inv_step (i : nat) (st : freq_state) :
  (S i < length num)%nat -> (S i < length offset)%nat ->
  binv i st ->
  ((S i < length freqs * b)%nat ->
   exists st', bbody (Some st) i = Some st' /\ binv (S i) st') /\
  (S i = (length freqs * b)%nat -> bbody (Some st) i = None).
Proof.
  intros Hnum Hoffl (q & r & Hi & Hr & Hk & Hn & Lo & Lf & Hoff & Hfull & Hcur & Hrest).
  pose proof bins_fit as Hfit.
  unfold approx_body. destruct (Nat.ltb_spec (S i) (length num)) as [_|?]; [|lia].
  rewrite Hk, Hn, Lf.
  destruct (Nat.eq_dec (r + 1)%nat b) as [Hlast|Hmid].
  - assert (HSi : S i = ((q + 1) * b)%nat) by nia.
    destruct (Z.geb_spec (Z.of_nat (S i)) (Z.of_nat ((q + 1) * b))) as [_|?];
      [|lia].
    assert (Hq1 : Z.of_nat q + 1 <= INT_MAX) by nia.
    rewrite (wrap32_small (Z.of_nat q + 1)) by (unfold INT_MAX in *; lia).
    split.
    + intros Hlt. assert (Hqs : (q + 1 < length freqs)%nat) by nia.
      assert (Hn2 : Z.of_nat ((q + 1) * b) + Z.of_nat b <= INT_MAX) by nia.
      rewrite wrap32_small by (unfold INT_MAX in *; lia).
      destruct (Z.leb_spec 0 (Z.of_nat q + 1)) as [_|?]; [|lia].
      destruct (Z.ltb_spec (Z.of_nat q + 1) (Z.of_nat (length freqs)))
        as [_|?]; [|lia].
      cbn [andb]. eexists. split; [reflexivity|].
      exists (q + 1)%nat, 0%nat. cbn [f_off f_freq f_k f_n].
      rewrite !length_insert.
      replace (Z.to_nat (Z.of_nat q + 1)) with (q + 1)%nat by lia.
      split; [lia|]. split; [lia|]. split; [lia|].
      split; [f_equal; lia|]. split; [assumption|]. split; [assumption|].
      split; [|split; [|split]].
      * intros t Ht. destruct (Nat.eq_dec t (S i)) as [->|Hne].
        -- rewrite list_lookup_total_insert_eq by lia.
           rewrite (Hoff i ltac:(lia)), sum_take_S by lia. lia.
        -- rewrite list_lookup_total_insert_ne by lia. apply Hoff. lia.
      * intros k Hkq. rewrite list_lookup_total_insert_ne by lia.
        destruct (Nat.eq_dec k q) as [->|Hne].
        -- rewrite Hcur, HSi. reflexivity.
        -- apply Hfull. lia.
      * rewrite list_lookup_total_insert_eq by lia.
        rewrite (Hrest (q + 1)%nat) by lia.
        destruct (Nat.eqb_spec (q + 1)%nat 0%nat); [lia|].
        replace ((q + 1) * b)%nat with (S i) by lia.
        rewrite (slice_snoc num (S i) (S i)) by lia.
        unfold slice. rewrite Nat.sub_diag. unfold sum_list. simpl. lia.
      * intros k Hkq. rewrite list_lookup_total_insert_ne by lia.
        apply Hrest. lia.
    + intros Heq. assert (Hqs : (q + 1 = length freqs)%nat) by nia.
      destruct (Z.ltb_spec (Z.of_nat q + 1) (Z.of_nat (length freqs)))
        as [?|_]; [lia|].
      now rewrite andb_false_r.
  - destruct (Z.geb_spec (Z.of_nat (S i)) (Z.of_nat ((q + 1) * b))) as [?|_];
      [nia|].
    split.
    2:{ intros Heq. exfalso.
        destruct (Nat.lt_ge_cases q (length freqs)) as [Hq|Hq]; nia. }
    intros Hlt. assert (Hqs : (q < length freqs)%nat) by nia.
    destruct (Z.leb_spec 0 (Z.of_nat q)) as [_|?]; [|lia].
    destruct (Z.ltb_spec (Z.of_nat q) (Z.of_nat (length freqs)))
      as [_|?]; [|lia].
    cbn [andb]. eexists. split; [reflexivity|].
    exists q, (r + 1)%nat. cbn [f_off f_freq f_k f_n].
    rewrite !length_insert, Nat2Z.id.
    split; [lia|]. split; [lia|]. split; [reflexivity|].
    split; [reflexivity|]. split; [assumption|]. split; [assumption|].
    split; [|split; [|split]].
    + intros t Ht. destruct (Nat.eq_dec t (S i)) as [->|Hne].
      * rewrite list_lookup_total_insert_eq by lia.
        rewrite (Hoff i ltac:(lia)), sum_take_S by lia. lia.
      * rewrite list_lookup_total_insert_ne by lia. apply Hoff. lia.
    + intros k Hkq. rewrite list_lookup_total_insert_ne by lia.
      now apply Hfull.
    + rewrite list_lookup_total_insert_eq by lia.
      rewrite Hcur, (slice_snoc num (q * b) (S i)) by nia.
      rewrite sum_list_app. unfold sum_list. simpl. lia.
    + intros k Hkq. rewrite list_lookup_total_insert_ne by lia.
      now apply Hrest.
Qed.

Lemma approx_inv_upto (n : nat) :
  (n < length freqs * b)%nat -> (n < length num)%nat ->
  exists st,
    fold_left bbody (seq 0 n)
              (Some (mkFreq offset (<[0%nat := num !!! 0%nat]> freqs) 0
                            (Z.of_nat b)))
    = Some st /\ binv n st.
Proof.
  pose proof bins_fit as Hfit.
  induction n as [|n IH]; intros Hn Hnum.
  - eexists. split; [reflexivity|]. apply approx_inv_init. lia.
  - destruct (IH ltac:(lia) ltac:(lia)) as (st & Hrun & Hinv).
    rewrite seq_S, fold_left_app, Hrun. cbn [fold_left Nat.add].
    destruct (approx_inv_step n st Hnum ltac:(lia) Hinv) as (Hok & _).
    apply Hok. assumption.
Qed.
End ApproxBins.

(** When the number [l] of k-mers is [s * b] for [s] bins of [b >= 1]
    k-mers each, [approxFreqs] uses no cell outside its arrays, and leaves
    in [freqs[k]] the sum of the counts of bin [k], added to what
    [freqs[k]] held (which is overwritten for [k = 0]). *)
Theorem approxFreqs_bins (offset freqs num : list Z) (b : nat) :
  (1 <= b)%nat -> (1 <= length freqs)%nat ->
  length offset = (length freqs * b)%nat ->
  length num = length offset ->
  Z.of_nat (length offset) <= INT_MAX ->
  exists off' freq',
    approxFreqs offset freqs num = Some (off', freq') /\
    length freq' = length freqs /\
    forall k, (k < length freqs)%nat ->
              freq' !!! k
              = (if (k =? 0)%nat then 0 else freqs !!! k)
                + sum_list (slice num (k * b) ((k + 1) * b)).
Proof.
  intros Hb Hs Hl Hnum Hint.
  assert (Hbin : (length offset / length freqs = b)%nat).
  { rewrite Hl, Nat.mul_comm. apply Nat.div_mul. lia. }
  destruct (approx_inv_upto offset freqs num b Hb Hbin Hint
              (length offset - 1)) as (st & Hrun & Hinv); [nia|nia|].
  unfold approxFreqs.
  destruct (Nat.eqb_spec (length freqs) 0%nat); [lia|].
  destruct (Nat.eqb_spec (length num) 0%nat); [nia|].
  rewrite Hbin, Hrun. exists (f_off st), (f_freq st).
  split; [reflexivity|].
  destruct Hinv as (q & r & Hi & Hr & _ & _ & _ & Lf & _ & Hfull & Hcur & _).
  split; [assumption|].
  assert (Hq : (q + 1 = length freqs)%nat) by nia.
  intros k Hk. destruct (Nat.eq_dec k q) as [->|Hne].
  - rewrite Hcur. do 3 f_equal. nia.
  - apply Hfull. lia.
Qed.

Lemma approxFreqs_bins_witness :
  approxFreqs [0; 0; 0; 0; 0; 0] [7; 7; 7] [4; 1; 0; 2; 5; 3]
  = Some ([0; 4; 5; 5; 7; 12], [5; 9; 15]) /\
  exists off' freq',
    approxFreqs [0; 0; 0; 0; 0; 0] [7; 7; 7] [4; 1; 0; 2; 5; 3]
    = Some (off', freq') /\
    length freq' = length [7; 7; 7] /\
    forall k, (k < length [7; 7; 7])%nat ->
              freq' !!! k
              = (if (k =? 0)%nat then 0 else [7; 7; 7] !!! k)
                + sum_list (slice [4; 1; 0; 2; 5; 3] (k * 2) ((k + 1) * 2)).
Proof.
  split; [reflexivity|].
  apply (approxFreqs_bins [0; 0; 0; 0; 0; 0] [7; 7; 7] [4; 1; 0; 2; 5; 3] 2).
  - lia.
  - simpl. lia.
  - reflexivity.
  - reflexivity.
  - unfold INT_MAX. simpl. lia.
Defined.

(** When the number [l] of k-mers is at least the number [s] of bins but
    not a multiple of it, [approxFreqs] adds a count to [freqs[s]], one
    cell past the end of [freqs]. *)
Theorem approxFreqs_overrun (offset freqs num : list Z) :
  (1 <= length freqs <= length offset)%nat ->
  (length offset mod length freqs <> 0)%nat ->
  length num = length offset ->
  Z.of_nat (length offset) <= INT_MAX ->
  approxFreqs offset freqs num = None.
Proof.
  intros Hs Hmod Hnum Hint.
  set (b := (length offset / length freqs)%nat).
  assert (Hb : (1 <= b)%nat).
  { unfold b. apply Nat.div_le_lower_bound; lia. }
  assert (Hlt : (length freqs * b < length offset)%nat).
  { pose proof (Nat.div_mod_eq (length offset) (length freqs)). fold b in H.
    lia. }
  destruct (approx_inv_upto offset freqs num b Hb eq_refl Hint
              (length freqs * b - 1)) as (st & Hrun & Hinv); [nia|nia|].
  unfold approxFreqs.
  destruct (Nat.eqb_spec (length freqs) 0%nat); [lia|].
  destruct (Nat.eqb_spec (length num) 0%nat); [lia|].
  fold b.
  replace (length offset - 1)%nat
    with ((length freqs * b - 1) + S (length offset - 1 - length freqs * b))%nat
    by nia.
  rewrite seq_app, fold_left_app, Hrun.
  cbn [seq fold_left Nat.add].
  destruct (approx_inv_step offset freqs num b Hb eq_refl Hint
              (length freqs * b - 1) st ltac:(nia) ltac:(nia) Hinv)
    as (_ & Hnone).
  rewrite Hnone by nia. rewrite fold_approx_none. reflexivity.
Qed.

Lemma approxFreqs_overrun_witness :
  approxFreqs [0; 0; 0; 0; 0] [0; 0] [1; 1; 1; 1; 1] = None.
Proof.
  apply approxFreqs_overrun.
  - simpl. lia.
  - simpl. lia.
  - reflexivity.
  - unfold INT_MAX. simpl. lia.
Defined.

(** * The scores of the k-mers *)

Lemma Z_mod_succ (a size : Z) :
  0 <= a -> 1 <= size ->
  (a + 1) mod size
  = if a mod size =? size - 1 then 0 else a mod size + 1.
Proof.
  intros Ha Hs.
  pose proof (Z.div_mod a size ltac:(lia)) as Hdm.
  pose proof (Z.mod_pos_bound a size ltac:(lia)) as Hm.
  destruct (Z.eqb_spec (a mod size) (size - 1)) as [Heq|Hne].
  - symmetry. apply (Z.mod_unique_pos _ _ (a / size + 1)); lia.
  - symmetry. apply (Z.mod_unique_pos _ _ (a / size)); lia.
Qed.

Section Tables.
Context {D : Type} `{ScoreOps D} `{Inhabited D}.
Variables (K step : Z) (freqs : list D).
Hypothesis Hsize : (1 <= length freqs)%nat.

Local Abbreviation size := (Z.of_nat (length freqs)).
Local Abbreviation inner := (table_inner freqs).
Local Abbreviation tinv := (table_inv freqs).

Lemma table_inv_step (extend : bool) (c : Z) (L : nat) (s0 a0 : list D)
      (j : nat) (st : list D * list D * Z * Z) :
  1 <= c -> Z.of_nat L + c <= INT_MAX -> (j < L)%nat ->
  tinv extend c L s0 a0 j st ->
  tinv extend c L s0 a0 (S j) (inner extend c st j).
Proof.
  intros Hc Hint Hj. destruct st as [[[scores adds] k] p].
  intros (Ls & La & Hzero & Hpos & Harr).
  assert (Hstep : exists k' p' a' r',
             (if Z.of_nat j =? p
              then (if k =? size - 1 then 0 else wrap32 (k + 1),
                    wrap32 (p + c))
              else (k, p)) = (k', p') /\
             Z.of_nat j = a' * c + r' /\ 0 <= a' /\ 0 <= r' < c /\
             k' = a' mod size /\ p' = (a' + 1) * c).
  { destruct (Nat.eq_dec j 0%nat) as [->|Hj0].
    - destruct (Hzero eq_refl) as (-> & ->).
      change (Z.of_nat 0 =? 0) with true. cbv iota.
      destruct (Z.eqb_spec (-1) (size - 1)) as [?|_]; [lia|].
      exists 0, c, 0, 0. rewrite !wrap32_small by (unfold INT_MAX in *; lia).
      split; [reflexivity|]. split; [lia|]. split; [lia|]. split; [lia|].
      split; [symmetry; apply Z.mod_0_l; lia|lia].
    - destruct (Hpos ltac:(lia)) as (a & r & Hjar & Ha & Hr & -> & ->).
      pose proof (Z.mod_pos_bound a size ltac:(lia)) as Hm.
      pose proof (Z.mod_le a size Ha ltac:(lia)) as Hle.
      destruct (Z.eq_dec (r + 1) c) as [Hlast|Hmid].
      + destruct (Z.eqb_spec (Z.of_nat j) ((a + 1) * c)) as [_|?]; [|nia].
        exists ((a + 1) mod size), ((a + 2) * c), (a + 1), 0.
        rewrite !wrap32_small by (unfold INT_MAX in *; nia).
        rewrite (Z_mod_succ a size) by lia.
        split; [f_equal; lia|]. split; [nia|]. split; [lia|].
        split; [lia|]. split; [reflexivity|lia].
      + destruct (Z.eqb_spec (Z.of_nat j) ((a + 1) * c)) as [?|_]; [nia|].
        exists (a mod size), ((a + 1) * c), a, (r + 1).
        split; [reflexivity|]. split; [lia|]. split; [lia|].
        split; [lia|]. split; reflexivity. }
  destruct Hstep as (k' & p' & a' & r' & Hkp & Hja & Ha' & Hr' & Hk' & Hp').
  unfold table_inner. rewrite Hkp. unfold table_inv.
  assert (Hdiv : Z.of_nat j / c = a').
  { symmetry. apply (Z.div_unique_pos _ _ _ r'); lia. }
  split; [now rewrite length_insert|].
  split; [destruct extend; now rewrite ?length_insert|].
  split; [lia|]. split.
  { intros _. exists a', r'. split; [lia|]. auto. }
  intros t Ht. destruct (Harr t Ht) as (Hst & Hat).
  destruct (Nat.eq_dec t j) as [->|Hne].
  - destruct (Nat.ltb_spec j (S j)); [|lia].
    destruct (Nat.ltb_spec j j); [lia|]. simpl in Hat.
    rewrite list_lookup_total_insert_eq by lia.
    rewrite Hdiv, <- Hk', Hst. split; [reflexivity|].
    destruct extend; simpl.
    + rewrite list_lookup_total_insert_eq by lia. now rewrite Hat.
    + assumption.
  - rewrite list_lookup_total_insert_ne by lia.
    replace (t <? S j)%nat with (t <? j)%nat
      by (destruct (Nat.ltb_spec t j), (Nat.ltb_spec t (S j)); lia).
    split; [assumption|].
    destruct extend; [rewrite list_lookup_total_insert_ne by lia|];
      assumption.
Qed.

(** The inner loop for one letter position: the frequency of that letter
    is added to the score of every k-mer. *)
Lemma table_inner_fold (extend : bool) (c : Z) (L : nat) (s0 a0 : list D) :
  1 <= c -> Z.of_nat L + c <= INT_MAX ->
  length s0 = L -> length a0 = L ->
  tinv extend c L s0 a0 L
       (fold_left (inner extend c) (seq 0 L) (s0, a0, -1, 0)).
Proof.
  intros Hc Hint Ls La.
  assert (Hfold : (fun j st => (j <= L)%nat -> tinv extend c L s0 a0 j st)
                    (0 + L)%nat
                    (fold_left (inner extend c) (seq 0 L) (s0, a0, -1, 0))).
  { apply fold_left_seq_inv.
    - intros _. unfold table_inv. split; [assumption|]. split; [assumption|].
      split; [auto|]. split; [lia|]. intros t Ht. simpl. auto.
    - intros j st Hj Hst Hle.
      apply table_inv_step; [assumption|assumption|lia|apply Hst; lia]. }
  apply Hfold. lia.
Qed.

Lemma kmer_score_S (n j : nat) :
  kmer_score freqs (S n) j
  = dadd (kmer_score freqs n j) (freqs !!! digit freqs (S n) j).
Proof.
  unfold kmer_score. now rewrite seq_S, fold_left_app.
Qed.

Lemma kmer_extend_S (n j : nat) :
  kmer_extend K step freqs (S n) j
  = if Z.of_nat (S n) >? K - step
    then dadd (kmer_extend K step freqs n j) (freqs !!! digit freqs (S n) j)
    else kmer_extend K step freqs n j.
Proof.
  unfold kmer_extend. now rewrite seq_S, fold_left_app.
Qed.

Lemma score_tables_closed (L : nat) :
  Z.of_nat L + size ^ (K - 1) <= INT_MAX ->
  let '(scores, addScores) := score_tables K step freqs L in
  length scores = L /\ length addScores = L /\
  (forall j, (j < L)%nat ->
             scores !!! j = kmer_score freqs (Z.to_nat K) j /\
             addScores !!! j = kmer_extend K step freqs (Z.to_nat K) j) /\
  (K <= step -> addScores = scores).
Proof.
  intros Hint. unfold score_tables.
  assert (Hfold :
            (fun (n : nat) (st : list D * list D * Z) =>
               let '(scores, adds, c) := st in
               length scores = L /\ length adds = L /\
               (Z.of_nat n <= K -> c = size ^ (Z.of_nat n - 1)) /\
               (forall j, (j < L)%nat ->
                  scores !!! j = kmer_score freqs (n - 1) j /\
                  adds !!! j = kmer_extend K step freqs (n - 1) j) /\
               (K <= step -> adds = scores))
              (1 + Z.to_nat K)%nat
              (fold_left (table_outer K step freqs L) (seq 1 (Z.to_nat K))
                         (replicate L dzero, replicate L dzero, 1))).
  { apply fold_left_seq_inv.
    - rewrite !length_replicate. split; [reflexivity|]. split; [reflexivity|].
      split; [intros _; reflexivity|]. split; [|reflexivity].
      intros j Hj. rewrite lookup_total_replicate_2 by assumption.
      split; reflexivity.
    - intros i [[scores adds] c] Hi (Ls & La & Hc & Harr & Heq).
      specialize (Hc ltac:(lia)).
      assert (Hpow : 1 <= c <= size ^ (K - 1)).
      { rewrite Hc. split.
        - pose proof (Z.pow_pos_nonneg size (Z.of_nat i - 1)
                        ltac:(lia) ltac:(lia)). lia.
        - apply Z.pow_le_mono_r; lia. }
      unfold table_outer.
      pose proof (table_inner_fold (Z.of_nat i >? K - step) c L scores adds
                    ltac:(lia) ltac:(lia) Ls La) as Hin.
      destruct (fold_left (inner (Z.of_nat i >? K - step) c) (seq 0 L)
                          (scores, adds, -1, 0)) as [[[scores' adds'] k'] p'].
      destruct Hin as (Ls' & La' & _ & _ & Harr').
      split; [assumption|]. split; [assumption|]. split.
      { intros HiK.
        replace (Z.of_nat (S i) - 1) with (Z.succ (Z.of_nat i - 1)) by lia.
        rewrite Z.pow_succ_r by lia. rewrite <- Hc.
        assert (c * size <= size ^ (K - 1)).
        { rewrite Hc, Z.mul_comm, <- Z.pow_succ_r by lia.
          apply Z.pow_le_mono_r; lia. }
        rewrite wrap32_small by (unfold INT_MAX in *; lia). lia. }
      split.
      + intros j Hj. destruct (Harr' j Hj) as (Hs' & Ha').
        destruct (Harr j Hj) as (Hs0 & Ha0).
        destruct (Nat.ltb_spec j L); [|lia]. cbn [andb] in Ha'.
        replace (S i - 1)%nat with (S (i - 1)) by lia.
        rewrite kmer_score_S, kmer_extend_S.
        replace (S (i - 1)) with i by lia.
        assert (Hd : Z.to_nat ((Z.of_nat j / c) mod size) = digit freqs i j).
        { unfold digit. now rewrite Hc. }
        rewrite Hs', Ha', Hd, Hs0, Ha0.
        split; [reflexivity|].
        destruct (Z.of_nat i >? K - step); reflexivity.
      + intros Hks. specialize (Heq Hks). subst adds.
        apply list_eq_total; [congruence|]. intros j Hj.
        destruct (Harr' j ltac:(lia)) as (Hs' & Ha').
        destruct (Nat.ltb_spec j L); [|lia]. cbn [andb] in Ha'.
        destruct (Z.gtb_spec (Z.of_nat i) (K - step)); [|lia].
        congruence. }
  cbv beta in Hfold.
  destruct (fold_left (table_outer K step freqs L) (seq 1 (Z.to_nat K))
                      (replicate L dzero, replicate L dzero, 1))
    as [[scores adds] c].
  destruct Hfold as (Ls & La & _ & Harr & Heq).
  replace (1 + Z.to_nat K - 1)%nat with (Z.to_nat K) in Harr by lia.
  auto.
Qed.

(** [scores[j]] is the sum of [freqs] over the [K] letters of k-mer [j]
    (the digits of [j] in base [length freqs]), added from the fastest
    letter on, and [addScores[j]] is the same sum over the letters
    [i > K - step]; when [step >= K] the tables are equal. *)
Theorem score_tables_digits (L : nat) :
  Z.of_nat L + size ^ (K - 1) <= INT_MAX ->
  let '(scores, addScores) := score_tables K step freqs L in
  length scores = L /\ length addScores = L /\
  (forall j, (j < L)%nat ->
             scores !!! j = kmer_score freqs (Z.to_nat K) j /\
             addScores !!! j = kmer_extend K step freqs (Z.to_nat K) j) /\
  (K <= step -> addScores = scores).
Proof. apply score_tables_closed. Qed.
End Tables.

Lemma score_tables_digits_witness :
  score_tables 2 1 [1; 2; 4] 9
  = ([2; 3; 5; 3; 4; 6; 5; 6; 8], [1; 1; 1; 2; 2; 2; 4; 4; 4]) /\
  let '(scores, addScores) := score_tables 2 1 [1; 2; 4] 9 in
  length scores = 9%nat /\ length addScores = 9%nat /\
  (forall j, (j < 9)%nat ->
             scores !!! j = kmer_score [1; 2; 4] (Z.to_nat 2) j /\
             addScores !!! j = kmer_extend 2 1 [1; 2; 4] (Z.to_nat 2) j) /\
  (2 <= 1 -> addScores = scores).
Proof.
  split; [reflexivity|].
  apply (score_tables_digits 2 1 [1; 2; 4]).
  - simpl. lia.
  - unfold INT_MAX. simpl. lia.
Defined.

Section PositiveScores.
Context {D : Type} `{ScoreOps D} `{Inhabited D}.
Variables (K step : Z) (freqs : list D).
Hypothesis Hord : dlt_order D.
Hypothesis Hadd : dadd_nonneg D.
Hypothesis Hfreqs :
  forall d, (d < length freqs)%nat -> dlt dzero (freqs !!! d) = true.

Lemma digit_bound (i j : nat) :
  (1 <= length freqs)%nat -> (digit freqs i j < length freqs)%nat.
Proof.
  intros Hs. unfold digit.
  pose proof (Z.mod_pos_bound
                (Z.of_nat j / Z.of_nat (length freqs) ^ (Z.of_nat i - 1))
                (Z.of_nat (length freqs)) ltac:(lia)).
  lia.
Qed.

Lemma kmer_score_positive (n j : nat) :
  (1 <= length freqs)%nat -> (1 <= n)%nat ->
  dlt dzero (kmer_score freqs n j) = true.
Proof.
  intros Hs Hn. induction n as [|n IH]; [lia|].
  rewrite kmer_score_S.
  pose proof (Hfreqs _ (digit_bound (S n) j Hs)) as Hd.
  destruct n as [|n].
  - unfold kmer_score at 1. simpl.
    apply (add_pos_r Hord Hadd); [apply (dlt_irrefl Hord)|assumption].
  - apply (add_keeps_pos Hord Hadd); [apply IH; lia|].
    now apply (dlt_asym Hord).
Qed.

Lemma kmer_extend_nonneg (n j : nat) :
  (1 <= length freqs)%nat ->
  dlt (kmer_extend K step freqs n j) dzero = false.
Proof.
  intros Hs. induction n as [|n IH]; [apply (dlt_irrefl Hord)|].
  rewrite kmer_extend_S.
  destruct (Z.of_nat (S n) >? K - step); [|assumption].
  apply (add_keeps_nonneg Hord Hadd); [assumption|].
  apply (dlt_asym Hord), Hfreqs, digit_bound, Hs.
Qed.

(** The two tables when the frequency term of every letter is positive:
    an entry of [scores] is positive and an entry of [addScores] is not
    negative. *)
Lemma score_tables_signs (L j : nat) :
  (1 <= length freqs)%nat -> 1 <= K ->
  Z.of_nat L + Z.of_nat (length freqs) ^ (K - 1) <= INT_MAX ->
  (j < L)%nat ->
  dlt dzero (fst (score_tables K step freqs L) !!! j) = true /\
  dlt (snd (score_tables K step freqs L) !!! j) dzero = false.
Proof.
  intros Hs HK Hint Hj.
  pose proof (score_tables_closed K step freqs Hs L Hint) as Hclosed.
  destruct (score_tables K step freqs L) as [scores adds].
  destruct Hclosed as (_ & _ & Harr & _).
  destruct (Harr j Hj) as (Hsj & Haj). cbn [fst snd]. rewrite Hsj, Haj.
  split; [apply kmer_score_positive; [assumption|lia]|].
  now apply kmer_extend_nonneg.
Qed.

(** When the frequency term of every letter is positive, every k-mer has
    a positive entry in [scores]: the hits enter the chaining with positive
    scores.  The score domain is any in which [<] is a strict weak order
    and adding a value that is not negative does not give less, as for
    doubles other than NaN. *)
Theorem scores_positive (L j : nat) :
  (1 <= length freqs)%nat -> 1 <= K ->
  Z.of_nat L + Z.of_nat (length freqs) ^ (K - 1) <= INT_MAX ->
  (j < L)%nat ->
  dlt dzero (fst (score_tables K step freqs L) !!! j) = true.
Proof.
  intros Hs HK Hint Hj. now apply score_tables_signs.
Qed.
End PositiveScores.

Lemma scores_positive_witness :
  dlt dzero (fst (score_tables 2 1 [1; 2; 4] 9) !!! 5%nat) = true.
Proof.
  apply (scores_positive 2 1 [1; 2; 4] Z_dlt_order Z_dadd_nonneg).
  - intros d Hd. do 3 (destruct d as [|d]; [reflexivity|]). simpl in Hd. lia.
  - simpl. lia.
  - lia.
  - unfold INT_MAX. simpl. lia.
  - lia.
Defined.

(** * The hit counter and the gathered arrays *)

Lemma query_hits_counts (num w : list Z) :
  query_hits num w = sum_list (map (kmer_count num) w).
Proof.
  induction w as [|wj w IH]; [reflexivity|].
  rewrite query_hits_cons, IH. reflexivity.
Qed.

Lemma count_targets_cases (num w : list Z) :
  Forall (fun c => 0 <= c <= INT_MAX) num ->
  (query_hits num w <= INT_MAX ->
   count_targets num w 0
   = Some (map (kmer_count num) w, query_hits num w)) /\
  (query_hits num w > INT_MAX -> count_targets num w 0 = None).
Proof.
  intros Hnum. split.
  - intros Hle.
    destruct (count_targets_exact num w 0 Hnum ltac:(lia) ltac:(lia))
      as (counts & Hc & _).
    rewrite Hc. rewrite (count_targets_counts num w 0 counts _ Hc).
    reflexivity.
  - intros Hgt. apply count_targets_overflow; [assumption| |].
    + unfold INT_MAX. lia.
    + exists (length w). rewrite take_ge by lia. lia.
Qed.

(** For counts in [0..INT_MAX]: the counter of lines 160-173 ends with the
    count of every k-mer of the query (zero at a masked one) and their
    sum when the sum is at most [INT_MAX], and takes the [break] of line
    169 otherwise. *)
Theorem count_targets_total (num w : list Z) :
  Forall (fun c => 0 <= c <= INT_MAX) num ->
  (query_hits num w <= INT_MAX ->
   count_targets num w 0
   = Some (map (kmer_count num) w, query_hits num w)) /\
  (query_hits num w > INT_MAX -> count_targets num w 0 = None).
Proof. apply count_targets_cases. Qed.

Lemma count_targets_total_witness :
  (query_hits [2; 0; 3] [0; NA_INTEGER; 2; 2] <= INT_MAX ->
   count_targets [2; 0; 3] [0; NA_INTEGER; 2; 2] 0
   = Some (map (kmer_count [2; 0; 3]) [0; NA_INTEGER; 2; 2],
           query_hits [2; 0; 3] [0; NA_INTEGER; 2; 2])) /\
  (query_hits [2; 0; 3] [0; NA_INTEGER; 2; 2] > INT_MAX ->
   count_targets [2; 0; 3] [0; NA_INTEGER; 2; 2] 0 = None).
Proof.
  apply (count_targets_total [2; 0; 3] [0; NA_INTEGER; 2; 2]).
  repeat constructor; unfold INT_MAX; lia.
Defined.

Section GatherLengths.
Context {D : Type} `{ScoreOps D} `{Inhabited D}.
Variables (num loc ind : list Z) (scores addScores : list D).

Local Abbreviation gat := (gather num loc ind scores addScores).

Lemma gather_lengths (w : list Z) :
  let h := gat w (map (kmer_count num) w) in
  let T := list_sum (map Z.to_nat (map (kmer_count num) w)) in
  length (h_posQuery h) = T /\ length (h_posTarget h) = T /\
  length (h_set h) = T /\ length (h_score h) = T /\
  length (h_addScore h) = T.
Proof.
  induction w as [|wj w IH] using rev_ind.
  - simpl. auto.
  - rewrite !map_app. cbn [map].
    rewrite gather_snoc by (now rewrite length_map).
    rewrite bucket_eq. cbv zeta in *.
    destruct IH as (L1 & L2 & L3 & L4 & L5).
    unfold hits_app. cbn [h_posQuery h_posTarget h_set h_score h_addScore].
    rewrite !length_app, !length_map, !length_replicate, !length_seq.
    rewrite list_sum_app. simpl. lia.
Qed.

(** The five arrays allocated with [s] cells in lines 192-196 are filled
    exactly by lines 198-211: for counts in [0..INT_MAX], the gather step
    writes [s] hits, [s] the total that the counter returned. *)
Theorem gather_fills_arrays (w counts : list Z) (s : Z) :
  Forall (fun c => 0 <= c <= INT_MAX) num ->
  count_targets num w 0 = Some (counts, s) ->
  let h := gat w counts in
  0 <= s /\
  length (h_posQuery h) = Z.to_nat s /\ length (h_posTarget h) = Z.to_nat s /\
  length (h_set h) = Z.to_nat s /\ length (h_score h) = Z.to_nat s /\
  length (h_addScore h) = Z.to_nat s.
Proof.
  intros Hnum Hc.
  destruct (count_targets_cases num w Hnum) as (Hok & Hover).
  destruct (Z_le_gt_dec (query_hits num w) INT_MAX) as [Hle|Hgt];
    [|rewrite (Hover Hgt) in Hc; discriminate].
  rewrite (Hok Hle) in Hc. inversion Hc; subst.
  pose proof (query_hits_nonneg num w Hnum) as Hs.
  assert (Hsum : list_sum (map Z.to_nat (map (kmer_count num) w))
                 = Z.to_nat (query_hits num w)).
  { clear Hc Hok Hover Hle Hs. induction w as [|wj w IH]; [reflexivity|].
    rewrite query_hits_cons. cbn [map].
    match goal with
    | |- list_sum (?x :: ?l) = _ => change (list_sum (x :: l)) with (x + list_sum l)%nat
    end.
    rewrite IH.
    pose proof (query_hits_nonneg num w Hnum).
    unfold kmer_count. destruct (wj =? NA_INTEGER); [simpl; lia|].
    pose proof (num_range num (Z.to_nat wj) Hnum). lia. }
  cbv zeta. split; [assumption|]. rewrite <- Hsum. apply gather_lengths.
Qed.
End GatherLengths.

Lemma gather_fills_arrays_witness :
  let h := gather [2; 0; 3] [1; 4; 7; 7; 9] [1; 2; 1; 1; 3] [5; 5; 5]
                  [1; 1; 1] [0; NA_INTEGER; 2; 2] [2; 0; 3; 3] in
  0 <= 8 /\
  length (h_posQuery h) = Z.to_nat 8 /\ length (h_posTarget h) = Z.to_nat 8 /\
  length (h_set h) = Z.to_nat 8 /\ length (h_score h) = Z.to_nat 8 /\
  length (h_addScore h) = Z.to_nat 8.
Proof.
  apply (gather_fills_arrays [2; 0; 3] [1; 4; 7; 7; 9] [1; 2; 1; 1; 3]
           [5; 5; 5] [1; 1; 1] [0; NA_INTEGER; 2; 2] [2; 0; 3; 3] 8).
  - repeat constructor; unfold INT_MAX; lia.
  - reflexivity.
Defined.

(** * The width of a query *)

(** For [K >= 1] the width of a query is at least the number of its
    unmasked k-mers and at most [K] times that number; it is zero exactly
    when every k-mer is masked. *)
Theorem query_width_bounds (K : Z) (w : list Z) :
  1 <= K ->
  Z.of_nat (unmasked_count w) <= query_width K w
  /\ query_width K w <= K * Z.of_nat (unmasked_count w)
  /\ (query_width K w = 0 <-> Forall (fun wj => wj = NA_INTEGER) w).
Proof.
  intros HK.
  assert (Hgen : forall l (a : nat) st,
             let u := length (List.filter (fun wj => negb (wj =? NA_INTEGER)) l) in
             let st' := fold_left (width_body K)
                                  (combine (seq a (length l)) l) st in
             fst st + Z.of_nat u <= fst st' <= fst st + K * Z.of_nat u).
  { induction l as [|wj l IH]; intros a [wd k]; cbn zeta.
    - simpl. lia.
    - cbn [length seq combine fold_left List.filter width_body].
      destruct (wj =? NA_INTEGER); cbn [negb].
      + apply (IH (S a) (wd, k)).
      + pose proof (IH (S a) ((if k =? Z.of_nat a - 1 then wd + 1 else wd + K),
                              Z.of_nat a)) as Hrec.
        cbn zeta in Hrec. cbn [fst length] in *.
        destruct (k =? Z.of_nat a - 1); nia. }
  pose proof (Hgen w 0%nat (0, -2)) as Hb. cbn zeta in Hb. cbn [fst] in Hb.
  fold (indexed w) in Hb. fold (query_width K w) in Hb.
  fold (unmasked_count w) in Hb.
  split; [lia|]. split; [lia|].
  assert (Hu : unmasked_count w = 0%nat <->
               Forall (fun wj => wj = NA_INTEGER) w).
  { unfold unmasked_count. clear. induction w as [|wj w IH]; simpl.
    - split; [constructor|reflexivity].
    - destruct (Z.eqb_spec wj NA_INTEGER) as [Heq|Hne]; simpl.
      + rewrite IH. split; [now constructor|now inversion 1].
      + split; [discriminate|]. inversion 1; contradiction. }
  rewrite <- Hu. split; nia.
Qed.

Lemma query_width_bounds_witness :
  Z.of_nat (unmasked_count [0; 1; NA_INTEGER; 1; 0])
  <= query_width 3 [0; 1; NA_INTEGER; 1; 0]
  /\ query_width 3 [0; 1; NA_INTEGER; 1; 0]
     <= 3 * Z.of_nat (unmasked_count [0; 1; NA_INTEGER; 1; 0])
  /\ (query_width 3 [0; 1; NA_INTEGER; 1; 0] = 0
      <-> Forall (fun wj => wj = NA_INTEGER) [0; 1; NA_INTEGER; 1; 0]).
Proof.
  apply (query_width_bounds 3 [0; 1; NA_INTEGER; 1; 0]). lia.
Defined.

(** * Queries are answered one by one *)

Lemma map_replicate {A B} (f : A -> B) (n : nat) (x : A) :
  map f (replicate n x) = replicate n (f x).
Proof. induction n as [|n IH]; simpl; [reflexivity|now rewrite IH]. Qed.

Lemma flat_replicate_shift {A} (f : A -> nat) (l : list A) (a n : nat) :
  flat_map (fun ir => replicate (f (snd ir)) (Z.of_nat (fst ir) + 1))
           (combine (seq (a + n) (length l)) l)
  = map (fun q => q + Z.of_nat n)
        (flat_map (fun ir => replicate (f (snd ir)) (Z.of_nat (fst ir) + 1))
                  (combine (seq a (length l)) l)).
Proof.
  revert a. induction l as [|x l IH]; intros a; [reflexivity|].
  cbn [length seq combine flat_map fst snd].
  rewrite map_app, map_replicate. f_equal.
  - f_equal. lia.
  - apply (IH (S a)).
Qed.

Section Batches.
Context {D : Type} `{ScoreOps D} `{Inhabited D}.
Variables (K step : Z) (num loc ind pos : list Z).
Variables (scores addScores : list D).
Variables (maxSep : Z) (gapCost sepCost : list D).
Variables (type : Z) (tot : D) (minS : option D) (sO : bool).
Variable check : nat -> option Z.
Hypothesis Hcheck : forall i v, check i = Some v -> v = 0.

Local Abbreviation qbody :=
  (driver_body K step num loc ind pos scores addScores maxSep gapCost sepCost
               type tot minS sO check).
Local Abbreviation qrun :=
  (run_queries K step num loc ind pos scores addScores maxSep gapCost sepCost
               type tot minS sO check).
Local Abbreviation search :=
  (searchIndex K step num loc ind pos scores addScores maxSep gapCost sepCost
               type tot minS sO check).
Local Abbreviation one :=
  (search_query K step num loc ind pos scores addScores maxSep gapCost sepCost
                type tot minS sO).
Local Abbreviation ends_normally :=
  (fun w : list Z => one w <> QAbort /\ one w <> QUndefined).

Lemma run_from (l : list (list Z)) :
  forall (a : nat) (out0 out : list (qresult D)),
    fold_left qbody (combine (seq a (length l)) l) (Some (0, out0))
    = Some (0, out)
    <-> Forall ends_normally l /\ out = out0 ++ map (query_result one) l.
Proof.
  induction l as [|w l IH]; intros a out0 out.
  - simpl. rewrite app_nil_r. split.
    + intros Heq. inversion Heq. split; [constructor|reflexivity].
    + intros (_ & ->). reflexivity.
  - cbn [length seq combine fold_left driver_body map].
    change (0 =? 0) with true. cbv iota.
    unfold query_result at 1.
    destruct (one w) as [| |r|] eqn:Hw.
    + rewrite driver_aborted by lia. split.
      * intros Heq. inversion Heq. lia.
      * intros (Hall & _). inversion Hall as [|? ? (Hna & _) ?].
        cbv beta in Hna. rewrite Hw in Hna. contradiction.
    + rewrite (IH (S a)). fold (@empty_result D).
      rewrite <- app_assoc. cbn [app]. split.
      * intros (Hall & ->). split; [|reflexivity].
        constructor; [cbv beta; rewrite Hw; split; discriminate|assumption].
      * intros (Hall & ->). inversion Hall; subst. split; auto.
    + assert (Hab : match check a with Some v => v | None => 0 end = 0).
      { destruct (check a) as [v|] eqn:Hc; [now apply (Hcheck a)|reflexivity]. }
      rewrite Hab, (IH (S a)), <- app_assoc. cbn [app]. split.
      * intros (Hall & ->). split; [|reflexivity].
        constructor; [cbv beta; rewrite Hw; split; discriminate|assumption].
      * intros (Hall & ->). inversion Hall; subst. split; auto.
    + split.
      * intros Heq. exfalso. clear -Heq.
        induction (combine (seq (S a) (length l)) l) as [|x l' IHl];
          simpl in Heq; [discriminate|auto].
      * intros (Hall & _). inversion Hall as [|? ? (_ & Hnu) ?].
        cbv beta in Hnu. rewrite Hw in Hnu. contradiction.
Qed.

Lemma search_answer (query : list (list Z)) ans0 ans1 ans2 ans3 :
  search query = Some (Answer ans0 ans1 ans2 ans3) ->
  Forall ends_normally query /\
  Answer ans0 ans1 ans2 ans3 = assemble sO (map (query_result one) query).
Proof.
  unfold searchIndex. intros Hs.
  destruct (qrun query) as [[ab out]|] eqn:Hrun; [|discriminate].
  destruct (Z.eqb_spec ab 0) as [->|Hne]; cbn [negb] in Hs.
  - unfold run_queries, indexed in Hrun.
    apply (run_from query 0 [] out) in Hrun. destruct Hrun as (Hall & ->).
    cbn [app] in Hs. inversion Hs. split; [assumption|reflexivity].
  - destruct (ab <? 0); discriminate.
Qed.

Lemma search_normal (query : list (list Z)) :
  Forall ends_normally query ->
  search query = Some (assemble sO (map (query_result one) query)).
Proof.
  intros Hall. unfold searchIndex.
  assert (Hrun : qrun query = Some (0, map (query_result one) query)).
  { unfold run_queries, indexed. apply (run_from query 0 []).
    split; [assumption|reflexivity]. }
  rewrite Hrun. reflexivity.
Qed.

(** When no interrupt is reported, and no query overflows the hit counter
    or leaves the arrays, [searchIndex] returns the results of the queries
    one after the other, each computed from that query alone. *)
Theorem searchIndex_per_query (query : list (list Z)) :
  Forall (fun w => one w <> QAbort /\ one w <> QUndefined) query ->
  search query = Some (assemble sO (map (query_result one) query)).
Proof. apply search_normal. Qed.

(** When no interrupt is reported: if two batches of queries are each
    answered, searching them in one call gives the rows of the first batch
    followed by the rows of the second, the query numbers of the second
    shifted by the size of the first. *)
Theorem searchIndex_batches (q1 q2 : list (list Z))
        a0 a1 a2 a3 b0 b1 b2 b3 :
  searchIndex K step num loc ind pos scores addScores maxSep gapCost sepCost
              type tot minS sO check q1 = Some (Answer a0 a1 a2 a3) ->
  searchIndex K step num loc ind pos scores addScores maxSep gapCost sepCost
              type tot minS sO check q2 = Some (Answer b0 b1 b2 b3) ->
  searchIndex K step num loc ind pos scores addScores maxSep gapCost sepCost
              type tot minS sO check (q1 ++ q2)
  = Some (Answer (a0 ++ map (fun q => q + Z.of_nat (length q1)) b0)
                 (a1 ++ b1) (a2 ++ b2)
                 (match a3, b3 with
                  | Some x, Some y => Some (x ++ y)
                  | _, _ => None
                  end)).
Proof.
  intros H1 H2.
  apply search_answer in H1. destruct H1 as (Hall1 & Ha).
  apply search_answer in H2. destruct H2 as (Hall2 & Hb).
  rewrite search_normal by (apply Forall_app; split; assumption).
  unfold assemble in *. inversion Ha; subst. inversion Hb; subst.
  clear Ha Hb. rewrite map_app. unfold indexed.
  rewrite combine_seq_app, !flat_map_app, !length_map.
  rewrite <- (length_map (query_result one) q2) at 1.
  rewrite (flat_replicate_shift (fun r => length (r_set r))
             (map (query_result one) q2) 0 (length q1)).
  rewrite length_map.
  destruct sO; [reflexivity|]. rewrite map_app. reflexivity.
Qed.
End Batches.

Lemma searchIndex_per_query_witness :
  searchIndex 2 1 [3; 3; 2; 0] [1; 5; 3; 2; 4; 2; 3; 1]
              [1; 1; 2; 1; 1; 2; 1; 2] [6; 4] [3; 3; 3; 3] [1; 1; 1; 1]
              2 [0; 0; 0] [0; 0; 0] 1 100 (Some 0) false (fun _ => Some 0)
              [[0; 1; 2]; [3; NA_INTEGER]; [1; 0]]
  = Some (assemble false
            (map (query_result
                    (search_query 2 1 [3; 3; 2; 0] [1; 5; 3; 2; 4; 2; 3; 1]
                       [1; 1; 2; 1; 1; 2; 1; 2] [6; 4] [3; 3; 3; 3]
                       [1; 1; 1; 1] 2 [0; 0; 0] [0; 0; 0] 1 100 (Some 0)
                       false))
                 [[0; 1; 2]; [3; NA_INTEGER]; [1; 0]])).
Proof.
  apply (searchIndex_per_query 2 1 [3; 3; 2; 0] [1; 5; 3; 2; 4; 2; 3; 1]
           [1; 1; 2; 1; 1; 2; 1; 2] [6; 4] [3; 3; 3; 3] [1; 1; 1; 1]
           2 [0; 0; 0] [0; 0; 0] 1 100 (Some 0) false (fun _ => Some 0)).
  - intros i v Hv. inversion Hv. reflexivity.
  - repeat constructor; vm_compute; discriminate.
Defined.

Lemma searchIndex_batches_witness :
  searchIndex 2 1 [3; 3; 2; 0] [1; 5; 3; 2; 4; 2; 3; 1]
              [1; 1; 2; 1; 1; 2; 1; 2] [6; 4] [3; 3; 3; 3] [1; 1; 1; 1]
              2 [0; 0; 0] [0; 0; 0] 1 100 (Some 0) false (fun _ => None)
              ([[0; 1; 2]; [3; NA_INTEGER]] ++ [[1; 0]])
  = Some (Answer
            ([1; 1; 1; 1; 1; 1]
               ++ map (fun q => q + Z.of_nat (length [[0; 1; 2]; [3; NA_INTEGER]]))
                      [1; 1; 1; 1])
            ([1; 1; 1; 2; 2; 2] ++ [1; 1; 1; 2])
            ([4; 0; 0; 1; 1; 1] ++ [0; 0; 2; 3])
            (Some ([[1; 4; 1; 4]; [2; 3; 4; 5]; [1; 2; 5; 6]; [3; 4; 1; 2];
                    [2; 3; 2; 3]; [1; 2; 3; 4]]
                     ++ [[2; 3; 1; 2]; [1; 2; 2; 3]; [1; 3; 4; 6];
                         [1; 3; 2; 4]]))).
Proof.
  apply (searchIndex_batches 2 1 [3; 3; 2; 0] [1; 5; 3; 2; 4; 2; 3; 1]
           [1; 1; 2; 1; 1; 2; 1; 2] [6; 4] [3; 3; 3; 3] [1; 1; 1; 1]
           2 [0; 0; 0] [0; 0; 0] 1 100 (Some 0) false (fun _ => None)
           ltac:(discriminate)
           [[0; 1; 2]; [3; NA_INTEGER]] [[1; 0]]
           [1; 1; 1; 1; 1; 1] [1; 1; 1; 2; 2; 2] [4; 0; 0; 1; 1; 1]
           (Some [[1; 4; 1; 4]; [2; 3; 4; 5]; [1; 2; 5; 6]; [3; 4; 1; 2];
                  [2; 3; 2; 3]; [1; 2; 3; 4]])
           [1; 1; 1; 1] [1; 1; 1; 2] [0; 0; 2; 3]
           (Some [[2; 3; 1; 2]; [1; 2; 2; 3]; [1; 3; 4; 6]; [1; 3; 2; 4]])).
  - vm_compute. reflexivity.
  - vm_compute. reflexivity.
Defined.

(** * Building the index in batches *)

Lemma update_from (K : Z) (s c0 n : nat) (l : list (list Z)) :
  forall (a : nat) (st : index_state),
    fold_left (update_seq K s c0) (combine (seq (a + n) (length l)) l) st
    = fold_left (update_seq K s (c0 + n)) (combine (seq a (length l)) l) st.
Proof.
  induction l as [|kmers l IH]; intros a st; [reflexivity|].
  cbn [length seq combine fold_left].
  rewrite <- (IH (S a)). cbn [Nat.add].
  f_equal. unfold update_seq.
  replace (c0 + n + a)%nat with (c0 + (a + n))%nat by lia.
  replace (Z.of_nat (c0 + n) + Z.of_nat a + 1)
    with (Z.of_nat c0 + Z.of_nat (a + n) + 1) by lia.
  reflexivity.
Qed.

(** Adding a corpus to the index in two calls, the second on the arrays the
    first left and with [count] advanced by the number of sequences of the
    first, gives the same index as adding it in one call; the same holds
    for the counts of [countIndex]. *)
Theorem updateIndex_batches (offset location index positions num : list Z)
        (q1 q2 : list (list Z)) (K : Z) (s count : nat) :
  let st1 := updateIndex offset q1 K s location index positions count in
  updateIndex offset (q1 ++ q2) K s location index positions count
  = updateIndex (i_off st1) q2 K s (i_loc st1) (i_ind st1) (i_pos st1)
                (count + length q1)
  /\ countIndex num (q1 ++ q2) s = countIndex (countIndex num q1 s) q2 s.
Proof.
  cbv zeta. split.
  - unfold updateIndex, indexed.
    rewrite combine_seq_app, fold_left_app.
    rewrite (update_from K s count (length q1) q2 0).
    f_equal. now destruct (fold_left _ _ _).
  - apply fold_left_app.
Qed.

(** * The anchors of a chain *)

Section ChainGeometry.
Context {D : Type} `{ScoreOps D} `{Inhabited D}.
Variables (maxSep : Z) (gapCost sepCost : list D).
Variables (posQuery posTarget set len : list Z).

Local Abbreviation DP := (chainDP maxSep gapCost sepCost posQuery posTarget set len).

Lemma chain_path_head (chain : list nat) (r : nat) (ps : list nat) :
  chain_path chain r ps -> exists ps', ps = r :: ps'.
Proof. destruct 1; eauto. Qed.

(** In the traceback from any hit after the chain DP, an anchor and the
    one before it in the chain (the next one visited) do not overlap: the
    earlier anchor ends before the later one starts in the query and in
    the target, and the two are at most [maxSep] apart in both. *)
Theorem chain_anchors_disjoint (score0 : list D) (r : nat) (ps : list nat) :
  (r < length score0)%nat ->
  chain_path (dp_chain (DP score0)) r ps ->
  forall i, (S i < length ps)%nat ->
    let k := ps !!! i in
    let p := ps !!! S i in
    (p < k)%nat /\ dp_chain (DP score0) !!! k = p /\
    posQuery !!! p + len !!! p <= posQuery !!! k
                               <= posQuery !!! p + len !!! p + maxSep /\
    posTarget !!! p + len !!! p <= posTarget !!! k
                                <= posTarget !!! p + len !!! p + maxSep.
Proof.
  intros Hr Hpath.
  destruct (chainDP_inv maxSep gapCost sepCost posQuery posTarget set len score0)
    as (_ & Hall & _).
  induction Hpath as [p Hend|p ps Hne Hpath IH]; intros i Hi.
  - simpl in Hi. lia.
  - destruct (Hall p Hr) as ([(Hc & _)|(q & Hq & Hc & (HT & HQ) & _)] & _);
      [contradiction|].
    destruct (chain_path_head _ _ _ Hpath) as (ps' & ->).
    destruct i as [|i].
    + cbn [lookup_total list_lookup_total]. cbv zeta.
      unfold deltaT, deltaQ in *. rewrite Hc. repeat split; lia.
    + cbn [length] in Hi.
      apply (IH ltac:(rewrite Hc; lia) i). cbn [length]. lia.
Qed.
End ChainGeometry.

Lemma chain_anchors_disjoint_witness :
  let posQuery := [1; 5; 9; 1; 6] in
  let posTarget := [1; 5; 9; 2; 7] in
  let len := [3; 3; 3; 3; 3] in
  let st := chainDP 4 [0; 0; 0; 0; 0] [0; 0; 0; 0; 0] posQuery posTarget
                    [1; 1; 1; 2; 2] len [5; 5; 5; 5; 5] in
  dp_chain st = [0; 0; 1; 3; 3]%nat /\
  forall i, (S i < length [2; 1; 0]%nat)%nat ->
    let k := [2; 1; 0]%nat !!! i in
    let p := [2; 1; 0]%nat !!! S i in
    (p < k)%nat /\ dp_chain st !!! k = p /\
    posQuery !!! p + len !!! p <= posQuery !!! k
                               <= posQuery !!! p + len !!! p + 4 /\
    posTarget !!! p + len !!! p <= posTarget !!! k
                                <= posTarget !!! p + len !!! p + 4.
Proof.
  intros posQuery posTarget len st. split; [reflexivity|].
  apply (chain_anchors_disjoint 4 [0; 0; 0; 0; 0] [0; 0; 0; 0; 0] posQuery
           posTarget [1; 1; 1; 2; 2] len [5; 5; 5; 5; 5] 2 [2; 1; 0]%nat).
  - simpl. lia.
  - apply chain_path_step; [vm_compute; discriminate|].
    apply chain_path_step; [vm_compute; discriminate|].
    apply chain_path_end. reflexivity.
Defined.

(** * The loop over the queries on several threads *)

Section Threads.
Context {D : Type} `{ScoreOps D} `{Inhabited D}.
Variables (K step : Z) (num loc ind pos : list Z).
Variables (scores addScores : list D).
Variables (maxSep : Z) (gapCost sepCost : list D).
Variables (type : Z) (tot : D) (minS : option D) (sO : bool).
Variable check : nat -> option Z.
Variable query : list (list Z).

Local Abbreviation body :=
  (driver_body K step num loc ind pos scores addScores maxSep gapCost sepCost
               type tot minS sO check).
Local Abbreviation run :=
  (run_queries K step num loc ind pos scores addScores maxSep gapCost sepCost
               type tot minS sO check).
Local Abbreviation search :=
  (searchIndex K step num loc ind pos scores addScores maxSep gapCost sepCost
               type tot minS sO check).
Local Abbreviation one :=
  (search_query K step num loc ind pos scores addScores maxSep gapCost sepCost
                type tot minS sO).
Local Abbreviation pstep :=
  (par_step K step num loc ind pos scores addScores maxSep gapCost sepCost
            type tot minS sO check query).
Local Abbreviation prun :=
  (par_run K step num loc ind pos scores addScores maxSep gapCost sepCost
           type tot minS sO check query).
Local Abbreviation psearch :=
  (par_searchIndex K step num loc ind pos scores addScores maxSep gapCost
                   sepCost type tot minS sO check query).
Local Abbreviation sim :=
  (par_sim K step num loc ind pos scores addScores maxSep gapCost sepCost
           type tot minS sO check query).
Local Abbreviation remaining := (par_left query).

(** ** The loop in order, one query more *)

Lemma run_take_S (i : nat) (w : list Z) :
  query !! i = Some w ->
  run (take (S i) query) = body (run (take i query)) (i, w).
Proof.
  intros Hw. pose proof (lookup_lt_Some _ _ _ Hw) as Hi.
  unfold run_queries, indexed.
  rewrite (take_S_r _ _ _ Hw), combine_seq_app, fold_left_app.
  rewrite length_take_le by lia. reflexivity.
Qed.

Lemma fold_body_none (l : list (nat * list Z)) : fold_left body l None = None.
Proof. induction l as [|[i w] l IH]; [reflexivity|exact IH]. Qed.

Lemma run_take_none (i : nat) : run (take i query) = None -> run query = None.
Proof.
  intros Hn. rewrite <- (take_drop i query) at 1.
  unfold run_queries, indexed in *.
  rewrite combine_seq_app, fold_left_app, Hn. apply fold_body_none.
Qed.

Lemma search_query_abort (w : list Z) :
  count_targets num w 0 = None -> one w = QAbort.
Proof. intros Hc. unfold search_query. now rewrite Hc. Qed.

Lemma search_query_counted (w : list Z) p :
  count_targets num w 0 = Some p -> one w <> QAbort.
Proof.
  intros Hc. unfold search_query. rewrite Hc. destruct p as [counts s].
  destruct ((query_width K w =? 0) || (s =? 0)); [discriminate|].
  destruct (sorted_anchors _ _ _ _ _ _ _ _ _); [|discriminate].
  destruct (chain_results _ _ _ _ _ _ _ _ _ _ _); discriminate.
Qed.

Lemma take_S_insert {A} (l : list A) (i : nat) (x : A) :
  (i < length l)%nat -> take (S i) (<[i := x]> l) = take i l ++ [x].
Proof.
  intros Hi. rewrite (take_S_r _ _ x) by now apply list_lookup_insert_eq.
  now rewrite take_insert_ge by lia.
Qed.

(** ** One thread *)

Lemma sim_init : sim (par_init query 1).
Proof.
  unfold par_sim, par_init. cbn [p_out p_threads p_next p_abort].
  split; [apply length_replicate|].
  exists TIdle. split; [reflexivity|]. split; [lia|]. reflexivity.
Qed.

Lemma pstep_other (t : nat) (st : par_state D) :
  sim st -> (1 <= t)%nat -> pstep t st = Some st.
Proof.
  intros (_ & ts & Hts & _) Ht. unfold par_step. rewrite Hts.
  destruct t as [|t]; [lia|]. reflexivity.
Qed.

Lemma pstep_sim (st st' : par_state D) :
  sim st -> pstep 0 st = Some st' -> sim st'.
Proof.
  intros (Hlen & ts & Hts & Hst) Hstep.
  unfold par_step in Hstep. rewrite Hts in Hstep. cbn [lookup list_lookup] in Hstep.
  destruct ts as [|i|i|i r].
  - destruct Hst as (Hnext & Hrun).
    destruct (query !! p_next st) as [w|] eqn:Hw.
    + pose proof (lookup_lt_Some _ _ _ Hw) as Hi.
      destruct (Z.eqb_spec (p_abort st) 0) as [Hab|Hab];
        inversion Hstep; subst st'; clear Hstep;
        unfold par_sim; cbn [p_out p_threads p_next p_abort].
      * split; [assumption|]. eexists. split; [reflexivity|].
        split; [reflexivity|]. split; [assumption|]. split; [assumption|].
        now rewrite <- Hab.
      * split; [now rewrite length_insert|].
        exists TIdle. split; [reflexivity|]. split; [lia|].
        rewrite (run_take_S _ w Hw), Hrun. cbn [driver_body].
        destruct (Z.eqb_spec (p_abort st) 0) as [?|_]; [contradiction|].
        rewrite take_S_insert by lia. reflexivity.
    + inversion Hstep; subst st'. split; [assumption|].
      exists TIdle. split; [assumption|]. split; assumption.
  - destruct Hst as (Hnext & Hi & Hab & Hrun).
    inversion Hstep; subst st'; clear Hstep.
    unfold par_sim; cbn [p_out p_threads p_next p_abort].
    split; [assumption|]. eexists. split; [reflexivity|].
    split; [assumption|]. split; [assumption|]. split; [assumption|].
    destruct (count_targets num (query !!! i) 0); [assumption|reflexivity].
  - destruct Hst as (Hnext & Hi & Hrun & Hab).
    assert (Hw : query !! i = Some (query !!! i))
      by now apply list_lookup_lookup_total_lt.
    destruct (count_targets num (query !!! i) 0) as [p|] eqn:Hc.
    + rewrite Hab in Hstep. change (negb (0 =? 0)) with false in Hstep.
      cbv iota in Hstep.
      destruct (one (query !!! i)) as [| |r|] eqn:Hone;
        try discriminate; inversion Hstep; subst st'; clear Hstep;
        unfold par_sim; cbn [p_out p_threads p_next p_abort].
      * split; [now rewrite length_insert|].
        exists TIdle. split; [reflexivity|]. split; [lia|].
        rewrite Hnext, (run_take_S _ _ Hw), Hrun. cbn [driver_body].
        change (0 =? 0) with true. cbv iota. rewrite Hone.
        rewrite take_S_insert by lia. reflexivity.
      * split; [assumption|]. eexists. split; [reflexivity|].
        split; [assumption|]. split; [assumption|]. split; [reflexivity|].
        split; assumption.
    + assert (Hne : (p_abort st =? 0) = false) by (apply Z.eqb_neq; lia).
      rewrite Hne in Hstep. cbn [negb] in Hstep.
      inversion Hstep; subst st'; clear Hstep.
      unfold par_sim; cbn [p_out p_threads p_next p_abort].
      split; [now rewrite length_insert|].
      exists TIdle. split; [reflexivity|]. split; [lia|].
      rewrite Hnext, (run_take_S _ _ Hw), Hrun. cbn [driver_body].
      change (0 =? 0) with true. cbv iota.
      rewrite (search_query_abort _ Hc), Hab.
      rewrite take_S_insert by lia. reflexivity.
  - destruct Hst as (Hnext & Hi & Hab & Hrun & Hone).
    assert (Hw : query !! i = Some (query !!! i))
      by now apply list_lookup_lookup_total_lt.
    inversion Hstep; subst st'; clear Hstep.
    unfold par_sim; cbn [p_out p_threads p_next p_abort].
    split; [now rewrite length_insert|].
    exists TIdle. split; [reflexivity|]. split; [lia|].
    rewrite Hnext, (run_take_S _ _ Hw), Hrun. cbn [driver_body].
    change (0 =? 0) with true. cbv iota. rewrite Hone.
    change (0 =? 0)%nat with true. cbv iota.
    rewrite take_S_insert by lia. rewrite Hab. reflexivity.
Qed.

Lemma prun_sim (sched : list nat) :
  forall st st', sim st -> prun sched st = Some st' -> sim st'.
Proof.
  unfold par_run.
  induction sched as [|t sched IH]; intros st st' Hsim Hrun.
  - simpl in Hrun. now inversion Hrun; subst.
  - cbn [fold_left] in Hrun.
    destruct (pstep t st) as [st1|] eqn:Hstep.
    + apply (IH st1 st'); [|assumption].
      destruct t as [|t].
      * now apply (pstep_sim st).
      * rewrite (pstep_other (S t) st Hsim ltac:(lia)) in Hstep.
        now inversion Hstep; subst.
    + exfalso. clear -Hrun.
      induction sched as [|x l IHl]; simpl in Hrun; [discriminate|auto].
Qed.

Lemma sim_done (st : par_state D) :
  sim st ->
  par_done query st = true ->
  run query = Some (p_abort st, p_out st).
Proof.
  intros (Hlen & ts & Hts & Hst) Hdone.
  unfold par_done in Hdone. apply andb_true_iff in Hdone.
  destruct Hdone as (Hnext & Hidle). apply Nat.leb_le in Hnext.
  rewrite Hts in Hidle. simpl in Hidle.
  destruct ts; try discriminate.
  destruct Hst as (_ & Hrun).
  rewrite !take_ge in Hrun by lia. exact Hrun.
Qed.

(** On one thread the loop does what it does when run in order. *)
Lemma one_thread_sound (sched : list nat) (res : search_result D) :
  psearch 1 sched = Some res -> search query = Some res.
Proof.
  unfold par_searchIndex, searchIndex. intros Hp.
  destruct (prun sched (par_init query 1)) as [st|] eqn:Hrun; [|discriminate].
  destruct (par_done query st) eqn:Hdone; [|discriminate].
  pose proof (prun_sim sched _ _ sim_init Hrun) as Hsim.
  rewrite (sim_done st Hsim Hdone). exact Hp.
Qed.

Lemma pstep_progress (st : par_state D) :
  sim st -> run query <> None ->
  exists st', pstep 0 st = Some st' /\
              ((remaining st' < remaining st)%nat
               \/ (remaining st = 0%nat /\ st' = st)).
Proof.
  intros (Hlen & ts & Hts & Hst) Hdef.
  unfold par_step, par_left. rewrite Hts. cbn [lookup list_lookup].
  destruct ts as [|i|i|i r].
  - destruct Hst as (Hnext & Hrun).
    destruct (query !! p_next st) as [w|] eqn:Hw.
    + pose proof (lookup_lt_Some _ _ _ Hw) as Hi.
      destruct (p_abort st =? 0); eexists; (split; [reflexivity|]);
        left; cbn [p_next p_threads]; rewrite ?Hts; simpl; lia.
    + apply lookup_ge_None in Hw.
      eexists. split; [reflexivity|]. right. split; [lia|reflexivity].
  - eexists. split; [reflexivity|]. left. cbn [p_next p_threads]. simpl. lia.
  - destruct Hst as (Hnext & Hi & Hrun & Hab).
    assert (Hw : query !! i = Some (query !!! i))
      by now apply list_lookup_lookup_total_lt.
    destruct (Z.eqb_spec (p_abort st) 0) as [Hz|Hnz]; cbn [negb].
    + destruct (count_targets num (query !!! i) 0) as [p|] eqn:Hc; [|lia].
      destruct (one (query !!! i)) as [| |r|] eqn:Hone.
      * exfalso. now apply (search_query_counted _ _ Hc).
      * eexists. split; [reflexivity|]. left. cbn [p_next p_threads].
        simpl. lia.
      * eexists. split; [reflexivity|]. left. cbn [p_next p_threads].
        simpl. lia.
      * exfalso. apply Hdef. apply (run_take_none (S i)).
        rewrite (run_take_S _ _ Hw), Hrun. cbn [driver_body].
        change (0 =? 0) with true. cbv iota. now rewrite Hone.
    + eexists. split; [reflexivity|]. left. cbn [p_next p_threads].
      simpl. lia.
  - eexists. split; [reflexivity|]. left. cbn [p_next p_threads]. simpl. lia.
Qed.

Lemma prun_complete (m : nat) :
  forall st, sim st -> run query <> None -> (remaining st <= m)%nat ->
             exists st', prun (replicate m 0%nat) st = Some st' /\
                         sim st' /\ remaining st' = 0%nat.
Proof.
  induction m as [|m IH]; intros st Hsim Hdef Hm.
  - exists st. split; [reflexivity|]. split; [assumption|lia].
  - destruct (pstep_progress st Hsim Hdef) as (st1 & Hstep & Hcase).
    destruct (IH st1) as (st' & Hrun & Hsim' & Hleft).
    + now apply (pstep_sim st).
    + assumption.
    + destruct Hcase as [Hlt|(Hz & ->)]; lia.
    + exists st'. split; [|split; assumption].
      unfold par_run in *. cbn [replicate fold_left]. rewrite Hstep.
      exact Hrun.
Qed.

Lemma left_done (st : par_state D) :
  sim st -> remaining st = 0%nat -> par_done query st = true.
Proof.
  intros (Hlen & ts & Hts & Hst) Hz. unfold par_left in Hz.
  rewrite Hts in Hz. unfold par_done. rewrite Hts.
  destruct ts; try lia. simpl. rewrite andb_true_r. apply Nat.leb_le. lia.
Qed.

(** A schedule of four steps for every query lets one thread end the
    loop. *)
Lemma one_thread_complete (res : search_result D) :
  search query = Some res ->
  psearch 1 (replicate (4 * length query) 0%nat) = Some res.
Proof.
  intros Hs.
  assert (Hdef : run query <> None).
  { intros Hn. unfold searchIndex in Hs. rewrite Hn in Hs. discriminate. }
  destruct (prun_complete (4 * length query) (par_init query 1) sim_init Hdef)
    as (st & Hrun & Hsim & Hleft).
  { unfold par_left, par_init. cbn [p_next p_threads]. simpl. lia. }
  pose proof (left_done st Hsim Hleft) as Hdone.
  unfold par_searchIndex. rewrite Hrun, Hdone.
  unfold searchIndex in Hs. rewrite (sim_done st Hsim Hdone) in Hs. exact Hs.
Qed.

(** ** Any number of threads *)

(** The only step that clears [abort] is the master's, storing a zero
    that [checkInterrupt] returned (line 587). *)
Lemma abort_cleared (t : nat) (st st' : par_state D) :
  p_abort st <> 0 -> pstep t st = Some st' -> p_abort st' = 0 ->
  t = 0%nat /\
  exists i r, p_threads st !! 0%nat = Some (TChained i r) /\ check i = Some 0.
Proof.
  intros Hab Hstep Hz. unfold par_step in Hstep.
  destruct (p_threads st !! t) as [[|i|i|i r]|] eqn:Ht.
  - destruct (query !! p_next st); [|inversion Hstep; subst; contradiction].
    destruct (p_abort st =? 0); inversion Hstep; subst; contradiction.
  - inversion Hstep; subst; clear Hstep. cbn [p_abort] in Hz.
    destruct (count_targets num (query !!! i) 0); [contradiction|lia].
  - destruct (negb (p_abort st =? 0)).
    + inversion Hstep; subst. contradiction.
    + destruct (one (query !!! i)); try discriminate;
        inversion Hstep; subst; contradiction.
  - inversion Hstep; subst; clear Hstep. cbn [p_abort] in Hz.
    destruct (Nat.eqb_spec t 0) as [->|Hne]; [|contradiction].
    split; [reflexivity|]. exists i, r. split; [assumption|].
    destruct (check i) as [v|]; [now subst|contradiction].
  - inversion Hstep; subst. contradiction.
Qed.

End Threads.



(** * From the index to the anchors, for any index *)

(** ** The sort rearranges the hits *)

Section SortPerm.
Variables (set posTarget : list Z).

Lemma merge_loop_perm fuel :
  forall (runs : list (list nat)) (cnts : list nat),
    (length runs < fuel)%nat -> (length runs <= length cnts)%nat ->
    agrees cnts runs ->
    exists o1,
      merge_loop set posTarget fuel (concat runs) cnts (length runs) = Some o1 /\
      Permutation o1 (concat runs).
Proof.
  induction fuel as [|fuel IH]; intros runs cnts Hf Hlen Hag; [lia|].
  simpl. destruct (Nat.ltb_spec 1 (length runs)) as [Hgt|Hle].
  - rewrite merge_pass_runs by assumption.
    pose proof (merge_counts_runs set posTarget runs cnts ltac:(lia) Hlen Hag)
      as Hmc.
    destruct (merge_counts (length runs) cnts (length runs) 0 0) as [cnts' c'].
    destruct Hmc as (-> & Hl' & Hag').
    assert (Hshort : (length (pairwise set posTarget runs) < length runs)%nat).
    { rewrite pairwise_length, Nat.div2_div.
      apply Nat.Div0.div_lt_upper_bound. lia. }
    destruct (IH (pairwise set posTarget runs) cnts') as (o1 & Ho1 & Hpo);
      [lia|lia|assumption|].
    exists o1. split; [assumption|].
    rewrite Hpo. apply pairwise_concat_perm.
  - exists (concat runs). split; reflexivity.
Qed.

Lemma sort_order_perm (counts : list nat) :
  exists o1,
    sort_order set posTarget (list_sum counts) counts = Some o1 /\
    Permutation o1 (seq 0 (list_sum counts)).
Proof.
  unfold sort_order.
  destruct (merge_loop_perm (S (length counts)) (initial_runs 0 counts)
                            (batch_ends 0 counts))
    as (o1 & Ho1 & Hperm).
  - rewrite initial_runs_length. lia.
  - now rewrite initial_runs_length, batch_ends_length.
  - apply initial_runs_agree.
  - rewrite initial_runs_concat, initial_runs_length in *.
    exists o1. split; assumption.
Qed.
End SortPerm.

Lemma Forall_reorder {A} `{Inhabited A} (P : A -> Prop) (o1 : list nat)
      (a : list A) :
  Forall P a -> (forall x, In x o1 -> (x < length a)%nat) ->
  Forall P (reorder o1 a).
Proof.
  intros Ha Ho. unfold reorder. apply List.Forall_forall.
  intros y Hy. apply in_map_iff in Hy. destruct Hy as (x & <- & Hx).
  rewrite List.Forall_forall in Ha. apply Ha.
  apply list_elem_of_In, list_elem_of_lookup_total_2. now apply Ho.
Qed.

Lemma Forall_kept {A} (P : A -> Prop) (keep : list bool) (a : list A) :
  Forall P a -> Forall P (kept keep a).
Proof.
  revert a. induction keep as [|b keep IH]; intros [|x a] Ha; simpl;
    try constructor.
  inversion Ha; subst. destruct b; [constructor|]; auto.
Qed.

(** ** What the gather step, the sort and the collapse keep *)

Section PipelineShape.
Context {D : Type} `{ScoreOps D} `{Inhabited D}.
Variables (K step : Z) (num loc ind : list Z) (scores addScores : list D).
Variable L : nat.
Variables (Ps Pa : D -> Prop).
Hypothesis Hscores : forall j, (j < L)%nat -> Ps (scores !!! j).
Hypothesis HaddScores : forall j, (j < L)%nat -> Pa (addScores !!! j).
Hypothesis Hmerge : forall x y, Ps x -> Pa y -> Ps (dadd x y).

Local Abbreviation gath := (gather num loc ind scores addScores).

Lemma gather_scores (w : list Z) :
  (forall j, (j < length w)%nat -> w !!! j <> NA_INTEGER ->
             0 <= w !!! j < Z.of_nat L) ->
  let h := gath w (map (kmer_count num) w) in
  Forall Ps (h_score h) /\ Forall Pa (h_addScore h).
Proof.
  induction w as [|wj w IH] using rev_ind; intros Hw.
  - simpl. split; constructor.
  - rewrite !map_app. cbn [map].
    rewrite gather_snoc by (now rewrite length_map).
    rewrite bucket_eq. cbv zeta in *.
    destruct IH as (IHs & IHa).
    { intros j Hj Hna. specialize (Hw j).
      rewrite lookup_total_app_l in Hw by lia.
      apply Hw; [rewrite length_app; simpl; lia|assumption]. }
    unfold hits_app. cbn [h_score h_addScore].
    assert (Hin : (0 < Z.to_nat (kmer_count num wj))%nat ->
                  (Z.to_nat wj < L)%nat).
    { intros Hpos. unfold kmer_count in Hpos.
      destruct (Z.eqb_spec wj NA_INTEGER) as [?|Hna]; [simpl in Hpos; lia|].
      specialize (Hw (length w)).
      rewrite lookup_total_app_r in Hw by lia.
      rewrite Nat.sub_diag in Hw. cbn in Hw.
      specialize (Hw ltac:(rewrite length_app; simpl; lia) Hna). lia. }
    split; apply Forall_app; (split; [assumption|]);
      apply List.Forall_forall; intros x Hx;
      apply list_elem_of_In, elem_of_replicate in Hx;
      destruct Hx as (-> & Hn); [apply Hscores|apply HaddScores];
      apply Hin; lia.
Qed.

Local Abbreviation cbody := (col_body step).
Local Abbreviation cmerge := (col_merge step).

(** Lines 305-336 on hits with [Ps] scores and [Pa] extensions: the
    lengths stay at least [K], the scores stay [Ps], and the first hit is
    kept. *)
Lemma collapse_shape (posQuery posTarget set : list Z) (addScore score : list D) :
  length posQuery = length score -> length posTarget = length score ->
  length set = length score -> length addScore = length score ->
  Forall Ps score -> Forall Pa addScore ->
  let a := collapse K step posQuery posTarget set addScore score in
  let n := length (a_score a) in
  length (a_posQuery a) = n /\ length (a_posTarget a) = n /\
  length (a_set a) = n /\ length (a_len a) = n /\
  ((1 <= length score)%nat -> (1 <= n)%nat) /\
  Forall Ps (a_score a) /\
  (0 <= step -> Forall (fun l => K <= l) (a_len a)).
Proof.
  intros Hlq Hlt Hls Hla Hsc Had a n.
  set (s := length score) in *.
  set (st := collapse_state K step posQuery posTarget set addScore score).
  assert (Hinv :
            length (c_len st) = s /\ length (c_keep st) = s /\
            length (c_score st) = s /\
            ((1 <= s)%nat -> c_keep st !!! 0%nat = true) /\
            Forall Ps (c_score st) /\
            (0 <= step -> Forall (fun l => K <= l) (c_len st))).
  { unfold st, collapse_state. fold s.
    assert (Hfold :
              (fun (m : nat) (st : col_state D) =>
                 length (c_len st) = s /\ length (c_keep st) = s /\
                 length (c_score st) = s /\
                 (forall c, (c < s)%nat -> (c = 0%nat \/ m <= c)%nat ->
                            c_keep st !!! c = true) /\
                 Forall Ps (c_score st) /\
                 (0 <= step -> Forall (fun l => K <= l) (c_len st)))
                (1 + (s - 1))%nat
                (fold_left (cbody posQuery posTarget set addScore)
                           (seq 1 (s - 1)) (col_init K score))).
    { apply fold_left_seq_inv.
      - unfold col_init. fold s. cbn [c_len c_keep c_score c_p].
        rewrite !length_replicate. repeat split; auto.
        + intros c Hc _. now apply lookup_total_replicate_2.
        + intros _. apply List.Forall_forall. intros x Hx.
          apply list_elem_of_In, elem_of_replicate in Hx. lia.
      - intros m st0 Hm (L1 & L2 & L3 & Hk & Hs0 & Hl0).
        destruct (col_body_shape step posQuery posTarget set addScore st0 m)
          as (k' & [-> | (j & ->)]).
        + unfold with_k. cbn [c_len c_keep c_score c_p].
          repeat split; auto. intros c Hc Hcm. apply Hk; [assumption|lia].
        + unfold col_merge, with_k. cbn [c_len c_origin c_keep c_score c_p].
          rewrite !length_insert.
          set (o := c_origin st0 !!! j).
          split; [assumption|]. split; [assumption|]. split; [assumption|].
          split; [|split].
          * intros c Hc Hcm. rewrite list_lookup_total_insert_ne by lia.
            apply Hk; [assumption|lia].
          * destruct (Nat.lt_ge_cases o s) as [Ho|Ho].
            -- apply Forall_insert; [assumption|].
               apply Hmerge.
               ++ rewrite List.Forall_forall in Hs0. apply Hs0.
                  apply list_elem_of_In, list_elem_of_lookup_total_2. lia.
               ++ rewrite List.Forall_forall in Had. apply Had.
                  apply list_elem_of_In, list_elem_of_lookup_total_2. lia.
            -- now rewrite list_insert_ge by lia.
          * intros Hstep. specialize (Hl0 Hstep).
            destruct (Nat.lt_ge_cases o s) as [Ho|Ho].
            -- apply Forall_insert; [assumption|].
               rewrite List.Forall_forall in Hl0.
               assert (K <= c_len st0 !!! o).
               { apply Hl0.
                 apply list_elem_of_In, list_elem_of_lookup_total_2. lia. }
               lia.
            -- now rewrite list_insert_ge by lia. }
    cbv beta in Hfold. destruct Hfold as (H1 & H2 & H3 & H4 & H5 & H6).
    do 3 (split; [assumption|]). split; [|split; assumption].
    intros Hs. apply H4; [lia|now left]. }
  destruct Hinv as (L1 & L2 & L3 & H0' & Hps & Hlen).
  unfold n, a, collapse. fold st.
  cbn [a_posQuery a_posTarget a_set a_len a_score].
  rewrite !length_kept by congruence.
  do 4 (split; [reflexivity|]). split; [|split].
  - intros Hs. specialize (H0' Hs).
    destruct (c_keep st) as [|b keep]; [simpl in L2; lia|].
    change ((b :: keep) !!! 0%nat) with b in H0'. subst b. simpl. lia.
  - now apply Forall_kept.
  - intros Hstep. now apply Forall_kept, Hlen.
Qed.

(** Lines 191-368: what the anchors of a query keep of its hits. *)
Lemma sorted_anchors_shape (w : list Z) (a : anchors D) :
  let h := gath w (map (kmer_count num) w) in
  Forall Ps (h_score h) -> Forall Pa (h_addScore h) ->
  sorted_anchors K step num loc ind scores addScores w
                 (map (kmer_count num) w) = Some a ->
  let n := length (a_score a) in
  length (a_posQuery a) = n /\ length (a_posTarget a) = n /\
  length (a_set a) = n /\ length (a_len a) = n /\
  ((1 <= list_sum (map Z.to_nat (map (kmer_count num) w)))%nat ->
   (1 <= n)%nat) /\
  Forall Ps (a_score a) /\
  (0 <= step -> Forall (fun l => K <= l) (a_len a)).
Proof.
  intros h Hgs Hga Hsa. unfold sorted_anchors in Hsa.
  set (cnts := map (kmer_count num) w) in *.
  fold h in Hsa.
  destruct (gather_lengths num loc ind scores addScores w)
    as (Lq & Lt & Ls & Lsc & La).
  fold cnts in Lq, Lt, Ls, Lsc, La. fold h in Lq, Lt, Ls, Lsc, La.
  set (T := list_sum (map Z.to_nat cnts)) in *.
  destruct (sort_order_perm (h_set h) (h_posTarget h) (map Z.to_nat cnts))
    as (o1 & Ho1 & Hperm).
  fold T in Ho1, Hperm. rewrite Ls, Ho1 in Hsa.
  inversion Hsa as [Ha]. clear Hsa.
  assert (Hlo : length o1 = T).
  { rewrite (Permutation_length Hperm). apply length_seq. }
  assert (Hin : forall x, In x o1 -> (x < T)%nat).
  { intros x Hx. apply (Permutation_in _ Hperm) in Hx.
    apply in_seq in Hx. lia. }
  unfold reorder_hits. cbn [h_posQuery h_posTarget h_set h_score h_addScore].
  pose proof (collapse_shape (reorder o1 (h_posQuery h))
                (reorder o1 (h_posTarget h)) (reorder o1 (h_set h))
                (reorder o1 (h_addScore h)) (reorder o1 (h_score h))) as Hc.
  rewrite !reorder_length in Hc.
  specialize (Hc eq_refl eq_refl eq_refl eq_refl).
  cbv zeta in Hc. rewrite Hlo in Hc. apply Hc.
  - apply Forall_reorder; [assumption|]. intros x Hx. rewrite Lsc. now apply Hin.
  - apply Forall_reorder; [assumption|]. intros x Hx. rewrite La. now apply Hin.
Qed.
End PipelineShape.

(** * Scores along a chain, on doubles *)

Section CostTables.
Context {D : Type} `{ScoreOps D} `{CostOps D} `{Inhabited D}.
Hypothesis Hmul : dmul_nonneg D.

(** When neither coefficient is negative, no entry of the cost tables
    is. *)
Lemma cost_tables_nonneg (sC gC : D) (maxSep : Z) :
  dlt sC dzero = false -> dlt gC dzero = false ->
  let costs := cost_tables sC gC maxSep in
  length (fst costs) = Z.to_nat (maxSep + 1) /\
  length (snd costs) = Z.to_nat (maxSep + 1) /\
  Forall (fun x => dlt x dzero = false) (fst costs) /\
  Forall (fun x => dlt x dzero = false) (snd costs).
Proof.
  intros HsC HgC. destruct Hmul as (Hsqrt & Hprod).
  unfold cost_tables. cbn [fst snd].
  rewrite !length_map, length_seq.
  split; [reflexivity|]. split; [reflexivity|].
  split; apply List.Forall_forall; intros x Hx;
    apply in_map_iff in Hx; destruct Hx as (i & <- & Hi);
    apply in_map_iff in Hi; destruct Hi as (n & <- & _);
    apply Hprod; try assumption; apply Hsqrt; lia.
Qed.
End CostTables.

Section ChainScores.
Context {D : Type} `{ScoreOps D} `{Inhabited D}.
Hypothesis Hord : dlt_order D.
Hypothesis Hadd : dadd_nonneg D.
Variables (maxSep : Z) (gapCost sepCost : list D).
Variables (posQuery posTarget set len : list Z).
Hypothesis Hlg : length gapCost = Z.to_nat (maxSep + 1).
Hypothesis Hls : length sepCost = Z.to_nat (maxSep + 1).
Hypothesis Hgap : Forall (fun x => dlt x dzero = false) gapCost.
Hypothesis Hsep : Forall (fun x => dlt x dzero = false) sepCost.

Local Abbreviation DP := (chainDP maxSep gapCost sepCost posQuery posTarget set len).

(** A candidate is positive, and not less than the score it extends. *)
Lemma candidate_weak (sp sk : D) (k p : nat) :
  linkable maxSep posQuery posTarget len k p ->
  dlt dzero sp = true -> dlt dzero sk = true ->
  let c := candidate gapCost sepCost posQuery posTarget len sp sk k p in
  dlt dzero c = true /\ dlt c sp = false.
Proof.
  intros ((HT1 & HT2) & (HQ1 & HQ2)) Hsp Hsk. cbv zeta. unfold candidate.
  set (g := gapCost !!! _). set (c := sepCost !!! _).
  assert (Hg : dlt g dzero = false).
  { unfold g. rewrite List.Forall_forall in Hgap. apply Hgap.
    apply list_elem_of_In, list_elem_of_lookup_total_2. rewrite Hlg. lia. }
  assert (Hc : dlt c dzero = false).
  { unfold c. rewrite List.Forall_forall in Hsep. apply Hsep.
    apply list_elem_of_In, list_elem_of_lookup_total_2. rewrite Hls. lia. }
  assert (Hk0 : dlt sk dzero = false) by now apply (dlt_asym Hord).
  assert (P1 : dlt dzero (dadd sp sk) = true)
    by now apply (add_keeps_pos Hord Hadd).
  assert (P2 : dlt dzero (dadd (dadd sp sk) g) = true)
    by now apply (add_keeps_pos Hord Hadd).
  split; [now apply (add_keeps_pos Hord Hadd)|].
  apply (dge_trans Hord _ (dadd (dadd sp sk) g)); [apply (Hadd _ c Hc)|].
  apply (dge_trans Hord _ (dadd sp sk)); [apply (Hadd _ g Hg)|].
  apply (Hadd sp sk Hk0).
Qed.

(** After the chain DP on hits that enter it with positive scores, every
    score is positive and the score of a linked hit is not less than the
    score of the hit it is linked to. *)
Lemma chain_scores_weak (score0 : list D) :
  (forall i, (i < length score0)%nat -> dlt dzero (score0 !!! i) = true) ->
  forall k, (k < length score0)%nat ->
    dlt dzero (dp_score (DP score0) !!! k) = true /\
    (dp_chain (DP score0) !!! k <> k ->
     dlt (dp_score (DP score0) !!! k)
         (dp_score (DP score0) !!! (dp_chain (DP score0) !!! k)) = false).
Proof.
  intros Hpos.
  destruct (chainDP_inv maxSep gapCost sepCost posQuery posTarget set len score0)
    as (_ & Hall & _).
  assert (Hp : forall k, (k < length score0)%nat ->
                         dlt dzero (dp_score (DP score0) !!! k) = true).
  { intros k. induction k as [k IH] using lt_wf_ind. intros Hk.
    destruct (Hall k Hk) as ([(_ & _ & _ & Hs)|(p & Hpk & _ & Hl & _ & _ & Hs)] & _).
    - rewrite Hs. now apply Hpos.
    - rewrite Hs. apply candidate_weak; [assumption| |now apply Hpos].
      apply IH; lia. }
  intros k Hk. split; [now apply Hp|]. intros Hne.
  destruct (Hall k Hk) as ([(Hc & _)|(p & Hpk & Hc & Hl & _ & _ & Hs)] & _);
    [contradiction|].
  rewrite Hc, Hs. apply candidate_weak; [assumption| |now apply Hpos].
  apply Hp. lia.
Qed.
End ChainScores.

Section ChainScoresFromInputs.
Context {D : Type} `{ScoreOps D} `{CostOps D} `{Inhabited D}.
Variables (K step : Z) (freqs : list D) (L : nat) (sC gC : D) (maxSep : Z).
Variables (num loc ind : list Z).

(** C7 (amended).  The score domain is any in which [<] is a strict weak
    order, adding a value that is not negative does not give less, and
    square roots and products of such values are not negative, as for
    doubles other than NaN.  Let the frequency term of every letter be
    positive and neither cost coefficient negative, and let the hits of a
    query whose k-mers are k-mers of the index be gathered, sorted and
    collapsed.  Then every anchor enters the chain DP with a positive
    score; after the DP every score is positive, and along every link the
    score does not decrease: [score[chain[k]] <= score[k]]. *)
Theorem C7_chain_scores_nondecreasing (w counts : list Z) (s : Z)
        (a : anchors D) :
  dlt_order D -> dadd_nonneg D -> dmul_nonneg D ->
  1 <= K -> (1 <= length freqs)%nat ->
  Z.of_nat L + Z.of_nat (length freqs) ^ (K - 1) <= INT_MAX ->
  (forall d, (d < length freqs)%nat -> dlt dzero (freqs !!! d) = true) ->
  dlt sC dzero = false -> dlt gC dzero = false ->
  (forall j, (j < length w)%nat -> w !!! j <> NA_INTEGER ->
             0 <= w !!! j < Z.of_nat L) ->
  count_targets num w 0 = Some (counts, s) ->
  let tables := score_tables K step freqs L in
  let costs := cost_tables sC gC maxSep in
  sorted_anchors K step num loc ind (fst tables) (snd tables) w counts
  = Some a ->
  let st := chainDP maxSep (fst costs) (snd costs) (a_posQuery a)
                    (a_posTarget a) (a_set a) (a_len a) (a_score a) in
  forall k, (k < length (a_score a))%nat ->
    dlt dzero (a_score a !!! k) = true /\
    dlt dzero (dp_score st !!! k) = true /\
    (dp_chain st !!! k <> k ->
     dlt (dp_score st !!! k) (dp_score st !!! (dp_chain st !!! k)) = false).
Proof.
  intros Hord Hadd Hmul HK Hsize Hint Hfreqs HsC HgC Hw Hc tables costs Hsa st.
  rewrite (count_targets_counts num w 0 counts s Hc) in Hsa.
  destruct (cost_tables_nonneg Hmul sC gC maxSep HsC HgC)
    as (Hlg & Hls & Hgap & Hsep).
  fold costs in Hlg, Hls, Hgap, Hsep.
  assert (Hpos : Forall (fun x => dlt dzero x = true) (a_score a)).
  { destruct (gather_scores num loc ind (fst tables) (snd tables) L
                (fun x => dlt dzero x = true) (fun y => dlt y dzero = false))
      with (w := w) as (Hgs & Hga).
    - intros j Hj.
      now apply (score_tables_signs K step freqs Hord Hadd Hfreqs L j).
    - intros j Hj.
      now apply (score_tables_signs K step freqs Hord Hadd Hfreqs L j).
    - assumption.
    - apply (sorted_anchors_shape K step num loc ind (fst tables) (snd tables)
               (fun x => dlt dzero x = true) (fun y => dlt y dzero = false))
        with (w := w); try assumption.
      intros x y Hx Hy. now apply (add_keeps_pos Hord Hadd). }
  assert (Hentry : forall i, (i < length (a_score a))%nat ->
                             dlt dzero (a_score a !!! i) = true).
  { intros i Hi. rewrite List.Forall_forall in Hpos. apply Hpos.
    now apply list_elem_of_In, list_elem_of_lookup_total_2. }
  intros k Hk. split; [now apply Hentry|].
  apply (chain_scores_weak Hord Hadd maxSep (fst costs) (snd costs));
    assumption.
Qed.
End ChainScoresFromInputs.

Lemma C7_chain_scores_nondecreasing_witness :
  let corpus := [[0; 1; 2; 1; 0]; [2; 1; 0]] in
  let num := countIndex [0; 0; 0; 0] corpus 1 in
  let idx := updateIndex (offsets num) corpus 2 1 (replicate 8 0)
                         (replicate 8 0) [0; 0] 0 in
  let a := mkAnchors [1; 5; 4; 3; 1; 3; 1] [1; 1; 2; 3; 5; 1; 3]
                     [1; 1; 1; 1; 1; 2; 2] [2; 2; 2; 4; 2; 4; 2]
                     [2; 2; 3; 5; 2; 5; 2] in
  let costs := cost_tables 1 2 2 in
  let st := chainDP 2 (fst costs) (snd costs) (a_posQuery a) (a_posTarget a)
                    (a_set a) (a_len a) (a_score a) in
  (dp_chain st = [0; 1; 2; 0; 4; 5; 6]%nat /\ dp_score st = [2; 2; 3; 7; 2; 5; 2])
  /\ forall k, (k < length (a_score a))%nat ->
       dlt dzero (a_score a !!! k) = true /\
       dlt dzero (dp_score st !!! k) = true /\
       (dp_chain st !!! k <> k ->
        dlt (dp_score st !!! k) (dp_score st !!! (dp_chain st !!! k)) = false).
Proof.
  intros corpus num idx a costs st. split; [split; reflexivity|].
  apply (C7_chain_scores_nondecreasing 2 1 [1; 2] 4 1 2 2 num (i_loc idx)
           (i_ind idx) [0; NA_INTEGER; 2; 1; 0] [3; 0; 2; 3; 3] 11 a
           Z_dlt_order Z_dadd_nonneg Z_dmul_nonneg).
  - lia.
  - simpl. lia.
  - unfold INT_MAX. simpl. lia.
  - intros d Hd. do 2 (destruct d as [|d]; [reflexivity|]). simpl in Hd. lia.
  - reflexivity.
  - reflexivity.
  - intros j Hj Hna.
    do 5 (destruct j as [|j];
          [first [exfalso; apply Hna; reflexivity
                 |vm_compute; split; [discriminate|reflexivity]]|]).
    simpl in Hj. lia.
  - reflexivity.
  - vm_compute. reflexivity.
Defined.

(** Two letters of frequencies [1 - 2^-53] and [2^-53]: [logFreqs] holds
    [2^-53] and [53 log 2], the doubles nearest to minus their logarithms.
    With [K = 1], [step = 1], [sepC = gapC = 0] and [maxSep = 1], the
    target [1 ? 0] is indexed and the query [1 0] is searched: the two
    hits enter the chain DP with the positive scores [53 log 2] and
    [2^-53].  In binary64 [53 log 2 + 2^-53] is [53 log 2]: the DP links
    hit 1 to hit 0 and both have the same score, so the score does not
    increase along the link.  This holds whatever [log] is. *)
Lemma C7_counterexample :
  let freqs := [0x1p-53; 0x1.25e4f7b2737fap+5]%float in
  let corpus := [[1; NA_INTEGER; 0]] in
  let num := countIndex [0; 0] corpus 1 in
  let idx := updateIndex (offsets num) corpus 1 1 [0; 0] [0; 0] [0] 0 in
  let w := [1; 0] in
  let costs := cost_tables 0%float 0%float 1 in
  (PrimFloat.ltb 0 0x1p-53 = true /\ PrimFloat.ltb 0 0x1.25e4f7b2737fap+5 = true
   /\ count_targets num w 0 = Some ([1; 1], 2))
  /\ forall flog_ratio flog_int flog_total,
       let S := FloatScore flog_ratio flog_int flog_total in
       let tables := @score_tables float S _ 1 1 freqs 2 in
       exists a,
         @sorted_anchors float S _ 1 1 num (i_loc idx) (i_ind idx)
                         (fst tables) (snd tables) w [1; 1] = Some a /\
         let st := @chainDP float S _ 1 (fst costs) (snd costs) (a_posQuery a)
                            (a_posTarget a) (a_set a) (a_len a) (a_score a) in
         a_score a = [0x1.25e4f7b2737fap+5; 0x1p-53]%float /\
         dp_chain st = [0; 0]%nat /\
         dp_score st = [0x1.25e4f7b2737fap+5; 0x1.25e4f7b2737fap+5]%float /\
         @dlt float S (dp_score st !!! (dp_chain st !!! 1%nat))
              (dp_score st !!! 1%nat) = false.
Proof.
  intros freqs corpus num idx w costs.
  split; [repeat split; vm_compute; reflexivity|].
  intros flog_ratio flog_int flog_total S tables.
  eexists. split; [vm_compute; reflexivity|].
  cbv zeta. repeat split; vm_compute; reflexivity.
Qed.

(** * The anchor matrices of the answer *)

Lemma all_some_lookup {A} `{Inhabited A} (l : list (option A)) (xs : list A) :
  all_some l = Some xs ->
  forall i, (i < length l)%nat -> l !!! i = Some (xs !!! i).
Proof.
  revert xs. induction l as [|[x|] l IH]; intros xs Hl i Hi; simpl in *;
    [lia| |discriminate].
  destruct (all_some l) as [ys|]; [|discriminate].
  inversion Hl; subst. destruct i as [|i]; [reflexivity|].
  apply (IH ys eq_refl i). lia.
Qed.

Lemma hits_total (num w : list Z) :
  Forall (fun c => 0 <= c <= INT_MAX) num ->
  Z.of_nat (list_sum (map Z.to_nat (map (kmer_count num) w)))
  = query_hits num w.
Proof.
  intros Hnum. induction w as [|wj w IH]; [reflexivity|].
  rewrite query_hits_cons. cbn [map].
  match goal with
  | |- Z.of_nat (list_sum (?x :: ?l)) = _ =>
      change (list_sum (x :: l)) with (x + list_sum l)%nat
  end.
  rewrite Nat2Z.inj_add, IH. unfold kmer_count.
  destruct (wj =? NA_INTEGER); [reflexivity|].
  pose proof (num_range num (Z.to_nat wj) Hnum). lia.
Qed.

(** ** The candidates are hits *)

Section SelectRange.
Context {D : Type} `{ScoreOps D} `{Inhabited D}.
Variables (origin : list nat) (set : list Z) (score : list D).

Lemma all_mark_length (maxOrigin : list cell) :
  forall keep0 keep,
    fold_left all_mark maxOrigin (Some keep0) = Some keep ->
    length keep = length keep0.
Proof.
  induction maxOrigin as [|m l IH]; intros keep0 keep Hf; simpl in Hf.
  - now inversion Hf.
  - destruct m as [v|].
    + destruct (v =? NA_INTEGER); [now apply IH|].
      destruct ((0 <=? v) && (v <? Z.of_nat (length keep0))).
      * rewrite (IH _ _ Hf). apply length_insert.
      * exfalso. clear -Hf. induction l as [|x l IHl]; simpl in Hf;
          [discriminate|auto].
    + exfalso. clear -Hf. induction l as [|x l IHl]; simpl in Hf;
        [discriminate|auto].
Qed.

Lemma target_body_length (l : list nat) :
  forall st, length (fst (fst (fold_left (target_body set score) l st)))
             = length (fst (fst st)).
Proof.
  induction l as [|j l IH]; intros [[keep p] k]; [reflexivity|].
  cbn [fold_left]. rewrite IH. unfold target_body.
  destruct (negb (p =? set !!! j)); cbn [fst]; [apply length_insert|].
  destruct (dlt (score !!! k) (score !!! j)); cbn [fst];
    [now rewrite !length_insert|reflexivity].
Qed.

Lemma select_in_range (type : Z) (res : list nat) :
  (1 <= length score)%nat ->
  select origin set score type = Some res ->
  Forall (fun h => (h < length score)%nat) res.
Proof.
  intros Hs Hsel. unfold select in Hsel.
  destruct (type =? 1); [|destruct (type =? 2)].
  - unfold select_all in Hsel.
    destruct (all_maxOrigin origin score) as [maxOrigin|]; [|discriminate].
    destruct (fold_left all_mark maxOrigin
                        (Some (replicate (length score) false)))
      as [keep|] eqn:Hk; [|discriminate].
    inversion Hsel; subst res.
    apply all_mark_length in Hk. rewrite length_replicate in Hk.
    apply List.Forall_forall. intros h Hh. apply in_flagged in Hh. lia.
  - inversion Hsel; subst res. unfold select_target.
    pose proof (target_body_length (seq 0 (length score))
                  (replicate (length score) false, NA_INTEGER, 0%nat)) as Hl.
    destruct (fold_left (target_body set score) (seq 0 (length score))
                        (replicate (length score) false, NA_INTEGER, 0%nat))
      as [[keep p] k].
    cbn [fst] in Hl. rewrite length_replicate in Hl.
    apply List.Forall_forall. intros h Hh. apply in_flagged in Hh. lia.
  - inversion Hsel; subst res. unfold select_top.
    constructor; [|constructor].
    apply (fold_left_inv _ (fun r => (r < length score)%nat)
                         (fun j => (j < length score)%nat)).
    + lia.
    + apply Forall_forall. intros j Hj. apply elem_of_seq in Hj. lia.
    + intros r j Hj Hr. destruct (dlt (score !!! r) (score !!! j)); assumption.
Qed.
End SelectRange.

(** ** One query *)

Section AnchorMatrices.
Context {D : Type} `{ScoreOps D} `{Inhabited D}.
Variables (K step : Z) (num loc ind pos : list Z).
Variables (scores addScores : list D).
Variables (maxSep : Z) (gapCost sepCost : list D).
Variables (type : Z) (tot : D) (minS : option D).

Local Abbreviation one :=
  (search_query K step num loc ind pos scores addScores maxSep gapCost sepCost
                type tot minS false).
Local Abbreviation results :=
  (chain_results step pos maxSep gapCost sepCost type tot minS false).
Local Abbreviation DP := (chainDP maxSep gapCost sepCost).

(** What lines 526-556 and 672-688 leave for the surviving results of
    one query. *)
Lemma chain_results_anchors (width : Z) (a : anchors D) (r : qresult D) :
  let n := length (a_score a) in
  length (a_posQuery a) = n -> length (a_posTarget a) = n ->
  length (a_set a) = n -> length (a_len a) = n -> (1 <= n)%nat ->
  Forall (fun l => 1 <= l) (a_len a) ->
  results width a = Some r ->
  let st := DP (a_posQuery a) (a_posTarget a) (a_set a) (a_len a) (a_score a) in
  let score := correct_scores step width pos (a_set a) (dp_cov st)
                              (dp_score st) in
  exists res,
    select (dp_origin st) (a_set a) score type = Some res /\
    let surv := List.filter (passes (a_set a) score step pos tot minS) res in
    r_set r = map (fun h => a_set a !!! h) surv /\
    length (r_anchors r) = length surv /\
    forall i, (i < length surv)%nat ->
      let h := surv !!! i in
      (h < length (a_set a))%nat /\
      exists ps,
        chain_path (dp_chain st) h ps /\
        List.last ps h = dp_origin st !!! h /\
        let m := anchor_matrix (r_anchors r !!! i) in
        length m = (4 * length ps)%nat /\
        (forall c, (c < length ps)%nat ->
           let p := rev ps !!! c in
           matrix_col m c
           = [a_posQuery a !!! p; a_posQuery a !!! p + a_len a !!! p - 1;
              a_posTarget a !!! p; a_posTarget a !!! p + a_len a !!! p - 1]) /\
        (forall c c', (c < c' < length ps)%nat ->
                      m !!! (4 * c)%nat < m !!! (4 * c')%nat).
Proof.
  intros n Lq Lt Ls Ll Hn Hlen Hres st score.
  unfold chain_results in Hres. fold st in Hres. fold score in Hres.
  destruct (select (dp_origin st) (a_set a) score type) as [res|] eqn:Hsel;
    [|discriminate].
  exists res. split; [reflexivity|]. cbv zeta.
  set (surv := List.filter (passes (a_set a) score step pos tot minS) res) in *.
  destruct (all_some (map (anchor_of (a_posQuery a) (a_posTarget a) (a_len a)
                                     (dp_chain st)) surv))
    as [anchors|] eqn:Hall; [|discriminate].
  inversion Hres; subst r; clear Hres. cbn [r_set r_anchors].
  split; [reflexivity|].
  pose proof (all_some_length _ _ Hall) as Hla. rewrite length_map in Hla.
  split; [assumption|].
  assert (Hlscore : length score = n).
  { unfold score, correct_scores. rewrite length_map, length_seq.
    apply (chainDP_lengths maxSep gapCost sepCost). }
  pose proof (select_in_range (dp_origin st) (a_set a) score type res
                ltac:(lia) Hsel) as Hrange.
  intros i Hi.
  assert (Hh : (surv !!! i < n)%nat).
  { rewrite List.Forall_forall in Hrange. rewrite <- Hlscore. apply Hrange.
    assert (Hin : In (surv !!! i) surv)
      by now apply list_elem_of_In, list_elem_of_lookup_total_2.
    unfold surv in Hin. apply filter_In in Hin. tauto. }
  split; [lia|].
  destruct (traceback_matrix maxSep gapCost sepCost (a_posQuery a)
              (a_posTarget a) (a_set a) (a_len a) (a_score a) (surv !!! i))
    as (ps & Hpath & Hlast & Hbuf & Hmat & Hlm & Hsorted).
  { intros j Hj. rewrite List.Forall_forall in Hlen.
    assert (1 <= a_len a !!! j); [|lia].
    apply Hlen, list_elem_of_In, list_elem_of_lookup_total_2. lia. }
  { exact Hh. }
  fold st in Hpath, Hlast, Hbuf.
  exists ps. split; [assumption|]. split; [assumption|].
  pose proof (all_some_lookup _ _ Hall i ltac:(now rewrite length_map)) as Hi'.
  rewrite lookup_total_map in Hi' by assumption.
  rewrite Hbuf in Hi'. injection Hi' as Hbuf'. rewrite <- Hbuf'.
  rewrite Hmat. split; [assumption|].
  assert (Hcol : forall c t, (c < length ps)%nat -> (t < 4)%nat ->
            flat_map (quad (a_posQuery a) (a_posTarget a) (a_len a)) (rev ps)
              !!! (4 * c + t)%nat
            = quad (a_posQuery a) (a_posTarget a) (a_len a) (rev ps !!! c)
                   !!! t).
  { intros c t Hc Ht. apply flat_quads_lookup; [|assumption].
    now rewrite length_rev. }
  split.
  - intros c Hc. unfold matrix_col.
    replace (4 * c)%nat with (4 * c + 0)%nat at 1 by lia.
    rewrite !Hcol by lia. reflexivity.
  - intros c c' Hcc.
    replace (4 * c)%nat with (4 * c + 0)%nat by lia.
    replace (4 * c')%nat with (4 * c' + 0)%nat by lia.
    rewrite !Hcol by lia.
    pose proof (StronglySorted_lookup Z.lt _ Hsorted c c') as Hlt.
    rewrite length_map, length_rev in Hlt. specialize (Hlt Hcc).
    rewrite !lookup_total_map in Hlt by (rewrite length_rev; lia).
    exact Hlt.
Qed.

(** ** The answer *)

Local Abbreviation qres := (query_result one).

Lemma run_answer (check : nat -> option Z) (l : list (list Z)) :
  forall (a : nat) (out0 out : list (qresult D)),
    fold_left (driver_body K step num loc ind pos scores addScores maxSep
                           gapCost sepCost type tot minS false check)
              (combine (seq a (length l)) l) (Some (0, out0))
    = Some (0, out) ->
    out = out0 ++ map qres l.
Proof.
  induction l as [|w l IH]; intros a out0 out Hrun.
  - simpl in Hrun. inversion Hrun. now rewrite app_nil_r.
  - cbn [length seq combine fold_left driver_body map] in Hrun.
    change (0 =? 0) with true in Hrun. cbv iota in Hrun.
    cbn [map]. unfold query_result at 1.
    destruct (one w) as [| |r|] eqn:Hw.
    + rewrite driver_aborted in Hrun by lia. inversion Hrun. lia.
    + apply IH in Hrun. rewrite Hrun, <- app_assoc. reflexivity.
    + destruct (Z.eq_dec (match check a with Some v => v | None => 0 end) 0)
        as [Hz|Hnz].
      * rewrite Hz in Hrun. apply IH in Hrun.
        rewrite Hrun, <- app_assoc. reflexivity.
      * rewrite driver_aborted in Hrun by assumption.
        inversion Hrun. contradiction.
    + exfalso. clear -Hrun.
      induction (combine (seq (S a) (length l)) l) as [|x l' IHl];
        simpl in Hrun; [discriminate|auto].
Qed.

Lemma answer_rows (check : nat -> option Z) (query : list (list Z))
      ans0 ans1 ans2 ans3 :
  searchIndex K step num loc ind pos scores addScores maxSep gapCost sepCost
              type tot minS false check query
  = Some (Answer ans0 ans1 ans2 ans3) ->
  ans1 = flat_map (fun w => r_set (qres w)) query /\
  ans3 = Some (flat_map (fun w => map anchor_matrix (r_anchors (qres w)))
                        query).
Proof.
  unfold searchIndex. intros Hs.
  destruct (run_queries _ _ _ _ _ _ _ _ _ _ _ _ _ _ _ _ query)
    as [[ab out]|] eqn:Hrun; [|discriminate].
  destruct (Z.eqb_spec ab 0) as [->|Hne]; cbn [negb] in Hs;
    [|destruct (ab <? 0); discriminate].
  unfold run_queries, indexed in Hrun.
  apply (run_answer check query 0 [] out) in Hrun. cbn [app] in Hrun.
  subst out. unfold assemble in Hs. inversion Hs. clear.
  split.
  - induction query as [|w l IH]; [reflexivity|].
    cbn [map flat_map]. now rewrite IH.
  - f_equal. induction query as [|w l IH]; [reflexivity|].
    cbn [map flat_map]. now rewrite map_app, IH.
Qed.

(** C8.  Anchors are requested ([scoreOnly] false), [K >= 1],
    [step >= 0], and the counts of the index are non-negative [int]s.
    - The targets and the matrices of an answer are, row by row, those of
      the surviving results of the queries, in the order of the queries.
    - For a query that reaches the end of the loop body, the surviving
      results are the candidates [surv] that pass the filter, each a hit
      [h] of the chain DP.  The matrix of [h] has four rows and one column
      for every hit of the chain [ps] that [chain] ("prev") leads through
      from [h] to its origin; column [c] is [(qPos, qPos + len - 1, tPos,
      tPos + len - 1)] of the hit [c] of the reversed traceback, and the
      first row (the query coordinate) is strictly increasing. *)
Theorem C8_anchor_matrix :
  1 <= K -> 0 <= step ->
  Forall (fun c => 0 <= c <= INT_MAX) num ->
  (forall check query ans0 ans1 ans2 ans3,
      searchIndex K step num loc ind pos scores addScores maxSep gapCost
                  sepCost type tot minS false check query
      = Some (Answer ans0 ans1 ans2 ans3) ->
      ans1 = flat_map (fun w => r_set (qres w)) query /\
      ans3 = Some (flat_map (fun w => map anchor_matrix (r_anchors (qres w)))
                            query))
  /\ (forall w r,
        search_query K step num loc ind pos scores addScores maxSep gapCost
                     sepCost type tot minS false w = QDone r ->
        exists counts s a res,
          count_targets num w 0 = Some (counts, s) /\
          sorted_anchors K step num loc ind scores addScores w counts
          = Some a /\
          let st := chainDP maxSep gapCost sepCost (a_posQuery a)
                            (a_posTarget a) (a_set a) (a_len a) (a_score a) in
          let score := correct_scores step (query_width K w) pos (a_set a)
                                      (dp_cov st) (dp_score st) in
          select (dp_origin st) (a_set a) score type = Some res /\
          let surv :=
            List.filter (passes (a_set a) score step pos tot minS) res in
          r_set r = map (fun h => a_set a !!! h) surv /\
          length (r_anchors r) = length surv /\
          forall i, (i < length surv)%nat ->
            let h := surv !!! i in
            (h < length (a_set a))%nat /\
            exists ps,
              chain_path (dp_chain st) h ps /\
              List.last ps h = dp_origin st !!! h /\
              let m := anchor_matrix (r_anchors r !!! i) in
              length m = (4 * length ps)%nat /\
              (forall c, (c < length ps)%nat ->
                 let p := rev ps !!! c in
                 matrix_col m c
                 = [a_posQuery a !!! p;
                    a_posQuery a !!! p + a_len a !!! p - 1;
                    a_posTarget a !!! p;
                    a_posTarget a !!! p + a_len a !!! p - 1]) /\
              (forall c c', (c < c' < length ps)%nat ->
                            m !!! (4 * c)%nat < m !!! (4 * c')%nat)).
Proof.
  intros HK Hstep Hnum. split; [apply answer_rows|].
  intros w r Hone. unfold search_query in Hone.
  destruct (count_targets num w 0) as [[counts s]|] eqn:Hc; [|discriminate].
  destruct ((query_width K w =? 0) || (s =? 0)) eqn:Hempty; [discriminate|].
  destruct (sorted_anchors K step num loc ind scores addScores w counts)
    as [a|] eqn:Hsa; [|discriminate].
  destruct (results (query_width K w) a) as [r'|] eqn:Hres; [|discriminate].
  inversion Hone; subst r'; clear Hone.
  exists counts, s, a.
  pose proof (count_targets_counts num w 0 counts s Hc) as Hcounts.
  assert (Hs : s = query_hits num w).
  { destruct (count_targets_cases num w Hnum) as (Hok & Hover).
    destruct (Z_le_gt_dec (query_hits num w) INT_MAX) as [Hle|Hgt].
    - rewrite (Hok Hle) in Hc. now inversion Hc.
    - rewrite (Hover Hgt) in Hc. discriminate. }
  apply orb_false_iff in Hempty. destruct Hempty as (_ & Hs0).
  apply Z.eqb_neq in Hs0.
  pose proof (query_hits_nonneg num w Hnum) as Hnn.
  pose proof (hits_total num w Hnum) as Htot.
  rewrite Hcounts in Hsa.
  destruct (sorted_anchors_shape K step num loc ind scores addScores
              (fun _ => True) (fun _ => True) (fun _ _ _ _ => I) w a)
    as (Lq & Lt & Ls & Ll & Hn & _ & Hlen); try assumption.
  { apply List.Forall_forall. intros; exact I. }
  { apply List.Forall_forall. intros; exact I. }
  destruct (chain_results_anchors (query_width K w) a r Lq Lt Ls Ll)
    as (res & Hsel & Hrest).
  - apply Hn. lia.
  - eapply List.Forall_impl; [|exact (Hlen Hstep)]. simpl. intros l Hl. lia.
  - exact Hres.
  - exists res. rewrite <- Hcounts in Hsa.
    split; [reflexivity|]. split; [assumption|]. split; assumption.
Qed.
End AnchorMatrices.

Lemma C8_anchor_matrix_witness :
  let num := [3; 3; 2; 0] in
  let loc := [1; 5; 3; 2; 4; 2; 3; 1] in
  let ind := [1; 1; 2; 1; 1; 2; 1; 2] in
  let pos := [6; 4] in
  let scores := [2; 3; 3; 4] in
  let addScores := [1; 1; 2; 2] in
  let gapCost := [0; 2; 2] in
  let sepCost := [0; 1; 1] in
  let one := search_query 2 1 num loc ind pos scores addScores 2 gapCost
                          sepCost 1 100 (Some 0) false in
  let search := searchIndex 2 1 num loc ind pos scores addScores 2 gapCost
                            sepCost 1 100 (Some 0) false in
  search (fun _ => None) [[3; NA_INTEGER]; [0; NA_INTEGER; 2; 1; 0]]
  = Some (Answer [2; 2] [1; 2] [5; 4]
                 (Some [[1; 2; 1; 2; 3; 6; 3; 6]; [3; 6; 1; 4]]))
  /\ (forall check query ans0 ans1 ans2 ans3,
        search check query = Some (Answer ans0 ans1 ans2 ans3) ->
        ans1 = flat_map (fun w => r_set (query_result one w)) query /\
        ans3 = Some (flat_map (fun w => map anchor_matrix
                                            (r_anchors (query_result one w)))
                              query))
  /\ (forall w r,
        one w = QDone r ->
        exists counts s a res,
          count_targets num w 0 = Some (counts, s) /\
          sorted_anchors 2 1 num loc ind scores addScores w counts = Some a /\
          let st := chainDP 2 gapCost sepCost (a_posQuery a) (a_posTarget a)
                            (a_set a) (a_len a) (a_score a) in
          let score := correct_scores 1 (query_width 2 w) pos (a_set a)
                                      (dp_cov st) (dp_score st) in
          select (dp_origin st) (a_set a) score 1 = Some res /\
          let surv :=
            List.filter (passes (a_set a) score 1 pos 100 (Some 0)) res in
          r_set r = map (fun h => a_set a !!! h) surv /\
          length (r_anchors r) = length surv /\
          forall i, (i < length surv)%nat ->
            let h := surv !!! i in
            (h < length (a_set a))%nat /\
            exists ps,
              chain_path (dp_chain st) h ps /\
              List.last ps h = dp_origin st !!! h /\
              let m := anchor_matrix (r_anchors r !!! i) in
              length m = (4 * length ps)%nat /\
              (forall c, (c < length ps)%nat ->
                 let p := rev ps !!! c in
                 matrix_col m c
                 = [a_posQuery a !!! p;
                    a_posQuery a !!! p + a_len a !!! p - 1;
                    a_posTarget a !!! p;
                    a_posTarget a !!! p + a_len a !!! p - 1]) /\
              (forall c c', (c < c' < length ps)%nat ->
                            m !!! (4 * c)%nat < m !!! (4 * c')%nat)).
Proof.
  intros num loc ind pos scores addScores gapCost sepCost one search.
  split; [vm_compute; reflexivity|].
  apply (C8_anchor_matrix 2 1 num loc ind pos scores addScores 2 gapCost
           sepCost 1 100 (Some 0)).
  - lia.
  - lia.
  - repeat constructor; unfold INT_MAX; lia.
Defined.
